(** * Kernels of the benchmark harness: dense matrix multiply, Fourier
      transform, N-body step, K-means, convolution, quicksort, prime sieve,
      tokenizers and breadth-first search

    Shallow embedding of
    - [Experiments/runner/swig/dense_matrix/matmul_swig.cpp] and
      [Experiments/runner/cython/dense_matrix/matmul_cy.pyx]
      ([matmul_naive], [matmul_blocked], [matmul_transpose] and their [_cy]
      twins),
    - [fft_swig.cpp] and [fft_cy.pyx]
      ([dft_naive], [fft_cooley_tukey], [fft_iterative] and their [_cy] twins),
    - [nbody_swig.cpp] and [nbody_cy.pyx]
      ([initialize_bodies], [nbody_step_update] and their [_cy] twins),
    - [kmeans_swig.cpp] and [kmeans_cy.pyx]
      ([euclidean_distance], [initialize_data], [initialize_centroids],
      [kmeans_iteration] and [kmeans_iteration_cy]),
    - [Experiments/runner/swig/convex/conv_swig.cpp] and [conv_cy.pyx]
      ([convolution_1d], [convolution_2d] and their [_cy] twins),
    - [Experiments/runner/swig/quick_sort/quicksort_swig.cpp] and
      [Experiments/runner/cython/quick_sort/quicksort_cy.pyx]
      ([quicksort], [quicksort_inplace], [quicksort_cy]),
    - [sieve_cy.pyx] ([sieve_of_eratosthenes]),
    - [regex_swig.cpp]
      ([simple_tokenize], [fast_word_tokenize], [char_tokenize]),
    - [Experiments/runner/swig/bfs/bfs_swig.cpp] ([breadth_first_search]).

    The kernels compute on C [double]s.  The embedding is parametric in the
    scalar type: every function is written over a [Scalar] interface that
    only names the operations the source uses ([+], [-], [*], [/], [sqrt],
    int-to-double conversion and the literals).  Results proved over an
    arbitrary [Scalar] use no algebraic law at all, so they hold for IEEE
    binary64 with its rounding; they are run on the kernel's primitive
    binary64 floats ([Scalar float]).  Results that need the order or the
    field laws are proved on the instance [Scalar R] (exact real
    arithmetic); the sign of the divisor of the N-body step and the order of
    a sorted array are proved on binary64 itself, from the IEEE 754
    specification of its operations.

    Conventions.  An [int] is a [Z]: the sizes are those of vectors that fit
    in memory, for which no index computation of the kernels overflows; the
    two [int] computations that do leave the 32 bits for such sizes, the
    doubled pass size of the iterative transform and the squares and
    multiples of the sieve, are checked, and leaving the range is
    [Err Undefined].  A [std::vector] or C array is a list; reading or
    writing outside it is [Err Undefined].  A counted loop
    [for (i = lo; i < hi; i++)] is a recursion on its trip count; a loop
    whose progress depends on run-time values (a step [block_size], a
    [while]) and the recursion of the Cooley-Tukey transform run on an
    iteration budget [fuel], and running out of it is [Err OutOfFuel].
    Allocation is assumed to succeed.  Each arithmetic operation of the
    source is one operation of the interface: a compiler that fuses a
    multiplication with an addition, or keeps intermediate results in
    extended precision, is outside the model. *)

From Stdlib Require Import List ZArith Lia Bool Arith.
From Stdlib Require Import Floats Uint63.
From Stdlib Require Import Reals Lra.
From Stdlib Require Import Permutation Sorted Relations.
From Stdlib Require Znumtheory Ascii.
Import ListNotations.

(** ** Scalars *)

Class Scalar (F : Type) : Type := {
  lit_0   : F;                 (* 0.0 *)
  lit_1   : F;                 (* 1.0 *)
  lit_2   : F;                 (* 2.0 *)
  lit_0_1 : F;                 (* 0.1 *)
  add  : F -> F -> F;
  sub  : F -> F -> F;
  opp  : F -> F;
  mul  : F -> F -> F;
  div  : F -> F -> F;
  sqrt : F -> F;               (* std::sqrt *)
  of_int : Z -> F              (* static_cast<double>(int) *)
}.

Declare Scope scalar_scope.
Delimit Scope scalar_scope with sc.
Infix "[+]" := add (at level 50, left associativity) : scalar_scope.
Infix "[-]" := sub (at level 50, left associativity) : scalar_scope.
Infix "[*]" := mul (at level 40, left associativity) : scalar_scope.
Infix "[/]" := div (at level 40, left associativity) : scalar_scope.
Local Open Scope scalar_scope.

(** IEEE 754 binary64, as the kernel's primitive floats. *)
#[global] Instance Scalar_float : Scalar float := {
  lit_0   := 0%float;
  lit_1   := 1%float;
  lit_2   := 2%float;
  lit_0_1 := 0x1.999999999999ap-4%float;
  add  := PrimFloat.add;
  sub  := PrimFloat.sub;
  opp  := PrimFloat.opp;
  mul  := PrimFloat.mul;
  div  := PrimFloat.div;
  sqrt := PrimFloat.sqrt;
  of_int := fun z => if (z <? 0)%Z
                     then PrimFloat.opp (PrimFloat.of_uint63 (Uint63.of_Z (- z)))
                     else PrimFloat.of_uint63 (Uint63.of_Z z)
}.


(** Exact real arithmetic. *)
#[global] Instance Scalar_R : Scalar R := {
  lit_0   := 0%R;
  lit_1   := 1%R;
  lit_2   := 2%R;
  lit_0_1 := (1 / 10)%R;
  add  := Rplus;
  sub  := Rminus;
  opp  := Ropp;
  mul  := Rmult;
  div  := Rdiv;
  sqrt := R_sqrt.sqrt;
  of_int := IZR
}.

(** ** Outcomes of a call

    [Undefined] is an access outside a [std::vector] (undefined behaviour
    in C++), [OutOfFuel] a loop that did not finish within the iteration
    budget of the model, [ValueError] the Python exception and [LengthError]
    the C++ exception [std::length_error]. *)

Inductive error : Type := Undefined | OutOfFuel | ValueError | LengthError.

Inductive res (A : Type) : Type :=
| Ok  (a : A)
| Err (e : error).
Arguments Ok {A} a.
Arguments Err {A} e.

Definition bind {A B : Type} (c : res A) (k : A -> res B) : res B :=
  match c with
  | Ok a => k a
  | Err e => Err e
  end.

Notation "x <- c ;; k" := (bind c (fun x => k))
  (at level 100, c at next level, right associativity).

(** ** Loops *)

(** [for (int i = lo; i < hi; i++) body], the body threading a state. *)
Fixpoint for_count {S : Type} (cnt : nat) (i : Z) (body : Z -> S -> res S) (s : S)
  : res S :=
  match cnt with
  | O => Ok s
  | Datatypes.S c => s' <- body i s ;; for_count c (i + 1)%Z body s'
  end.

Definition for_range {S : Type} (lo hi : Z) (body : Z -> S -> res S) (s : S) : res S :=
  for_count (Z.to_nat (hi - lo)) lo body s.

(** [for (int i = lo; i < hi; i += step) body]: the step is a run-time value,
    so the loop is run on a budget of iterations. *)
Fixpoint for_step {S : Type} (fuel : nat) (i hi step : Z) (body : Z -> S -> res S) (s : S)
  : res S :=
  if (i <? hi)%Z then
    match fuel with
    | O => Err OutOfFuel
    | Datatypes.S f => s' <- body i s ;; for_step f (i + step)%Z hi step body s'
    end
  else Ok s.

(** The indices [lo], [lo + 1], ..., [hi - 1] a counted loop visits, in order. *)
Definition zrange (lo hi : Z) : list Z :=
  map (fun t => (lo + Z.of_nat t)%Z) (seq 0 (Z.to_nat (hi - lo))).

(** [lo <= x < hi] *)
Definition inb (lo hi x : Z) : bool := ((lo <=? x) && (x <? hi))%Z.

(** ** Vectors and their element access *)

(** [v[i]] on a [std::vector]. *)
Definition at_ {T : Type} (v : list T) (i : Z) : res T :=
  if (i <? 0)%Z then Err Undefined
  else match nth_error v (Z.to_nat i) with
       | Some x => Ok x
       | None => Err Undefined
       end.

Fixpoint update {T : Type} (v : list T) (i : nat) (x : T) : list T :=
  match v, i with
  | [], _ => []
  | _ :: t, O => x :: t
  | h :: t, Datatypes.S i' => h :: update t i' x
  end.

(** [v[i] = x]. *)
Definition set_at {T : Type} (v : list T) (i : Z) (x : T) : res (list T) :=
  if (i <? 0)%Z then Err Undefined
  else if (Z.to_nat i <? length v)%nat then Ok (update v (Z.to_nat i) x)
  else Err Undefined.

(** The vector of length [n] whose element [i] is [f i]. *)
Definition vec_of {T : Type} (n : nat) (f : Z -> T) : list T :=
  map (fun k => f (Z.of_nat k)) (seq 0 n).

(** ** Dense matrix multiplication ([matmul_swig.cpp])

    [Matrix2D] is a vector of rows.  In [matmul_blocked] the tile loops
    advance by [block_size], which the caller chooses: they run on the
    budget [fuel]. *)

Module Matmul.
Section Kernel.

Context {F : Type} `{Scalar F}.

Definition Vector1D := list F.
Definition Matrix2D := list Vector1D.

(** [M[i][j]] *)
Definition at2 (M : Matrix2D) (i j : Z) : res F :=
  row <- at_ M i ;; at_ row j.

(** [M[i][j] = x] *)
Definition set2 (M : Matrix2D) (i j : Z) (x : F) : res Matrix2D :=
  row <- at_ M i ;;
  row' <- set_at row j x ;;
  set_at M i row'.

Definition empty (M : Matrix2D) : bool :=
  match M with [] => true | _ => false end.

(** [Matrix2D C(n, Vector1D(n, 0.0))] *)
Definition zeros (n : Z) : Matrix2D :=
  repeat (repeat lit_0 (Z.to_nat n)) (Z.to_nat n).

Definition matmul_naive (A B : Matrix2D) : res Matrix2D :=
  if empty A || empty B then Ok []
  else
    let n := Z.of_nat (length A) in
    let C := zeros n in
    for_range 0 n (fun i C =>
      for_range 0 n (fun j C =>
        sum <- for_range 0 n (fun k sum =>
                 a <- at2 A i k ;;
                 b <- at2 B k j ;;
                 Ok (sum [+] a [*] b)) lit_0 ;;
        set2 C i j sum) C) C.

Definition matmul_blocked (fuel : nat) (A B : Matrix2D) (block_size : Z)
  : res Matrix2D :=
  if empty A || empty B then Ok []
  else
    let n := Z.of_nat (length A) in
    let C := zeros n in
    for_step fuel 0 n block_size (fun ii C =>
      for_step fuel 0 n block_size (fun jj C =>
        for_step fuel 0 n block_size (fun kk C =>
          let i_max := Z.min (ii + block_size) n in
          let j_max := Z.min (jj + block_size) n in
          let k_max := Z.min (kk + block_size) n in
          for_range ii i_max (fun i C =>
            for_range jj j_max (fun j C =>
              sum0 <- at2 C i j ;;
              sum <- for_range kk k_max (fun k sum =>
                       a <- at2 A i k ;;
                       b <- at2 B k j ;;
                       Ok (sum [+] a [*] b)) sum0 ;;
              set2 C i j sum) C) C) C) C) C.

Definition matmul_transpose (A B : Matrix2D) : res Matrix2D :=
  if empty A || empty B then Ok []
  else
    let n := Z.of_nat (length A) in
    let C := zeros n in
    let B_T := zeros n in
    B_T <- for_range 0 n (fun i B_T =>
             for_range 0 n (fun j B_T =>
               b <- at2 B i j ;;
               set2 B_T j i b) B_T) B_T ;;
    for_range 0 n (fun i C =>
      for_range 0 n (fun j C =>
        sum <- for_range 0 n (fun k sum =>
                 a <- at2 A i k ;;
                 b <- at2 B_T j k ;;
                 Ok (sum [+] a [*] b)) lit_0 ;;
        set2 C i j sum) C) C.

(** Shape and entries of a matrix, and the sum a cell accumulates. *)

Definition square (n : nat) (M : Matrix2D) : Prop :=
  length M = n /\ Forall (fun row => length row = n) M.

Definition entry (M : Matrix2D) (i j : Z) : F :=
  nth (Z.to_nat j) (nth (Z.to_nat i) M []) lit_0.

(** [sum] after [sum += A[i][k] * B[k][j]] for each [k] of [ks], in that order. *)
Definition accum (A B : Matrix2D) (i j : Z) (ks : list Z) (sum : F) : F :=
  fold_left (fun s k => s [+] entry A i k [*] entry B k j) ks sum.

(** The [n] by [n] matrix whose entry at row [i], column [j] is [f i j]. *)
Definition mat_of (n : nat) (f : Z -> Z -> F) : Matrix2D :=
  map (fun i => map (fun j => f (Z.of_nat i) (Z.of_nat j)) (seq 0 n)) (seq 0 n).

(** [f] with the value at [(i, j)] replaced by [x]. *)
Definition upd (f : Z -> Z -> F) (i j : Z) (x : F) : Z -> Z -> F :=
  fun i' j' => if ((i' =? i) && (j' =? j))%Z then x else f i' j'.

(** The [n] by [n] identity matrix. *)
Definition identity (n : nat) : Matrix2D :=
  mat_of n (fun i j => if (i =? j)%Z then lit_1 else lit_0).

(** The product as the source accumulates it: cell [(i, j)] is
    [((0.0 + A[i][0]*B[0][j]) + A[i][1]*B[1][j]) + ...], [k] increasing. *)
Definition product (n : nat) (A B : Matrix2D) : Matrix2D :=
  mat_of n (fun i j => accum A B i j (zrange 0 (Z.of_nat n)) lit_0).

End Kernel.
End Matmul.

(** ** Fourier transforms ([fft_swig.cpp], [fft_cy.pyx]) *)

(** [while (cond) body], on a budget of iterations. *)
Fixpoint while_ {S : Type} (fuel : nat) (cond : S -> bool) (body : S -> res S) (s : S)
  : res S :=
  if cond s then
    match fuel with
    | O => Err OutOfFuel
    | Datatypes.S f => s' <- body s ;; while_ f cond body s'
    end
  else Ok s.

(** Python's [x[0::2]] and [x[1::2]]. *)
Fixpoint slice_even {T : Type} (l : list T) : list T :=
  match l with
  | [] => []
  | a :: t => a :: match t with [] => [] | _ :: t' => slice_even t' end
  end.

Definition slice_odd {T : Type} (l : list T) : list T :=
  match l with [] => [] | _ :: t => slice_even t end.

(** A length the fast transforms accept. *)
Definition power_of_two (n : nat) : Prop := exists k : nat, n = (2 ^ k)%nat.

Module FFT.
Section Kernel.

Context {F : Type} `{Scalar F}.

(** [std::complex<double>] and Cython's [double complex]. *)
Record Complex : Type := cplx { re : F; im : F }.

Definition ComplexVector := list Complex.

(** [<cmath>]'s [cos], [sin] and [M_PI], and the product of two complex
    numbers as the C++ and C run-time libraries compute it. *)
Variables (cos sin : F -> F) (M_PI : F).
Variable cmul : Complex -> Complex -> Complex.

Definition cadd (a b : Complex) : Complex := cplx (re a [+] re b) (im a [+] im b).
Definition csub (a b : Complex) : Complex := cplx (re a [-] re b) (im a [-] im b).

(** [N & (N - 1)] is non-zero. *)
Definition not_pow2 (N : Z) : bool := negb (Z.land N (N - 1) =? 0)%Z.

Definition dft_naive (x : ComplexVector) : res ComplexVector :=
  let N := Z.of_nat (length x) in
  let X := repeat (cplx lit_0 lit_0) (Z.to_nat N) in
  for_range 0 N (fun k X =>
    s <- for_range 0 N (fun n s =>
           let angle := opp lit_2 [*] M_PI [*] of_int k [*] of_int n [/] of_int N in
           let w := cplx (cos angle) (sin angle) in
           xn <- at_ x n ;;
           Ok (cadd s (cmul xn w))) (cplx lit_0 lit_0) ;;
    set_at X k s) X.

(** The budget bounds the depth of the recursion; the loop that splits [x]
    advances by the constant 2 and gets [length x] iterations. *)
Fixpoint fft_cooley_tukey (fuel : nat) (x : ComplexVector) : res ComplexVector :=
  match fuel with
  | O => Err OutOfFuel
  | Datatypes.S fuel' =>
    let N := Z.of_nat (length x) in
    if (N <=? 1)%Z then Ok x
    else if not_pow2 N then dft_naive x
    else
      eo <- for_step (length x) 0 N 2 (fun i eo =>
              xi <- at_ x i ;;
              xi1 <- at_ x (i + 1) ;;
              Ok (fst eo ++ [xi], snd eo ++ [xi1])) ([], []) ;;
      let even := fst eo in
      let odd := snd eo in
      even_fft <- fft_cooley_tukey fuel' even ;;
      odd_fft <- fft_cooley_tukey fuel' odd ;;
      let X := repeat (cplx lit_0 lit_0) (Z.to_nat N) in
      for_range 0 (Z.quot N 2) (fun k X =>
        let angle := opp lit_2 [*] M_PI [*] of_int k [/] of_int N in
        let w := cplx (cos angle) (sin angle) in
        ok <- at_ odd_fft k ;;
        let t := cmul w ok in
        ek <- at_ even_fft k ;;
        X <- set_at X k (cadd ek t) ;;
        set_at X (k + Z.quot N 2) (csub ek t)) X
  end.

(** [std::swap(X[i], X[j])] *)
Definition swap (X : ComplexVector) (i j : Z) : res ComplexVector :=
  xi <- at_ X i ;;
  xj <- at_ X j ;;
  X <- set_at X i xj ;;
  set_at X j xi.

(** The bit-reversal permutation and the butterfly passes, shared by the
    C++ and the Cython function. *)
Definition bit_reversal (fuel : nat) (N : Z) (X : ComplexVector) : res ComplexVector :=
  Xj <- for_range 0 (N - 1) (fun i Xj =>
          let j := snd Xj in
          X <- (if (i <? j)%Z then swap (fst Xj) i j else Ok (fst Xj)) ;;
          jk <- while_ fuel (fun jk => (snd jk <=? fst jk)%Z)
                  (fun jk => Ok ((fst jk - snd jk)%Z, Z.shiftr (snd jk) 1))
                  (j, Z.shiftr N 1) ;;
          Ok (X, (fst jk + snd jk)%Z)) (X, 0%Z) ;;
  Ok (fst Xj).

(** [size <<= 1] on the 32-bit [int] [size]: a result that does not fit an
    [int] is outside what the language defines for the shift. *)
Definition INT_MAX : Z := 2147483647%Z.

Definition shl_int (a n : Z) : res Z :=
  let r := Z.shiftl a n in
  if (r <=? INT_MAX)%Z then Ok r else Err Undefined.

Definition butterflies (twiddle : F -> Complex) (fuel : nat) (N : Z) (X : ComplexVector)
  : res ComplexVector :=
  Xs <- while_ fuel (fun Xs => (snd Xs <=? N)%Z)
          (fun Xs =>
             let size := snd Xs in
             let half := Z.shiftr size 1 in
             let angle := opp lit_2 [*] M_PI [/] of_int size in
             let wm := twiddle angle in
             X <- for_step fuel 0 N size (fun i X =>
                    Xw <- for_range 0 half (fun j Xw =>
                            let X := fst Xw in
                            let w := snd Xw in
                            let idx := (i + j)%Z in
                            xh <- at_ X (idx + half) ;;
                            let t := cmul w xh in
                            xl <- at_ X idx ;;
                            X <- set_at X (idx + half) (csub xl t) ;;
                            xl <- at_ X idx ;;
                            X <- set_at X idx (cadd xl t) ;;
                            Ok (X, cmul w wm)) (X, cplx lit_1 lit_0) ;;
                    Ok (fst Xw)) (fst Xs) ;;
             size <- shl_int size 1 ;;
             Ok (X, size))
          (X, 2%Z) ;;
  Ok (fst Xs).

Definition fft_iterative (fuel : nat) (x : ComplexVector) : res ComplexVector :=
  let N := Z.of_nat (length x) in
  if not_pow2 N then dft_naive x
  else
    X <- bit_reversal fuel N x ;;
    butterflies (fun angle => cplx (cos angle) (sin angle)) fuel N X.

(** *** The Cython twins *)

(** [cos(angle) + 1j * sin(angle)] *)
Definition cis_cy (angle : F) : Complex :=
  cadd (cplx (cos angle) lit_0) (cmul (cplx lit_0 lit_1) (cplx (sin angle) lit_0)).

Definition dft_naive_cy (x : ComplexVector) : res ComplexVector :=
  let N := Z.of_nat (length x) in
  let X := repeat (cplx lit_0 lit_0) (Z.to_nat N) in
  let two_pi := lit_2 [*] M_PI in
  for_range 0 N (fun k X =>
    s <- for_range 0 N (fun n s =>
           let angle := opp two_pi [*] of_int k [*] of_int n [/] of_int N in
           let real_part := cos angle in
           let imag_part := sin angle in
           xn <- at_ x n ;;
           let x_real := re xn in
           let x_imag := im xn in
           Ok (cadd s (cadd (cplx (x_real [*] real_part [-] x_imag [*] imag_part) lit_0)
                            (cmul (cplx lit_0 lit_1)
                                  (cplx (x_real [*] imag_part [+] x_imag [*] real_part)
                                        lit_0)))))
         (cplx lit_0 lit_0) ;;
    set_at X k s) X.

Fixpoint fft_cooley_tukey_cy (fuel : nat) (x : ComplexVector) : res ComplexVector :=
  match fuel with
  | O => Err OutOfFuel
  | Datatypes.S fuel' =>
    let N := Z.of_nat (length x) in
    if (N <=? 1)%Z then Ok x
    else if not_pow2 N then Err ValueError
    else
      even <- fft_cooley_tukey_cy fuel' (slice_even x) ;;
      odd <- fft_cooley_tukey_cy fuel' (slice_odd x) ;;
      let T := repeat (cplx lit_0 lit_0) (Z.to_nat (N / 2)) in
      T <- for_range 0 (N / 2) (fun k T =>
             let angle := opp lit_2 [*] M_PI [*] of_int k [/] of_int N in
             let w := cis_cy angle in
             ok <- at_ odd k ;;
             set_at T k (cmul w ok)) T ;;
      let X := repeat (cplx lit_0 lit_0) (Z.to_nat N) in
      for_range 0 (N / 2) (fun k X =>
        ek <- at_ even k ;;
        tk <- at_ T k ;;
        X <- set_at X k (cadd ek tk) ;;
        set_at X (k + N / 2) (csub ek tk)) X
  end.

Definition fft_iterative_cy (fuel : nat) (x : ComplexVector) : res ComplexVector :=
  let N := Z.of_nat (length x) in
  if not_pow2 N then Err ValueError
  else
    X <- bit_reversal fuel N x ;;
    butterflies cis_cy fuel N X.

End Kernel.
End FFT.

(** ** N-body step ([nbody_swig.h], [nbody_swig.cpp], [nbody_cy.pyx]) *)

Module NBody.
Section Kernel.

Context {F : Type} `{Scalar F}.

Record Body : Type := mkBody { x : F; y : F; vx : F; vy : F; m : F }.

Definition BodiesVector := list Body.

Definition with_x (b : Body) (v : F) : Body := mkBody v (y b) (vx b) (vy b) (m b).
Definition with_y (b : Body) (v : F) : Body := mkBody (x b) v (vx b) (vy b) (m b).
Definition with_vx (b : Body) (v : F) : Body := mkBody (x b) (y b) v (vy b) (m b).
Definition with_vy (b : Body) (v : F) : Body := mkBody (x b) (y b) (vx b) v (m b).

(** *** Random bodies *)

(** [std::rand()] draws from the process-wide generator.  The generator is
    modelled by the sequence of values it is going to return, the one in
    effect after the [srand] of the first call. *)
Definition rand_source := nat -> Z.

Definition rand (g : rand_source) : Z * rand_source := (g O, fun k => g (Datatypes.S k)).

(** [RAND_MAX] of [<cstdlib>]. *)
Variable RAND_MAX : Z.

(** [static_cast<double>(std::rand()) / RAND_MAX] *)
Definition unit_of (r : Z) : F := of_int r [/] of_int RAND_MAX.

Fixpoint initialize_loop (cnt : nat) (box_size max_mass : F) (bodies : BodiesVector)
         (g : rand_source) : BodiesVector * rand_source :=
  match cnt with
  | O => (bodies, g)
  | Datatypes.S c =>
    let (r1, g) := rand g in
    let body_x := unit_of r1 [*] box_size in
    let (r2, g) := rand g in
    let body_y := unit_of r2 [*] box_size in
    let (r3, g) := rand g in
    let body_vx := unit_of r3 [*] lit_2 [-] lit_1 in
    let (r4, g) := rand g in
    let body_vy := unit_of r4 [*] lit_2 [-] lit_1 in
    let (r5, g) := rand g in
    let body_m := unit_of r5 [*] (max_mass [-] lit_0_1) [+] lit_0_1 in
    initialize_loop c box_size max_mass
                    (bodies ++ [mkBody body_x body_y body_vx body_vy body_m]) g
  end.

(** A negative [N] makes [bodies.reserve(N)] throw [std::length_error]. *)
Definition initialize_bodies (N : Z) (box_size max_mass : F) (g : rand_source)
  : res (BodiesVector * rand_source) :=
  if (N <? 0)%Z then Err LengthError
  else Ok (initialize_loop (Z.to_nat N) box_size max_mass [] g).

(** Python's [random.uniform(a, b)] is [a + (b - a) * random()], where
    [random()] is a float in [0.0, 1.0); the generator is modelled by the
    sequence of the values [random()] is going to return. *)
Definition uniform_source := nat -> F.

Definition uniform (a b : F) (g : uniform_source) : F * uniform_source :=
  (a [+] (b [-] a) [*] g O, fun k => g (Datatypes.S k)).

Fixpoint initialize_loop_cy (cnt : nat) (box_size max_mass : F) (bodies : BodiesVector)
         (g : uniform_source) : BodiesVector * uniform_source :=
  match cnt with
  | O => (bodies, g)
  | Datatypes.S c =>
    let (body_x, g) := uniform (of_int 0) box_size g in
    let (body_y, g) := uniform (of_int 0) box_size g in
    let (body_vx, g) := uniform (of_int (-1)) (of_int 1) g in
    let (body_vy, g) := uniform (of_int (-1)) (of_int 1) g in
    let (body_m, g) := uniform lit_0_1 max_mass g in
    initialize_loop_cy c box_size max_mass
                       (bodies ++ [mkBody body_x body_y body_vx body_vy body_m]) g
  end.

Definition initialize_bodies_cy (N : Z) (box_size max_mass : F) (g : uniform_source)
  : BodiesVector * uniform_source :=
  initialize_loop_cy (Z.to_nat N) box_size max_mass [] g.

(** *** One step *)

(** [sqrt(dx*dx + dy*dy + softening)] for the pair [(body_i, body_j)]. *)
Definition dist_soft (body_i body_j : Body) (softening : F) : F :=
  let dx := x body_j [-] x body_i in
  let dy := y body_j [-] y body_i in
  let dist_sq := dx [*] dx [+] dy [*] dy in
  sqrt (dist_sq [+] softening).

(** The divisor of the one division of the loop,
    [dist_soft * dist_soft * dist_soft]. *)
Definition divisor (body_i body_j : Body) (softening : F) : F :=
  let d := dist_soft body_i body_j softening in
  d [*] d [*] d.

Definition force_factor (body_i body_j : Body) (G softening : F) : F :=
  let inv_dist_cube := lit_1 [/] divisor body_i body_j softening in
  G [*] m body_j [*] inv_dist_cube.

(** The velocity and position update of one body under acceleration
    [(a_x, a_y)]. *)
Definition advance (b : Body) (a_x a_y dt : F) : Body :=
  let b := with_vx b (vx b [+] a_x [*] dt) in
  let b := with_vy b (vy b [+] a_y [*] dt) in
  let b := with_x b (x b [+] vx b [*] dt) in
  with_y b (y b [+] vy b [*] dt).

(** The vectors [nbody_step_update] works on: the caller's [bodies], which
    it holds by reference, and its own [updated_bodies], [ax] and [ay]. *)
Record frame : Type := mkFrame {
  bodies : BodiesVector;
  updated_bodies : BodiesVector;
  ax : list F;
  ay : list F
}.

Definition nbody_step_run (bodies0 : BodiesVector) (dt G softening : F) : res frame :=
  let N := Z.of_nat (length bodies0) in
  let st := mkFrame bodies0 bodies0
                    (repeat lit_0 (Z.to_nat N)) (repeat lit_0 (Z.to_nat N)) in
  st <- for_range 0 N (fun i st =>
          body_i <- at_ (bodies st) i ;;
          for_range 0 N (fun j st =>
            if (i =? j)%Z then Ok st
            else
              body_j <- at_ (bodies st) j ;;
              let dx := x body_j [-] x body_i in
              let dy := y body_j [-] y body_i in
              let force_factor := force_factor body_i body_j G softening in
              ax_i <- at_ (ax st) i ;;
              ax' <- set_at (ax st) i (ax_i [+] dx [*] force_factor) ;;
              ay_i <- at_ (ay st) i ;;
              ay' <- set_at (ay st) i (ay_i [+] dy [*] force_factor) ;;
              Ok (mkFrame (bodies st) (updated_bodies st) ax' ay')) st) st ;;
  for_range 0 N (fun i st =>
    b <- at_ (updated_bodies st) i ;;
    ax_i <- at_ (ax st) i ;;
    ay_i <- at_ (ay st) i ;;
    ub' <- set_at (updated_bodies st) i (advance b ax_i ay_i dt) ;;
    Ok (mkFrame (bodies st) ub' (ax st) (ay st))) st.

Definition nbody_step_update (bodies0 : BodiesVector) (dt G softening : F)
  : res BodiesVector :=
  st <- nbody_step_run bodies0 dt G softening ;;
  Ok (updated_bodies st).

(** The net acceleration of body [i] as the loops accumulate it: starting
    from [0.0], the contribution of each [j <> i] for [j = 0, 1, ...], read
    off the bodies [bs]; and the bodies after the update. *)

Definition body_at (bs : BodiesVector) (i : Z) : Body :=
  nth (Z.to_nat i) bs (mkBody lit_0 lit_0 lit_0 lit_0 lit_0).

Definition add_pull_x (bs : BodiesVector) (G softening : F) (i : Z) (a : F) (j : Z) : F :=
  if (i =? j)%Z then a
  else a [+] (x (body_at bs j) [-] x (body_at bs i))
           [*] force_factor (body_at bs i) (body_at bs j) G softening.

Definition add_pull_y (bs : BodiesVector) (G softening : F) (i : Z) (a : F) (j : Z) : F :=
  if (i =? j)%Z then a
  else a [+] (y (body_at bs j) [-] y (body_at bs i))
           [*] force_factor (body_at bs i) (body_at bs j) G softening.

Definition accel_x (bs : BodiesVector) (G softening : F) (i : Z) : F :=
  fold_left (add_pull_x bs G softening i) (zrange 0 (Z.of_nat (length bs))) lit_0.

Definition accel_y (bs : BodiesVector) (G softening : F) (i : Z) : F :=
  fold_left (add_pull_y bs G softening i) (zrange 0 (Z.of_nat (length bs))) lit_0.

Definition stepped (bs : BodiesVector) (dt G softening : F) : BodiesVector :=
  vec_of (length bs)
         (fun i => advance (body_at bs i) (accel_x bs G softening i)
                           (accel_y bs G softening i) dt).

(** *** The Cython twin

    The argument is a Python list of dictionaries.  A dictionary is an
    object of the heap, addressed by its position; the list holds
    references.  [body_array], [accel_x] and [accel_y] are the [malloc]ed
    arrays; every slot is written before it is read, so their initial
    content does not matter. *)

Definition heap := list Body.
Definition ref := Z.

(** [bodies[i]['x'] = v] and its siblings: an update of the referenced object. *)
Definition store (h : heap) (r : ref) (upd : Body -> Body) : res heap :=
  b <- at_ h r ;; set_at h r (upd b).

Definition nbody_step_update_cy (h : heap) (bodies0 : list ref) (dt G softening : F)
  : res (heap * list ref) :=
  let N := Z.of_nat (length bodies0) in
  let body_array := repeat (mkBody lit_0 lit_0 lit_0 lit_0 lit_0) (Z.to_nat N) in
  let accel_x := repeat lit_0 (Z.to_nat N) in
  let accel_y := repeat lit_0 (Z.to_nat N) in
  body_array <- for_range 0 N (fun i body_array =>
                  r <- at_ bodies0 i ;;
                  body <- at_ h r ;;
                  set_at body_array i
                         (mkBody (x body) (y body) (vx body) (vy body) (m body)))
                body_array ;;
  acc <- for_range 0 N (fun i acc =>
           body_i <- at_ body_array i ;;
           a <- for_range 0 N (fun j a =>
                  if (i =? j)%Z then Ok a
                  else
                    body_j <- at_ body_array j ;;
                    let dx := x body_j [-] x body_i in
                    let dy := y body_j [-] y body_i in
                    let force_factor := force_factor body_i body_j G softening in
                    Ok (fst a [+] dx [*] force_factor, snd a [+] dy [*] force_factor))
                (lit_0, lit_0) ;;
           accel_x <- set_at (fst acc) i (fst a) ;;
           accel_y <- set_at (snd acc) i (snd a) ;;
           Ok (accel_x, accel_y)) (accel_x, accel_y) ;;
  body_array <- for_range 0 N (fun i body_array =>
                  b <- at_ body_array i ;;
                  ax_i <- at_ (fst acc) i ;;
                  ay_i <- at_ (snd acc) i ;;
                  set_at body_array i (advance b ax_i ay_i dt)) body_array ;;
  h <- for_range 0 N (fun i h =>
         b <- at_ body_array i ;;
         r <- at_ bodies0 i ;;
         h <- store h r (fun o => with_x o (x b)) ;;
         r <- at_ bodies0 i ;;
         h <- store h r (fun o => with_y o (y b)) ;;
         r <- at_ bodies0 i ;;
         h <- store h r (fun o => with_vx o (vx b)) ;;
         r <- at_ bodies0 i ;;
         store h r (fun o => with_vy o (vy b))) h ;;
  Ok (h, bodies0).

(** The bodies a list of references denotes, and the object left by the
    four stores that copy [b] back over [o]. *)

Definition ref_at (refs : list ref) (i : Z) : ref := nth (Z.to_nat i) refs 0%Z.

Definition deref (h : heap) (refs : list ref) : BodiesVector :=
  map (fun r => body_at h r) refs.

Definition sync (o b : Body) : Body := mkBody (x b) (y b) (vx b) (vy b) (m o).

Definition valid_refs (h : heap) (refs : list ref) : Prop :=
  Forall (fun r => (0 <= r < Z.of_nat (length h))%Z) refs.

(** What the copy-back loop leaves in the heap: the heap keeps its size,
    every object keeps its mass, an object no reference names is untouched,
    and the object named by reference [k] holds the body of slot [k], unless
    a later reference names the same object. *)
Definition copied_back (h : heap) (refs : list ref) (arr : BodiesVector)
           (i : Z) (h' : heap) : Prop :=
  length h' = length h /\
  (forall a, (0 <= a)%Z -> m (body_at h' a) = m (body_at h a)) /\
  (forall a, (0 <= a)%Z -> (forall k, (0 <= k < i)%Z -> ref_at refs k <> a) ->
             body_at h' a = body_at h a) /\
  (forall k, (0 <= k < i)%Z ->
             (forall k', (k < k' < i)%Z -> ref_at refs k' <> ref_at refs k) ->
             body_at h' (ref_at refs k) = sync (body_at h (ref_at refs k)) (body_at arr k)).

End Kernel.

(** The ranges of a generated body, over the reals: all intervals closed,
    and with the upper ends of position and velocity excluded. *)



End NBody.

(** ** Magnitudes of binary64 numbers

    [at_least k f]: [f] is [+infinity] or a positive number with
    [2 ^ (k - 1) <= f]; the magnitude of a positive number [m * 2 ^ e] is the
    number of bits of [m] plus [e]. *)

Module Binary64.

Definition at_least (k : Z) (f : spec_float) : Prop :=
  match f with
  | S754_infinity false => True
  | S754_finite false m e => (k <= Z.pos (digits2_pos m) + e)%Z
  | _ => False
  end.

(** A zero, an infinity or a number of the sign [s]. *)
Definition of_sign (s : bool) (f : spec_float) : Prop :=
  match f with
  | S754_zero s' | S754_infinity s' | S754_finite s' _ _ => s' = s
  | S754_nan => False
  end.

End Binary64.

(** ** Sample data *)

Module Samples.

Local Open Scope float_scope.

Definition I2 : Matmul.Matrix2D (F := float) := [[1; 0]; [0; 1]].

Definition A3 : Matmul.Matrix2D (F := float) :=
  [[1; 2; 3]; [4; 5; 6]; [7; 8; 9]].

Definition B3 : Matmul.Matrix2D (F := float) :=
  [[1; 0.5; 3]; [4; 0.25; 6]; [7; 8; 0.125]].

(** A body on binary64, and the default arguments of the step,
    [6.674e-11] and [1e-9]. *)
Definition b1 : NBody.Body (F := float) := NBody.mkBody 1 2 0.5 (-0.25) 3.
Definition G_default : float := 0x1.25868f4deae16p-34.
Definition softening_default : float := 0x1.12e0be826d695p-30.

(** A unit mass at rest at the origin, over the reals. *)
Definition origin : NBody.Body (F := R) := NBody.mkBody 0%R 0%R 0%R 0%R 1%R.

(** The product of two complex numbers by the textbook formula, and the
    impulse of length 3, over the reals. *)
Definition cmul_R (a b : FFT.Complex (F := R)) : FFT.Complex :=
  FFT.cplx (FFT.re a * FFT.re b - FFT.im a * FFT.im b)%R
           (FFT.re a * FFT.im b + FFT.im a * FFT.re b)%R.

Definition x3 : FFT.ComplexVector (F := R) :=
  [FFT.cplx 1%R 0%R; FFT.cplx 0%R 0%R; FFT.cplx 0%R 0%R].

End Samples.

(** ** Python loops *)

(** The values [start], [start + step], ... of a [range] with [cnt] elements. *)
Fixpoint range_from (cnt : nat) (start step : Z) : list Z :=
  match cnt with
  | O => []
  | Datatypes.S c => start :: range_from c (start + step)%Z step
  end.

(** Python's [range(lo, hi, step)]: a zero step raises [ValueError]; the
    length is [1 + (hi - 1 - lo) // step] for a positive step and [lo < hi],
    [1 + (lo - 1 - hi) // (- step)] for a negative step and [hi < lo], and
    zero otherwise. *)
Definition py_range (lo hi step : Z) : res (list Z) :=
  if (step =? 0)%Z then Err ValueError
  else if ((0 <? step) && (lo <? hi))%Z
       then Ok (range_from (Z.to_nat (1 + (hi - 1 - lo) / step)) lo step)
  else if ((step <? 0) && (hi <? lo))%Z
       then Ok (range_from (Z.to_nat (1 + (lo - 1 - hi) / (- step))) lo step)
  else Ok [].

(** [for i in l: body] *)
Fixpoint for_in {S : Type} (l : list Z) (body : Z -> S -> res S) (s : S) : res S :=
  match l with
  | [] => Ok s
  | i :: l' => s' <- body i s ;; for_in l' body s'
  end.

(** ** Dense matrix multiplication, Cython ([matmul_cy.pyx])

    The arguments are typed memoryviews [double[:, :]], modelled like
    [Matrix2D] by their rows; [n] is [A.shape[0]].  Bounds checking is
    switched off, so an index outside a dimension is [Err Undefined].  The
    tile loops of [matmul_blocked_cy] iterate over [range(0, n, block_size)]
    with a step only known at run time. *)

Module MatmulCy.
Section Kernel.

Context {F : Type} `{Scalar F}.
Import Matmul.

Definition matmul_naive_cy (A B : Matrix2D) : res Matrix2D :=
  let n := Z.of_nat (length A) in
  let C := zeros n in
  for_range 0 n (fun i C =>
    for_range 0 n (fun j C =>
      s <- for_range 0 n (fun k s =>
             a <- at2 A i k ;;
             b <- at2 B k j ;;
             Ok (s [+] a [*] b)) lit_0 ;;
      set2 C i j s) C) C.

Definition matmul_blocked_cy (A B : Matrix2D) (block_size : Z) : res Matrix2D :=
  let n := Z.of_nat (length A) in
  let C := zeros n in
  iis <- py_range 0 n block_size ;;
  for_in iis (fun ii C =>
    jjs <- py_range 0 n block_size ;;
    for_in jjs (fun jj C =>
      kks <- py_range 0 n block_size ;;
      for_in kks (fun kk C =>
        let i_max := Z.min (ii + block_size) n in
        let j_max := Z.min (jj + block_size) n in
        let k_max := Z.min (kk + block_size) n in
        for_range ii i_max (fun i C =>
          for_range jj j_max (fun j C =>
            s0 <- at2 C i j ;;
            s <- for_range kk k_max (fun k s =>
                   a <- at2 A i k ;;
                   b <- at2 B k j ;;
                   Ok (s [+] a [*] b)) s0 ;;
            set2 C i j s) C) C) C) C) C.

(** [np.ascontiguousarray(B.T)]: a fresh array whose entry [(j, k)] is
    [B[k, j]]. *)
Definition transposed (B : Matrix2D) : Matrix2D :=
  match B with
  | [] => []
  | row0 :: _ =>
    map (fun j => map (fun row => nth j row lit_0) B) (seq 0 (length row0))
  end.

Definition matmul_transpose_cy (A B : Matrix2D) : res Matrix2D :=
  let n := Z.of_nat (length A) in
  let C := zeros n in
  let B_T := transposed B in
  for_range 0 n (fun i C =>
    for_range 0 n (fun j C =>
      s <- for_range 0 n (fun k s =>
             a <- at2 A i k ;;
             b <- at2 B_T j k ;;
             Ok (s [+] a [*] b)) lit_0 ;;
      set2 C i j s) C) C.

End Kernel.
End MatmulCy.

(** ** Comparisons of doubles

    The kernels below compare doubles; [dbl_max] is [DBL_MAX], the largest
    finite double.  On binary64 a comparison with a NaN is false. *)

Class Ordered (F : Type) : Type := {
  lt_dbl : F -> F -> bool;     (* a < b *)
  le_dbl : F -> F -> bool;     (* a <= b *)
  dbl_max : F                  (* DBL_MAX, std::numeric_limits<double>::max() *)
}.

Infix "[<]" := lt_dbl (at level 70, no associativity) : scalar_scope.
Infix "[<=]" := le_dbl (at level 70, no associativity) : scalar_scope.

#[global] Instance Ordered_float : Ordered float := {
  lt_dbl := PrimFloat.ltb;
  le_dbl := PrimFloat.leb;
  dbl_max := 0x1.fffffffffffffp+1023%float
}.


(** [for (int i = hi; i > lo; i--) body] *)
Fixpoint for_down_count {S : Type} (cnt : nat) (i : Z) (body : Z -> S -> res S) (s : S)
  : res S :=
  match cnt with
  | O => Ok s
  | Datatypes.S c => s' <- body i s ;; for_down_count c (i - 1)%Z body s'
  end.

Definition for_down {S : Type} (hi lo : Z) (body : Z -> S -> res S) (s : S) : res S :=
  for_down_count (Z.to_nat (hi - lo)) hi body s.

(** ** K-means ([kmeans_swig.cpp], [kmeans_cy.pyx]) *)

Module KMeans.
Section Kernel.

Context {F : Type} `{Scalar F} `{Ordered F}.

Definition Point := list F.
Definition DataSet := list Point.

(** The loop runs over the coordinates of [p1]. *)
Definition euclidean_distance (p1 p2 : Point) : res F :=
  let D := Z.of_nat (length p1) in
  distance_sq <- for_range 0 D (fun i distance_sq =>
                   a <- at_ p1 i ;;
                   b <- at_ p2 i ;;
                   let diff := a [-] b in
                   Ok (distance_sq [+] diff [*] diff)) lit_0 ;;
  Ok (sqrt distance_sq).

(** *** Random data and centroids *)

Section Random.

Variable RAND_MAX : Z.

(** A negative [N] makes [data.reserve(N)] throw [std::length_error], a
    negative [D] [point.reserve(D)] once a point is built. *)
Definition initialize_data (N D : Z) (max_val : F) (g : NBody.rand_source)
  : res (DataSet * NBody.rand_source) :=
  if (N <? 0)%Z then Err LengthError
  else
    for_range 0 N (fun i dg =>
      if (D <? 0)%Z then Err LengthError
      else
        pg <- for_range 0 D (fun d pg =>
                let (r, g) := NBody.rand (snd pg) in
                let val := NBody.unit_of RAND_MAX r [*] max_val in
                Ok (fst pg ++ [val], g)) ([], snd dg) ;;
        Ok (fst dg ++ [fst pg], snd pg)) ([], g).

(** [std::swap(indices[i], indices[j])] *)
Definition swap_int (v : list Z) (i j : Z) : res (list Z) :=
  a <- at_ v i ;;
  b <- at_ v j ;;
  v <- set_at v i b ;;
  set_at v j a.

(** The shuffle draws [rand() % (i + 1)] for [i] from [size - 1] down to 1;
    [%] is the remainder of the division that truncates. *)
Definition initialize_centroids (data : DataSet) (K : Z) (g : NBody.rand_source)
  : res (DataSet * NBody.rand_source) :=
  let size := Z.of_nat (length data) in
  if (size =? 0)%Z || (K <=? 0)%Z || (size <? K)%Z then Ok ([], g)
  else
    indices <- for_range 0 size (fun i indices => Ok (indices ++ [i])) [] ;;
    ig <- for_down (size - 1) 0 (fun i ig =>
            let (r, g) := NBody.rand (snd ig) in
            let j := Z.rem r (i + 1) in
            indices <- swap_int (fst ig) i j ;;
            Ok (indices, g)) (indices, g) ;;
    centroids <- for_range 0 K (fun k centroids =>
                   idx <- at_ (fst ig) k ;;
                   p <- at_ data idx ;;
                   Ok (centroids ++ [p])) [] ;;
    Ok (centroids, snd ig).

End Random.

(** *** One iteration *)

(** The vectors of the assignment step. *)
Record work : Type := mkWork {
  assignments : list Z;
  cluster_counts : list Z;
  cluster_sums : DataSet
}.

Definition kmeans_iteration (data centroids : DataSet) : res DataSet :=
  let N := Z.of_nat (length data) in
  let K := Z.of_nat (length centroids) in
  if (N =? 0)%Z || (K =? 0)%Z then Ok centroids
  else
    data_0 <- at_ data 0 ;;
    let D := Z.of_nat (length data_0) in
    let w := mkWork (repeat 0%Z (Z.to_nat N)) (repeat 0%Z (Z.to_nat K))
                    (repeat (repeat lit_0 (Z.to_nat D)) (Z.to_nat K)) in
    w <- for_range 0 N (fun i w =>
           mk <- for_range 0 K (fun k mk =>
                   dist <- (data_i <- at_ data i ;;
                            centroids_k <- at_ centroids k ;;
                            euclidean_distance data_i centroids_k) ;;
                   if dist [<] fst mk then Ok (dist, k) else Ok mk)
                 (dbl_max, 0%Z) ;;
           let closest_k := snd mk in
           assignments' <- set_at (assignments w) i closest_k ;;
           c <- at_ (cluster_counts w) closest_k ;;
           cluster_counts' <- set_at (cluster_counts w) closest_k (c + 1)%Z ;;
           cluster_sums' <- for_range 0 D (fun d sums =>
                              s <- Matmul.at2 sums closest_k d ;;
                              x <- Matmul.at2 data i d ;;
                              Matmul.set2 sums closest_k d (s [+] x)) (cluster_sums w) ;;
           Ok (mkWork assignments' cluster_counts' cluster_sums')) w ;;
    for_range 0 K (fun k new_centroids =>
      c <- at_ (cluster_counts w) k ;;
      if (c =? 0)%Z then
        centroids_k <- at_ centroids k ;;
        Ok (new_centroids ++ [centroids_k])
      else
        new_centroid <- for_range 0 D (fun d new_centroid =>
                          s <- Matmul.at2 (cluster_sums w) k d ;;
                          Ok (new_centroid ++ [s [/] of_int c])) [] ;;
        Ok (new_centroids ++ [new_centroid])) [].

(** *** The Cython twin

    [data] and [centroids] are lists of tuples; they are first copied,
    [D] coordinates each, into C arrays.  Indexing a tuple is unchecked.
    The arrays come from [malloc]: their first content is arbitrary, slot
    [d] of row [i] holding [fresh i d] (and [fresh_int i] in an array of
    [int]s). *)

Variable fresh : Z -> Z -> F.
Variable fresh_int : Z -> Z.

Definition euclidean_distance_cy (p1 p2 : Point) (D : Z) : res F :=
  distance_sq <- for_range 0 D (fun i distance_sq =>
                   a <- at_ p1 i ;;
                   b <- at_ p2 i ;;
                   a' <- at_ p1 i ;;
                   b' <- at_ p2 i ;;
                   Ok (distance_sq [+] (a [-] b) [*] (a' [-] b'))) lit_0 ;;
  Ok (sqrt distance_sq).

Definition kmeans_iteration_cy (data centroids : DataSet) : res DataSet :=
  let N := Z.of_nat (length data) in
  let K := Z.of_nat (length centroids) in
  if (N =? 0)%Z || (K =? 0)%Z then Ok centroids
  else
    data_0 <- at_ data 0 ;;
    let D := Z.of_nat (length data_0) in
    let data_arr := vec_of (Z.to_nat N) (fun i => vec_of (Z.to_nat D) (fresh i)) in
    let centroids_arr := vec_of (Z.to_nat K) (fun k => vec_of (Z.to_nat D) (fresh k)) in
    let w := mkWork (vec_of (Z.to_nat N) fresh_int) (vec_of (Z.to_nat K) fresh_int)
                    (vec_of (Z.to_nat K) (fun k => vec_of (Z.to_nat D) (fresh k))) in
    data_arr <- for_range 0 N (fun i data_arr =>
                  point <- at_ data i ;;
                  for_range 0 D (fun d data_arr =>
                    x <- at_ point d ;;
                    Matmul.set2 data_arr i d x) data_arr) data_arr ;;
    centroids_arr <- for_range 0 K (fun k centroids_arr =>
                       centroid <- at_ centroids k ;;
                       for_range 0 D (fun d centroids_arr =>
                         x <- at_ centroid d ;;
                         Matmul.set2 centroids_arr k d x) centroids_arr) centroids_arr ;;
    w <- for_range 0 K (fun k w =>
           cluster_counts' <- set_at (cluster_counts w) k 0%Z ;;
           cluster_sums' <- for_range 0 D (fun d sums =>
                              Matmul.set2 sums k d lit_0) (cluster_sums w) ;;
           Ok (mkWork (assignments w) cluster_counts' cluster_sums')) w ;;
    w <- for_range 0 N (fun i w =>
           mk <- for_range 0 K (fun k mk =>
                   dist <- (data_i <- at_ data_arr i ;;
                            centroids_k <- at_ centroids_arr k ;;
                            euclidean_distance_cy data_i centroids_k D) ;;
                   if dist [<] fst mk then Ok (dist, k) else Ok mk)
                 (dbl_max, 0%Z) ;;
           let closest_k := snd mk in
           assignments' <- set_at (assignments w) i closest_k ;;
           c <- at_ (cluster_counts w) closest_k ;;
           cluster_counts' <- set_at (cluster_counts w) closest_k (c + 1)%Z ;;
           cluster_sums' <- for_range 0 D (fun d sums =>
                              s <- Matmul.at2 sums closest_k d ;;
                              x <- Matmul.at2 data_arr i d ;;
                              Matmul.set2 sums closest_k d (s [+] x)) (cluster_sums w) ;;
           Ok (mkWork assignments' cluster_counts' cluster_sums')) w ;;
    for_range 0 K (fun k new_centroids =>
      c <- at_ (cluster_counts w) k ;;
      if (c =? 0)%Z then
        centroids_k <- at_ centroids k ;;
        Ok (new_centroids ++ [centroids_k])
      else
        let new_centroid := repeat lit_0 (Z.to_nat D) in
        new_centroid <- for_range 0 D (fun d new_centroid =>
                          s <- Matmul.at2 (cluster_sums w) k d ;;
                          set_at new_centroid d (s [/] of_int c)) new_centroid ;;
        Ok (new_centroids ++ [new_centroid])) [].

(** *** What an iteration computes

    The distance of two points as the loop accumulates it, the centroid a
    point is assigned to (the first one at the least distance below
    [DBL_MAX]; centroid 0 when no distance is below it), the points of a
    cluster in the order of [data], and the mean of a list of points. *)

Definition coord (p : Point) (d : Z) : F := nth (Z.to_nat d) p lit_0.

Definition point_at (v : DataSet) (i : Z) : Point := nth (Z.to_nat i) v [].

Definition distance (p1 p2 : Point) : F :=
  sqrt (fold_left (fun s i => s [+] (coord p1 i [-] coord p2 i)
                                [*] (coord p1 i [-] coord p2 i))
                  (zrange 0 (Z.of_nat (length p1))) lit_0).

Definition closer (centroids : DataSet) (p : Point) (mk : F * Z) (k : Z) : F * Z :=
  let dist := distance p (point_at centroids k) in
  if dist [<] fst mk then (dist, k) else mk.

Definition nearest (centroids : DataSet) (p : Point) : Z :=
  snd (fold_left (closer centroids p) (zrange 0 (Z.of_nat (length centroids)))
                 (dbl_max, 0%Z)).

Definition members (data centroids : DataSet) (upto k : Z) : list Z :=
  filter (fun i => (nearest centroids (point_at data i) =? k)%Z) (zrange 0 upto).

Definition total (data : DataSet) (ids : list Z) (d : Z) : F :=
  fold_left (fun s i => s [+] coord (point_at data i) d) ids lit_0.

Definition mean (data : DataSet) (D : nat) (ids : list Z) : Point :=
  vec_of D (fun d => total data ids d [/] of_int (Z.of_nat (length ids))).

Definition updated (data centroids : DataSet) : DataSet :=
  let N := Z.of_nat (length data) in
  let D := length (point_at data 0) in
  vec_of (length centroids)
         (fun k => match members data centroids N k with
                   | [] => point_at centroids k
                   | ids => mean data D ids
                   end).

(** Data of dimension [D]. *)
Definition dimension (D : nat) (v : DataSet) : Prop :=
  Forall (fun p => length p = D) v.

End Kernel.
End KMeans.

(** Over the reals: [k] is the first centroid at the least distance of [p]. *)
Definition first_nearest (centroids : KMeans.DataSet (F := R)) (p : KMeans.Point (F := R))
           (k : Z) : Prop :=
  (0 <= k < Z.of_nat (length centroids))%Z /\
  (forall k', (0 <= k' < Z.of_nat (length centroids))%Z ->
     (KMeans.distance p (KMeans.point_at centroids k)
      <= KMeans.distance p (KMeans.point_at centroids k'))%R) /\
  (forall k', (0 <= k' < k)%Z ->
     (KMeans.distance p (KMeans.point_at centroids k)
      < KMeans.distance p (KMeans.point_at centroids k'))%R).

Module KMeansSamples.

Local Open Scope float_scope.

(** Three points of the plane and two centroids, on binary64. *)
Definition points : KMeans.DataSet (F := float) := [[0; 0]; [1; 1]; [10; 10]].
Definition seeds : KMeans.DataSet (F := float) := [[0; 0]; [10; 10]].

(** The same over the reals. *)
Definition points_R : KMeans.DataSet (F := R) := [[0; 0]; [1; 1]; [10; 10]]%R.
Definition seeds_R : KMeans.DataSet (F := R) := [[0; 0]; [10; 10]]%R.

(** The three points and a fourth one, at the same distance of the two
    centroids. *)
Definition tied_R : KMeans.DataSet (F := R) := points_R ++ [[5; 5]]%R.

End KMeansSamples.

(** *** Quantities of a body set *)

Module NBodyLaws.
Section Draws.

Context {F : Type} `{Scalar F}.
Variable RAND_MAX : Z.

(** Body [i] of [initialize_bodies], from the values [rand()] returns: the
    five draws [5 i], ..., [5 i + 4] of the generator, in the order [x], [y],
    [vx], [vy], [m]. *)
Definition drawn (box_size max_mass : F) (g : NBody.rand_source) (i : Z) : NBody.Body :=
  let r := fun t => NBody.unit_of RAND_MAX (g (Z.to_nat (5 * i + t))) in
  NBody.mkBody (r 0%Z [*] box_size) (r 1%Z [*] box_size)
               (r 2%Z [*] lit_2 [-] lit_1) (r 3%Z [*] lit_2 [-] lit_1)
               (r 4%Z [*] (max_mass [-] lit_0_1) [+] lit_0_1).

(** The same for [initialize_bodies_cy] and the values [random()] returns. *)
Definition drawn_cy (box_size max_mass : F) (g : NBody.uniform_source) (i : Z)
  : NBody.Body :=
  let u := fun a b t => a [+] (b [-] a) [*] g (Z.to_nat (5 * i + t)) in
  NBody.mkBody (u (of_int 0) box_size 0%Z) (u (of_int 0) box_size 1%Z)
               (u (of_int (-1)) (of_int 1) 2%Z) (u (of_int (-1)) (of_int 1) 3%Z)
               (u lit_0_1 max_mass 4%Z).

End Draws.

(** Total momentum of a body set, over the reals. *)
Definition momentum_x (bs : NBody.BodiesVector (F := R)) : R :=
  fold_right (fun b s => (NBody.m b * NBody.vx b + s)%R) 0%R bs.

Definition momentum_y (bs : NBody.BodiesVector (F := R)) : R :=
  fold_right (fun b s => (NBody.m b * NBody.vy b + s)%R) 0%R bs.

(** The pull of body [j] on body [i] along the coordinate [c], weighted by
    the mass of [i]. *)
Definition pull (bs : NBody.BodiesVector (F := R)) (G softening : R)
           (c : NBody.Body (F := R) -> R) (i j : Z) : R :=
  if (i =? j)%Z then 0%R
  else (NBody.m (NBody.body_at bs i)
        * ((c (NBody.body_at bs j) - c (NBody.body_at bs i))
           * NBody.force_factor (NBody.body_at bs i) (NBody.body_at bs j) G softening))%R.

End NBodyLaws.

(** ** Convolution ([conv_swig.cpp], [conv_cy.pyx])

    Both functions pad the input with zeros, [kernel_len / 2] on each side,
    and slide the kernel over it without flipping it. *)

Module Conv.
Section Kernel.

Context {F : Type} `{Scalar F}.

Definition Vector1D := list F.
Definition Matrix2D := list Vector1D.

Definition convolution_1d (data kernel : Vector1D) : res Vector1D :=
  let data_len := Z.of_nat (length data) in
  let kernel_len := Z.of_nat (length kernel) in
  let output := repeat lit_0 (Z.to_nat data_len) in
  if (data_len =? 0)%Z || (kernel_len =? 0)%Z then Ok output
  else
    let pad_len := Z.quot kernel_len 2 in
    let padded_data := repeat lit_0 (Z.to_nat (data_len + 2 * pad_len)) in
    padded_data <- for_range 0 data_len (fun i padded_data =>
                     x <- at_ data i ;;
                     set_at padded_data (pad_len + i) x) padded_data ;;
    for_range 0 data_len (fun i output =>
      sum_val <- for_range 0 kernel_len (fun k sum_val =>
                   p <- at_ padded_data (i + k) ;;
                   c <- at_ kernel k ;;
                   Ok (sum_val [+] p [*] c)) lit_0 ;;
      set_at output i sum_val) output.

Definition convolution_2d (image kernel : Matrix2D) : res Matrix2D :=
  let rows := Z.of_nat (length image) in
  if (rows =? 0)%Z then Ok []
  else
    image_0 <- at_ image 0 ;;
    let cols := Z.of_nat (length image_0) in
    let k_size := Z.of_nat (length kernel) in
    if (k_size =? 0)%Z
    then Ok (repeat (repeat lit_0 (Z.to_nat cols)) (Z.to_nat rows))
    else
      let pad := Z.quot k_size 2 in
      let output := repeat (repeat lit_0 (Z.to_nat cols)) (Z.to_nat rows) in
      let padded_rows := (rows + 2 * pad)%Z in
      let padded_cols := (cols + 2 * pad)%Z in
      let padded_image :=
        repeat (repeat lit_0 (Z.to_nat padded_cols)) (Z.to_nat padded_rows) in
      padded_image <- for_range 0 rows (fun i padded_image =>
                        for_range 0 cols (fun j padded_image =>
                          x <- Matmul.at2 image i j ;;
                          Matmul.set2 padded_image (i + pad) (j + pad) x)
                        padded_image) padded_image ;;
      for_range 0 rows (fun r output =>
        for_range 0 cols (fun c output =>
          sum_val <- for_range 0 k_size (fun kr sum_val =>
                       for_range 0 k_size (fun kc sum_val =>
                         let ir := (r + kr)%Z in
                         let ic := (c + kc)%Z in
                         p <- Matmul.at2 padded_image ir ic ;;
                         k <- Matmul.at2 kernel kr kc ;;
                         Ok (sum_val [+] p [*] k)) sum_val) lit_0 ;;
          Matmul.set2 output r c sum_val) output) output.

(** *** The Cython twins

    The working arrays come from [malloc]: slot [j] of the array (or array
    row) number [a] first holds the arbitrary value [fresh a j]. *)

Variable fresh : Z -> Z -> F.

Definition convolution_1d_cy (data kernel : Vector1D) : res Vector1D :=
  let data_len := Z.of_nat (length data) in
  let kernel_len := Z.of_nat (length kernel) in
  let pad_len := Z.quot kernel_len 2 in
  let padded_len := (data_len + 2 * pad_len)%Z in
  let output := repeat lit_0 (Z.to_nat data_len) in
  let padded_data := vec_of (Z.to_nat padded_len) (fresh 0) in
  let kernel_arr := vec_of (Z.to_nat kernel_len) (fresh 1) in
  padded_data <- for_range 0 pad_len (fun i padded_data =>
                   set_at padded_data i lit_0) padded_data ;;
  padded_data <- for_range 0 data_len (fun i padded_data =>
                   x <- at_ data i ;;
                   set_at padded_data (pad_len + i) x) padded_data ;;
  padded_data <- for_range 0 pad_len (fun i padded_data =>
                   set_at padded_data (pad_len + data_len + i) lit_0) padded_data ;;
  kernel_arr <- for_range 0 kernel_len (fun k kernel_arr =>
                  x <- at_ kernel k ;;
                  set_at kernel_arr k x) kernel_arr ;;
  for_range 0 data_len (fun i output =>
    sum_val <- for_range 0 kernel_len (fun k sum_val =>
                 p <- at_ padded_data (i + k) ;;
                 c <- at_ kernel_arr k ;;
                 Ok (sum_val [+] p [*] c)) lit_0 ;;
    set_at output i sum_val) output.

Definition convolution_2d_cy (image kernel : Matrix2D) : res Matrix2D :=
  let rows := Z.of_nat (length image) in
  if (rows =? 0)%Z then Ok []
  else
    image_0 <- at_ image 0 ;;
    let cols := Z.of_nat (length image_0) in
    let k_size := Z.of_nat (length kernel) in
    let pad := Z.quot k_size 2 in
    let padded_rows := (rows + 2 * pad)%Z in
    let padded_cols := (cols + 2 * pad)%Z in
    let padded_image :=
      vec_of (Z.to_nat padded_rows) (fun r => vec_of (Z.to_nat padded_cols) (fresh r)) in
    let kernel_arr :=
      vec_of (Z.to_nat k_size) (fun r => vec_of (Z.to_nat k_size) (fresh r)) in
    let output :=
      vec_of (Z.to_nat rows) (fun r => vec_of (Z.to_nat cols) (fresh r)) in
    padded_image <- for_range 0 padded_rows (fun r padded_image =>
                      for_range 0 padded_cols (fun c padded_image =>
                        Matmul.set2 padded_image r c lit_0) padded_image)
                    padded_image ;;
    padded_image <- for_range 0 rows (fun r padded_image =>
                      for_range 0 cols (fun c padded_image =>
                        x <- Matmul.at2 image r c ;;
                        Matmul.set2 padded_image (r + pad) (c + pad) x)
                      padded_image) padded_image ;;
    kernel_arr <- for_range 0 k_size (fun kr kernel_arr =>
                    for_range 0 k_size (fun kc kernel_arr =>
                      x <- Matmul.at2 kernel kr kc ;;
                      Matmul.set2 kernel_arr kr kc x) kernel_arr) kernel_arr ;;
    output <- for_range 0 rows (fun r output =>
                for_range 0 cols (fun c output =>
                  sum_val <- for_range 0 k_size (fun kr sum_val =>
                               for_range 0 k_size (fun kc sum_val =>
                                 let ir := (r + kr)%Z in
                                 let ic := (c + kc)%Z in
                                 p <- Matmul.at2 padded_image ir ic ;;
                                 k <- Matmul.at2 kernel_arr kr kc ;;
                                 Ok (sum_val [+] p [*] k)) sum_val) lit_0 ;;
                  Matmul.set2 output r c sum_val) output) output ;;
    for_range 0 rows (fun r result =>
      row <- for_range 0 cols (fun c row =>
               x <- Matmul.at2 output r c ;;
               Ok (row ++ [x])) [] ;;
      Ok (result ++ [row])) [].

(** *** What the functions compute *)

(** Element [j] of [data] padded with [pad_len] zeros on each side. *)
Definition padded (data : Vector1D) (pad_len j : Z) : F :=
  if inb pad_len (pad_len + Z.of_nat (length data)) j
  then nth (Z.to_nat (j - pad_len)) data lit_0
  else lit_0.

(** Output [i]: the products [padded[i + k] * kernel[k]] added to [0.0] for
    [k = 0, 1, ...]. *)
Definition slide (data kernel : Vector1D) (i : Z) : F :=
  let pad_len := Z.quot (Z.of_nat (length kernel)) 2 in
  fold_left (fun s k => s [+] padded data pad_len (i + k) [*] nth (Z.to_nat k) kernel lit_0)
            (zrange 0 (Z.of_nat (length kernel))) lit_0.

(** The same in two dimensions, for an image with [cols] columns: the
    kernel is walked row by row. *)
Definition padded_2d (image : Matrix2D) (cols : nat) (pad i j : Z) : F :=
  if inb pad (pad + Z.of_nat (length image)) i && inb pad (pad + Z.of_nat cols) j
  then nth (Z.to_nat (j - pad)) (nth (Z.to_nat (i - pad)) image []) lit_0
  else lit_0.

Definition slide_2d (image kernel : Matrix2D) (cols : nat) (r c : Z) : F :=
  let k_size := Z.of_nat (length kernel) in
  let pad := Z.quot k_size 2 in
  fold_left (fun s kr =>
    fold_left (fun s kc =>
      s [+] padded_2d image cols pad (r + kr) (c + kc)
            [*] nth (Z.to_nat kc) (nth (Z.to_nat kr) kernel []) lit_0)
      (zrange 0 k_size) s)
    (zrange 0 k_size) lit_0.

(** A matrix with [rows] rows of [cols] columns. *)
Definition shape (rows cols : nat) (M : Matrix2D) : Prop :=
  length M = rows /\ Forall (fun row => length row = cols) M.

End Kernel.
End Conv.

(** ** Quicksort ([quicksort_swig.cpp], [quicksort_cy.pyx])

    The recursion of [quicksort_recursive] runs on the budget [fuel], which
    bounds its depth. *)

Module Quicksort.
Section Kernel.

Context {F : Type} `{Scalar F} `{Ordered F}.

(** [temp = items[i]; items[i] = items[j]; items[j] = temp;] *)
Definition exchange (items : list F) (i j : Z) : res (list F) :=
  temp <- at_ items i ;;
  x <- at_ items j ;;
  items <- set_at items i x ;;
  set_at items j temp.

Definition partition (items : list F) (low high : Z) : res (list F * Z) :=
  pivot <- at_ items high ;;
  let i := (low - 1)%Z in
  st <- for_range low high (fun j st =>
          x <- at_ (fst st) j ;;
          if x [<=] pivot then
            let i := (snd st + 1)%Z in
            items <- exchange (fst st) i j ;;
            Ok (items, i)
          else Ok st) (items, i) ;;
  items <- exchange (fst st) (snd st + 1) high ;;
  Ok (items, (snd st + 1)%Z).

Fixpoint quicksort_recursive (fuel : nat) (items : list F) (low high : Z)
  : res (list F) :=
  match fuel with
  | O => Err OutOfFuel
  | Datatypes.S fuel' =>
    if (low <? high)%Z then
      ip <- partition items low high ;;
      let pi := snd ip in
      items <- quicksort_recursive fuel' (fst ip) low (pi - 1) ;;
      quicksort_recursive fuel' items (pi + 1) high
    else Ok items
  end.

(** The argument is copied; the caller's vector is not changed. *)
Definition quicksort (fuel : nat) (arr : list F) : res (list F) :=
  let arr_copy := arr in
  match arr_copy with
  | [] => Ok arr_copy
  | _ => quicksort_recursive fuel arr_copy 0 (Z.of_nat (length arr_copy) - 1)
  end.

(** The caller's vector after the call. *)
Definition quicksort_inplace (fuel : nat) (arr : list F) : res (list F) :=
  match arr with
  | [] => Ok arr
  | _ => quicksort_recursive fuel arr 0 (Z.of_nat (length arr) - 1)
  end.

(** The Cython function copies the list into a [malloc]ed array ([fresh]
    is what the array first holds), sorts the array with the same partition
    and recursion ([_partition_cy], [_quicksort_recursive_cy]) and copies it
    back into a copy of the list. *)
Definition quicksort_cy (fresh : Z -> F) (fuel : nat) (arr : list F) : res (list F) :=
  let n := Z.of_nat (length arr) in
  if (n =? 0)%Z then Ok []
  else
    let arr_copy := arr in
    let items := vec_of (Z.to_nat n) fresh in
    items <- for_range 0 n (fun i items =>
               x <- at_ arr_copy i ;;
               set_at items i x) items ;;
    items <- quicksort_recursive fuel items 0 (n - 1) ;;
    for_range 0 n (fun i arr_copy =>
      x <- at_ items i ;;
      set_at arr_copy i x) arr_copy.

(** [items[k]] *)
Definition item (items : list F) (k : Z) : F := nth (Z.to_nat k) items lit_0.

(** What a call on the slots [low .. high] leaves of the vector it was
    given: the same elements, the slots outside [low .. high] untouched, and
    in every slot of [low .. high] an element that was in that range. *)
Definition rearranged (low high : Z) (items out : list F) : Prop :=
  Permutation items out /\
  length out = length items /\
  (forall k, (0 <= k)%Z -> (k < low \/ high < k)%Z -> item out k = item items k) /\
  (forall k, (low <= k <= high)%Z ->
     exists k', (low <= k' <= high)%Z /\ item out k = item items k').

(** No element of the slots [low .. high] is above a later one, for [<=]. *)
Definition ascending (low high : Z) (items : list F) : Prop :=
  forall a b, (low <= a)%Z -> (a <= b)%Z -> (b <= high)%Z ->
              (item items a [<=] item items b) = true.

(** On the values that satisfy [P], [<=] compares any two values and is
    transitive. *)
Definition total_on (P : F -> Prop) : Prop :=
  (forall a b : F, P a -> P b -> (a [<=] b) = true \/ (b [<=] a) = true) /\
  (forall a b c : F, P a -> P b -> P c ->
     (a [<=] b) = true -> (b [<=] c) = true -> (a [<=] c) = true).

End Kernel.
End Quicksort.

(** ** What the recursive fast transform computes

    The recursion of [fft_cooley_tukey] written on the values: the two halves
    of the input, the butterfly that combines their transforms, and the
    transform of a sequence of length [2 ^ k]. *)

Module FFTSpec.
Section Kernel.

Context {F : Type} `{Scalar F}.
Variable M_PI : F.
Variable cmul : @FFT.Complex F -> @FFT.Complex F -> @FFT.Complex F.

Definition zero : @FFT.Complex F := FFT.cplx lit_0 lit_0.

(** [x[i]] *)
Definition elem (x : FFT.ComplexVector) (i : Z) : FFT.Complex :=
  nth (Z.to_nat i) x zero.

(** [x[0], x[2], ...] and [x[1], x[3], ...] *)
Definition even_half (x : FFT.ComplexVector) : FFT.ComplexVector :=
  vec_of (length x / 2) (fun m => elem x (2 * m)).

Definition odd_half (x : FFT.ComplexVector) : FFT.ComplexVector :=
  vec_of (length x / 2) (fun m => elem x (2 * m + 1)).

(** [X[k] = E[k] + w(k) O[k]] and [X[k + M] = E[k] - w(k) O[k]] for the
    [M] elements of [E] and [O]. *)
Definition butterfly (w : Z -> FFT.Complex) (E O : FFT.ComplexVector)
  : FFT.ComplexVector :=
  let M := Z.of_nat (length E) in
  vec_of (2 * length E)
         (fun j => if (j <? M)%Z
                   then FFT.cadd (elem E j) (cmul (w j) (elem O j))
                   else FFT.csub (elem E (j - M)) (cmul (w (j - M)%Z) (elem O (j - M)))).

(** [w N k] is the factor the transform of length [N] uses at index [k]. *)
Fixpoint recursive (w : Z -> Z -> FFT.Complex) (k : nat) (x : FFT.ComplexVector)
  : FFT.ComplexVector :=
  match k with
  | O => x
  | Datatypes.S k' =>
    butterfly (w (Z.of_nat (length x)))
              (recursive w k' (even_half x)) (recursive w k' (odd_half x))
  end.

(** The factor at index [k] of a transform of length [N], from the function
    that turns an angle into a complex number. *)
Definition factor (twiddle : F -> @FFT.Complex F) (N k : Z) : @FFT.Complex F :=
  twiddle (opp lit_2 [*] M_PI [*] of_int k [/] of_int N).

(** [Complex w(std::cos(angle), std::sin(angle))] *)
Definition polar (cos sin : F -> F) (angle : F) : @FFT.Complex F :=
  FFT.cplx (cos angle) (sin angle).

(** *** The iterative transform on the values *)

(** The [k] low bits of [i], in reverse order. *)
Fixpoint rev_bits (k : nat) (i : Z) : Z :=
  match k with
  | O => 0
  | Datatypes.S k' => 2 ^ Z.of_nat k' * (i mod 2) + rev_bits k' (i / 2)
  end.

Definition bit_reversed (k : nat) (x : FFT.ComplexVector) : FFT.ComplexVector :=
  vec_of (length x) (fun t => elem x (rev_bits k t)).

(** [w] after [j] rounds of [w *= wm], from [w = 1]. *)
Fixpoint power (wm : @FFT.Complex F) (j : nat) : @FFT.Complex F :=
  match j with
  | O => FFT.cplx lit_1 lit_0
  | Datatypes.S j' => cmul (power wm j') wm
  end.

(** One pass of butterflies over the blocks of [size] elements. *)
Definition stage (twiddle : F -> @FFT.Complex F) (size : Z) (Y : FFT.ComplexVector)
  : FFT.ComplexVector :=
  let half := Z.shiftr size 1 in
  let wm := twiddle (opp lit_2 [*] M_PI [/] of_int size) in
  vec_of (length Y)
         (fun t =>
            let j := (t mod size)%Z in
            if (j <? half)%Z
            then FFT.cadd (elem Y t) (cmul (power wm (Z.to_nat j)) (elem Y (t + half)))
            else FFT.csub (elem Y (t - half))
                          (cmul (power wm (Z.to_nat (j - half))) (elem Y t))).

(** The passes for the sizes [2], [4], ..., [2 ^ s]. *)
Fixpoint stages (twiddle : F -> @FFT.Complex F) (s : nat) (Y : FFT.ComplexVector)
  : FFT.ComplexVector :=
  match s with
  | O => Y
  | Datatypes.S s' => stage twiddle (2 ^ Z.of_nat s) (stages twiddle s' Y)
  end.

Definition iterative (twiddle : F -> @FFT.Complex F) (k : nat) (x : FFT.ComplexVector)
  : FFT.ComplexVector :=
  stages twiddle k (bit_reversed k x).

End Kernel.
End FFTSpec.

(** ** The discrete Fourier transform, over the reals *)

Module Fourier.

(** [cos angle + i sin angle] *)
Definition cis (angle : R) : FFT.Complex (F := R) :=
  FFT.cplx (Rtrigo_def.cos angle) (Rtrigo_def.sin angle).

(** The sum of [x[n] e^(- 2 pi i k n / N)] over the first [cnt] indices [n]. *)
Fixpoint series (x : FFT.ComplexVector (F := R)) (N k : Z) (cnt : nat)
  : FFT.Complex (F := R) :=
  match cnt with
  | O => FFT.cplx 0%R 0%R
  | Datatypes.S c =>
    FFT.cadd (series x N k c)
             (Samples.cmul_R (FFTSpec.elem x (Z.of_nat c))
                             (cis (- (2 * PI * IZR k * IZR (Z.of_nat c) / IZR N))%R))
  end.

(** [X[k]] is the sum of [x[n] e^(- 2 pi i k n / N)] over all [n]. *)
Definition transform (x : FFT.ComplexVector (F := R)) : FFT.ComplexVector (F := R) :=
  let N := Z.of_nat (length x) in
  vec_of (length x) (fun k => series x N k (length x)).

End Fourier.

(** ** Sieve of Eratosthenes ([sieve_cy.pyx])

    The sieve computes on C [int]s of 32 bits, and squares them: here an
    [int] operation whose result does not fit is [Err Undefined] (signed
    overflow is undefined behaviour in C).  The flags are the bytes of the
    [malloc]ed array, set to 1 by [memset].  Both [while] loops run on the
    budget [fuel]. *)

Module Sieve.

Definition INT_MIN : Z := (- 2147483648)%Z.
Definition INT_MAX : Z := 2147483647%Z.

(** The value of an [int] expression. *)
Definition int_ (z : Z) : res Z :=
  if ((INT_MIN <=? z) && (z <=? INT_MAX))%Z then Ok z else Err Undefined.

(** [while multiple <= limit: is_prime[multiple] = 0; multiple += p] *)
Fixpoint mark_multiples (fuel : nat) (limit p multiple : Z) (is_prime : list Z)
  : res (list Z) :=
  if (multiple <=? limit)%Z then
    match fuel with
    | O => Err OutOfFuel
    | Datatypes.S fuel' =>
      is_prime <- set_at is_prime multiple 0%Z ;;
      multiple <- int_ (multiple + p) ;;
      mark_multiples fuel' limit p multiple is_prime
    end
  else Ok is_prime.

(** [while p * p <= limit: ...; p += 1]; [budget] is the budget of the inner
    loops. *)
Fixpoint sift (fuel budget : nat) (limit p : Z) (is_prime : list Z) : res (list Z) :=
  pp <- int_ (p * p) ;;
  if (pp <=? limit)%Z then
    match fuel with
    | O => Err OutOfFuel
    | Datatypes.S fuel' =>
      flag <- at_ is_prime p ;;
      is_prime <- (if (flag =? 0)%Z then Ok is_prime
                   else
                     multiple <- int_ (p * p) ;;
                     mark_multiples budget limit p multiple is_prime) ;;
      p <- int_ (p + 1) ;;
      sift fuel' budget limit p is_prime
    end
  else Ok is_prime.

Definition sieve_of_eratosthenes (fuel : nat) (limit : Z) : res (list Z) :=
  if (limit <? 2)%Z then Ok []
  else
    let primes := [] in
    size <- int_ (limit + 1) ;;
    let is_prime := repeat 1%Z (Z.to_nat size) in
    is_prime <- set_at is_prime 0 0%Z ;;
    is_prime <- set_at is_prime 1 0%Z ;;
    let p := 2%Z in
    is_prime <- sift fuel fuel limit p is_prime ;;
    for_range 2 size (fun i primes =>
      flag <- at_ is_prime i ;;
      if (flag =? 0)%Z then Ok primes else Ok (primes ++ [i])) primes.

(** [n] is below 2 or the product of two numbers from 2 on, the smaller one
    below [p]. *)
Definition struck (p n : Z) : Prop :=
  (n < 2)%Z \/ exists d m, (2 <= d < p)%Z /\ (d <= m)%Z /\ n = (d * m)%Z.

End Sieve.

(** ** Tokenizers ([regex_swig.cpp])

    A [std::string] is the list of its bytes.  The character tests compare a
    [char] with character constants below 128: a byte from 128 on fails all
    of them whether [char] is signed or not, so the bytes are compared by
    their unsigned value. *)

Module Regex.

Import Ascii.

Definition code (c : ascii) : Z := Z.of_N (N_of_ascii c).

(** [lo <= c && c <= hi] *)
Definition between (lo hi c : ascii) : bool :=
  ((code lo <=? code c) && (code c <=? code hi))%Z.

(** [c == d] *)
Definition is_char (d c : ascii) : bool := (code c =? code d)%Z.

Definition is_alnum (c : ascii) : bool :=
  between "0" "9" c || between "A" "Z" c || between "a" "z" c.

Definition is_whitespace (c : ascii) : bool :=
  is_char " " c || is_char "009" c || is_char "010" c || is_char "013" c.

Definition is_punctuation (c : ascii) : bool :=
  between "!" "/" c || between ":" "@" c || between "[" "`" c || between "{" "~" c.

(** [text.substr(pos, n)], for [pos] within the text. *)
Definition substr (text : list ascii) (pos n : Z) : list ascii :=
  firstn (Z.to_nat n) (skipn (Z.to_nat pos) text).

Record scan : Type := mkScan {
  tokens : list (list ascii);
  start : Z;
  in_word : bool
}.

Definition simple_tokenize (text : list ascii) : res (list (list ascii)) :=
  let length := Z.of_nat (List.length text) in
  st <- for_range 0 length (fun i st =>
          c <- at_ text i ;;
          if is_alnum c || is_char "'" c then
            if negb (in_word st) then Ok (mkScan (tokens st) i true)
            else Ok st
          else
            let st :=
              if in_word st
              then mkScan (tokens st ++ [substr text (start st) (i - start st)])
                          (start st) false
              else st in
            if is_whitespace c then Ok st
            else if is_punctuation c
                 then Ok (mkScan (tokens st ++ [substr text i 1]) (start st) (in_word st))
                 else Ok st) (mkScan [] 0 false) ;;
  if in_word st
  then Ok (tokens st ++ [substr text (start st) (length - start st)])
  else Ok (tokens st).

Definition fast_word_tokenize (text : list ascii) : res (list (list ascii)) :=
  let length := Z.of_nat (List.length text) in
  st <- for_range 0 length (fun i st =>
          c <- at_ text i ;;
          if is_alnum c then
            if negb (in_word st) then Ok (mkScan (tokens st) i true)
            else Ok st
          else
            if in_word st
            then Ok (mkScan (tokens st ++ [substr text (start st) (i - start st)])
                            (start st) false)
            else Ok st) (mkScan [] 0 false) ;;
  if in_word st
  then Ok (tokens st ++ [substr text (start st) (length - start st)])
  else Ok (tokens st).

Record cscan : Type := mkCscan {
  ctokens : list (list ascii);
  cstart : Z;
  c_in_word : bool;
  c_in_punct : bool;
  c_in_space : bool
}.

Definition char_tokenize (text : list ascii) : res (list (list ascii)) :=
  let length := Z.of_nat (List.length text) in
  if (length =? 0)%Z then Ok []
  else
    st <- for_range 0 length (fun i st =>
            c <- at_ text i ;;
            let flush := ctokens st ++ [substr text (cstart st) (i - cstart st)] in
            if is_alnum c || is_char "'" c then
              if negb (c_in_word st) then
                let toks := if c_in_punct st || c_in_space st then flush else ctokens st in
                Ok (mkCscan toks i true false false)
              else Ok st
            else if is_whitespace c then
              if negb (c_in_space st) then
                let toks := if c_in_word st || c_in_punct st then flush else ctokens st in
                Ok (mkCscan toks i false false true)
              else Ok st
            else if is_punctuation c then
              if negb (c_in_punct st) then
                let toks := if c_in_word st || c_in_space st then flush else ctokens st in
                Ok (mkCscan toks i false true false)
              else Ok st
            else Ok st) (mkCscan [] 0 false false false) ;;
    if c_in_word st || c_in_punct st || c_in_space st
    then Ok (ctokens st ++ [substr text (cstart st) (length - cstart st)])
    else Ok (ctokens st).

(** The kind of a character, as [char_tokenize] tests it. *)
Inductive kind : Type := Word | Space | Punct | Other.

Definition kind_of (c : ascii) : kind :=
  if is_alnum c || is_char "'" c then Word
  else if is_whitespace c then Space
  else if is_punctuation c then Punct
  else Other.

Definition same_kind (a b : kind) : bool :=
  match a, b with
  | Word, Word | Space, Space | Punct, Punct | Other, Other => true
  | _, _ => false
  end.

(** The kind of the first character of a token. *)
Definition kind_of_token (t : list ascii) : kind :=
  match t with
  | [] => Other
  | c :: _ => kind_of c
  end.

(** The text without the characters of no kind it starts with. *)
Fixpoint skip_other (text : list ascii) : list ascii :=
  match text with
  | [] => []
  | c :: t => match kind_of c with Other => skip_other t | _ => text end
  end.

(** *** The scans on the characters

    The state of a scan after a prefix of the text: the tokens cut so far and
    the token under way. *)

Definition cut (toks : list (list ascii)) (cur : list ascii) : list (list ascii) :=
  match cur with
  | [] => toks
  | _ => toks ++ [cur]
  end.

(** The token under way of a scan at index [i], from its start [s]. *)
Definition under_way (text : list ascii) (flag : bool) (s i : Z) : list ascii :=
  if flag then substr text s (i - s) else [].

Definition word_step (st : list (list ascii) * list ascii) (c : ascii)
  : list (list ascii) * list ascii :=
  if is_alnum c then (fst st, snd st ++ [c]) else (cut (fst st) (snd st), []).

Definition simple_step (st : list (list ascii) * list ascii) (c : ascii)
  : list (list ascii) * list ascii :=
  if is_alnum c || is_char "'" c then (fst st, snd st ++ [c])
  else
    let toks := cut (fst st) (snd st) in
    if is_whitespace c then (toks, [])
    else if is_punctuation c then (toks ++ [[c]], [])
    else (toks, []).

Definition char_step (st : list (list ascii) * list ascii) (c : ascii)
  : list (list ascii) * list ascii :=
  match kind_of c with
  | Other => match snd st with [] => st | _ => (fst st, snd st ++ [c]) end
  | k => if same_kind k (kind_of_token (snd st)) then (fst st, snd st ++ [c])
         else (cut (fst st) (snd st), [c])
  end.

(** The flags of [char_tokenize] at index [i]: at most one is set, and then
    the token under way starts with a character of that kind. *)
Definition flags_good (text : list ascii) (i : Z) (st : cscan) : Prop :=
  let first := nth (Z.to_nat (cstart st)) text "000"%char in
  match c_in_word st, c_in_punct st, c_in_space st with
  | false, false, false => True
  | true, false, false => (0 <= cstart st < i)%Z /\ kind_of first = Word
  | false, true, false => (0 <= cstart st < i)%Z /\ kind_of first = Punct
  | false, false, true => (0 <= cstart st < i)%Z /\ kind_of first = Space
  | _, _, _ => False
  end.

(** A character of a word of [simple_tokenize] and [char_tokenize]. *)
Definition is_word_char (c : ascii) : bool := is_alnum c || is_char "'" c.

(** A token of [char_tokenize]: it starts with a character of a kind, and
    holds characters of that kind and characters of no kind. *)
Definition run_of_kind (t : list ascii) : Prop :=
  kind_of_token t <> Other /\
  Forall (fun c => kind_of c = kind_of_token t \/ kind_of c = Other) t.

(** Tokens that follow each other are of different kinds. *)
Fixpoint alternate (toks : list (list ascii)) : Prop :=
  match toks with
  | t1 :: (t2 :: _) as rest => kind_of_token t1 <> kind_of_token t2 /\ alternate rest
  | _ => True
  end.

(** What a scan of [char_tokenize] keeps true of the tokens cut so far and
    of the token under way. *)
Definition scan_good (st : list (list ascii) * list ascii) : Prop :=
  Forall run_of_kind (fst st) /\
  (snd st = [] -> fst st = []) /\
  (snd st <> [] -> run_of_kind (snd st)) /\
  alternate (cut (fst st) (snd st)).

End Regex.

(** ** Breadth-first search ([bfs_swig.cpp])

    A [std::map] is the list of its entries, one per key; a [std::set] is the
    list of its elements, each once; the [std::queue] is a list.  The
    [while] loop runs on the budget [fuel]. *)

Module BFS.

(** [std::map<int, std::vector<int>>] *)
Definition Graph := list (Z * list Z).

(** [m.find(k)] *)
Fixpoint lookup {V : Type} (m : list (Z * V)) (k : Z) : option V :=
  match m with
  | [] => None
  | (k', v) :: m' => if (k' =? k)%Z then Some v else lookup m' k
  end.

(** [m[k] = v] *)
Fixpoint assign {V : Type} (m : list (Z * V)) (k : Z) (v : V) : list (Z * V) :=
  match m with
  | [] => [(k, v)]
  | (k', v') :: m' => if (k' =? k)%Z then (k, v) :: m' else (k', v') :: assign m' k v
  end.

(** [s.find(v) != s.end()] and [s.insert(v)] *)
Definition member (s : list Z) (v : Z) : bool := existsb (Z.eqb v) s.

Definition insert (s : list Z) (v : Z) : list Z := if member s v then s else v :: s.

Record search : Type := mkSearch {
  queue : list Z;
  visited : list Z;
  path : list (Z * Z)
}.

(** The body of [for (int v : it->second)]. *)
Definition visit (u : Z) (st : search) (v : Z) : search :=
  if negb (member (visited st) v)
  then mkSearch (queue st ++ [v]) (insert (visited st) v) (assign (path st) v u)
  else st.

Fixpoint search_loop (fuel : nat) (graph : Graph) (st : search) : res search :=
  match queue st with
  | [] => Ok st
  | u :: rest =>
    match fuel with
    | O => Err OutOfFuel
    | Datatypes.S fuel' =>
      let st := mkSearch rest (visited st) (path st) in
      let st := match lookup graph u with
                | Some neighbours => fold_left (visit u) neighbours st
                | None => st
                end in
      search_loop fuel' graph st
    end
  end.

Definition breadth_first_search (fuel : nat) (graph : Graph) (start_node : Z)
  : res (Z * list (Z * Z)) :=
  match lookup graph start_node with
  | None => Ok (0%Z, [])
  | Some _ =>
    let st := mkSearch [start_node] (insert [] start_node) (assign [] start_node (-1)%Z) in
    st <- search_loop fuel graph st ;;
    Ok (Z.of_nat (length (visited st)), path st)
  end.

(** [v] is a neighbour of [u]. *)
Definition edge (graph : Graph) (u v : Z) : Prop :=
  exists neighbours, lookup graph u = Some neighbours /\ In v neighbours.

(** [v] can be reached from [s] along edges. *)
Definition reachable (graph : Graph) (s v : Z) : Prop :=
  clos_refl_trans Z (edge graph) s v.

(** The nodes a search from [start_node] can meet, with repetitions. *)
Definition candidates (graph : Graph) (start_node : Z) : list Z :=
  start_node :: concat (map snd graph).

(** What the search keeps true. *)
Definition search_good (graph : Graph) (start_node : Z) (st : search) : Prop :=
  NoDup (visited st) /\
  In start_node (visited st) /\
  incl (visited st) (candidates graph start_node) /\
  (forall v, In v (visited st) -> reachable graph start_node v) /\
  (forall v, In v (queue st) -> In v (visited st)) /\
  (forall v, lookup (path st) v <> None <-> In v (visited st)) /\
  lookup (path st) start_node = Some (-1)%Z /\
  (forall v u, v <> start_node -> lookup (path st) v = Some u ->
               In u (visited st) /\ edge graph u v).

(** Every node met has left the queue with all its neighbours met, or is
    still in the queue. *)
Definition search_closed (graph : Graph) (st : search) : Prop :=
  forall u, In u (visited st) ->
            In u (queue st) \/ forall v, edge graph u v -> In v (visited st).

End BFS.

(** * Properties *)

(** ** Loop rules *)

(** Invariant rule for the counted loop. *)
Lemma for_count_inv {S : Type} (P : Z -> S -> Prop) (body : Z -> S -> res S) :
  forall (cnt : nat) (lo : Z) (s : S),
    P lo s ->
    (forall i s0, (lo <= i < lo + Z.of_nat cnt)%Z -> P i s0 ->
                  exists s1, body i s0 = Ok s1 /\ P (i + 1)%Z s1) ->
    exists s', for_count cnt lo body s = Ok s' /\ P (lo + Z.of_nat cnt)%Z s'.
Proof.
  induction cnt as [|cnt IH]; intros lo s Hlo Hstep.
  - exists s. split; [reflexivity|]. now replace (lo + Z.of_nat 0)%Z with lo by lia.
  - destruct (Hstep lo s ltac:(lia) Hlo) as (s1 & Hb & Hs1).
    destruct (IH (lo + 1)%Z s1 Hs1) as (s' & Hrun & Hs').
    + intros i s0 Hi. apply Hstep. lia.
    + exists s'. split.
      * simpl. now rewrite Hb.
      * now replace (lo + Z.of_nat (Datatypes.S cnt))%Z
          with (lo + 1 + Z.of_nat cnt)%Z by lia.
Qed.

Lemma for_range_inv {S : Type} (P : Z -> S -> Prop) (body : Z -> S -> res S)
      (lo hi : Z) (s : S) :
  (lo <= hi)%Z ->
  P lo s ->
  (forall i s0, (lo <= i < hi)%Z -> P i s0 ->
                exists s1, body i s0 = Ok s1 /\ P (i + 1)%Z s1) ->
  exists s', for_range lo hi body s = Ok s' /\ P hi s'.
Proof.
  intros Hle Hlo Hstep. unfold for_range.
  destruct (for_count_inv P body (Z.to_nat (hi - lo)) lo s Hlo) as (s' & Hrun & Hs').
  - intros i s0 Hi. apply Hstep. lia.
  - exists s'. split; [exact Hrun|].
    now replace (lo + Z.of_nat (Z.to_nat (hi - lo)))%Z with hi in Hs' by lia.
Qed.

(** A loop whose bound is not above its start does nothing. *)
Lemma for_range_empty {S : Type} (body : Z -> S -> res S) (lo hi : Z) (s : S) :
  (hi <= lo)%Z -> for_range lo hi body s = Ok s.
Proof.
  intros Hle. unfold for_range.
  now replace (Z.to_nat (hi - lo)) with O by lia.
Qed.

(** Invariant rule for the stepped loop: with a positive step, a budget of
    [hi - lo] iterations is enough. *)
Lemma for_step_inv {S : Type} (P : Z -> S -> Prop) (body : Z -> S -> res S)
      (hi step : Z) :
  (0 < step)%Z ->
  forall (fuel : nat) (lo : Z) (s : S),
    (hi - lo <= Z.of_nat fuel)%Z ->
    P lo s ->
    (forall i s0, (lo <= i < hi)%Z -> P i s0 ->
                  exists s1, body i s0 = Ok s1 /\ P (i + step)%Z s1) ->
    exists s' i', for_step fuel lo hi step body s = Ok s' /\ (hi <= i')%Z /\
                  (lo <= i')%Z /\ P i' s'.
Proof.
  intros Hstep. induction fuel as [|fuel IH]; intros lo s Hfuel Hlo Hbody.
  - exists s, lo. simpl. destruct (Z.ltb_spec lo hi); [lia|]. repeat split; auto; lia.
  - simpl. destruct (Z.ltb_spec lo hi) as [Hlt|Hge].
    + destruct (Hbody lo s ltac:(lia) Hlo) as (s1 & Hb & Hs1).
      destruct (IH (lo + step)%Z s1 ltac:(lia) Hs1) as (s' & i' & Hrun & Hi' & Hlo' & Hs').
      * intros i s0 Hi. apply Hbody. lia.
      * exists s', i'. rewrite Hb. simpl. repeat split; auto. lia.
    + exists s, lo. repeat split; auto; lia.
Qed.

(** A first iteration that runs out of budget leaves the loop out of budget. *)
Lemma for_step_body_out {S : Type} (body : Z -> S -> res S) (fuel : nat)
      (lo hi step : Z) (s : S) :
  (lo < hi)%Z -> body lo s = Err OutOfFuel ->
  for_step fuel lo hi step body s = Err OutOfFuel.
Proof.
  intros Hlt Hb. destruct fuel as [|fuel]; simpl;
    destruct (Z.ltb_spec lo hi); try lia; [reflexivity|].
  now rewrite Hb.
Qed.

(** With a step that is not positive the loop never leaves a non-empty range. *)
Lemma for_step_stuck {S : Type} (body : Z -> S -> res S) (hi step : Z) :
  (step <= 0)%Z ->
  (forall i s, exists s', body i s = Ok s') ->
  forall (fuel : nat) (lo : Z) (s : S),
    (lo < hi)%Z -> for_step fuel lo hi step body s = Err OutOfFuel.
Proof.
  intros Hstep Hbody. induction fuel as [|fuel IH]; intros lo s Hlt; simpl.
  - destruct (Z.ltb_spec lo hi); [reflexivity|lia].
  - destruct (Z.ltb_spec lo hi); [|lia].
    destruct (Hbody lo s) as (s' & ->). simpl. apply IH. lia.
Qed.

Lemma zrange_empty (lo hi : Z) : (hi <= lo)%Z -> zrange lo hi = [].
Proof.
  intros Hle. unfold zrange. now replace (Z.to_nat (hi - lo)) with O by lia.
Qed.

Lemma zrange_cons (lo hi : Z) :
  (lo < hi)%Z -> zrange lo hi = lo :: zrange (lo + 1) hi.
Proof.
  intros Hlt. unfold zrange.
  replace (Z.to_nat (hi - lo)) with (Datatypes.S (Z.to_nat (hi - (lo + 1)))) by lia.
  simpl. f_equal; [lia|].
  rewrite <- seq_shift, map_map. apply map_ext. intros t. lia.
Qed.

Lemma zrange_split (lo mid hi : Z) :
  (lo <= mid <= hi)%Z -> zrange lo hi = zrange lo mid ++ zrange mid hi.
Proof.
  intros Hb. remember (Z.to_nat (mid - lo)) as d eqn:Hd.
  revert lo Hb Hd. induction d as [|d IH]; intros lo Hb Hd.
  - assert (mid = lo) by lia. subst mid.
    rewrite (zrange_empty lo lo) by lia. reflexivity.
  - rewrite (zrange_cons lo hi), (zrange_cons lo mid) by lia.
    simpl. f_equal. apply IH; lia.
Qed.

(** A loop whose body is a pure step on an accumulator is a left fold. *)
Lemma for_range_fold {S : Type} (body : Z -> S -> res S) (step : S -> Z -> S)
      (lo hi : Z) :
  (forall k s, (lo <= k < hi)%Z -> body k s = Ok (step s k)) ->
  forall s, for_range lo hi body s = Ok (fold_left step (zrange lo hi) s).
Proof.
  intros Hbody. remember (Z.to_nat (hi - lo)) as d eqn:Hd.
  revert lo Hbody Hd. induction d as [|d IH]; intros lo Hbody Hd s.
  - rewrite for_range_empty, zrange_empty by lia. reflexivity.
  - rewrite zrange_cons by lia. simpl.
    unfold for_range.
    replace (Z.to_nat (hi - lo)) with (Datatypes.S (Z.to_nat (hi - (lo + 1)))) by lia.
    simpl. rewrite Hbody by lia. simpl.
    apply (IH (lo + 1)%Z); [|lia]. intros k s0 Hk. apply Hbody. lia.
Qed.

(** ** Vectors *)

Lemma at_ok {T : Type} (v : list T) (i : Z) (d : T) :
  (0 <= i < Z.of_nat (length v))%Z -> at_ v i = Ok (nth (Z.to_nat i) v d).
Proof.
  intros Hi. unfold at_. destruct (Z.ltb_spec i 0); [lia|].
  now rewrite (nth_error_nth' v d) by lia.
Qed.

Lemma at_map_seq {T : Type} (g : nat -> T) (n : nat) (i : Z) :
  (0 <= i < Z.of_nat n)%Z -> at_ (map g (seq 0 n)) i = Ok (g (Z.to_nat i)).
Proof.
  intros Hi. unfold at_. destruct (Z.ltb_spec i 0); [lia|].
  rewrite nth_error_map, nth_error_seq.
  destruct (Nat.ltb_spec (Z.to_nat i) n); [reflexivity|lia].
Qed.

Lemma length_update {T : Type} (v : list T) (i : nat) (x : T) :
  length (update v i x) = length v.
Proof.
  revert i. induction v as [|h t IH]; intros [|i]; simpl; auto.
Qed.

Lemma nth_error_update {T : Type} (v : list T) (i k : nat) (x : T) :
  (i < length v)%nat ->
  nth_error (update v i x) k = if (k =? i)%nat then Some x else nth_error v k.
Proof.
  revert i k. induction v as [|h t IH]; intros i k Hi; simpl in Hi; [lia|].
  destruct i as [|i], k as [|k]; simpl; auto.
  apply IH. lia.
Qed.

Lemma update_map_seq {T : Type} (g : nat -> T) (n i : nat) (x : T) :
  (i < n)%nat ->
  update (map g (seq 0 n)) i x = map (fun k => if (k =? i)%nat then x else g k) (seq 0 n).
Proof.
  intros Hi. apply nth_error_ext. intros k.
  rewrite nth_error_update by now rewrite length_map, length_seq.
  rewrite !nth_error_map, nth_error_seq.
  destruct (Nat.ltb_spec k n); simpl.
  - destruct (Nat.eqb_spec k i); reflexivity.
  - destruct (Nat.eqb_spec k i); [lia|reflexivity].
Qed.

Lemma set_at_map_seq {T : Type} (g : nat -> T) (n : nat) (i : Z) (x : T) :
  (0 <= i < Z.of_nat n)%Z ->
  set_at (map g (seq 0 n)) i x
  = Ok (map (fun k => if (k =? Z.to_nat i)%nat then x else g k) (seq 0 n)).
Proof.
  intros Hi. unfold set_at. destruct (Z.ltb_spec i 0); [lia|].
  rewrite length_map, length_seq.
  destruct (Nat.ltb_spec (Z.to_nat i) n); [|lia].
  now rewrite update_map_seq.
Qed.

Lemma set_at_ok {T : Type} (v : list T) (i : Z) (x : T) :
  (0 <= i < Z.of_nat (length v))%Z -> set_at v i x = Ok (update v (Z.to_nat i) x).
Proof.
  intros Hi. unfold set_at. destruct (Z.ltb_spec i 0); [lia|].
  destruct (Nat.ltb_spec (Z.to_nat i) (length v)); [reflexivity|lia].
Qed.

(** Vectors given by their elements. *)

Lemma length_vec_of {T : Type} (n : nat) (f : Z -> T) : length (vec_of n f) = n.
Proof. unfold vec_of. now rewrite length_map, length_seq. Qed.

Lemma vec_of_ext {T : Type} (n : nat) (f g : Z -> T) :
  (forall i, (0 <= i < Z.of_nat n)%Z -> f i = g i) -> vec_of n f = vec_of n g.
Proof.
  intros Hfg. unfold vec_of. apply map_ext_in. intros k Hk.
  apply in_seq in Hk. apply Hfg. lia.
Qed.

Lemma nth_error_vec_of {T : Type} (n : nat) (f : Z -> T) (k : nat) :
  (k < n)%nat -> nth_error (vec_of n f) k = Some (f (Z.of_nat k)).
Proof.
  intros Hk. unfold vec_of. rewrite nth_error_map, nth_error_seq.
  destruct (Nat.ltb_spec k n); [reflexivity|lia].
Qed.

Lemma at_vec_of {T : Type} (n : nat) (f : Z -> T) (i : Z) :
  (0 <= i < Z.of_nat n)%Z -> at_ (vec_of n f) i = Ok (f i).
Proof.
  intros Hi. unfold vec_of. rewrite at_map_seq by lia. now rewrite Z2Nat.id by lia.
Qed.

Lemma set_at_vec_of {T : Type} (n : nat) (f : Z -> T) (i : Z) (v : T) :
  (0 <= i < Z.of_nat n)%Z ->
  set_at (vec_of n f) i v = Ok (vec_of n (fun k => if (k =? i)%Z then v else f k)).
Proof.
  intros Hi. unfold vec_of. rewrite set_at_map_seq by lia. f_equal.
  apply map_ext_in. intros k Hk. apply in_seq in Hk.
  destruct (Nat.eqb_spec k (Z.to_nat i)), (Z.eqb_spec (Z.of_nat k) i);
    try reflexivity; lia.
Qed.

Lemma repeat_vec_of {T : Type} (v : T) (n : nat) : repeat v n = vec_of n (fun _ => v).
Proof.
  unfold vec_of. generalize 0%nat. induction n as [|n IH]; intros s; simpl;
    [reflexivity|]. f_equal. apply IH.
Qed.

Lemma list_vec_of {T : Type} (l : list T) (d : T) :
  l = vec_of (length l) (fun i => nth (Z.to_nat i) l d).
Proof.
  apply nth_error_ext. intros k.
  destruct (Nat.ltb_spec k (length l)) as [Hk|Hk].
  - rewrite nth_error_vec_of by lia. rewrite Nat2Z.id. now apply nth_error_nth'.
  - transitivity (@None T); [|symmetry]; apply nth_error_None;
      [|rewrite length_vec_of]; lia.
Qed.

Lemma fold_zrange_snoc {S : Type} (g : S -> Z -> S) (lo j : Z) (s : S) :
  (lo <= j)%Z ->
  fold_left g (zrange lo (j + 1)) s = g (fold_left g (zrange lo j) s) j.
Proof.
  intros Hj. rewrite (zrange_split lo j (j + 1)) by lia.
  rewrite fold_left_app, (zrange_cons j) by lia.
  now rewrite zrange_empty by lia.
Qed.

(** ** Matrices *)

Section MatmulFacts.

Context {F : Type} `{Scalar F}.
Import Matmul.

Implicit Types (A B C M : Matrix2D (F := F)) (f g : Z -> Z -> F).

Lemma mat_of_ext (n : nat) f g :
  (forall i j, (0 <= i < Z.of_nat n)%Z -> (0 <= j < Z.of_nat n)%Z -> f i j = g i j) ->
  mat_of n f = mat_of n g.
Proof.
  intros Hfg. unfold mat_of. apply map_ext_in. intros i Hi.
  apply map_ext_in. intros j Hj. apply in_seq in Hi, Hj. apply Hfg; lia.
Qed.

Lemma square_mat_of (n : nat) f : square n (mat_of n f).
Proof.
  split.
  - unfold mat_of. now rewrite length_map, length_seq.
  - apply Forall_forall. intros row Hrow. unfold mat_of in Hrow.
    apply in_map_iff in Hrow as (i & <- & _). now rewrite length_map, length_seq.
Qed.

Lemma entry_mat_of (n : nat) f (i j : Z) :
  (0 <= i < Z.of_nat n)%Z -> (0 <= j < Z.of_nat n)%Z ->
  entry (mat_of n f) i j = f i j.
Proof.
  intros Hi Hj. unfold entry, mat_of.
  rewrite (nth_indep _ [] (map (fun j0 => f (Z.of_nat 0) (Z.of_nat j0)) (seq 0 n)))
    by (rewrite length_map, length_seq; lia).
  rewrite (map_nth (fun i0 => map (fun j0 => f (Z.of_nat i0) (Z.of_nat j0)) (seq 0 n))).
  rewrite seq_nth by lia. simpl.
  rewrite (nth_indep _ lit_0 (f (Z.of_nat (Z.to_nat i)) (Z.of_nat 0)))
    by (rewrite length_map, length_seq; lia).
  rewrite (map_nth (fun j0 => f (Z.of_nat (Z.to_nat i)) (Z.of_nat j0))).
  rewrite seq_nth by lia. simpl. f_equal; lia.
Qed.

(** A square matrix is determined by its entries. *)
Lemma square_is_mat_of (n : nat) M : square n M -> M = mat_of n (entry M).
Proof.
  intros [Hlen Hrows]. apply nth_error_ext. intros i.
  unfold mat_of. rewrite nth_error_map, nth_error_seq.
  destruct (Nat.ltb_spec i n) as [Hi|Hi]; simpl.
  - rewrite (nth_error_nth' M []) by lia. f_equal.
    assert (Hrow : length (nth i M []) = n).
    { rewrite Forall_forall in Hrows. apply Hrows, nth_In. lia. }
    apply nth_error_ext. intros j.
    rewrite nth_error_map, nth_error_seq.
    destruct (Nat.ltb_spec j n) as [Hj|Hj]; simpl.
    + assert (Hx : (j < length (nth i M []))%nat) by lia.
      rewrite (nth_error_nth' _ lit_0 Hx). unfold entry.
      now rewrite !Nat2Z.id.
    + apply nth_error_None. rewrite Hrow. lia.
  - apply nth_error_None. cbv [Matrix2D Vector1D] in *. lia.
Qed.

Lemma zeros_mat_of (n : nat) : zeros (Z.of_nat n) = mat_of n (fun _ _ => lit_0).
Proof.
  unfold zeros, mat_of. rewrite Nat2Z.id.
  assert (Hrep : forall (T : Type) (x : T) m s, repeat x m = map (fun _ => x) (seq s m)).
  { intros T x m. induction m as [|m IH]; intros s; simpl; [reflexivity|].
    f_equal. apply IH. }
  rewrite (Hrep _ _ n 0%nat). apply map_ext. intros _. apply Hrep.
Qed.

Lemma at2_mat_of (n : nat) f (i j : Z) :
  (0 <= i < Z.of_nat n)%Z -> (0 <= j < Z.of_nat n)%Z ->
  at2 (mat_of n f) i j = Ok (f i j).
Proof.
  intros Hi Hj. unfold at2, mat_of.
  rewrite at_map_seq by lia. simpl. rewrite at_map_seq by lia.
  f_equal. f_equal; lia.
Qed.

Lemma at2_square (n : nat) M (i j : Z) :
  square n M -> (0 <= i < Z.of_nat n)%Z -> (0 <= j < Z.of_nat n)%Z ->
  at2 M i j = Ok (entry M i j).
Proof.
  intros HM Hi Hj. rewrite (square_is_mat_of n M HM) at 1. now apply at2_mat_of.
Qed.

Lemma set2_mat_of (n : nat) f (i j : Z) (x : F) :
  (0 <= i < Z.of_nat n)%Z -> (0 <= j < Z.of_nat n)%Z ->
  set2 (mat_of n f) i j x = Ok (mat_of n (upd f i j x)).
Proof.
  intros Hi Hj. unfold set2, mat_of.
  rewrite at_map_seq by lia. simpl.
  rewrite set_at_map_seq by lia. simpl.
  rewrite set_at_map_seq by lia. f_equal.
  apply map_ext_in. intros i' Hi'. apply in_seq in Hi'.
  unfold upd. destruct (Nat.eqb_spec i' (Z.to_nat i)) as [->|Hne].
  - apply map_ext_in. intros j' Hj'. apply in_seq in Hj'.
    rewrite Z2Nat.id by lia. rewrite Z.eqb_refl. simpl.
    destruct (Nat.eqb_spec j' (Z.to_nat j)) as [->|Hnj].
    + rewrite Z2Nat.id by lia. now rewrite Z.eqb_refl.
    + destruct (Z.eqb_spec (Z.of_nat j') j); [lia|reflexivity].
  - apply map_ext_in. intros j' Hj'.
    destruct (Z.eqb_spec (Z.of_nat i') i); [lia|reflexivity].
Qed.

End MatmulFacts.

(** Case analysis on the integer tests that occur in a goal. *)
Ltac zcases :=
  repeat (match goal with
          | |- context [(?a <=? ?b)%Z] => destruct (Z.leb_spec a b)
          | |- context [(?a <? ?b)%Z] => destruct (Z.ltb_spec a b)
          | |- context [(?a =? ?b)%Z] => destruct (Z.eqb_spec a b)
          end; try lia; cbn [andb orb]);
  try reflexivity; try lia; try (subst; reflexivity).

Section MatmulLoops.

Context {F : Type} `{Scalar F}.
Import Matmul.

Implicit Types (A B C M : Matrix2D (F := F)) (f g : Z -> Z -> F).

(** The innermost loop: [sum += a_k * b_k] for [k] from [lo] to [hi - 1]. *)
Lemma kloop_fold (ga gb : Z -> res F) (fa fb : Z -> F) (lo hi : Z) (s0 : F) :
  (forall k, (lo <= k < hi)%Z -> ga k = Ok (fa k) /\ gb k = Ok (fb k)) ->
  for_range lo hi (fun k sum => a <- ga k ;; b <- gb k ;; Ok (sum [+] a [*] b)) s0
  = Ok (fold_left (fun s k => s [+] fa k [*] fb k) (zrange lo hi) s0).
Proof.
  intros Hk. apply (for_range_fold _ (fun s k => s [+] fa k [*] fb k)).
  intros k s Hin. destruct (Hk k Hin) as [-> ->]. reflexivity.
Qed.

Lemma kloop_accum (n : nat) A B (i j lo hi : Z) (s0 : F) :
  square n A -> square n B ->
  (0 <= i < Z.of_nat n)%Z -> (0 <= j < Z.of_nat n)%Z ->
  (0 <= lo)%Z -> (hi <= Z.of_nat n)%Z ->
  for_range lo hi (fun k sum => a <- at2 A i k ;; b <- at2 B k j ;; Ok (sum [+] a [*] b)) s0
  = Ok (accum A B i j (zrange lo hi) s0).
Proof.
  intros HA HB Hi Hj Hlo Hhi. unfold accum.
  apply (kloop_fold (fun k => at2 A i k) (fun k => at2 B k j)
                    (fun k => entry A i k) (fun k => entry B k j)).
  intros k Hk. split; apply (at2_square n); auto; lia.
Qed.

Lemma accum_app A B (i j : Z) (ks ks' : list Z) (s0 : F) :
  accum A B i j (ks ++ ks') s0 = accum A B i j ks' (accum A B i j ks s0).
Proof. unfold accum. apply fold_left_app. Qed.

(** Two nested counted loops that rewrite the cells of a rectangle, each
    cell from its own old value. *)
Lemma cell_loops (n : nat) (a b c d : Z) (h : Z -> Z -> F -> F)
      (body : Z -> Z -> Matrix2D -> res Matrix2D) f :
  (0 <= a <= b)%Z -> (b <= Z.of_nat n)%Z -> (0 <= c <= d)%Z -> (d <= Z.of_nat n)%Z ->
  (forall i j f', (a <= i < b)%Z -> (c <= j < d)%Z ->
                  body i j (mat_of n f') = Ok (mat_of n (upd f' i j (h i j (f' i j))))) ->
  for_range a b (fun i C => for_range c d (fun j C => body i j C) C) (mat_of n f)
  = Ok (mat_of n (fun i j => if inb a b i && inb c d j then h i j (f i j) else f i j)).
Proof.
  intros Hab Hb Hcd Hd Hbody.
  destruct (for_range_inv
              (fun i C => C = mat_of n (fun i' j' =>
                 if inb a i i' && inb c d j' then h i' j' (f i' j') else f i' j'))
              (fun i C => for_range c d (fun j C => body i j C) C)
              a b (mat_of n f)) as (C' & Hrun & HC'); [lia| | |].
  - apply mat_of_ext. intros i j Hi Hj. unfold inb. zcases.
  - intros i C Hi ->.
    destruct (for_range_inv
                (fun j C => C = mat_of n (fun i' j' =>
                   if (inb a i i' && inb c d j') || ((i' =? i)%Z && inb c j j')
                   then h i' j' (f i' j') else f i' j'))
                (fun j C => body i j C)
                c d (mat_of n (fun i' j' =>
                   if inb a i i' && inb c d j' then h i' j' (f i' j') else f i' j')))
      as (C' & Hrun & HC'); [lia| | |].
    + apply mat_of_ext. intros i' j' Hi' Hj'. unfold inb. zcases.
    + intros j C Hj ->. eexists. split.
      * apply Hbody; lia.
      * apply mat_of_ext. intros i' j' Hi' Hj'. unfold upd, inb. zcases.
    + exists C'. split; [exact Hrun|]. rewrite HC'.
      apply mat_of_ext. intros i' j' Hi' Hj'. unfold inb. zcases.
  - now rewrite Hrun, HC'.
Qed.

(** One tile of [matmul_blocked]: the cells of the tile take the terms
    [kk <= k < k_max] on top of what they hold. *)
Lemma tile_pass (n : nat) A B f (ii i_max jj j_max kk k_max : Z) :
  square n A -> square n B ->
  (0 <= ii <= i_max)%Z -> (i_max <= Z.of_nat n)%Z ->
  (0 <= jj <= j_max)%Z -> (j_max <= Z.of_nat n)%Z ->
  (0 <= kk)%Z -> (k_max <= Z.of_nat n)%Z ->
  for_range ii i_max (fun i C =>
    for_range jj j_max (fun j C =>
      sum0 <- at2 C i j ;;
      sum <- for_range kk k_max (fun k sum =>
               a <- at2 A i k ;;
               b <- at2 B k j ;;
               Ok (sum [+] a [*] b)) sum0 ;;
      set2 C i j sum) C) (mat_of n f)
  = Ok (mat_of n (fun i j =>
          if inb ii i_max i && inb jj j_max j
          then accum A B i j (zrange kk k_max) (f i j) else f i j)).
Proof.
  intros HA HB Hii Himax Hjj Hjmax Hkk Hkmax.
  apply (cell_loops n ii i_max jj j_max
                    (fun i j v => accum A B i j (zrange kk k_max) v)); auto.
  intros i j f' Hi Hj.
  rewrite at2_mat_of by lia. simpl.
  rewrite (kloop_accum n) by (auto; lia). simpl.
  apply set2_mat_of; lia.
Qed.

(** The [kk] loop of [matmul_blocked] for one pair of row and column tiles. *)
Lemma kk_loop (n fuel : nat) A B f (block_size ii jj : Z) :
  square n A -> square n B ->
  (1 <= block_size)%Z -> (n <= fuel)%nat ->
  (0 <= ii < Z.of_nat n)%Z -> (0 <= jj < Z.of_nat n)%Z ->
  for_step fuel 0 (Z.of_nat n) block_size (fun kk C =>
    let i_max := Z.min (ii + block_size) (Z.of_nat n) in
    let j_max := Z.min (jj + block_size) (Z.of_nat n) in
    let k_max := Z.min (kk + block_size) (Z.of_nat n) in
    for_range ii i_max (fun i C =>
      for_range jj j_max (fun j C =>
        sum0 <- at2 C i j ;;
        sum <- for_range kk k_max (fun k sum =>
                 a <- at2 A i k ;;
                 b <- at2 B k j ;;
                 Ok (sum [+] a [*] b)) sum0 ;;
        set2 C i j sum) C) C) (mat_of n f)
  = Ok (mat_of n (fun i j =>
          if inb ii (Z.min (ii + block_size) (Z.of_nat n)) i
             && inb jj (Z.min (jj + block_size) (Z.of_nat n)) j
          then accum A B i j (zrange 0 (Z.of_nat n)) (f i j) else f i j)).
Proof.
  intros HA HB Hbs Hfuel Hii Hjj.
  set (i_max := Z.min (ii + block_size) (Z.of_nat n)).
  set (j_max := Z.min (jj + block_size) (Z.of_nat n)).
  match goal with |- for_step _ _ _ _ ?body _ = _ =>
    destruct (for_step_inv
                (fun kk C => C = mat_of n (fun i j =>
                   if inb ii i_max i && inb jj j_max j
                   then accum A B i j (zrange 0 (Z.min kk (Z.of_nat n))) (f i j)
                   else f i j))
                body (Z.of_nat n) block_size ltac:(lia) fuel 0%Z (mat_of n f))
      as (C' & k' & Hrun & Hk' & _ & HC')
  end; [lia| | |].
  - apply mat_of_ext. intros i j Hi Hj.
    replace (Z.min 0 (Z.of_nat n)) with 0%Z by lia.
    rewrite zrange_empty by lia. simpl. now destruct (_ && _).
  - intros kk C Hkk ->. eexists. split.
    + apply (tile_pass n); auto; subst i_max j_max; lia.
    + apply mat_of_ext. intros i j Hi Hj. simpl.
      destruct (inb ii i_max i && inb jj j_max j); [|reflexivity].
      rewrite <- accum_app. f_equal.
      replace (Z.min kk (Z.of_nat n)) with kk by lia.
      symmetry. apply zrange_split. lia.
  - rewrite Hrun, HC'. f_equal. apply mat_of_ext. intros i j Hi Hj.
    now replace (Z.min k' (Z.of_nat n)) with (Z.of_nat n) by lia.
Qed.

(** The [jj] loop of [matmul_blocked] for one row tile. *)
Lemma jj_loop (n fuel : nat) A B f (block_size ii : Z) :
  square n A -> square n B ->
  (1 <= block_size)%Z -> (n <= fuel)%nat ->
  (0 <= ii < Z.of_nat n)%Z ->
  for_step fuel 0 (Z.of_nat n) block_size (fun jj C =>
    for_step fuel 0 (Z.of_nat n) block_size (fun kk C =>
      let i_max := Z.min (ii + block_size) (Z.of_nat n) in
      let j_max := Z.min (jj + block_size) (Z.of_nat n) in
      let k_max := Z.min (kk + block_size) (Z.of_nat n) in
      for_range ii i_max (fun i C =>
        for_range jj j_max (fun j C =>
          sum0 <- at2 C i j ;;
          sum <- for_range kk k_max (fun k sum =>
                   a <- at2 A i k ;;
                   b <- at2 B k j ;;
                   Ok (sum [+] a [*] b)) sum0 ;;
          set2 C i j sum) C) C) C) (mat_of n f)
  = Ok (mat_of n (fun i j =>
          if inb ii (Z.min (ii + block_size) (Z.of_nat n)) i
          then accum A B i j (zrange 0 (Z.of_nat n)) (f i j) else f i j)).
Proof.
  intros HA HB Hbs Hfuel Hii.
  set (i_max := Z.min (ii + block_size) (Z.of_nat n)).
  match goal with |- for_step _ _ _ _ ?body _ = _ =>
    destruct (for_step_inv
                (fun jj C => C = mat_of n (fun i j =>
                   if inb ii i_max i && inb 0 (Z.min jj (Z.of_nat n)) j
                   then accum A B i j (zrange 0 (Z.of_nat n)) (f i j)
                   else f i j))
                body (Z.of_nat n) block_size ltac:(lia) fuel 0%Z (mat_of n f))
      as (C' & j' & Hrun & Hj' & _ & HC')
  end; [lia| | |].
  - apply mat_of_ext. intros i j Hi Hj. unfold inb. zcases.
  - intros jj C Hjj ->. eexists. split.
    + apply (kk_loop n fuel); auto.
    + apply mat_of_ext. intros i j Hi Hj. fold i_max. unfold inb. zcases.
  - rewrite Hrun, HC'. f_equal. apply mat_of_ext. intros i j Hi Hj.
    unfold inb. zcases.
Qed.

Lemma square_nonempty (n : nat) M :
  square n M -> (0 < n)%nat -> empty M = false.
Proof.
  intros [Hlen _] Hn. destruct M; [simpl in Hlen; lia|reflexivity].
Qed.

Lemma square_0 M : square 0 M -> M = [].
Proof. intros [Hlen _]. now destruct M. Qed.

Lemma square_length (n : nat) M : square n M -> Z.of_nat (length M) = Z.of_nat n.
Proof. intros [-> _]. reflexivity. Qed.

(** What [matmul_naive] returns. *)
Lemma matmul_naive_product (n : nat) A B :
  square n A -> square n B -> matmul_naive A B = Ok (product n A B).
Proof.
  intros HA HB. unfold matmul_naive. destruct n as [|n'].
  - now rewrite (square_0 A HA).
  - set (n := Datatypes.S n') in *.
    rewrite (square_nonempty n A), (square_nonempty n B) by (auto; lia). cbn [orb].
    rewrite (square_length n A HA), zeros_mat_of.
    rewrite (cell_loops n 0 (Z.of_nat n) 0 (Z.of_nat n)
               (fun i j _ => accum A B i j (zrange 0 (Z.of_nat n)) lit_0)); try lia.
    + f_equal. apply mat_of_ext. intros i j Hi Hj. unfold inb. zcases.
    + intros i j f' Hi Hj.
      rewrite (kloop_accum n) by (auto; lia). cbn [bind].
      apply set2_mat_of; lia.
Qed.

(** What [matmul_blocked] returns once the budget covers the [n] tiles a
    dimension can have. *)
Lemma matmul_blocked_product (n fuel : nat) A B (block_size : Z) :
  square n A -> square n B ->
  (1 <= block_size)%Z -> (n <= fuel)%nat ->
  matmul_blocked fuel A B block_size = Ok (product n A B).
Proof.
  intros HA HB Hbs Hfuel. unfold matmul_blocked. destruct n as [|n'].
  - now rewrite (square_0 A HA).
  - set (n := Datatypes.S n') in *.
    rewrite (square_nonempty n A), (square_nonempty n B) by (auto; lia). cbn [orb].
    rewrite (square_length n A HA), zeros_mat_of.
    match goal with |- for_step _ _ _ _ ?body ?C0 = _ =>
      destruct (for_step_inv
                  (fun ii C => C = mat_of n (fun i j =>
                     if inb 0 (Z.min ii (Z.of_nat n)) i
                     then accum A B i j (zrange 0 (Z.of_nat n)) lit_0
                     else lit_0))
                  body (Z.of_nat n) block_size ltac:(lia) fuel 0%Z C0)
        as (C' & i' & Hrun & Hi' & _ & HC')
    end; [lia| | |].
    + apply mat_of_ext. intros i j Hi Hj. unfold inb. zcases.
    + intros ii C Hii ->. eexists. split.
      * apply (jj_loop n fuel); auto.
      * apply mat_of_ext. intros i j Hi Hj. unfold inb. zcases.
    + rewrite Hrun, HC'. f_equal. apply mat_of_ext. intros i j Hi Hj.
      unfold inb. zcases.
Qed.

(** The transposed copy [B_T] that [matmul_transpose] builds. *)
Lemma transpose_copy (n : nat) B :
  square n B ->
  for_range 0 (Z.of_nat n) (fun i B_T =>
    for_range 0 (Z.of_nat n) (fun j B_T =>
      b <- at2 B i j ;;
      set2 B_T j i b) B_T) (mat_of n (fun _ _ => lit_0))
  = Ok (mat_of n (fun r c => entry B c r)).
Proof.
  intros HB.
  match goal with |- for_range _ _ ?body ?C0 = _ =>
    destruct (for_range_inv
                (fun i B_T => B_T = mat_of n (fun r c =>
                   if inb 0 i c then entry B c r else lit_0))
                body 0 (Z.of_nat n) C0) as (T & Hrun & HT)
  end; [lia| | |].
  - apply mat_of_ext. intros r c Hr Hc. unfold inb. zcases.
  - intros i B_T Hi ->.
    match goal with |- exists _, for_range _ _ ?body ?C0 = _ /\ _ =>
      destruct (for_range_inv
                  (fun j B_T => B_T = mat_of n (fun r c =>
                     if inb 0 i c || ((c =? i)%Z && inb 0 j r)
                     then entry B c r else lit_0))
                  body 0 (Z.of_nat n) C0) as (T & Hrun & HT)
    end; [lia| | |].
    + apply mat_of_ext. intros r c Hr Hc. unfold inb. zcases.
    + intros j B_T Hj ->. eexists. split.
      * rewrite (at2_square n) by (auto; lia). cbn [bind]. apply set2_mat_of; lia.
      * apply mat_of_ext. intros r c Hr Hc. unfold upd, inb. zcases.
    + exists T. split; [exact Hrun|]. rewrite HT.
      apply mat_of_ext. intros r c Hr Hc. unfold inb. zcases.
  - rewrite Hrun, HT. f_equal. apply mat_of_ext. intros r c Hr Hc.
    unfold inb. zcases.
Qed.

(** What [matmul_transpose] returns. *)
Lemma matmul_transpose_product (n : nat) A B :
  square n A -> square n B -> matmul_transpose A B = Ok (product n A B).
Proof.
  intros HA HB. unfold matmul_transpose. destruct n as [|n'].
  - now rewrite (square_0 A HA).
  - set (n := Datatypes.S n') in *.
    rewrite (square_nonempty n A), (square_nonempty n B) by (auto; lia). cbn [orb].
    rewrite (square_length n A HA), zeros_mat_of.
    rewrite (transpose_copy n B HB). cbn [bind].
    rewrite (cell_loops n 0 (Z.of_nat n) 0 (Z.of_nat n)
               (fun i j _ => accum A B i j (zrange 0 (Z.of_nat n)) lit_0)); try lia.
    + f_equal. apply mat_of_ext. intros i j Hi Hj. unfold inb. zcases.
    + intros i j f' Hi Hj.
      rewrite (kloop_fold (fun k => at2 A i k)
                          (fun k => at2 (mat_of n (fun r c => entry B c r)) j k)
                          (fun k => entry A i k) (fun k => entry B k j)).
      * cbn [bind]. apply set2_mat_of; lia.
      * intros k Hk. split.
        -- apply (at2_square n); auto; lia.
        -- now rewrite at2_mat_of by lia.
Qed.

(** A block size that is not positive never advances the tile loops (a
    negative one walks the tile index down without end, in the model). *)
Lemma matmul_blocked_stuck (n fuel : nat) A B (block_size : Z) :
  square n A -> square n B -> (0 < n)%nat -> (block_size <= 0)%Z ->
  matmul_blocked fuel A B block_size = Err OutOfFuel.
Proof.
  intros HA HB Hn Hbs. unfold matmul_blocked.
  rewrite (square_nonempty n A), (square_nonempty n B) by auto. simpl.
  rewrite (square_length n A HA).
  assert (Hkk : forall ii jj C,
    for_step fuel 0 (Z.of_nat n) block_size (fun kk C =>
      let i_max := Z.min (ii + block_size) (Z.of_nat n) in
      let j_max := Z.min (jj + block_size) (Z.of_nat n) in
      let k_max := Z.min (kk + block_size) (Z.of_nat n) in
      for_range ii i_max (fun i C =>
        for_range jj j_max (fun j C =>
          sum0 <- at2 C i j ;;
          sum <- for_range kk k_max (fun k sum =>
                   a <- at2 A i k ;;
                   b <- at2 B k j ;;
                   Ok (sum [+] a [*] b)) sum0 ;;
          set2 C i j sum) C) C) C = Err OutOfFuel).
  { intros ii jj C. apply for_step_stuck; [lia| |lia].
    intros kk C0. exists C0. simpl. apply for_range_empty. lia. }
  apply for_step_body_out; [lia|].
  apply for_step_body_out; [lia|].
  apply Hkk.
Qed.

End MatmulLoops.

(** ** The three multiplication strategies *)

(** The identity times the identity, on binary64. *)
Example matmul_naive_identity : Matmul.matmul_naive Samples.I2 Samples.I2 = Ok Samples.I2.
Proof. vm_compute. reflexivity. Qed.

(** A 3 by 3 product with tiles of size 2: the last tile of each dimension
    has one row or column. *)
Example matmul_blocked_3_by_2 :
  Matmul.matmul_blocked 3 Samples.A3 Samples.B3 2
  = Ok [[30; 25; 15.375]; [66; 51.25; 42.75]; [102; 77.5; 70.125]]%float.
Proof. vm_compute. reflexivity. Qed.

(** C4. For two [n] by [n] matrices, [n >= 0], [matmul_naive] returns an
    [n] by [n] matrix whose cell [(i, j)] is the sum of [A[i][k] * B[k][j]]
    for [k = 0, ..., n - 1], accumulated from [0.0] in increasing [k]; for
    [n = 0] it returns the empty matrix.  The scalar operations are
    arbitrary, so the statement covers binary64 with its rounding. *)
Theorem matmul_naive_sums (F : Type) (SF : Scalar F) (n : nat)
        (A B : Matmul.Matrix2D) :
  Matmul.square n A -> Matmul.square n B ->
  exists C,
    Matmul.matmul_naive A B = Ok C /\
    Matmul.square n C /\
    (forall i j, (0 <= i < Z.of_nat n)%Z -> (0 <= j < Z.of_nat n)%Z ->
       Matmul.entry C i j
       = fold_left (fun sum k => sum [+] Matmul.entry A i k [*] Matmul.entry B k j)
                   (zrange 0 (Z.of_nat n)) lit_0) /\
    (n = 0%nat -> C = []).
Proof.
  intros HA HB. exists (Matmul.product n A B).
  split; [now apply matmul_naive_product|].
  split; [apply square_mat_of|].
  split.
  - intros i j Hi Hj. unfold Matmul.product. now rewrite entry_mat_of.
  - intros ->. reflexivity.
Qed.

Lemma matmul_naive_sums_witness :
  exists C,
    Matmul.matmul_naive Samples.I2 Samples.I2 = Ok C /\
    Matmul.square 2 C /\
    (forall i j, (0 <= i < 2)%Z -> (0 <= j < 2)%Z ->
       Matmul.entry C i j
       = fold_left (fun sum k => sum [+] Matmul.entry Samples.I2 i k
                                    [*] Matmul.entry Samples.I2 k j)
                   (zrange 0 2) lit_0) /\
    (2%nat = 0%nat -> C = []).
Proof.
  apply (matmul_naive_sums float Scalar_float 2 Samples.I2 Samples.I2).
  - split; [reflexivity|repeat constructor].
  - split; [reflexivity|repeat constructor].
Defined.

(** C1. For square matrices of the same size and a block size of at least
    one, [matmul_naive], [matmul_blocked] and [matmul_transpose] return the
    same matrix, cell for cell: every strategy adds the same products to the
    same cell in the same order, whatever the scalar operations are, so on
    binary64 the results are bit-identical.  [fuel] is the iteration budget
    of the tile loops; [n] iterations suffice. *)
Theorem matmul_strategies_agree (F : Type) (SF : Scalar F) (n fuel : nat)
        (A B : Matmul.Matrix2D) (block_size : Z) :
  Matmul.square n A -> Matmul.square n B ->
  (1 <= block_size)%Z -> (n <= fuel)%nat ->
  exists C,
    Matmul.matmul_naive A B = Ok C /\
    Matmul.matmul_blocked fuel A B block_size = Ok C /\
    Matmul.matmul_transpose A B = Ok C.
Proof.
  intros HA HB Hbs Hfuel. exists (Matmul.product n A B). repeat split.
  - now apply matmul_naive_product.
  - now apply matmul_blocked_product.
  - now apply matmul_transpose_product.
Qed.

Lemma matmul_strategies_agree_witness :
  exists C,
    Matmul.matmul_naive Samples.A3 Samples.B3 = Ok C /\
    Matmul.matmul_blocked 3 Samples.A3 Samples.B3 2 = Ok C /\
    Matmul.matmul_transpose Samples.A3 Samples.B3 = Ok C.
Proof.
  apply (matmul_strategies_agree float Scalar_float 3 3
           Samples.A3 Samples.B3 2).
  - split; [reflexivity|repeat constructor].
  - split; [reflexivity|repeat constructor].
  - lia.
  - lia.
Defined.

(** C8. For a block size of at least one and two [n] by [n] matrices,
    [matmul_blocked] terminates (an iteration budget of [n] per tile loop is
    enough) without ever indexing outside a vector, and returns an [n] by
    [n] matrix: the tile bounds [min(start + block_size, n)] keep the last
    tile inside the matrix, also when [block_size] does not divide [n], and
    each cell receives the [n] products of its row and column and nothing
    else. *)
Theorem matmul_blocked_terminates (F : Type) (SF : Scalar F) (n fuel : nat)
        (A B : Matmul.Matrix2D) (block_size : Z) :
  Matmul.square n A -> Matmul.square n B ->
  (1 <= block_size)%Z -> (n <= fuel)%nat ->
  exists C,
    Matmul.matmul_blocked fuel A B block_size = Ok C /\
    Matmul.square n C /\
    (forall i j, (0 <= i < Z.of_nat n)%Z -> (0 <= j < Z.of_nat n)%Z ->
       Matmul.entry C i j = Matmul.accum A B i j (zrange 0 (Z.of_nat n)) lit_0).
Proof.
  intros HA HB Hbs Hfuel. exists (Matmul.product n A B).
  split; [now apply matmul_blocked_product|].
  split; [apply square_mat_of|].
  intros i j Hi Hj. unfold Matmul.product. now rewrite entry_mat_of.
Qed.

Lemma matmul_blocked_terminates_witness :
  exists C,
    Matmul.matmul_blocked 3 Samples.A3 Samples.B3 2 = Ok C /\
    Matmul.square 3 C /\
    (forall i j, (0 <= i < 3)%Z -> (0 <= j < 3)%Z ->
       Matmul.entry C i j
       = Matmul.accum Samples.A3 Samples.B3 i j (zrange 0 3) lit_0).
Proof.
  apply (matmul_blocked_terminates float Scalar_float 3 3
           Samples.A3 Samples.B3 2).
  - split; [reflexivity|repeat constructor].
  - split; [reflexivity|repeat constructor].
  - lia.
  - lia.
Defined.

(** X1. A block size of zero is outside the contract for a reason: on a
    non-empty matrix the tile loops of [matmul_blocked] never advance, and
    the call does not return, whatever the budget. *)
Theorem matmul_blocked_zero_block_size (F : Type) (SF : Scalar F) (n fuel : nat)
        (A B : Matmul.Matrix2D) :
  Matmul.square n A -> Matmul.square n B -> (0 < n)%nat ->
  Matmul.matmul_blocked fuel A B 0 = Err OutOfFuel.
Proof. intros HA HB Hn. apply (matmul_blocked_stuck n); auto. lia. Qed.

Lemma matmul_blocked_zero_block_size_witness :
  Matmul.matmul_blocked 1000 Samples.A3 Samples.B3 0 = Err OutOfFuel.
Proof.
  apply (matmul_blocked_zero_block_size float Scalar_float 3 1000
           Samples.A3 Samples.B3).
  - split; [reflexivity|repeat constructor].
  - split; [reflexivity|repeat constructor].
  - lia.
Defined.

(** Multiplying by the identity, in exact real arithmetic. *)
Lemma accum_identity (n : nat) (A : Matmul.Matrix2D (F := R)) (i j : Z) (k : nat) :
  (0 <= j < Z.of_nat n)%Z -> (k <= n)%nat ->
  Matmul.accum A (Matmul.identity n) i j (zrange 0 (Z.of_nat k)) lit_0
  = if (j <? Z.of_nat k)%Z then Matmul.entry A i j else lit_0.
Proof.
  intros Hj. induction k as [|k IH]; intros Hk.
  - simpl. destruct (Z.ltb_spec j 0); [lia|reflexivity].
  - replace (Z.of_nat (Datatypes.S k)) with (Z.of_nat k + 1)%Z by lia.
    unfold Matmul.accum in *. rewrite fold_zrange_snoc by lia.
    rewrite IH by lia. unfold Matmul.identity.
    rewrite entry_mat_of by lia. cbn [add mul Scalar_R lit_0 lit_1].
    destruct (Z.ltb_spec j (Z.of_nat k)), (Z.ltb_spec j (Z.of_nat k + 1)),
      (Z.eqb_spec (Z.of_nat k) j); try lia; subst; ring.
Qed.

(** X2. In exact real arithmetic the three strategies return [A] when [A] is
    multiplied by the identity matrix. *)
Theorem matmul_by_identity (n fuel : nat) (A : Matmul.Matrix2D (F := R)) (block_size : Z) :
  Matmul.square n A -> (1 <= block_size)%Z -> (n <= fuel)%nat ->
  Matmul.matmul_naive A (Matmul.identity n) = Ok A /\
  Matmul.matmul_blocked fuel A (Matmul.identity n) block_size = Ok A /\
  Matmul.matmul_transpose A (Matmul.identity n) = Ok A.
Proof.
  intros HA Hbs Hfuel.
  assert (HI : Matmul.square n (Matmul.identity n)) by apply square_mat_of.
  assert (HP : Matmul.product n A (Matmul.identity n) = A).
  { rewrite (square_is_mat_of n A HA) at 2. unfold Matmul.product.
    apply mat_of_ext. intros i j Hi Hj.
    rewrite (accum_identity n A i j n) by lia.
    destruct (Z.ltb_spec j (Z.of_nat n)); [reflexivity|lia]. }
  rewrite <- HP at 2 4 6. repeat split.
  - now apply matmul_naive_product.
  - now apply matmul_blocked_product.
  - now apply matmul_transpose_product.
Qed.

Lemma matmul_by_identity_witness :
  Matmul.matmul_naive [[2; 3]; [5; 7]]%R (Matmul.identity 2) = Ok [[2; 3]; [5; 7]]%R /\
  Matmul.matmul_blocked 2 [[2; 3]; [5; 7]]%R (Matmul.identity 2) 1 = Ok [[2; 3]; [5; 7]]%R /\
  Matmul.matmul_transpose [[2; 3]; [5; 7]]%R (Matmul.identity 2) = Ok [[2; 3]; [5; 7]]%R.
Proof.
  apply (matmul_by_identity 2 2 [[2; 3]; [5; 7]]%R 1).
  - split; [reflexivity|repeat constructor].
  - lia.
  - lia.
Defined.

(** ** The fast transforms on a length that is not a power of two *)

Lemma land_even_odd (a b : Z) : Z.land (2 * a) (2 * b + 1) = (2 * Z.land a b)%Z.
Proof.
  apply Z.bits_inj'. intros k Hk. rewrite Z.land_spec.
  destruct (Z.eq_dec k 0) as [->|Hne].
  - now rewrite !Z.testbit_even_0.
  - replace k with (Z.succ (k - 1)) by lia.
    rewrite !Z.testbit_even_succ, Z.testbit_odd_succ by lia.
    now rewrite Z.land_spec.
Qed.

(** [N & (N - 1)] vanishes on a positive [N] only when [N] is a power of two. *)
Lemma land_pred_pow2 (p : positive) :
  Z.land (Z.pos p) (Z.pos p - 1) = 0%Z -> exists k : nat, Z.pos p = (2 ^ Z.of_nat k)%Z.
Proof.
  induction p as [p IH|p IH|]; intros Hland.
  - exfalso.
    replace (Z.pos p~1 - 1)%Z with (2 * Z.pos p)%Z in Hland by lia.
    replace (Z.pos p~1) with (2 * Z.pos p + 1)%Z in Hland by lia.
    rewrite Z.land_comm, land_even_odd, Z.land_diag in Hland. lia.
  - replace (Z.pos p~0 - 1)%Z with (2 * (Z.pos p - 1) + 1)%Z in Hland by lia.
    replace (Z.pos p~0) with (2 * Z.pos p)%Z in Hland by lia.
    rewrite land_even_odd in Hland.
    destruct IH as (k & Hk); [lia|].
    exists (Datatypes.S k).
    rewrite Nat2Z.inj_succ, Z.pow_succ_r by lia. lia.
  - exists O. reflexivity.
Qed.

Lemma not_pow2_true (n : nat) :
  (0 < n)%nat -> ~ power_of_two n -> FFT.not_pow2 (Z.of_nat n) = true.
Proof.
  intros Hn Hnp. unfold FFT.not_pow2.
  destruct (Z.eqb_spec (Z.land (Z.of_nat n) (Z.of_nat n - 1)) 0) as [Hz|]; [|reflexivity].
  exfalso. apply Hnp.
  destruct (Z.of_nat n) as [|p|p] eqn:Hp; try lia.
  destruct (land_pred_pow2 p Hz) as (k & Hk). exists k.
  apply Nat2Z.inj. rewrite Hp, Hk.
  rewrite Nat2Z.inj_pow. reflexivity.
Qed.

Section FFTFacts.

Context {F : Type} `{Scalar F}.
Variables (cos sin : F -> F) (M_PI : F).
Variable cmul : @FFT.Complex F -> @FFT.Complex F -> @FFT.Complex F.

#[local] Abbreviation dft_naive := (FFT.dft_naive cos sin M_PI cmul).
#[local] Abbreviation fft_cooley_tukey := (FFT.fft_cooley_tukey cos sin M_PI cmul).
#[local] Abbreviation fft_iterative := (FFT.fft_iterative cos sin M_PI cmul).
#[local] Abbreviation fft_cooley_tukey_cy := (FFT.fft_cooley_tukey_cy cos sin M_PI cmul).
#[local] Abbreviation fft_iterative_cy := (FFT.fft_iterative_cy cos sin M_PI cmul).

(** The naive transform returns, for every input, a sequence of the input's
    length. *)
Lemma dft_naive_returns (x : @FFT.ComplexVector F) :
  exists X, dft_naive x = Ok X /\ length X = length x.
Proof.
  unfold FFT.dft_naive.
  set (N := Z.of_nat (length x)).
  match goal with |- exists _, for_range _ _ ?body ?X0 = _ /\ _ =>
    destruct (for_range_inv (fun _ X => length X = length x) body 0 N X0)
      as (X & Hrun & HX)
  end.
  - lia.
  - rewrite repeat_length. subst N. lia.
  - intros k X Hk HX.
    rewrite (for_range_fold _
               (fun s n =>
                  FFT.cadd s
                    (cmul (nth (Z.to_nat n) x (FFT.cplx lit_0 lit_0))
                          (FFT.cplx
                             (cos (opp lit_2 [*] M_PI [*] of_int k [*] of_int n [/] of_int N))
                             (sin (opp lit_2 [*] M_PI [*] of_int k [*] of_int n [/] of_int N)))))).
    + cbn [bind]. rewrite set_at_ok by (subst N; lia).
      eexists. split; [reflexivity|]. now rewrite length_update.
    + intros n s Hn. cbv zeta.
      rewrite (at_ok x n (FFT.cplx lit_0 lit_0)) by (subst N; lia). reflexivity.
  - exists X. split; [exact Hrun|exact HX].
Qed.

Lemma fft_cooley_tukey_fallback (fuel : nat) (x : @FFT.ComplexVector F) :
  (0 < fuel)%nat -> ~ power_of_two (length x) ->
  fft_cooley_tukey fuel x = dft_naive x.
Proof.
  intros Hfuel Hnp. destruct fuel as [|fuel]; [lia|].
  destruct x as [|a [|b x]].
  - reflexivity.
  - exfalso. apply Hnp. exists O. reflexivity.
  - cbn [FFT.fft_cooley_tukey].
    destruct (Z.leb_spec (Z.of_nat (length (a :: b :: x))) 1) as [Hle|_];
      [simpl length in Hle; lia|].
    rewrite not_pow2_true; [reflexivity|simpl; lia|exact Hnp].
Qed.

Lemma fft_iterative_fallback (fuel : nat) (x : @FFT.ComplexVector F) :
  ~ power_of_two (length x) -> fft_iterative fuel x = dft_naive x.
Proof.
  intros Hnp. destruct x as [|a x].
  - unfold FFT.fft_iterative, FFT.bit_reversal, FFT.butterflies.
    destruct fuel; reflexivity.
  - unfold FFT.fft_iterative.
    rewrite not_pow2_true; [reflexivity|simpl; lia|exact Hnp].
Qed.

(** The Cython functions raise instead. *)
Lemma fft_cooley_tukey_cy_raises (fuel : nat) (x : @FFT.ComplexVector F) :
  (0 < fuel)%nat -> (2 <= length x)%nat -> ~ power_of_two (length x) ->
  fft_cooley_tukey_cy fuel x = Err ValueError.
Proof.
  intros Hfuel Hlen Hnp. destruct fuel as [|fuel]; [lia|].
  cbn [FFT.fft_cooley_tukey_cy].
  destruct (Z.leb_spec (Z.of_nat (length x)) 1) as [Hle|_]; [lia|].
  rewrite not_pow2_true; [reflexivity|lia|exact Hnp].
Qed.

Lemma fft_iterative_cy_raises (fuel : nat) (x : @FFT.ComplexVector F) :
  (2 <= length x)%nat -> ~ power_of_two (length x) ->
  fft_iterative_cy fuel x = Err ValueError.
Proof.
  intros Hlen Hnp. unfold FFT.fft_iterative_cy.
  rewrite not_pow2_true; [reflexivity|lia|exact Hnp].
Qed.

End FFTFacts.

(** On a sequence of length 3 the two Cython fast transforms raise
    [ValueError] where the naive transform returns a sequence. *)
Lemma fft_cy_raises_on_length_3 :
  FFT.fft_cooley_tukey_cy Rtrigo_def.cos Rtrigo_def.sin PI Samples.cmul_R
                          2 Samples.x3 = Err ValueError /\
  FFT.fft_iterative_cy Rtrigo_def.cos Rtrigo_def.sin PI Samples.cmul_R
                       2 Samples.x3 = Err ValueError /\
  exists X, FFT.dft_naive_cy Rtrigo_def.cos Rtrigo_def.sin PI Samples.cmul_R
                             Samples.x3 = Ok X.
Proof.
  split; [reflexivity|]. split; [reflexivity|].
  eexists. vm_compute. reflexivity.
Qed.

(** C2. On a length that is not a power of two, [fft_cooley_tukey] and
    [fft_iterative] raise no error and return what [dft_naive] returns, which
    is a sequence of the input's length: for a length of two or more by
    handing the input to [dft_naive], for the empty sequence by returning it.
    [fft_cooley_tukey_cy] and [fft_iterative_cy] raise [ValueError] on every
    length of two or more that is not a power of two. *)
Theorem fft_not_power_of_two (F : Type) (SF : Scalar F) (cos sin : F -> F) (M_PI : F)
        (cmul : FFT.Complex -> FFT.Complex -> FFT.Complex)
        (fuel : nat) (x : FFT.ComplexVector) :
  (0 < fuel)%nat -> ~ power_of_two (length x) ->
  (FFT.fft_cooley_tukey cos sin M_PI cmul fuel x = FFT.dft_naive cos sin M_PI cmul x /\
   FFT.fft_iterative cos sin M_PI cmul fuel x = FFT.dft_naive cos sin M_PI cmul x /\
   exists X, FFT.dft_naive cos sin M_PI cmul x = Ok X /\ length X = length x) /\
  ((2 <= length x)%nat ->
   FFT.fft_cooley_tukey_cy cos sin M_PI cmul fuel x = Err ValueError /\
   FFT.fft_iterative_cy cos sin M_PI cmul fuel x = Err ValueError).
Proof.
  intros Hfuel Hnp. split; [split; [|split]|].
  - now apply fft_cooley_tukey_fallback.
  - now apply fft_iterative_fallback.
  - apply dft_naive_returns.
  - intros Hlen. split.
    + now apply fft_cooley_tukey_cy_raises.
    + now apply fft_iterative_cy_raises.
Qed.

Lemma fft_not_power_of_two_witness :
  (FFT.fft_cooley_tukey Rtrigo_def.cos Rtrigo_def.sin PI Samples.cmul_R 2 Samples.x3
   = FFT.dft_naive Rtrigo_def.cos Rtrigo_def.sin PI Samples.cmul_R Samples.x3 /\
   FFT.fft_iterative Rtrigo_def.cos Rtrigo_def.sin PI Samples.cmul_R 2 Samples.x3
   = FFT.dft_naive Rtrigo_def.cos Rtrigo_def.sin PI Samples.cmul_R Samples.x3 /\
   exists X, FFT.dft_naive Rtrigo_def.cos Rtrigo_def.sin PI Samples.cmul_R Samples.x3
             = Ok X /\ length X = length Samples.x3) /\
  ((2 <= length Samples.x3)%nat ->
   FFT.fft_cooley_tukey_cy Rtrigo_def.cos Rtrigo_def.sin PI Samples.cmul_R
                           2 Samples.x3 = Err ValueError /\
   FFT.fft_iterative_cy Rtrigo_def.cos Rtrigo_def.sin PI Samples.cmul_R
                        2 Samples.x3 = Err ValueError).
Proof.
  apply (fft_not_power_of_two R Scalar_R Rtrigo_def.cos Rtrigo_def.sin PI
           Samples.cmul_R 2 Samples.x3).
  - lia.
  - intros [k Hk]. destruct k as [|[|k]]; simpl in Hk; lia.
Defined.

(** ** The N-body step *)

Section NBodyFacts.

Context {F : Type} `{Scalar F}.
Import NBody.

Implicit Types (bs : BodiesVector (F := F)) (dt G softening : F).

Lemma at_body_at bs (i : Z) :
  (0 <= i < Z.of_nat (length bs))%Z -> at_ bs i = Ok (body_at bs i).
Proof. intros Hi. now apply at_ok. Qed.

Lemma bodies_vec_of bs : bs = vec_of (length bs) (body_at bs).
Proof. apply list_vec_of. Qed.

(** The accumulation loop fills [ax] and [ay] and touches nothing else. *)
Lemma accumulate_loop bs G softening :
  let n := length bs in
  for_range 0 (Z.of_nat n) (fun i st =>
    body_i <- at_ (bodies st) i ;;
    for_range 0 (Z.of_nat n) (fun j st =>
      if (i =? j)%Z then Ok st
      else
        body_j <- at_ (bodies st) j ;;
        let dx := x body_j [-] x body_i in
        let dy := y body_j [-] y body_i in
        let force_factor := force_factor body_i body_j G softening in
        ax_i <- at_ (ax st) i ;;
        ax' <- set_at (ax st) i (ax_i [+] dx [*] force_factor) ;;
        ay_i <- at_ (ay st) i ;;
        ay' <- set_at (ay st) i (ay_i [+] dy [*] force_factor) ;;
        Ok (mkFrame (bodies st) (updated_bodies st) ax' ay')) st)
    (mkFrame bs bs (vec_of n (fun _ => lit_0)) (vec_of n (fun _ => lit_0)))
  = Ok (mkFrame bs bs (vec_of n (accel_x bs G softening))
                (vec_of n (accel_y bs G softening))).
Proof.
  intros n.
  match goal with |- for_range _ _ ?body ?st0 = _ =>
    destruct (for_range_inv
                (fun i st => st = mkFrame bs bs
                   (vec_of n (fun k => if (k <? i)%Z then accel_x bs G softening k
                                       else lit_0))
                   (vec_of n (fun k => if (k <? i)%Z then accel_y bs G softening k
                                       else lit_0)))
                body 0 (Z.of_nat n) st0) as (st & Hrun & Hst)
  end; [lia| | |].
  - f_equal; apply vec_of_ext; intros k Hk; zcases.
  - intros i st Hi ->. cbn [bodies].
    rewrite at_body_at by (fold n; lia). cbn [bind].
    match goal with |- exists _, for_range _ _ ?body ?st0 = _ /\ _ =>
      destruct (for_range_inv
                  (fun j st => st = mkFrame bs bs
                     (vec_of n (fun k =>
                        if (k <? i)%Z then accel_x bs G softening k
                        else if (k =? i)%Z
                             then fold_left (add_pull_x bs G softening i) (zrange 0 j) lit_0
                             else lit_0))
                     (vec_of n (fun k =>
                        if (k <? i)%Z then accel_y bs G softening k
                        else if (k =? i)%Z
                             then fold_left (add_pull_y bs G softening i) (zrange 0 j) lit_0
                             else lit_0)))
                  body 0 (Z.of_nat n) st0) as (st & Hrun & Hst)
    end; [lia| | |].
    + f_equal; apply vec_of_ext; intros k Hk; rewrite zrange_empty by lia; zcases.
    + intros j st Hj ->. cbn [bodies updated_bodies ax ay].
      destruct (Z.eqb_spec i j) as [Heq|Hne].
      * eexists. split; [reflexivity|].
        f_equal; apply vec_of_ext; intros k Hk; rewrite fold_zrange_snoc by lia;
          unfold add_pull_x, add_pull_y; rewrite (proj2 (Z.eqb_eq i j) Heq);
          reflexivity.
      * rewrite at_body_at by (fold n; lia). cbn [bind].
        rewrite !at_vec_of by lia. cbn [bind].
        rewrite !set_at_vec_of by lia. cbn [bind].
        eexists. split; [reflexivity|].
        f_equal; apply vec_of_ext; intros k Hk; rewrite fold_zrange_snoc by lia;
          unfold add_pull_x, add_pull_y; rewrite (proj2 (Z.eqb_neq i j) Hne);
          zcases.
    + exists st. split; [exact Hrun|]. rewrite Hst.
      f_equal; apply vec_of_ext; intros k Hk; unfold accel_x, accel_y; fold n; zcases.
  - rewrite Hrun, Hst. f_equal. f_equal; apply vec_of_ext; intros k Hk; zcases.
Qed.

(** The update loop rewrites [updated_bodies] and touches nothing else. *)
Lemma update_loop bs dt (a_x a_y : Z -> F) :
  let n := length bs in
  for_range 0 (Z.of_nat n) (fun i st =>
    b <- at_ (updated_bodies st) i ;;
    ax_i <- at_ (ax st) i ;;
    ay_i <- at_ (ay st) i ;;
    ub' <- set_at (updated_bodies st) i (advance b ax_i ay_i dt) ;;
    Ok (mkFrame (bodies st) ub' (ax st) (ay st)))
    (mkFrame bs bs (vec_of n a_x) (vec_of n a_y))
  = Ok (mkFrame bs (vec_of n (fun i => advance (body_at bs i) (a_x i) (a_y i) dt))
                (vec_of n a_x) (vec_of n a_y)).
Proof.
  intros n.
  match goal with |- for_range _ _ ?body ?st0 = _ =>
    destruct (for_range_inv
                (fun i st => st = mkFrame bs
                   (vec_of n (fun k => if (k <? i)%Z
                                       then advance (body_at bs k) (a_x k) (a_y k) dt
                                       else body_at bs k))
                   (vec_of n a_x) (vec_of n a_y))
                body 0 (Z.of_nat n) st0) as (st & Hrun & Hst)
  end; [lia| | |].
  - f_equal. rewrite (bodies_vec_of bs) at 1. fold n.
    apply vec_of_ext; intros k Hk; zcases.
  - intros i st Hi ->. cbn [bodies updated_bodies ax ay].
    rewrite !at_vec_of by lia. cbn [bind].
    rewrite set_at_vec_of by lia. cbn [bind].
    eexists. split; [reflexivity|].
    f_equal. apply vec_of_ext; intros k Hk; zcases.
  - rewrite Hrun, Hst. f_equal. f_equal. apply vec_of_ext; intros k Hk; zcases.
Qed.

(** The final state of a call: the caller's vector, the new bodies and the
    accelerations. *)
Lemma nbody_step_run_frame bs dt G softening :
  nbody_step_run bs dt G softening
  = Ok (mkFrame bs (stepped bs dt G softening)
                (vec_of (length bs) (accel_x bs G softening))
                (vec_of (length bs) (accel_y bs G softening))).
Proof.
  unfold nbody_step_run. cbv zeta. rewrite Nat2Z.id, !repeat_vec_of.
  pose proof (accumulate_loop bs G softening) as Hacc. cbv zeta in Hacc.
  rewrite Hacc. cbn [bind].
  apply update_loop.
Qed.

Lemma nbody_step_update_stepped bs dt G softening :
  nbody_step_update bs dt G softening = Ok (stepped bs dt G softening).
Proof.
  unfold nbody_step_update. now rewrite nbody_step_run_frame.
Qed.

(** *** The Cython function and the heap *)

Lemma nth_update {T : Type} (v : list T) (k a : nat) (w d : T) :
  (k < length v)%nat ->
  nth a (update v k w) d = if (a =? k)%nat then w else nth a v d.
Proof.
  revert k a. induction v as [|h0 t IH]; intros k a Hk; simpl in Hk; [lia|].
  destruct k as [|k], a as [|a]; simpl; auto. apply IH. lia.
Qed.

Lemma update_update {T : Type} (v : list T) (k : nat) (w w' : T) :
  update (update v k w) k w' = update v k w'.
Proof.
  revert k. induction v as [|h0 t IH]; intros [|k]; simpl; auto.
  now rewrite IH.
Qed.

Lemma body_at_update (h : heap (F := F)) (r a : Z) (w : Body) :
  (0 <= r < Z.of_nat (length h))%Z -> (0 <= a)%Z ->
  body_at (update h (Z.to_nat r) w) a = if (a =? r)%Z then w else body_at h a.
Proof.
  intros Hr Ha. unfold body_at. rewrite nth_update by lia.
  destruct (Nat.eqb_spec (Z.to_nat a) (Z.to_nat r)), (Z.eqb_spec a r);
    try reflexivity; lia.
Qed.

Lemma store_ok (h : heap (F := F)) (r : ref) (f : Body -> Body) :
  (0 <= r < Z.of_nat (length h))%Z ->
  store h r f = Ok (update h (Z.to_nat r) (f (body_at h r))).
Proof.
  intros Hr. unfold store. rewrite at_body_at by lia. cbn [bind].
  now apply set_at_ok.
Qed.

(** The four stores of one iteration of the copy-back loop. *)
Lemma four_stores (h : heap (F := F)) (r : ref) (b : Body) :
  (0 <= r < Z.of_nat (length h))%Z ->
  (h1 <- store h r (fun o => with_x o (x b)) ;;
   h2 <- store h1 r (fun o => with_y o (y b)) ;;
   h3 <- store h2 r (fun o => with_vx o (vx b)) ;;
   store h3 r (fun o => with_vy o (vy b)))
  = Ok (update h (Z.to_nat r) (sync (body_at h r) b)).
Proof.
  intros Hr.
  rewrite store_ok by lia. cbn [bind].
  rewrite store_ok by (rewrite length_update; lia). cbn [bind].
  rewrite store_ok by (rewrite !length_update; lia). cbn [bind].
  rewrite store_ok by (rewrite !length_update; lia).
  rewrite !update_update. f_equal. f_equal.
  rewrite !body_at_update, !Z.eqb_refl by (rewrite ?length_update; lia).
  reflexivity.
Qed.

Lemma body_eta (b : Body (F := F)) : mkBody (x b) (y b) (vx b) (vy b) (m b) = b.
Proof. now destruct b. Qed.

Lemma ref_at_valid (h : heap (F := F)) (refs : list ref) (i : Z) :
  valid_refs h refs -> (0 <= i < Z.of_nat (length refs))%Z ->
  (0 <= ref_at refs i < Z.of_nat (length h))%Z.
Proof.
  intros Hv Hi. unfold valid_refs in Hv. rewrite Forall_forall in Hv.
  apply Hv. unfold ref_at. apply nth_In. lia.
Qed.

Lemma at_ref_at (refs : list ref) (i : Z) :
  (0 <= i < Z.of_nat (length refs))%Z -> at_ refs i = Ok (ref_at refs i).
Proof. intros Hi. now apply at_ok. Qed.

Lemma length_deref (h : heap (F := F)) (refs : list ref) :
  length (deref h refs) = length refs.
Proof. unfold deref. apply length_map. Qed.

Lemma body_at_deref (h : heap (F := F)) (refs : list ref) (i : Z) :
  (0 <= i < Z.of_nat (length refs))%Z ->
  body_at (deref h refs) i = body_at h (ref_at refs i).
Proof.
  intros Hi. unfold deref, ref_at. unfold body_at at 1. cbv [ref] in *.
  rewrite (nth_indep _ _ (body_at h 0%Z)) by (rewrite length_map; lia).
  apply (map_nth (fun r => body_at h r)).
Qed.

(** The loop that loads the dictionaries into [body_array]. *)
Lemma load_loop (h : heap (F := F)) (refs : list ref) :
  valid_refs h refs ->
  let n := length refs in
  for_range 0 (Z.of_nat n) (fun i body_array =>
    r <- at_ refs i ;;
    body <- at_ h r ;;
    set_at body_array i (mkBody (x body) (y body) (vx body) (vy body) (m body)))
    (vec_of n (fun _ => mkBody lit_0 lit_0 lit_0 lit_0 lit_0))
  = Ok (deref h refs).
Proof.
  intros Hv n.
  match goal with |- for_range _ _ ?body ?st0 = _ =>
    destruct (for_range_inv
                (fun i arr => arr = vec_of n (fun k =>
                   if (k <? i)%Z then body_at h (ref_at refs k)
                   else mkBody lit_0 lit_0 lit_0 lit_0 lit_0))
                body 0 (Z.of_nat n) st0) as (arr & Hrun & Harr)
  end; [lia| | |].
  - apply vec_of_ext; intros k Hk; zcases.
  - intros i arr Hi ->.
    rewrite at_ref_at by (fold n; lia). cbn [bind].
    rewrite at_body_at by (apply ref_at_valid; auto). cbn [bind].
    rewrite body_eta, set_at_vec_of by lia.
    eexists. split; [reflexivity|]. apply vec_of_ext; intros k Hk; zcases.
  - rewrite Hrun, Harr. f_equal.
    rewrite (bodies_vec_of (deref h refs)), length_deref. fold n.
    apply vec_of_ext; intros k Hk. rewrite body_at_deref by (fold n; lia). zcases.
Qed.

Lemma fold_pulls bs G softening (i : Z) (l : list Z) (a : F * F) :
  fold_left (fun a j => (add_pull_x bs G softening i (fst a) j,
                         add_pull_y bs G softening i (snd a) j)) l a
  = (fold_left (add_pull_x bs G softening i) l (fst a),
     fold_left (add_pull_y bs G softening i) l (snd a)).
Proof.
  revert a. induction l as [|j l IH]; intros [a1 a2]; simpl; [reflexivity|].
  now rewrite IH.
Qed.

(** The loop that fills [accel_x] and [accel_y]. *)
Lemma accel_loop_cy bs G softening :
  let n := length bs in
  for_range 0 (Z.of_nat n) (fun i acc =>
    body_i <- at_ bs i ;;
    a <- for_range 0 (Z.of_nat n) (fun j a =>
           if (i =? j)%Z then Ok a
           else
             body_j <- at_ bs j ;;
             let dx := x body_j [-] x body_i in
             let dy := y body_j [-] y body_i in
             let force_factor := force_factor body_i body_j G softening in
             Ok (fst a [+] dx [*] force_factor, snd a [+] dy [*] force_factor))
         (lit_0, lit_0) ;;
    accel_x <- set_at (fst acc) i (fst a) ;;
    accel_y <- set_at (snd acc) i (snd a) ;;
    Ok (accel_x, accel_y))
    (vec_of n (fun _ => lit_0), vec_of n (fun _ => lit_0))
  = Ok (vec_of n (accel_x bs G softening), vec_of n (accel_y bs G softening)).
Proof.
  intros n.
  match goal with |- for_range _ _ ?body ?st0 = _ =>
    destruct (for_range_inv
                (fun i acc => acc =
                   (vec_of n (fun k => if (k <? i)%Z then accel_x bs G softening k
                                       else lit_0),
                    vec_of n (fun k => if (k <? i)%Z then accel_y bs G softening k
                                       else lit_0)))
                body 0 (Z.of_nat n) st0) as (acc & Hrun & Hacc)
  end; [lia| | |].
  - f_equal; apply vec_of_ext; intros k Hk; zcases.
  - intros i acc Hi ->.
    rewrite at_body_at by (fold n; lia). cbn [bind].
    rewrite (for_range_fold _
               (fun a j => (add_pull_x bs G softening i (fst a) j,
                            add_pull_y bs G softening i (snd a) j))).
    + rewrite fold_pulls. cbn [bind fst snd].
      rewrite !set_at_vec_of by lia. cbn [bind].
      eexists. split; [reflexivity|].
      f_equal; apply vec_of_ext; intros k Hk; unfold accel_x, accel_y; fold n; zcases.
    + intros j a Hj. unfold add_pull_x, add_pull_y.
      destruct (Z.eqb_spec i j) as [Heq|Hne]; [now destruct a|].
      rewrite at_body_at by (fold n; lia). reflexivity.
  - rewrite Hrun, Hacc. f_equal. f_equal; apply vec_of_ext; intros k Hk; zcases.
Qed.

(** The loop that advances [body_array] in place. *)
Lemma advance_loop_cy bs dt (a_x a_y : Z -> F) :
  let n := length bs in
  for_range 0 (Z.of_nat n) (fun i body_array =>
    b <- at_ body_array i ;;
    ax_i <- at_ (vec_of n a_x) i ;;
    ay_i <- at_ (vec_of n a_y) i ;;
    set_at body_array i (advance b ax_i ay_i dt)) bs
  = Ok (vec_of n (fun i => advance (body_at bs i) (a_x i) (a_y i) dt)).
Proof.
  intros n.
  match goal with |- for_range _ _ ?body ?st0 = _ =>
    destruct (for_range_inv
                (fun i arr => arr = vec_of n (fun k =>
                   if (k <? i)%Z then advance (body_at bs k) (a_x k) (a_y k) dt
                   else body_at bs k))
                body 0 (Z.of_nat n) st0) as (arr & Hrun & Harr)
  end; [lia| | |].
  - rewrite (bodies_vec_of bs) at 1. fold n. apply vec_of_ext; intros k Hk; zcases.
  - intros i arr Hi ->.
    rewrite !at_vec_of by lia. cbn [bind]. rewrite set_at_vec_of by lia.
    eexists. split; [reflexivity|]. apply vec_of_ext; intros k Hk; zcases.
  - rewrite Hrun, Harr. f_equal. apply vec_of_ext; intros k Hk; zcases.
Qed.

Lemma copy_back_loop (h : heap (F := F)) (refs : list ref) (arr : BodiesVector) :
  valid_refs h refs -> length arr = length refs ->
  exists h',
    for_range 0 (Z.of_nat (length refs)) (fun i h =>
      b <- at_ arr i ;;
      r <- at_ refs i ;;
      h <- store h r (fun o => with_x o (x b)) ;;
      r <- at_ refs i ;;
      h <- store h r (fun o => with_y o (y b)) ;;
      r <- at_ refs i ;;
      h <- store h r (fun o => with_vx o (vx b)) ;;
      r <- at_ refs i ;;
      store h r (fun o => with_vy o (vy b))) h = Ok h'
    /\ copied_back h refs arr (Z.of_nat (length refs)) h'.
Proof.
  intros Hv Hlen.
  apply (for_range_inv (copied_back h refs arr)); [lia| |].
  - repeat split; auto; intros; lia.
  - intros i h0 Hi (Hl & Hm & Hout & Hin).
    assert (Hr : (0 <= ref_at refs i < Z.of_nat (length h0))%Z)
      by (rewrite Hl; apply ref_at_valid; auto).
    rewrite at_body_at by lia. cbn [bind].
    rewrite !at_ref_at by lia. cbn [bind].
    pose proof (four_stores h0 (ref_at refs i) (body_at arr i) Hr) as H4.
    cbn [bind] in H4 |- *. rewrite H4.
    eexists. split; [reflexivity|]. repeat split.
    + now rewrite length_update.
    + intros a Ha. rewrite body_at_update by lia.
      destruct (Z.eqb_spec a (ref_at refs i)) as [->|Hne]; [|now apply Hm].
      cbn [sync m]. apply Hm. lia.
    + intros a Ha Hnot. rewrite body_at_update by lia.
      destruct (Z.eqb_spec a (ref_at refs i)) as [->|Hne].
      * exfalso. apply (Hnot i); [lia|reflexivity].
      * apply Hout; auto. intros k Hk. apply Hnot. lia.
    + intros k Hk Hlast.
      assert (Hrk : (0 <= ref_at refs k < Z.of_nat (length h))%Z)
        by (apply ref_at_valid; auto; lia).
      rewrite body_at_update by lia.
      destruct (Z.eqb_spec (ref_at refs k) (ref_at refs i)) as [Heq|Hne].
      * destruct (Z.eq_dec k i) as [->|Hki].
        -- unfold sync. f_equal. apply Hm. lia.
        -- exfalso. apply (Hlast i); [lia|now symmetry].
      * apply Hin; [|intros k' Hk'; apply Hlast; lia].
        destruct (Z.eq_dec k i) as [->|Hki]; [congruence|lia].
Qed.

(** A call of the Cython function: it returns the list it was given, and
    the heap is the old one with the new bodies copied back. *)
Lemma nbody_step_update_cy_heap (h : heap (F := F)) (refs : list ref) dt G softening :
  valid_refs h refs ->
  exists h',
    nbody_step_update_cy h refs dt G softening = Ok (h', refs) /\
    copied_back h refs (stepped (deref h refs) dt G softening)
                (Z.of_nat (length refs)) h'.
Proof.
  intros Hv. unfold nbody_step_update_cy. cbv zeta.
  rewrite Nat2Z.id, !repeat_vec_of.
  pose proof (load_loop h refs Hv) as Hload. cbv zeta in Hload.
  rewrite Hload. cbn [bind].
  pose proof (accel_loop_cy (deref h refs) G softening) as Hacc.
  cbv zeta in Hacc. rewrite length_deref in Hacc.
  rewrite Hacc. cbn [bind fst snd].
  pose proof (advance_loop_cy (deref h refs) dt
                (accel_x (deref h refs) G softening)
                (accel_y (deref h refs) G softening)) as Hadv.
  cbv zeta in Hadv. rewrite length_deref in Hadv.
  rewrite Hadv. cbn [bind].
  destruct (copy_back_loop h refs (stepped (deref h refs) dt G softening) Hv)
    as (h' & Hrun & Hh').
  - unfold stepped. now rewrite length_vec_of, length_deref.
  - exists h'. split; [|exact Hh'].
    unfold stepped in Hrun. rewrite length_deref in Hrun.
    now rewrite Hrun.
Qed.

End NBodyFacts.

Section NBodyStep.

Context {F : Type} `{Scalar F}.
Import NBody.

Implicit Types (bs : BodiesVector (F := F)) (dt G softening : F).

Lemma body_at_vec_of (n : nat) (f : Z -> Body) (i : Z) :
  (0 <= i < Z.of_nat n)%Z -> body_at (vec_of n f) i = f i.
Proof.
  intros Hi. unfold body_at. apply nth_error_nth.
  rewrite nth_error_vec_of by lia. now rewrite Z2Nat.id by lia.
Qed.

Lemma body_at_stepped bs dt G softening (i : Z) :
  (0 <= i < Z.of_nat (length bs))%Z ->
  body_at (stepped bs dt G softening) i
  = advance (body_at bs i) (accel_x bs G softening i) (accel_y bs G softening i) dt.
Proof. intros Hi. unfold stepped. now rewrite body_at_vec_of. Qed.


Lemma ref_at_NoDup (refs : list ref) (i k : Z) :
  NoDup refs ->
  (0 <= i < Z.of_nat (length refs))%Z -> (0 <= k < Z.of_nat (length refs))%Z ->
  ref_at refs k = ref_at refs i -> k = i.
Proof.
  intros Hnd Hi Hk Heq. unfold ref_at in Heq.
  assert (Z.to_nat k = Z.to_nat i); [|lia].
  apply (proj1 (NoDup_nth refs 0%Z) Hnd); auto; lia.
Qed.

Lemma ref_at_In (refs : list ref) (k : Z) :
  (0 <= k < Z.of_nat (length refs))%Z -> In (ref_at refs k) refs.
Proof. intros Hk. unfold ref_at. apply nth_In. lia. Qed.

End NBodyStep.

(** C7. Each body is advanced by the semi-implicit Euler rule: the returned
    body [i] has [vx' = vx + ax * dt], [vy' = vy + ay * dt] and then
    [x' = x + vx' * dt], [y' = y + vy' * dt], the position update using the
    new velocity; [ax], [ay] are the sums the accumulation loop builds from
    the positions and masses the call was given.  This holds of
    [nbody_step_update], and of [nbody_step_update_cy] for the object each
    reference names when the references are distinct. *)
Theorem nbody_step_semi_implicit (F : Type) (SF : Scalar F)
        (bs : NBody.BodiesVector) (dt G softening : F) :
  (exists out,
      NBody.nbody_step_update bs dt G softening = Ok out /\
      forall i, (0 <= i < Z.of_nat (length bs))%Z ->
        let b := NBody.body_at bs i in
        let b' := NBody.body_at out i in
        let a_x := NBody.accel_x bs G softening i in
        let a_y := NBody.accel_y bs G softening i in
        NBody.vx b' = NBody.vx b [+] a_x [*] dt /\
        NBody.vy b' = NBody.vy b [+] a_y [*] dt /\
        NBody.x b' = NBody.x b [+] NBody.vx b' [*] dt /\
        NBody.y b' = NBody.y b [+] NBody.vy b' [*] dt) /\
  (forall (h : NBody.heap) (refs : list NBody.ref),
      NBody.valid_refs h refs -> NoDup refs ->
      exists h',
        NBody.nbody_step_update_cy h refs dt G softening = Ok (h', refs) /\
        forall i, (0 <= i < Z.of_nat (length refs))%Z ->
          let b := NBody.body_at h (NBody.ref_at refs i) in
          let b' := NBody.body_at h' (NBody.ref_at refs i) in
          let a_x := NBody.accel_x (NBody.deref h refs) G softening i in
          let a_y := NBody.accel_y (NBody.deref h refs) G softening i in
          NBody.vx b' = NBody.vx b [+] a_x [*] dt /\
          NBody.vy b' = NBody.vy b [+] a_y [*] dt /\
          NBody.x b' = NBody.x b [+] NBody.vx b' [*] dt /\
          NBody.y b' = NBody.y b [+] NBody.vy b' [*] dt).
Proof.
  split.
  - exists (NBody.stepped bs dt G softening). split.
    + apply nbody_step_update_stepped.
    + intros i Hi. cbv zeta. rewrite body_at_stepped by lia.
      repeat split; reflexivity.
  - intros h refs Hv Hnd.
    destruct (nbody_step_update_cy_heap h refs dt G softening Hv)
      as (h' & Hrun & _ & _ & _ & Hin).
    exists h'. split; [exact Hrun|].
    intros i Hi. cbv zeta. rewrite Hin.
    + rewrite body_at_stepped by (rewrite length_deref; lia).
      rewrite body_at_deref by lia.
      repeat split; reflexivity.
    + lia.
    + intros k' Hk' Heq. apply ref_at_NoDup in Heq; auto; lia.
Qed.

Lemma nbody_step_semi_implicit_witness :
  exists h',
    NBody.nbody_step_update_cy [Samples.b1; Samples.b1] [1%Z; 0%Z] 0.5%float
      Samples.G_default Samples.softening_default = Ok (h', [1%Z; 0%Z]) /\
    forall i, (0 <= i < 2)%Z ->
      let b := NBody.body_at [Samples.b1; Samples.b1] (NBody.ref_at [1%Z; 0%Z] i) in
      let b' := NBody.body_at h' (NBody.ref_at [1%Z; 0%Z] i) in
      let a_x := NBody.accel_x (NBody.deref [Samples.b1; Samples.b1] [1%Z; 0%Z])
                               Samples.G_default Samples.softening_default i in
      let a_y := NBody.accel_y (NBody.deref [Samples.b1; Samples.b1] [1%Z; 0%Z])
                               Samples.G_default Samples.softening_default i in
      NBody.vx b' = NBody.vx b [+] a_x [*] 0.5%float /\
      NBody.vy b' = NBody.vy b [+] a_y [*] 0.5%float /\
      NBody.x b' = NBody.x b [+] NBody.vx b' [*] 0.5%float /\
      NBody.y b' = NBody.y b [+] NBody.vy b' [*] 0.5%float.
Proof.
  apply (proj2 (nbody_step_semi_implicit float Scalar_float [Samples.b1; Samples.b1]
                  0.5%float Samples.G_default Samples.softening_default)
               [Samples.b1; Samples.b1] [1%Z; 0%Z]).
  - repeat constructor; simpl; lia.
  - repeat constructor; simpl; intuition lia.
Defined.



(** ** Adding a zero acceleration, on binary64 *)



(** A finite binary64 is a zero or a non-zero finite number. *)
Lemma finite_spec (d : float) :
  PrimFloat.is_finite d = true ->
  (exists s, Prim2SF d = S754_zero s) \/ (exists s m e, Prim2SF d = S754_finite s m e).
Proof.
  unfold PrimFloat.is_finite. intros Hfin.
  apply negb_true_iff, orb_false_iff in Hfin. destruct Hfin as [Hnan Hinf].
  unfold Prim2SF. rewrite Hnan, Hinf.
  destruct (PrimFloat.is_zero d); [left; eauto|].
  destruct (Z.frexp d) as [r e].
  destruct (shr_fexp prec emax (Uint63Axioms.to_Z (normfr_mantissa r)) (e - prec) loc_Exact)
    as [shr e'].
  destruct (shr_m shr); [left|right|left]; eauto.
Qed.





(** ** One or no body *)

(** A single body drifts. *)
Example nbody_step_single :
  NBody.nbody_step_update [Samples.b1] 0.5%float Samples.G_default Samples.softening_default
  = Ok [NBody.mkBody 1.25 1.875 0.5 (-0.25) 3]%float.
Proof. vm_compute. reflexivity. Qed.




(** ** What a step does to its argument *)

(** The Cython function stores the new position and velocity into the
    dictionaries it was given: after a call with one body, time step [0.5],
    the caller's dictionary holds [x = 1.25] where it held [x = 1]. *)
Lemma nbody_step_update_cy_overwrites_input :
  exists h',
    NBody.nbody_step_update_cy [Samples.b1] [0%Z] 0.5%float
      Samples.G_default Samples.softening_default
    = Ok (h', [0%Z]) /\
    NBody.x (NBody.body_at [Samples.b1] 0) = 1%float /\
    NBody.x (NBody.body_at h' 0) = 1.25%float /\
    PrimFloat.eqb 1.25%float 1%float = false.
Proof.
  eexists. split; [vm_compute; reflexivity|].
  split; [reflexivity|]. split; reflexivity.
Qed.

(** C3. [nbody_step_update] returns the fully updated bodies and leaves the
    vector it was given as it was: the call ends with [bodies] unchanged and
    all updates in its own [updated_bodies].  [nbody_step_update_cy] does not:
    it returns the list it was given after storing the updated [x], [y],
    [vx] and [vy] into the dictionaries of that list; it leaves every [m],
    and every object the list does not name, as it was. *)
Theorem nbody_step_input (F : Type) (SF : Scalar F)
        (bs : NBody.BodiesVector) (dt G softening : F) :
  (exists st,
      NBody.nbody_step_run bs dt G softening = Ok st /\
      NBody.bodies st = bs /\
      NBody.nbody_step_update bs dt G softening = Ok (NBody.updated_bodies st) /\
      NBody.updated_bodies st = NBody.stepped bs dt G softening) /\
  (forall (h : NBody.heap) (refs : list NBody.ref),
      NBody.valid_refs h refs ->
      exists h',
        NBody.nbody_step_update_cy h refs dt G softening = Ok (h', refs) /\
        length h' = length h /\
        (forall a, (0 <= a)%Z ->
                   NBody.m (NBody.body_at h' a) = NBody.m (NBody.body_at h a)) /\
        (forall a, (0 <= a)%Z -> ~ In a refs ->
                   NBody.body_at h' a = NBody.body_at h a) /\
        (NoDup refs ->
         forall i, (0 <= i < Z.of_nat (length refs))%Z ->
           NBody.body_at h' (NBody.ref_at refs i)
           = NBody.sync (NBody.body_at h (NBody.ref_at refs i))
                        (NBody.body_at (NBody.stepped (NBody.deref h refs) dt G softening)
                                       i))).
Proof.
  split.
  - eexists. split; [apply nbody_step_run_frame|].
    split; [reflexivity|]. split; [|reflexivity].
    apply nbody_step_update_stepped.
  - intros h refs Hv.
    destruct (nbody_step_update_cy_heap h refs dt G softening Hv)
      as (h' & Hrun & Hlen & Hm & Hout & Hin).
    exists h'. repeat split; auto.
    + intros a Ha Hnot. apply Hout; auto.
      intros k Hk Heq. apply Hnot. rewrite <- Heq. apply ref_at_In. lia.
    + intros Hnd i Hi. apply Hin; [lia|].
      intros k' Hk' Heq. apply ref_at_NoDup in Heq; auto; lia.
Qed.

Lemma nbody_step_input_witness :
  exists h',
    NBody.nbody_step_update_cy [Samples.b1; Samples.b1] [1%Z] 0.5%float
      Samples.G_default Samples.softening_default = Ok (h', [1%Z]) /\
    length h' = 2%nat /\
    (forall a, (0 <= a)%Z ->
               NBody.m (NBody.body_at h' a)
               = NBody.m (NBody.body_at [Samples.b1; Samples.b1] a)) /\
    (forall a, (0 <= a)%Z -> ~ In a [1%Z] ->
               NBody.body_at h' a = NBody.body_at [Samples.b1; Samples.b1] a) /\
    (NoDup [1%Z] ->
     forall i, (0 <= i < 1)%Z ->
       NBody.body_at h' (NBody.ref_at [1%Z] i)
       = NBody.sync (NBody.body_at [Samples.b1; Samples.b1] (NBody.ref_at [1%Z] i))
                    (NBody.body_at
                       (NBody.stepped (NBody.deref [Samples.b1; Samples.b1] [1%Z])
                                      0.5%float Samples.G_default Samples.softening_default)
                       i)).
Proof.
  apply (proj2 (nbody_step_input float Scalar_float [Samples.b1; Samples.b1]
                  0.5%float Samples.G_default Samples.softening_default)
               [Samples.b1; Samples.b1] [1%Z]).
  repeat constructor; simpl; lia.
Defined.

(** ** The divisor of the acceleration loop *)

(** On binary64 a positive softening can be too small: with
    [softening = 2^-1000] and two bodies at the same place the softened
    distance is [2^-500], positive, but its cube underflows to [0.0]; the
    quotient is infinite and the accelerations are not numbers. *)
Lemma nbody_divisor_underflows :
  PrimFloat.ltb 0%float 0x1p-1000%float = true /\
  PrimFloat.ltb 0%float (NBody.dist_soft Samples.b1 Samples.b1 0x1p-1000%float) = true /\
  NBody.divisor Samples.b1 Samples.b1 0x1p-1000%float = 0%float /\
  NBody.force_factor Samples.b1 Samples.b1 Samples.G_default 0x1p-1000%float
  = infinity /\
  NBody.nbody_step_update [Samples.b1; Samples.b1] 0.5%float
    Samples.G_default 0x1p-1000%float
  = Ok [NBody.mkBody nan nan nan nan 3%float; NBody.mkBody nan nan nan nan 3%float].
Proof. repeat split; vm_compute; reflexivity. Qed.

(** With the default softening and two bodies at the same place the divisor
    is about [3.16e-14]. *)
Example nbody_divisor_default :
  NBody.divisor Samples.b1 Samples.b1 Samples.softening_default
  = 0x1.1cd5288a35c9fp-45%float.
Proof. vm_compute. reflexivity. Qed.

(** In exact real arithmetic a positive softening keeps every divisor of the
    acceleration loop away from zero: for any two bodies, at the same place
    or not, the softened distance [sqrt(dx*dx + dy*dy + softening)] is
    positive and so is its cube. *)
Lemma nbody_divisor_positive_exact (body_i body_j : NBody.Body (F := R)) (softening : R) :
  (0 < softening)%R ->
  (0 < NBody.dist_soft body_i body_j softening)%R /\
  (0 < NBody.divisor body_i body_j softening)%R /\
  NBody.divisor body_i body_j softening <> 0%R.
Proof.
  intros Hs.
  assert (Hd : (0 < NBody.dist_soft body_i body_j softening)%R).
  { unfold NBody.dist_soft. cbn. apply sqrt_lt_R0.
    pose proof (Rle_0_sqr (NBody.x body_j - NBody.x body_i)) as Hx.
    pose proof (Rle_0_sqr (NBody.y body_j - NBody.y body_i)) as Hy.
    unfold Rsqr in Hx, Hy. lra. }
  assert (Hc : (0 < NBody.divisor body_i body_j softening)%R).
  { unfold NBody.divisor. cbn. repeat apply Rmult_lt_0_compat; exact Hd. }
  repeat split; auto. lra.
Qed.

(** ** Rounding keeps the magnitude *)

Section Rounding.

Import Binary64.
Local Open Scope Z_scope.

Lemma digits2_size (p : positive) : digits2_pos p = Pos.size p.
Proof. induction p; cbn; congruence. Qed.

Lemma Zdigits2_log2 (m : Z) : 0 < m -> Zdigits2 m = Z.log2 m + 1.
Proof.
  intros Hm. destruct m as [|p|p]; try lia.
  cbn [Zdigits2]. rewrite digits2_size.
  symmetry. apply Z.add_move_r. apply Z.log2_unique.
  - pose proof (Pos2Z.is_pos (Pos.size p)). lia.
  - replace (Z.succ (Z.pos (Pos.size p) - 1)) with (Z.pos (Pos.size p)) by lia.
    pose proof (Pos.size_gt p) as Hgt. pose proof (Pos.size_le p) as Hle.
    split.
    + assert (H2 : 2 ^ Z.pos (Pos.size p) <= 2 * Z.pos p).
      { change (2 * Z.pos p) with (Z.pos p~0).
        rewrite <- Pos2Z.inj_pow. apply Pos2Z.pos_le_pos. exact Hle. }
      replace (Z.pos (Pos.size p)) with (Z.succ (Z.pos (Pos.size p) - 1)) in H2 by lia.
      rewrite Z.pow_succ_r in H2 by lia. lia.
    + change 2 with (Z.pos 2). rewrite <- Pos2Z.inj_pow. apply Pos2Z.pos_lt_pos. exact Hgt.
Qed.

Lemma Zdigits2_mono (a b : Z) : 0 < a -> a <= b -> Zdigits2 a <= Zdigits2 b.
Proof.
  intros Ha Hab. rewrite !Zdigits2_log2 by lia.
  pose proof (Z.log2_le_mono a b Hab). lia.
Qed.

Lemma shr_1_m (r : shr_record) :
  0 <= shr_m r -> shr_m (shr_1 r) = Z.shiftr (shr_m r) 1.
Proof.
  destruct r as [m b s]. cbn [shr_m]. intros Hm.
  rewrite <- Z.div2_spec.
  destruct m as [|[p|p|]|p]; try lia; reflexivity.
Qed.

Lemma iter_shr_1_m (p : positive) :
  forall r, 0 <= shr_m r ->
            shr_m (SpecFloat.iter_pos shr_1 p r) = Z.shiftr (shr_m r) (Z.pos p).
Proof.
  induction p as [p IH|p IH|]; intros r Hr; cbn [SpecFloat.iter_pos].
  - assert (H1 : 0 <= shr_m (shr_1 r)).
    { rewrite shr_1_m by exact Hr. apply Z.shiftr_nonneg. exact Hr. }
    assert (H2 : 0 <= shr_m (SpecFloat.iter_pos shr_1 p (shr_1 r))).
    { rewrite IH by exact H1. apply Z.shiftr_nonneg. exact H1. }
    rewrite IH by exact H2. rewrite IH by exact H1. rewrite shr_1_m by exact Hr.
    rewrite !Z.shiftr_shiftr by lia. f_equal. lia.
  - assert (H2 : 0 <= shr_m (SpecFloat.iter_pos shr_1 p r)).
    { rewrite IH by exact Hr. apply Z.shiftr_nonneg. exact Hr. }
    rewrite IH by exact H2. rewrite IH by exact Hr.
    rewrite !Z.shiftr_shiftr by lia. f_equal. lia.
  - apply shr_1_m. exact Hr.
Qed.

Lemma shr_record_of_loc_m (m : Z) (l : location) : shr_m (shr_record_of_loc m l) = m.
Proof. destruct l as [|[]]; reflexivity. Qed.

(** The shift that makes room for the rounding keeps a mantissa
    non-negative. *)
Lemma shr_fexp_nonneg (m e : Z) (l : location) :
  0 <= m -> 0 <= shr_m (fst (shr_fexp prec emax m e l)).
Proof.
  intros Hm. unfold shr_fexp, shr.
  destruct (fexp prec emax (Zdigits2 m + e) - e) as [|p|p]; cbn [fst];
    rewrite ?iter_shr_1_m, ?shr_record_of_loc_m; rewrite ?shr_record_of_loc_m;
    try lia.
  apply Z.shiftr_nonneg. lia.
Qed.

(** It keeps the magnitude of a number from the least positive one on. *)
Lemma shr_fexp_magnitude (m e : Z) (l : location) :
  0 < m -> emin < Zdigits2 m + e ->
  0 < shr_m (fst (shr_fexp prec emax m e l)) /\
  Zdigits2 (shr_m (fst (shr_fexp prec emax m e l))) + snd (shr_fexp prec emax m e l)
  = Zdigits2 m + e.
Proof.
  intros Hm He. unfold shr_fexp, shr.
  pose proof (Zdigits2_log2 m Hm) as Hd.
  destruct (fexp prec emax (Zdigits2 m + e) - e) as [|p|p] eqn:Hn; cbn [fst snd];
    rewrite ?shr_record_of_loc_m; try (split; [lia|reflexivity]).
  rewrite iter_shr_1_m by (rewrite shr_record_of_loc_m; lia).
  rewrite shr_record_of_loc_m.
  assert (Hp : Z.pos p <= Z.log2 m).
  { unfold fexp, SpecFloat.emin, prec, emax in Hn, He. lia. }
  assert (Hpos : 0 < Z.shiftr m (Z.pos p)).
  { rewrite Z.shiftr_div_pow2 by lia. apply Z.div_str_pos. split; [lia|].
    transitivity (2 ^ Z.log2 m).
    - apply Z.pow_le_mono_r; lia.
    - apply Z.log2_spec. exact Hm. }
  split; [exact Hpos|].
  rewrite (Zdigits2_log2 _ Hpos), Z.log2_shiftr by exact Hm. lia.
Qed.

Lemma round_nearest_even_cases (m : Z) (l : location) :
  round_nearest_even m l = m \/ round_nearest_even m l = m + 1.
Proof.
  unfold round_nearest_even. destruct l as [|[]]; auto.
  destruct (Z.even m); auto.
Qed.

(** Rounding gives a zero, an infinity or a number of the sign asked for. *)
Lemma binary_round_aux_sign (sx : bool) (mx ex : Z) (lx : location) :
  0 <= mx -> of_sign sx (binary_round_aux prec emax sx mx ex lx).
Proof.
  intros Hm. unfold binary_round_aux.
  pose proof (shr_fexp_nonneg mx ex lx Hm) as H1.
  destruct (shr_fexp prec emax mx ex lx) as [r1 e1]. cbn [fst] in H1.
  assert (H2 : 0 <= round_nearest_even (shr_m r1) (loc_of_shr_record r1)).
  { destruct (round_nearest_even_cases (shr_m r1) (loc_of_shr_record r1)) as [-> | ->]; lia. }
  pose proof (shr_fexp_nonneg _ e1 loc_Exact H2) as H3.
  destruct (shr_fexp prec emax _ e1 loc_Exact) as [r2 e2]. cbn [fst] in H3.
  destruct (shr_m r2) as [|p|p]; try lia; [reflexivity|].
  destruct (e2 <=? emax - prec); reflexivity.
Qed.

(** Rounding a positive number from the least positive one on gives a
    number of at least its magnitude. *)
Lemma binary_round_aux_at_least (mx ex : Z) (lx : location) :
  0 < mx -> emin < Zdigits2 mx + ex ->
  at_least (Zdigits2 mx + ex) (binary_round_aux prec emax false mx ex lx).
Proof.
  intros Hm He. unfold binary_round_aux.
  destruct (shr_fexp_magnitude mx ex lx Hm He) as (H1 & E1).
  destruct (shr_fexp prec emax mx ex lx) as [r1 e1]. cbn [fst snd] in H1, E1.
  set (m2 := round_nearest_even (shr_m r1) (loc_of_shr_record r1)).
  assert (H2 : 0 < m2 /\ Zdigits2 (shr_m r1) <= Zdigits2 m2).
  { subst m2.
    destruct (round_nearest_even_cases (shr_m r1) (loc_of_shr_record r1)) as [-> | ->].
    - split; lia.
    - split; [lia|]. apply Zdigits2_mono; lia. }
  destruct H2 as (H2 & D2).
  destruct (shr_fexp_magnitude m2 e1 loc_Exact H2 ltac:(lia)) as (H3 & E3).
  destruct (shr_fexp prec emax m2 e1 loc_Exact) as [r2 e2]. cbn [fst snd] in H3, E3.
  destruct (shr_m r2) as [|p|p]; try lia.
  destruct (e2 <=? emax - prec); cbn [at_least]; [|exact I].
  cbn [Zdigits2] in E3. lia.
Qed.

Lemma at_least_weaken (k k' : Z) (f : spec_float) :
  k' <= k -> at_least k f -> at_least k' f.
Proof. destruct f as [s|[]| |[] m e]; cbn; auto; lia. Qed.

Lemma iter_xO (d m : positive) : Z.pos (Pos.iter xO m d) = Z.pos m * 2 ^ Z.pos d.
Proof.
  induction d as [|d IH] using Pos.peano_ind.
  - cbn [Pos.iter]. lia.
  - rewrite Pos.iter_succ, Pos2Z.inj_succ, Z.pow_succ_r by lia.
    rewrite Pos2Z.inj_xO, IH. lia.
Qed.

(** Aligning a mantissa keeps the number. *)
Lemma shl_align_value (mx : positive) (ex ex' : Z) :
  snd (shl_align mx ex ex') <= ex /\
  (ex' <= ex -> snd (shl_align mx ex ex') = ex') /\
  Z.pos (fst (shl_align mx ex ex')) = Z.pos mx * 2 ^ (ex - snd (shl_align mx ex ex')).
Proof.
  unfold shl_align. destruct (ex' - ex) as [|d|d] eqn:Hd; cbn [fst snd].
  - rewrite Z.sub_diag. cbn. lia.
  - rewrite Z.sub_diag. cbn. lia.
  - split; [lia|]. split; [reflexivity|].
    rewrite iter_xO. f_equal. f_equal. lia.
Qed.

Lemma Zdigits2_mul_pow2 (m n : Z) :
  0 < m -> 0 <= n -> Zdigits2 (m * 2 ^ n) = Zdigits2 m + n.
Proof.
  intros Hm Hn.
  assert (0 < m * 2 ^ n) by (apply Z.mul_pos_pos; [lia|apply Z.pow_pos_nonneg; lia]).
  rewrite !Zdigits2_log2 by lia. rewrite Z.log2_mul_pow2 by lia. lia.
Qed.

Lemma shl_align_magnitude (mx : positive) (ex ex' : Z) :
  Zdigits2 (Z.pos (fst (shl_align mx ex ex'))) + snd (shl_align mx ex ex')
  = Zdigits2 (Z.pos mx) + ex.
Proof.
  destruct (shl_align_value mx ex ex') as (Hle & _ & ->).
  rewrite Zdigits2_mul_pow2 by lia. lia.
Qed.

Lemma binary_round_sign (s : bool) (m : positive) (e : Z) :
  of_sign s (binary_round prec emax s m e).
Proof.
  unfold binary_round.
  destruct (shl_align m e (fexp prec emax (Z.pos (digits2_pos m) + e))) as [mz ez].
  apply binary_round_aux_sign. lia.
Qed.

Lemma binary_round_at_least (m : positive) (e : Z) :
  emin < Zdigits2 (Z.pos m) + e ->
  at_least (Zdigits2 (Z.pos m) + e) (binary_round prec emax false m e).
Proof.
  intros He. unfold binary_round.
  pose proof (shl_align_magnitude m e (fexp prec emax (Z.pos (digits2_pos m) + e))) as Hm.
  destruct (shl_align m e (fexp prec emax (Z.pos (digits2_pos m) + e))) as [mz ez].
  cbn [fst snd] in Hm. rewrite <- Hm.
  apply binary_round_aux_at_least; lia.
Qed.

(** *** Products *)

Lemma mul_at_least (a b : Z) (x y : spec_float) :
  at_least a x -> at_least b y -> emin < a + b - 1 ->
  at_least (a + b - 1) (SFmul prec emax x y).
Proof.
  destruct x as [sx|[]| |[] mx ex], y as [sy|[]| |[] my ey]; cbn [at_least];
    try contradiction; intros Ha Hb He; try exact I.
  cbn [SFmul xorb].
  assert (Hd : Zdigits2 (Z.pos mx) + Zdigits2 (Z.pos my) - 1 <= Zdigits2 (Z.pos (mx * my))).
  { rewrite Pos2Z.inj_mul. rewrite !Zdigits2_log2 by lia.
    pose proof (Z.log2_mul_below (Z.pos mx) (Z.pos my) ltac:(lia) ltac:(lia)). lia. }
  cbn [Zdigits2] in Hd.
  apply at_least_weaken with (k := Zdigits2 (Z.pos (mx * my)) + (ex + ey)).
  - cbn [Zdigits2]. lia.
  - apply binary_round_aux_at_least; [lia|]. cbn [Zdigits2]. lia.
Qed.

(** A square is not negative. *)
Lemma mul_self_sign (x : spec_float) :
  x <> S754_nan -> of_sign false (SFmul prec emax x x).
Proof.
  destruct x as [s|s| |s m e]; intros Hx; try congruence; cbn [SFmul of_sign].
  - now destruct s.
  - now destruct s.
  - replace (xorb s s) with false by now destruct s.
    apply binary_round_aux_sign. lia.
Qed.

(** *** Sums *)

Lemma add_sign (x y : spec_float) :
  of_sign false x -> of_sign false y -> of_sign false (SFadd prec emax x y).
Proof.
  destruct x as [sx|sx| |sx mx ex], y as [sy|sy| |sy my ey]; cbn [of_sign];
    try contradiction; intros -> ->; cbn [SFadd of_sign]; try reflexivity.
  cbn [cond_Zopp]. rewrite <- Pos2Z.inj_add. cbn [binary_normalize].
  apply binary_round_sign.
Qed.

Lemma add_at_least (b : Z) (x y : spec_float) :
  of_sign false x -> at_least b y -> emin < b ->
  at_least b (SFadd prec emax x y).
Proof.
  destruct x as [sx|sx| |sx mx ex], y as [sy|[]| |[] my ey]; cbn [of_sign at_least];
    try contradiction; intros -> Hb He; cbn [SFadd at_least]; try exact I; try exact Hb.
  cbn [cond_Zopp]. rewrite <- Pos2Z.inj_add. cbn [binary_normalize].
  set (ez := Z.min ex ey).
  destruct (shl_align_value mx ex ez) as (_ & _ & Hx).
  destruct (shl_align_value my ey ez) as (_ & Hez & Hy).
  rewrite Hez in Hy by (subst ez; lia).
  set (ax := fst (shl_align mx ex ez)) in *.
  set (ay := fst (shl_align my ey ez)) in *.
  assert (Hd : Zdigits2 (Z.pos my) + ey <= Zdigits2 (Z.pos (ax + ay)) + ez).
  { assert (Hay : Zdigits2 (Z.pos ay) = Zdigits2 (Z.pos my) + (ey - ez)).
    { rewrite Hy. apply Zdigits2_mul_pow2; subst ez; lia. }
    pose proof (Zdigits2_mono (Z.pos ay) (Z.pos (ax + ay)) ltac:(lia) ltac:(lia)).
    lia. }
  cbn [Zdigits2] in Hd.
  apply at_least_weaken with (k := Zdigits2 (Z.pos (ax + ay)) + ez).
  - cbn [Zdigits2]. lia.
  - apply binary_round_at_least. cbn [Zdigits2]. lia.
Qed.

(** *** Differences *)

(** The difference of two numbers is a number or an infinity. *)
Lemma sub_not_nan (x y : spec_float) :
  (forall s, x <> S754_infinity s) -> x <> S754_nan ->
  (forall s, y <> S754_infinity s) -> y <> S754_nan ->
  SFsub prec emax x y <> S754_nan.
Proof.
  destruct x as [sx|sx| |sx mx ex], y as [sy|sy| |sy my ey]; intros Hx Hx' Hy Hy';
    try congruence; try (exfalso; eapply Hx; reflexivity);
    try (exfalso; eapply Hy; reflexivity); cbn [SFsub]; try discriminate.
  - destruct sx, sy; discriminate.
  - destruct (cond_Zopp sx (Z.pos (fst (shl_align mx ex (Z.min ex ey))))
              - cond_Zopp sy (Z.pos (fst (shl_align my ey (Z.min ex ey))))) as [|p|p];
      cbn [binary_normalize]; [discriminate| |].
    + pose proof (binary_round_sign false p (Z.min ex ey)) as Hs.
      intros E. rewrite E in Hs. exact Hs.
    + pose proof (binary_round_sign true p (Z.min ex ey)) as Hs.
      intros E. rewrite E in Hs. exact Hs.
Qed.

(** *** Square roots *)

Lemma sqrt_at_least (a : Z) (x : spec_float) :
  at_least a x -> emin < (a - 1) / 2 + 1 ->
  at_least ((a - 1) / 2 + 1) (SFsqrt prec emax x).
Proof.
  destruct x as [sx|[]| |[] mx ex]; cbn [at_least]; try contradiction;
    intros Ha He; [exact I|].
  cbn [SFsqrt]. unfold SFsqrt_core_binary.
  set (d := Zdigits2 (Z.pos mx)).
  set (e' := Z.min (fexp prec emax (Z.div2 (d + ex + 1))) (Z.div2 ex)).
  assert (He' : 2 * e' <= ex).
  { subst e'. pose proof (Z.div2_div ex). pose proof (Z.mul_div_le ex 2). lia. }
  set (s := ex - 2 * e').
  assert (Hm' : match s with
                | Z.pos _ => Z.shiftl (Z.pos mx) s
                | 0 => Z.pos mx
                | Z.neg _ => 0
                end = Z.pos mx * 2 ^ s).
  { destruct s as [|p|p] eqn:Hs; [cbn; lia| |lia].
    rewrite Z.shiftl_mul_pow2 by lia. reflexivity. }
  rewrite Hm'. clear Hm'.
  set (m' := Z.pos mx * 2 ^ s).
  assert (Hmpos : 0 < m').
  { subst m'. apply Z.mul_pos_pos; [lia|apply Z.pow_pos_nonneg; lia]. }
  pose proof (Z.sqrtrem_sqrt m') as Hq.
  destruct (Z.sqrtrem m') as [q r]. cbn [fst] in Hq. subst q.
  assert (Hlog : Z.log2 m' = d - 1 + s).
  { subst m'. rewrite Z.log2_mul_pow2 by lia. subst d.
    rewrite (Zdigits2_log2 (Z.pos mx)) by lia. lia. }
  set (j := (d - 1 + s) / 2).
  assert (Hj : 0 <= j).
  { subst j. apply Z.div_pos; [|lia]. subst d. cbn [Zdigits2]. lia. }
  assert (Hsq : 2 ^ j <= Z.sqrt m').
  { rewrite <- (Z.sqrt_square (2 ^ j)) by (apply Z.pow_nonneg; lia).
    apply Z.sqrt_le_mono. rewrite <- Z.pow_add_r by lia.
    transitivity (2 ^ Z.log2 m'); [|apply Z.log2_spec; exact Hmpos].
    apply Z.pow_le_mono_r; [lia|]. rewrite Hlog. subst j.
    pose proof (Z.mul_div_le (d - 1 + s) 2). lia. }
  assert (Hqpos : 0 < Z.sqrt m').
  { pose proof (Z.pow_pos_nonneg 2 j). lia. }
  assert (Hdq : j + 1 <= Zdigits2 (Z.sqrt m')).
  { rewrite Zdigits2_log2 by exact Hqpos.
    apply Z.log2_le_pow2 in Hsq; lia. }
  assert (Hj' : j = (d + ex - 1) / 2 - e').
  { subst j s. replace (d - 1 + (ex - 2 * e')) with (d + ex - 1 + (- e') * 2) by lia.
    rewrite Z.div_add by lia. lia. }
  assert (Hmono : (a - 1) / 2 <= (d + ex - 1) / 2).
  { apply Z.div_le_mono; [lia|]. subst d. cbn [Zdigits2]. lia. }
  apply at_least_weaken with (k := Zdigits2 (Z.sqrt m') + e'); [lia|].
  apply binary_round_aux_at_least; [exact Hqpos|lia].
Qed.

End Rounding.

(** ** The divisor on binary64 *)

Lemma at_least_positive (k : Z) (f : float) :
  Binary64.at_least k (Prim2SF f) ->
  (0 <? f)%float = true /\ (f =? 0)%float = false.
Proof.
  rewrite FloatAxioms.ltb_spec, FloatAxioms.eqb_spec.
  change (Prim2SF 0%float) with (S754_zero false).
  destruct (Prim2SF f) as [s|[]| |[] m e]; cbn [Binary64.at_least]; try contradiction;
    intros _; split; reflexivity.
Qed.

(** A double from [2 ^ -716] on has a magnitude from [-715] on. *)
Lemma at_least_of_leb (s : float) :
  (0x1p-716 <=? s)%float = true -> Binary64.at_least (-715) (Prim2SF s).
Proof.
  rewrite FloatAxioms.leb_spec.
  replace (Prim2SF 0x1p-716%float) with (S754_finite false 4503599627370496 (-768))
    by (vm_compute; reflexivity).
  pose proof (FloatAxioms.Prim2SF_valid s) as Hv.
  destruct (Prim2SF s) as [sg|[]| |[] m e]; cbn [Binary64.at_least]; try discriminate;
    try (intros _; exact I).
  unfold SFleb, SFcompare. intros Hle.
  cbn [valid_binary] in Hv. unfold bounded, canonical_mantissa in Hv.
  apply andb_true_iff in Hv. destruct Hv as (Hc & _). apply Z.eqb_eq in Hc.
  unfold fexp, SpecFloat.emin, prec, emax in Hc.
  destruct (Z.compare_spec (-768) e) as [He|He|He]; try discriminate; lia.
Qed.

Lemma sub_finite_not_nan (a b : float) :
  PrimFloat.is_finite a = true -> PrimFloat.is_finite b = true ->
  Prim2SF (a - b)%float <> S754_nan.
Proof.
  intros Ha Hb. rewrite FloatAxioms.sub_spec. apply sub_not_nan.
  - intros s. destruct (finite_spec a Ha) as [(s' & ->)|(s' & m & e & ->)]; discriminate.
  - destruct (finite_spec a Ha) as [(s' & ->)|(s' & m & e & ->)]; discriminate.
  - intros s. destruct (finite_spec b Hb) as [(s' & ->)|(s' & m & e & ->)]; discriminate.
  - destruct (finite_spec b Hb) as [(s' & ->)|(s' & m & e & ->)]; discriminate.
Qed.

(** The softened distance and its cube, from their magnitudes. *)
Lemma dist_soft_at_least (body_i body_j : NBody.Body (F := float)) (softening : float) :
  PrimFloat.is_finite (NBody.x body_i) = true ->
  PrimFloat.is_finite (NBody.y body_i) = true ->
  PrimFloat.is_finite (NBody.x body_j) = true ->
  PrimFloat.is_finite (NBody.y body_j) = true ->
  (0x1p-716 <=? softening)%float = true ->
  Binary64.at_least (-357) (Prim2SF (NBody.dist_soft body_i body_j softening)) /\
  Binary64.at_least (-1073) (Prim2SF (NBody.divisor body_i body_j softening)).
Proof.
  intros Hxi Hyi Hxj Hyj Hs.
  assert (Hd : Binary64.at_least (-357)
                 (Prim2SF (NBody.dist_soft body_i body_j softening))).
  { unfold NBody.dist_soft. cbv zeta. cbn [add sub mul sqrt Scalar_float].
    rewrite FloatAxioms.sqrt_spec, FloatAxioms.add_spec.
    apply (sqrt_at_least (-715)); [|reflexivity].
    apply add_at_least; [|apply at_least_of_leb; exact Hs|reflexivity].
    rewrite FloatAxioms.add_spec.
    apply add_sign; rewrite FloatAxioms.mul_spec; apply mul_self_sign;
      apply sub_finite_not_nan; assumption. }
  split; [exact Hd|].
  unfold NBody.divisor. cbv zeta. cbn [mul Scalar_float].
  rewrite !FloatAxioms.mul_spec.
  apply (mul_at_least (-715) (-357)); [|exact Hd|reflexivity].
  apply (mul_at_least (-357) (-357)); [exact Hd|exact Hd|reflexivity].
Qed.

(** C5. On binary64, for two bodies with finite coordinates, at the same
    place or not, and a softening of [2 ^ -716] (about [2.9e-216]) or more:
    the softened distance [sqrt(dx*dx + dy*dy + softening)] is positive, and
    so is its cube [dist_soft * dist_soft * dist_soft], the divisor of the
    one division the acceleration loop performs, which is hence not zero. *)
Theorem nbody_divisor_positive (body_i body_j : NBody.Body (F := float))
        (softening : float) :
  PrimFloat.is_finite (NBody.x body_i) = true ->
  PrimFloat.is_finite (NBody.y body_i) = true ->
  PrimFloat.is_finite (NBody.x body_j) = true ->
  PrimFloat.is_finite (NBody.y body_j) = true ->
  (0x1p-716 <=? softening)%float = true ->
  (0 <? NBody.dist_soft body_i body_j softening)%float = true /\
  (0 <? NBody.divisor body_i body_j softening)%float = true /\
  (NBody.divisor body_i body_j softening =? 0)%float = false.
Proof.
  intros Hxi Hyi Hxj Hyj Hs.
  destruct (dist_soft_at_least body_i body_j softening Hxi Hyi Hxj Hyj Hs) as (Hd & Hc).
  apply at_least_positive in Hd, Hc. tauto.
Qed.

Lemma nbody_divisor_positive_witness :
  (0 <? NBody.dist_soft Samples.b1 Samples.b1 0x1p-716)%float = true /\
  (0 <? NBody.divisor Samples.b1 Samples.b1 0x1p-716)%float = true /\
  (NBody.divisor Samples.b1 Samples.b1 0x1p-716 =? 0)%float = false.
Proof.
  apply (nbody_divisor_positive Samples.b1 Samples.b1 0x1p-716%float);
    vm_compute; reflexivity.
Defined.

(** The bound is the power of two next to the least softening that works:
    at zero separation the divisor is the least positive double for
    [softening = 2 ^ -716] and [0.0] for [softening = 2 ^ -717]. *)
Example nbody_divisor_threshold :
  NBody.divisor Samples.b1 Samples.b1 0x1p-716%float = 0x1p-1074%float /\
  NBody.divisor Samples.b1 Samples.b1 0x1p-717%float = 0%float.
Proof. split; vm_compute; reflexivity. Qed.

(** ** Random bodies *)







(** The names of the vector types are abbreviations. *)
Ltac unalias :=
  cbv [KMeans.DataSet KMeans.Point Matmul.Matrix2D Matmul.Vector1D] in *.

(** ** Vectors built by a loop *)

Lemma vec_of_snoc {T : Type} (n : nat) (f : Z -> T) :
  vec_of (Datatypes.S n) f = vec_of n f ++ [f (Z.of_nat n)].
Proof.
  unfold vec_of. rewrite seq_S, map_app. reflexivity.
Qed.

(** A loop that appends one element per iteration. *)
Lemma push_loop {T : Type} (body : Z -> list T -> res (list T)) (f : Z -> T) (n : nat) :
  (forall d v, (0 <= d < Z.of_nat n)%Z -> body d v = Ok (v ++ [f d])) ->
  for_range 0 (Z.of_nat n) body [] = Ok (vec_of n f).
Proof.
  intros Hg.
  destruct (for_range_inv (fun d v => v = vec_of (Z.to_nat d) f)
              body 0 (Z.of_nat n) [])
    as (v & Hrun & Hv); [lia|reflexivity| |].
  - intros d v Hd ->. rewrite Hg by lia. eexists. split; [reflexivity|].
    replace (Z.to_nat (d + 1)) with (Datatypes.S (Z.to_nat d)) by lia.
    rewrite vec_of_snoc. now rewrite Z2Nat.id by lia.
  - unalias; rewrite Hrun, Hv. now rewrite Nat2Z.id.
Qed.

(** A loop that fills a vector slot by slot. *)
Lemma fill_loop {T : Type} (body : Z -> list T -> res (list T)) (f f0 : Z -> T) (n : nat) :
  (forall d v, (0 <= d < Z.of_nat n)%Z -> body d v = set_at v d (f d)) ->
  for_range 0 (Z.of_nat n) body (vec_of n f0) = Ok (vec_of n f).
Proof.
  intros Hg.
  destruct (for_range_inv
              (fun d v => v = vec_of n (fun t => if (t <? d)%Z then f t else f0 t))
              body 0 (Z.of_nat n) (vec_of n f0))
    as (v & Hrun & Hv); [lia| | |].
  - apply vec_of_ext. intros t Ht. zcases.
  - intros d v Hd ->. rewrite Hg by lia.
    rewrite set_at_vec_of by lia. eexists. split; [reflexivity|].
    apply vec_of_ext. intros t Ht. zcases.
  - unalias; rewrite Hrun, Hv. f_equal. apply vec_of_ext. intros t Ht. zcases.
Qed.

(** ** K-means *)

Section KMeansFacts.

Context {F : Type} `{Scalar F} `{Ordered F}.
Import KMeans.

Implicit Types (data centroids v : DataSet (F := F)) (p : Point (F := F)).

(** The [K] points of dimension [D] with coordinates [f k d]. *)
#[local] Abbreviation rect K D f := (vec_of K (fun k => vec_of D (f k))).

Lemma at2_rect (K D : nat) (f : Z -> Z -> F) (k d : Z) :
  (0 <= k < Z.of_nat K)%Z -> (0 <= d < Z.of_nat D)%Z ->
  Matmul.at2 (rect K D f) k d = Ok (f k d).
Proof.
  intros Hk Hd. unfold Matmul.at2. rewrite at_vec_of by lia. cbn [bind].
  now rewrite at_vec_of by lia.
Qed.

Lemma set2_rect (K D : nat) (f : Z -> Z -> F) (k d : Z) (x : F) :
  (0 <= k < Z.of_nat K)%Z -> (0 <= d < Z.of_nat D)%Z ->
  Matmul.set2 (rect K D f) k d x
  = Ok (rect K D (fun k' d' => if ((k' =? k) && (d' =? d))%Z then x else f k' d')).
Proof.
  intros Hk Hd. unfold Matmul.set2. rewrite at_vec_of by lia. cbn [bind].
  rewrite set_at_vec_of by lia. cbn [bind].
  rewrite set_at_vec_of by lia. f_equal.
  apply vec_of_ext. intros k' Hk'.
  destruct (Z.eqb_spec k' k) as [->|Hne]; cbn [andb]; [reflexivity|].
  reflexivity.
Qed.

Lemma rect_ext (K D : nat) (f g : Z -> Z -> F) :
  (forall k d, (0 <= k < Z.of_nat K)%Z -> (0 <= d < Z.of_nat D)%Z -> f k d = g k d) ->
  rect K D f = rect K D g.
Proof.
  intros Hfg. apply vec_of_ext. intros k Hk. apply vec_of_ext. intros d Hd.
  now apply Hfg.
Qed.

Lemma dimension_point_at (D : nat) v (i : Z) :
  dimension D v -> (0 <= i < Z.of_nat (length v))%Z -> length (point_at v i) = D.
Proof.
  intros Hv Hi. unfold dimension in Hv. rewrite Forall_forall in Hv.
  apply Hv. unfold point_at. apply nth_In. lia.
Qed.

Lemma dataset_rect (D : nat) v :
  dimension D v -> v = rect (length v) D (fun k d => coord (point_at v k) d).
Proof.
  intros Hv. rewrite (list_vec_of v []) at 1.
  apply vec_of_ext. intros k Hk.
  fold (point_at v k).
  rewrite (list_vec_of (point_at v k) lit_0) at 1.
  now rewrite (dimension_point_at D v k Hv Hk).
Qed.

Lemma at_point_at v (i : Z) :
  (0 <= i < Z.of_nat (length v))%Z -> at_ v i = Ok (point_at v i).
Proof. intros Hi. now apply at_ok. Qed.

Lemma at_coord p (d : Z) :
  (0 <= d < Z.of_nat (length p))%Z -> at_ p d = Ok (coord p d).
Proof. intros Hd. now apply at_ok. Qed.

Lemma at2_coord (D : nat) v (i d : Z) :
  dimension D v -> (0 <= i < Z.of_nat (length v))%Z -> (0 <= d < Z.of_nat D)%Z ->
  Matmul.at2 v i d = Ok (coord (point_at v i) d).
Proof.
  intros Hv Hi Hd. unfold Matmul.at2. rewrite at_point_at by lia. cbn [bind].
  apply at_coord. now rewrite (dimension_point_at D v i Hv Hi).
Qed.

(** The two distance functions, on a second point that has the
    coordinates of the first. *)
Lemma euclidean_distance_ok (p1 p2 : Point) :
  (length p1 <= length p2)%nat ->
  euclidean_distance p1 p2 = Ok (distance p1 p2).
Proof.
  intros Hlen. unfold euclidean_distance, distance. cbv zeta.
  rewrite (for_range_fold _
             (fun s i => s [+] (coord p1 i [-] coord p2 i)
                           [*] (coord p1 i [-] coord p2 i))).
  - reflexivity.
  - intros i s Hi. rewrite !at_coord by lia. reflexivity.
Qed.

Lemma euclidean_distance_cy_ok (p1 p2 : Point) :
  (length p1 <= length p2)%nat ->
  euclidean_distance_cy p1 p2 (Z.of_nat (length p1)) = Ok (distance p1 p2).
Proof.
  intros Hlen. unfold euclidean_distance_cy, distance.
  rewrite (for_range_fold _
             (fun s i => s [+] (coord p1 i [-] coord p2 i)
                           [*] (coord p1 i [-] coord p2 i))).
  - reflexivity.
  - intros i s Hi. rewrite !at_coord by lia. reflexivity.
Qed.

Lemma nearest_range centroids p :
  centroids <> [] ->
  (0 <= nearest centroids p < Z.of_nat (length centroids))%Z.
Proof.
  intros Hne. unfold nearest.
  assert (HK : (0 < Z.of_nat (length centroids))%Z)
    by (destruct centroids; [congruence|simpl; lia]).
  assert (Hgen : forall l mk,
             (forall k, In k l -> 0 <= k < Z.of_nat (length centroids))%Z ->
             (0 <= snd mk < Z.of_nat (length centroids))%Z ->
             (0 <= snd (fold_left (closer centroids p) l mk)
              < Z.of_nat (length centroids))%Z).
  { induction l as [|k l IH]; intros mk Hl Hmk; cbn [fold_left]; [exact Hmk|].
    apply IH.
    - intros k' Hk'. apply Hl. now right.
    - unfold closer. cbv zeta.
      destruct (distance p (point_at centroids k) [<] fst mk); [|exact Hmk].
      cbn [snd]. apply Hl. now left. }
  apply Hgen; [|cbn [snd]; lia].
  intros k Hk. unfold zrange in Hk. apply in_map_iff in Hk.
  destruct Hk as (t & <- & Ht). apply in_seq in Ht. lia.
Qed.

Lemma members_snoc data centroids (i k : Z) :
  (0 <= i)%Z ->
  members data centroids (i + 1) k
  = members data centroids i k
    ++ (if (nearest centroids (point_at data i) =? k)%Z then [i] else []).
Proof.
  intros Hi. unfold members.
  rewrite (zrange_split 0 i (i + 1)) by lia.
  rewrite filter_app, (zrange_cons i) by lia.
  rewrite (zrange_empty (i + 1)) by lia. reflexivity.
Qed.

(** The assignment step: the cluster of each point, the size of each
    cluster and the sums of its points. *)
Lemma assign_loop data centroids (D : nat) (a0 : Z -> Z)
      (dist_of : Z -> Z -> res F) (read : Z -> Z -> res F) :
  centroids <> [] ->
  (forall i k, (0 <= i < Z.of_nat (length data))%Z ->
               (0 <= k < Z.of_nat (length centroids))%Z ->
               dist_of i k = Ok (distance (point_at data i) (point_at centroids k))) ->
  (forall i d, (0 <= i < Z.of_nat (length data))%Z -> (0 <= d < Z.of_nat D)%Z ->
               read i d = Ok (coord (point_at data i) d)) ->
  let N := length data in
  let K := length centroids in
  for_range 0 (Z.of_nat N) (fun i w =>
    mk <- for_range 0 (Z.of_nat K) (fun k mk =>
            dist <- dist_of i k ;;
            if dist [<] fst mk then Ok (dist, k) else Ok mk)
          (dbl_max, 0%Z) ;;
    let closest_k := snd mk in
    assignments' <- set_at (assignments w) i closest_k ;;
    c <- at_ (cluster_counts w) closest_k ;;
    cluster_counts' <- set_at (cluster_counts w) closest_k (c + 1)%Z ;;
    cluster_sums' <- for_range 0 (Z.of_nat D) (fun d sums =>
                       s <- Matmul.at2 sums closest_k d ;;
                       x <- read i d ;;
                       Matmul.set2 sums closest_k d (s [+] x)) (cluster_sums w) ;;
    Ok (mkWork assignments' cluster_counts' cluster_sums'))
    (mkWork (vec_of N a0) (vec_of K (fun _ => 0%Z))
            (rect K D (fun _ _ => lit_0)))
  = Ok (mkWork (vec_of N (fun i => nearest centroids (point_at data i)))
               (vec_of K (fun k =>
                  Z.of_nat (length (members data centroids (Z.of_nat N) k))))
               (rect K D (fun k d =>
                  total data (members data centroids (Z.of_nat N) k) d))).
Proof.
  intros Hne Hdist Hread N K.
  match goal with |- for_range _ _ ?body ?w0 = _ =>
    destruct (for_range_inv
                (fun i w => w = mkWork
                   (vec_of N (fun t => if (t <? i)%Z
                                       then nearest centroids (point_at data t)
                                       else a0 t))
                   (vec_of K (fun k => Z.of_nat (length (members data centroids i k))))
                   (rect K D (fun k d => total data (members data centroids i k) d)))
                body 0 (Z.of_nat N) w0) as (w & Hrun & Hw)
  end; [lia| | |].
  - f_equal.
    + apply vec_of_ext. intros t Ht. zcases.
  - intros i w Hi ->.
    rewrite (for_range_fold _ (closer centroids (point_at data i))).
    2:{ intros k mk Hk. rewrite Hdist by (fold N K; lia). cbn [bind].
        unfold closer. cbv zeta.
        destruct (distance (point_at data i) (point_at centroids k) [<] fst mk);
          reflexivity. }
    cbn [bind]. cbv zeta.
    change (snd (fold_left (closer centroids (point_at data i))
                           (zrange 0 (Z.of_nat K)) (dbl_max, 0%Z)))
      with (nearest centroids (point_at data i)).
    pose proof (nearest_range centroids (point_at data i) Hne) as Hn. fold K in Hn.
    set (c := nearest centroids (point_at data i)) in *.
    cbn [assignments cluster_counts cluster_sums].
    rewrite set_at_vec_of by lia. cbn [bind].
    rewrite at_vec_of by lia. cbn [bind].
    rewrite set_at_vec_of by lia. cbn [bind].
    match goal with |- exists _, (s' <- for_range _ _ ?body ?s0 ;; _) = _ /\ _ =>
      destruct (for_range_inv (S := DataSet)
                  (fun d sums => sums = rect K D (fun k t =>
                     if ((k =? c) && (t <? d))%Z
                     then total data (members data centroids i k) t
                          [+] coord (point_at data i) t
                     else total data (members data centroids i k) t))
                  body 0 (Z.of_nat D) s0) as (sums & Hrun & Hsums)
    end; [lia| | |].
    + apply rect_ext. intros k t Hk Ht. zcases.
    + intros d sums Hd ->. rewrite at2_rect by lia. cbn [bind].
      rewrite Hread by (fold N; lia). cbn [bind].
      rewrite set2_rect by lia. eexists. split; [reflexivity|].
      apply rect_ext. intros k t Hk Ht.
      destruct (Z.eqb_spec k c) as [->|Hkc]; cbn [andb].
      * rewrite Z.eqb_refl. cbn [andb].
        destruct (Z.ltb_spec d d); [lia|].
        destruct (Z.eqb_spec t d) as [->|Htd].
        -- destruct (Z.ltb_spec d (d + 1)); [reflexivity|lia].
        -- destruct (Z.ltb_spec t d), (Z.ltb_spec t (d + 1)); try reflexivity; lia.
      * destruct (Z.eqb_spec c c); [|congruence].
        destruct (Z.eqb_spec k c); [congruence|]. reflexivity.
    + unalias; rewrite Hrun. cbn [bind]. eexists. split; [reflexivity|].
      rewrite Hsums. f_equal.
      * apply vec_of_ext. intros t Ht.
        destruct (Z.eqb_spec t i) as [->|Hti].
        -- destruct (Z.ltb_spec i (i + 1)); [reflexivity|lia].
        -- destruct (Z.ltb_spec t i), (Z.ltb_spec t (i + 1)); try reflexivity; lia.
      * apply vec_of_ext. intros k Hk. rewrite members_snoc by lia. fold c.
        destruct (Z.eqb_spec k c) as [->|Hkc].
        -- rewrite Z.eqb_refl, length_app. simpl. lia.
        -- destruct (Z.eqb_spec c k); [congruence|]. now rewrite app_nil_r.
      * apply rect_ext. intros k t Hk Ht. rewrite members_snoc by lia. fold c.
        destruct (Z.eqb_spec k c) as [->|Hkc]; cbn [andb].
        -- rewrite Z.eqb_refl. destruct (Z.ltb_spec t (Z.of_nat D)); [|lia].
           unfold total. rewrite fold_left_app. reflexivity.
        -- destruct (Z.eqb_spec c k); [congruence|]. now rewrite app_nil_r.
  - unalias; rewrite Hrun, Hw. f_equal. f_equal.
    apply vec_of_ext. intros t Ht. zcases.
Qed.


Lemma length_zero_nil {T : Type} (l : list T) :
  (Z.of_nat (length l) =? 0)%Z = match l with [] => true | _ => false end.
Proof. destruct l; reflexivity. Qed.

(** The update step of the C++ function. *)
Lemma centroid_loop data centroids (D : nat) (sizes : Z -> list Z) :
  let K := length centroids in
  for_range 0 (Z.of_nat K) (fun k new_centroids =>
    c <- at_ (vec_of K (fun k => Z.of_nat (length (sizes k)))) k ;;
    if (c =? 0)%Z then
      centroids_k <- at_ centroids k ;;
      Ok (new_centroids ++ [centroids_k])
    else
      new_centroid <- for_range 0 (Z.of_nat D) (fun d new_centroid =>
                        s <- Matmul.at2 (rect K D (fun k d => total data (sizes k) d)) k d ;;
                        Ok (new_centroid ++ [s [/] of_int c])) [] ;;
      Ok (new_centroids ++ [new_centroid])) []
  = Ok (vec_of K (fun k => match sizes k with
                           | [] => point_at centroids k
                           | ids => mean data D ids
                           end)).
Proof.
  intros K. apply (push_loop (T := Point)). intros k v Hk.
  rewrite at_vec_of by lia. cbn [bind]. rewrite length_zero_nil.
  destruct (sizes k) as [|a ids] eqn:Hs.
  - rewrite at_point_at by (fold K; lia). reflexivity.
  - rewrite (push_loop (T := F) _
               (fun d => total data (sizes k) d
                         [/] of_int (Z.of_nat (length (a :: ids))))).
    + cbn [bind]. unfold mean. now rewrite Hs.
    + intros d nc Hd. rewrite at2_rect by lia. reflexivity.
Qed.

(** The update step of the Cython function. *)
Lemma centroid_loop_cy data centroids (D : nat) (sizes : Z -> list Z) :
  let K := length centroids in
  for_range 0 (Z.of_nat K) (fun k new_centroids =>
    c <- at_ (vec_of K (fun k => Z.of_nat (length (sizes k)))) k ;;
    if (c =? 0)%Z then
      centroids_k <- at_ centroids k ;;
      Ok (new_centroids ++ [centroids_k])
    else
      let new_centroid := vec_of D (fun _ => lit_0) in
      new_centroid <- for_range 0 (Z.of_nat D) (fun d new_centroid =>
                        s <- Matmul.at2 (rect K D (fun k d => total data (sizes k) d)) k d ;;
                        set_at new_centroid d (s [/] of_int c)) new_centroid ;;
      Ok (new_centroids ++ [new_centroid])) []
  = Ok (vec_of K (fun k => match sizes k with
                           | [] => point_at centroids k
                           | ids => mean data D ids
                           end)).
Proof.
  intros K. apply (push_loop (T := Point)). intros k v Hk.
  rewrite at_vec_of by lia. cbn [bind]. rewrite length_zero_nil.
  destruct (sizes k) as [|a ids] eqn:Hs.
  - rewrite at_point_at by (fold K; lia). reflexivity.
  - cbv zeta.
    rewrite (fill_loop (T := F) _
               (fun d => total data (sizes k) d
                         [/] of_int (Z.of_nat (length (a :: ids))))).
    + cbn [bind]. unfold mean. now rewrite Hs.
    + intros d nc Hd. rewrite at2_rect by lia. reflexivity.
Qed.


(** Copying [D] coordinates of every point into a C array. *)
Lemma copy_loop (D : nat) v (f0 : Z -> Z -> F) :
  dimension D v ->
  let N := length v in
  for_range 0 (Z.of_nat N) (fun i arr =>
    point <- at_ v i ;;
    for_range 0 (Z.of_nat D) (fun d arr =>
      x <- at_ point d ;;
      Matmul.set2 arr i d x) arr) (rect N D f0)
  = Ok v.
Proof.
  intros Hv N.
  match goal with |- for_range _ _ ?body ?a0 = _ =>
    destruct (for_range_inv (S := DataSet)
                (fun i arr => arr = rect N D (fun k d =>
                   if (k <? i)%Z then coord (point_at v k) d else f0 k d))
                body 0 (Z.of_nat N) a0) as (arr & Hrun & Harr)
  end; [lia| | |].
  - apply rect_ext. intros k d Hk Hd. zcases.
  - intros i arr Hi ->. rewrite at_point_at by (fold N; lia). cbn [bind].
    match goal with |- exists _, for_range _ _ ?body ?a0 = _ /\ _ =>
      destruct (for_range_inv (S := DataSet)
                  (fun d arr => arr = rect N D (fun k t =>
                     if ((k <? i) || ((k =? i) && (t <? d)))%Z
                     then coord (point_at v k) t else f0 k t))
                  body 0 (Z.of_nat D) a0) as (arr & Hrun & Harr)
    end; [lia| | |].
    + apply rect_ext. intros k t Hk Ht. zcases.
    + intros d arr Hd ->.
      rewrite at_coord by (rewrite (dimension_point_at D v i Hv) by (fold N; lia); lia).
      cbn [bind]. rewrite set2_rect by lia. eexists. split; [reflexivity|].
      apply rect_ext. intros k t Hk Ht. zcases.
    + exists arr. split; [exact Hrun|]. rewrite Harr.
      apply rect_ext. intros k t Hk Ht. zcases.
  - unalias; rewrite Hrun, Harr. f_equal.
    etransitivity; [|symmetry; apply (dataset_rect D v Hv)]. subst N.
    apply rect_ext. intros k t Hk Ht. unalias. zcases.
Qed.

(** Clearing the counts and the sums. *)
Lemma clear_loop (N K D : nat) (a0 c0 : Z -> Z) (s0 : Z -> Z -> F) :
  for_range 0 (Z.of_nat K) (fun k w =>
    cluster_counts' <- set_at (cluster_counts w) k 0%Z ;;
    cluster_sums' <- for_range 0 (Z.of_nat D) (fun d sums =>
                       Matmul.set2 sums k d lit_0) (cluster_sums w) ;;
    Ok (mkWork (assignments w) cluster_counts' cluster_sums'))
    (mkWork (vec_of N a0) (vec_of K c0) (rect K D s0))
  = Ok (mkWork (vec_of N a0) (vec_of K (fun _ => 0%Z)) (rect K D (fun _ _ => lit_0))).
Proof.
  match goal with |- for_range _ _ ?body ?w0 = _ =>
    destruct (for_range_inv
                (fun k w => w = mkWork (vec_of N a0)
                   (vec_of K (fun t => if (t <? k)%Z then 0%Z else c0 t))
                   (rect K D (fun t d => if (t <? k)%Z then lit_0 else s0 t d)))
                body 0 (Z.of_nat K) w0)
      as (w & Hrun & Hw)
  end; [lia| | |].
  - f_equal; [apply vec_of_ext; intros t Ht; zcases|].
    apply rect_ext. intros t d Ht Hd. zcases.
  - intros k w Hk ->. cbn [assignments cluster_counts cluster_sums].
    rewrite set_at_vec_of by lia. cbn [bind].
    match goal with |- exists _, (s' <- for_range _ _ ?body ?b0 ;; _) = _ /\ _ =>
      destruct (for_range_inv (S := Matmul.Matrix2D)
                  (fun d sums => sums = rect K D (fun t e =>
                     if ((t <? k) || ((t =? k) && (e <? d)))%Z then lit_0 else s0 t e))
                  body 0 (Z.of_nat D) b0) as (sums & Hrun & Hsums)
    end; [lia| | |].
    + apply rect_ext. intros t e Ht He. zcases.
    + intros d sums Hd ->. rewrite set2_rect by lia. eexists. split; [reflexivity|].
      apply rect_ext. intros t e Ht He. zcases.
    + unalias; rewrite Hrun. cbn [bind]. eexists. split; [reflexivity|].
      rewrite Hsums. f_equal.
      * apply vec_of_ext. intros t Ht. zcases.
      * apply rect_ext. intros t e Ht He. zcases.
  - unalias; rewrite Hrun, Hw. f_equal. f_equal.
    + apply vec_of_ext. intros t Ht. zcases.
    + apply rect_ext. intros t e Ht He. zcases.
Qed.

Lemma nonempty_length {T : Type} (l : list T) :
  l <> [] -> (Z.of_nat (length l) =? 0)%Z = false.
Proof. destruct l; [congruence|reflexivity]. Qed.

(** What an iteration returns on data and centroids of one dimension. *)
Lemma kmeans_iteration_updated (D : nat) data centroids :
  data <> [] -> centroids <> [] -> dimension D data -> dimension D centroids ->
  kmeans_iteration data centroids = Ok (updated data centroids).
Proof.
  intros Hd Hc HD HDc. unfold kmeans_iteration. cbv zeta.
  rewrite (nonempty_length data Hd), (nonempty_length centroids Hc). cbn [orb].
  assert (HN : (0 < Z.of_nat (length data))%Z)
    by (destruct data; [congruence|simpl; lia]).
  rewrite at_point_at by lia. cbn [bind].
  assert (HD0 : length (point_at data 0) = D) by (apply dimension_point_at; auto; lia).
  rewrite !Nat2Z.id, !repeat_vec_of, HD0.
  pose proof (assign_loop data centroids D (fun _ => 0%Z)
                (fun i k => data_i <- at_ data i ;;
                            centroids_k <- at_ centroids k ;;
                            euclidean_distance data_i centroids_k)
                (fun i d => Matmul.at2 data i d) Hc) as Hloop.
  cbv zeta in Hloop. unalias. rewrite Hloop; clear Hloop.
  - cbn [bind cluster_counts cluster_sums].
    pose proof (centroid_loop data centroids D
                  (members data centroids (Z.of_nat (length data)))) as Hup.
    cbv zeta in Hup. unalias. rewrite Hup. unfold updated. cbv zeta. now rewrite HD0.
  - intros i k Hi Hk. rewrite !at_point_at by (unalias; lia). cbn [bind].
    apply euclidean_distance_ok.
    rewrite (dimension_point_at D data i), (dimension_point_at D centroids k); auto.
  - intros i d Hi Hd'. now apply (at2_coord D).
Qed.

Lemma kmeans_iteration_cy_updated (D : nat) data centroids
      (fresh : Z -> Z -> F) (fresh_int : Z -> Z) :
  data <> [] -> centroids <> [] -> dimension D data -> dimension D centroids ->
  kmeans_iteration_cy fresh fresh_int data centroids = Ok (updated data centroids).
Proof.
  intros Hd Hc HD HDc. unfold kmeans_iteration_cy. cbv zeta.
  rewrite (nonempty_length data Hd), (nonempty_length centroids Hc). cbn [orb].
  assert (HN : (0 < Z.of_nat (length data))%Z)
    by (destruct data; [congruence|simpl; lia]).
  rewrite at_point_at by lia. cbn [bind].
  assert (HD0 : length (point_at data 0) = D) by (apply dimension_point_at; auto; lia).
  rewrite !Nat2Z.id, !repeat_vec_of, HD0.
  pose proof (copy_loop D data fresh HD) as Hcopy. cbv zeta in Hcopy.
  rewrite Hcopy; clear Hcopy. cbn [bind].
  pose proof (copy_loop D centroids fresh HDc) as Hcopy. cbv zeta in Hcopy.
  rewrite Hcopy; clear Hcopy. cbn [bind].
  rewrite (clear_loop (length data) (length centroids) D fresh_int fresh_int fresh).
  cbn [bind].
  pose proof (assign_loop data centroids D fresh_int
                (fun i k => data_i <- at_ data i ;;
                            centroids_k <- at_ centroids k ;;
                            euclidean_distance_cy data_i centroids_k (Z.of_nat D))
                (fun i d => Matmul.at2 data i d) Hc) as Hloop.
  cbv zeta in Hloop. unalias. rewrite Hloop; clear Hloop.
  - cbn [bind cluster_counts cluster_sums].
    pose proof (centroid_loop_cy data centroids D
                  (members data centroids (Z.of_nat (length data)))) as Hup.
    cbv zeta in Hup. unalias. rewrite Hup. unfold updated. cbv zeta. now rewrite HD0.
  - intros i k Hi Hk. rewrite !at_point_at by (unalias; lia). cbn [bind].
    rewrite <- (dimension_point_at D data i HD Hi) at 1.
    apply euclidean_distance_cy_ok.
    rewrite (dimension_point_at D data i), (dimension_point_at D centroids k); auto.
  - intros i d Hi Hd'. now apply (at2_coord D).
Qed.

Lemma point_at_updated (D : nat) data centroids (k : Z) :
  data <> [] -> dimension D data -> (0 <= k < Z.of_nat (length centroids))%Z ->
  point_at (updated data centroids) k
  = match members data centroids (Z.of_nat (length data)) k with
    | [] => point_at centroids k
    | ids => mean data D ids
    end.
Proof.
  intros Hd HD Hk. unfold updated, point_at at 1. cbv zeta.
  assert (HN : (0 < Z.of_nat (length data))%Z)
    by (destruct data; [congruence|simpl; lia]).
  rewrite (dimension_point_at D data 0 HD) by lia.
  apply nth_error_nth. rewrite nth_error_vec_of by lia.
  now rewrite Z2Nat.id by lia.
Qed.

Lemma dimension_updated (D : nat) data centroids :
  data <> [] -> dimension D data -> dimension D centroids ->
  length (updated data centroids) = length centroids /\
  dimension D (updated data centroids).
Proof.
  intros Hd HD HDc. unfold updated. cbv zeta. split; [apply length_vec_of|].
  assert (HN : (0 < Z.of_nat (length data))%Z)
    by (destruct data; [congruence|simpl; lia]).
  rewrite (dimension_point_at D data 0 HD) by lia.
  unfold dimension. apply Forall_forall. intros p Hp.
  unfold vec_of in Hp. apply in_map_iff in Hp. destruct Hp as (k & <- & Hk).
  apply in_seq in Hk.
  destruct (members data centroids (Z.of_nat (length data)) (Z.of_nat k)).
  - apply dimension_point_at; auto; lia.
  - unfold mean. apply length_vec_of.
Qed.

End KMeansFacts.

(** X8. One K-means iteration.  With no data or no centroid, [kmeans_iteration]
    and [kmeans_iteration_cy] return the centroids as they are.  Otherwise,
    for data and centroids of one dimension [D], both return the same [K]
    centroids of dimension [D]: centroid [k] is kept when no point is
    assigned to it, and is otherwise the mean of the points assigned to it,
    their coordinates summed from [0.0] in the order of [data] and divided by
    their number; a point is assigned to the first centroid at the least
    distance among those below [DBL_MAX]. *)
Theorem kmeans_iteration_means (F : Type) (SF : Scalar F) (OF : Ordered F) (D : nat)
        (data centroids : KMeans.DataSet) (fresh : Z -> Z -> F) (fresh_int : Z -> Z) :
  (data = [] \/ centroids = [] ->
   KMeans.kmeans_iteration data centroids = Ok centroids /\
   KMeans.kmeans_iteration_cy fresh fresh_int data centroids = Ok centroids) /\
  (data <> [] -> centroids <> [] ->
   KMeans.dimension D data -> KMeans.dimension D centroids ->
   exists out,
     KMeans.kmeans_iteration data centroids = Ok out /\
     KMeans.kmeans_iteration_cy fresh fresh_int data centroids = Ok out /\
     length out = length centroids /\
     KMeans.dimension D out /\
     forall k, (0 <= k < Z.of_nat (length centroids))%Z ->
       KMeans.point_at out k
       = match KMeans.members data centroids (Z.of_nat (length data)) k with
         | [] => KMeans.point_at centroids k
         | ids => KMeans.mean data D ids
         end).
Proof.
  split.
  - intros Hempty. unfold KMeans.kmeans_iteration, KMeans.kmeans_iteration_cy.
    cbv zeta.
    assert (Hz : ((Z.of_nat (length data) =? 0)%Z
                  || (Z.of_nat (length centroids) =? 0)%Z) = true).
    { destruct Hempty as [-> | ->]; [reflexivity|].
      cbn. now rewrite Bool.orb_true_r. }
    rewrite Hz. split; reflexivity.
  - intros Hd Hc HD HDc. exists (KMeans.updated data centroids).
    split; [now apply (kmeans_iteration_updated D)|].
    split; [now apply (kmeans_iteration_cy_updated D)|].
    destruct (dimension_updated D data centroids Hd HD HDc) as [Hlen Hdim].
    split; [exact Hlen|]. split; [exact Hdim|].
    intros k Hk. now apply point_at_updated.
Qed.

Lemma kmeans_iteration_means_witness :
  exists out,
    KMeans.kmeans_iteration KMeansSamples.points KMeansSamples.seeds = Ok out /\
    KMeans.kmeans_iteration_cy (fun _ _ => 0.5%float) (fun i => i) KMeansSamples.points KMeansSamples.seeds = Ok out /\
    length out = length KMeansSamples.seeds /\
    KMeans.dimension 2 out /\
    forall k, (0 <= k < Z.of_nat (length KMeansSamples.seeds))%Z ->
      KMeans.point_at out k
      = match KMeans.members KMeansSamples.points KMeansSamples.seeds
                (Z.of_nat (length KMeansSamples.points)) k with
        | [] => KMeans.point_at KMeansSamples.seeds k
        | ids => KMeans.mean KMeansSamples.points 2 ids
        end.
Proof.
  apply (proj2 (kmeans_iteration_means float Scalar_float Ordered_float 2
                  KMeansSamples.points KMeansSamples.seeds (fun _ _ => 0.5%float) (fun i => i))).
  - discriminate.
  - discriminate.
  - repeat constructor.
  - repeat constructor.
Defined.

(** The run on the sample: the first two points go to the first centroid. *)
Example kmeans_iteration_sample :
  KMeans.kmeans_iteration KMeansSamples.points KMeansSamples.seeds
  = Ok [[0.5; 0.5]; [10; 10]]%float.
Proof. vm_compute. reflexivity. Qed.

Section OneCluster.

Context {F : Type} `{Scalar F} `{Ordered F}.
Import KMeans.

Lemma members_one_cluster (data : DataSet) (c : Point) (n : Z) :
  members data [c] n 0 = zrange 0 n.
Proof.
  unfold members.
  rewrite (filter_ext _ (fun _ => true)).
  - induction (zrange 0 n) as [|a l IH]; cbn; [reflexivity|]. now rewrite IH.
  - intros i. pose proof (nearest_range [c] (point_at data i) ltac:(discriminate)) as Hn.
    cbn [length] in Hn. apply Z.eqb_eq. lia.
Qed.

End OneCluster.

(** X9. With a single centroid every point is assigned to it, whatever the
    distances are (NaN included): the new centroid is the mean of all the
    data, coordinate by coordinate. *)
Theorem kmeans_iteration_one_cluster (F : Type) (SF : Scalar F) (OF : Ordered F)
        (D : nat) (data : KMeans.DataSet) (c : KMeans.Point)
        (fresh : Z -> Z -> F) (fresh_int : Z -> Z) :
  data <> [] -> KMeans.dimension D data -> length c = D ->
  KMeans.kmeans_iteration data [c]
  = Ok [KMeans.mean data D (zrange 0 (Z.of_nat (length data)))] /\
  KMeans.kmeans_iteration_cy fresh fresh_int data [c]
  = Ok [KMeans.mean data D (zrange 0 (Z.of_nat (length data)))].
Proof.
  intros Hd HD Hc.
  assert (HDc : KMeans.dimension D [c]) by (constructor; [exact Hc|constructor]).
  assert (HN : (0 < Z.of_nat (length data))%Z)
    by (destruct data; [congruence|simpl; lia]).
  assert (Hup : KMeans.updated data [c]
                = [KMeans.mean data D (zrange 0 (Z.of_nat (length data)))]).
  { unfold KMeans.updated. cbv zeta. cbn [length vec_of seq map].
    change (Z.of_nat 0) with 0%Z. rewrite members_one_cluster.
    rewrite (dimension_point_at D data 0 HD) by lia.
    rewrite (zrange_cons 0) by lia. reflexivity. }
  rewrite <- Hup. split.
  - apply (kmeans_iteration_updated D); auto. discriminate.
  - apply (kmeans_iteration_cy_updated D); auto. discriminate.
Qed.

Lemma kmeans_iteration_one_cluster_witness :
  KMeans.kmeans_iteration KMeansSamples.points [[0; 0]%float]
  = Ok [KMeans.mean KMeansSamples.points 2
          (zrange 0 (Z.of_nat (length KMeansSamples.points)))] /\
  KMeans.kmeans_iteration_cy (fun _ _ => 0.5%float) (fun i => i) KMeansSamples.points [[0; 0]%float]
  = Ok [KMeans.mean KMeansSamples.points 2
          (zrange 0 (Z.of_nat (length KMeansSamples.points)))].
Proof.
  apply (kmeans_iteration_one_cluster float Scalar_float Ordered_float 2
           KMeansSamples.points [0; 0]%float (fun _ _ => 0.5%float) (fun i => i)).
  - discriminate.
  - repeat constructor.
  - reflexivity.
Defined.

(** ** The assignment, in exact real arithmetic *)






(** The fourth point is as far from the first centroid as from the second:
    the first one is its nearest. *)
Example tied_R_first_nearest :
  KMeans.distance (KMeans.point_at KMeansSamples.tied_R 3)
                  (KMeans.point_at KMeansSamples.seeds_R 0)
  = KMeans.distance (KMeans.point_at KMeansSamples.tied_R 3)
                    (KMeans.point_at KMeansSamples.seeds_R 1) /\
  first_nearest KMeansSamples.seeds_R (KMeans.point_at KMeansSamples.tied_R 3) 0.
Proof.
  assert (E : KMeans.distance (KMeans.point_at KMeansSamples.tied_R 3)
                              (KMeans.point_at KMeansSamples.seeds_R 0)
              = KMeans.distance (KMeans.point_at KMeansSamples.tied_R 3)
                                (KMeans.point_at KMeansSamples.seeds_R 1)).
  { unfold KMeans.distance. f_equal. cbv -[Rplus Rminus Rmult IZR]. ring. }
  split; [exact E|]. unfold first_nearest.
  split; [cbn; lia|]. split.
  - intros k' Hk'. cbn [length KMeansSamples.seeds_R] in Hk'.
    assert (Hc : k' = 0%Z \/ k' = 1%Z) by lia.
    destruct Hc as [-> | ->]; [apply Rle_refl|rewrite E; apply Rle_refl].
  - intros k' Hk'. lia.
Qed.

(** ** More loop rules *)

(** Invariant rule for the loop that counts down. *)
Lemma for_down_inv {S : Type} (P : Z -> S -> Prop) (body : Z -> S -> res S)
      (hi lo : Z) (s : S) :
  (lo <= hi)%Z ->
  P hi s ->
  (forall i s0, (lo < i <= hi)%Z -> P i s0 ->
                exists s1, body i s0 = Ok s1 /\ P (i - 1)%Z s1) ->
  exists s', for_down hi lo body s = Ok s' /\ P lo s'.
Proof.
  intros Hle Hhi Hstep. unfold for_down.
  remember (Z.to_nat (hi - lo)) as cnt eqn:Hcnt.
  revert hi s Hle Hhi Hstep Hcnt.
  induction cnt as [|cnt IH]; intros hi s Hle Hhi Hstep Hcnt.
  - exists s. split; [reflexivity|]. now replace lo with hi by lia.
  - destruct (Hstep hi s ltac:(lia) Hhi) as (s1 & Hb & Hs1).
    destruct (IH (hi - 1)%Z s1 ltac:(lia) Hs1) as (s' & Hrun & Hs').
    + intros i s0 Hi. apply Hstep. lia.
    + lia.
    + exists s'. split; [|exact Hs']. cbn [for_down_count]. now rewrite Hb.
Qed.

(** A counted loop stops at the first iteration that fails. *)
Lemma for_range_fails {S : Type} (body : Z -> S -> res S) (lo hi j : Z) (e : error) :
  (lo <= j < hi)%Z ->
  (forall i s, (lo <= i < j)%Z -> exists s', body i s = Ok s') ->
  (forall s, body j s = Err e) ->
  forall s, for_range lo hi body s = Err e.
Proof.
  intros Hj Hok Herr. unfold for_range.
  remember (Z.to_nat (j - lo)) as d eqn:Hd.
  revert lo Hj Hok Hd. induction d as [|d IH]; intros lo Hj Hok Hd s.
  - assert (lo = j) by lia. subst lo.
    replace (Z.to_nat (hi - j)) with (Datatypes.S (Z.to_nat (hi - (j + 1)))) by lia.
    cbn [for_count]. now rewrite Herr.
  - replace (Z.to_nat (hi - lo)) with (Datatypes.S (Z.to_nat (hi - (lo + 1)))) by lia.
    cbn [for_count]. destruct (Hok lo s ltac:(lia)) as (s' & ->). cbn [bind].
    apply IH; [lia| |lia]. intros i s0 Hi. apply Hok. lia.
Qed.

(** ** Exchanging two elements of a vector *)

Lemma update_same {T : Type} (v : list T) (i : nat) (d : T) :
  update v i (nth i v d) = v.
Proof.
  revert i. induction v as [|h t IH]; intros [|i]; cbn; try reflexivity.
  now rewrite IH.
Qed.

Lemma update_comm {T : Type} (v : list T) (i j : nat) (a b : T) :
  i <> j -> update (update v i a) j b = update (update v j b) i a.
Proof.
  revert i j. induction v as [|h t IH]; intros [|i] [|j] Hne; cbn; try reflexivity;
    try congruence.
  rewrite IH by congruence. reflexivity.
Qed.

Lemma perm_update_head {T : Type} (t : list T) (j : nat) (h d : T) :
  (j < length t)%nat -> Permutation (h :: t) (nth j t d :: update t j h).
Proof.
  revert j. induction t as [|a t IH]; intros [|j] Hj; cbn in *; try lia.
  - apply perm_swap.
  - eapply perm_trans; [apply perm_swap|].
    eapply perm_trans; [apply perm_skip, (IH j); lia|].
    apply perm_swap.
Qed.

Lemma perm_swap_lt {T : Type} (v : list T) (i j : nat) (d : T) :
  (i < j)%nat -> (j < length v)%nat ->
  Permutation v (update (update v i (nth j v d)) j (nth i v d)).
Proof.
  revert i j. induction v as [|h t IH]; intros i j Hij Hj; cbn in Hj; [lia|].
  destruct j as [|j]; [lia|]. destruct i as [|i]; cbn.
  - apply perm_update_head. lia.
  - apply perm_skip. apply IH; lia.
Qed.

Lemma perm_exchange {T : Type} (v : list T) (i j : nat) (d : T) :
  (i < length v)%nat -> (j < length v)%nat ->
  Permutation v (update (update v i (nth j v d)) j (nth i v d)).
Proof.
  intros Hi Hj. destruct (Nat.lt_trichotomy i j) as [Hlt | [-> | Hgt]].
  - now apply perm_swap_lt.
  - rewrite update_same.
    rewrite update_same. apply Permutation_refl.
  - rewrite update_comm by lia. now apply perm_swap_lt.
Qed.

(** ** The first centroids *)

Lemma swap_int_perm (v : list Z) (i j : Z) :
  (0 <= i < Z.of_nat (length v))%Z -> (0 <= j < Z.of_nat (length v))%Z ->
  exists v', KMeans.swap_int v i j = Ok v' /\ Permutation v v'.
Proof.
  intros Hi Hj. unfold KMeans.swap_int.
  rewrite (at_ok v i 0%Z), (at_ok v j 0%Z) by lia. cbn [bind].
  rewrite set_at_ok by lia. cbn [bind].
  rewrite set_at_ok by (rewrite length_update; lia).
  eexists. split; [reflexivity|].
  apply perm_exchange; lia.
Qed.

Section CentroidsFacts.

Context {F : Type} `{Scalar F} `{Ordered F}.
Import KMeans.

(** The shuffle leaves a permutation of the positions and draws once per
    position but the first. *)
Lemma shuffle_loop (size : nat) (g : NBody.rand_source) :
  (0 < size)%nat -> (forall n, (0 <= g n)%Z) ->
  exists indices g',
    for_down (Z.of_nat size - 1) 0 (fun i ig =>
      let (r, g) := NBody.rand (snd ig) in
      let j := Z.rem r (i + 1) in
      indices <- swap_int (fst ig) i j ;;
      Ok (indices, g)) (vec_of size (fun i => i), g)
    = Ok (indices, g') /\
    Permutation (vec_of size (fun i => i)) indices /\
    forall n, g' n = g (size - 1 + n)%nat.
Proof.
  intros Hsize Hg.
  match goal with |- exists _ _, for_down _ _ ?body ?s0 = _ /\ _ =>
    destruct (for_down_inv
                (fun i ig => Permutation (vec_of size (fun i => i)) (fst ig) /\
                             forall n, snd ig n = g (size - 1 - Z.to_nat i + n)%nat)
                body (Z.of_nat size - 1) 0 s0) as ([indices g'] & Hrun & Hperm & Hg')
  end; [lia| | |].
  - cbn [fst snd]. split; [apply Permutation_refl|].
    intros n. f_equal. lia.
  - intros i [indices g0] Hi [Hperm Hg0]. cbn [fst snd] in *.
    unfold NBody.rand. cbv zeta.
    assert (Hlen : length indices = size).
    { rewrite <- (Permutation_length Hperm). apply length_vec_of. }
    pose proof (Hg0 O) as Hr. pose proof (Hg (size - 1 - Z.to_nat i + 0)%nat) as Hr0.
    rewrite <- Hr in Hr0.
    pose proof (Z.rem_bound_pos (g0 O) (i + 1) Hr0 ltac:(lia)) as Hj.
    destruct (swap_int_perm indices i (Z.rem (g0 O) (i + 1))) as (v' & Hswap & Hp');
      [lia|lia|].
    rewrite Hswap. cbn [bind]. eexists. split; [reflexivity|]. cbn [fst snd].
    split; [now apply (perm_trans Hperm)|].
    intros n. rewrite Hg0. f_equal. lia.
  - exists indices, g'. cbn [fst snd] in *. split; [exact Hrun|].
    split; [exact Hperm|]. intros n. rewrite Hg'. f_equal. lia.
Qed.

Lemma NoDup_vec_of_id (n : nat) : NoDup (vec_of n (fun i : Z => i)).
Proof.
  unfold vec_of. apply Finite.Injective_map_NoDup; [|apply seq_NoDup].
  intros a b Hab. lia.
Qed.

Lemma In_vec_of_id (n : nat) (i : Z) :
  In i (vec_of n (fun i : Z => i)) -> (0 <= i < Z.of_nat n)%Z.
Proof.
  unfold vec_of. intros Hin. apply in_map_iff in Hin.
  destruct Hin as (k & <- & Hk). apply in_seq in Hk. lia.
Qed.

End CentroidsFacts.

(** X11. [initialize_centroids] returns no centroid and draws nothing when
    [data] is empty or [K] is not between 1 and the number of points.
    Otherwise, the values of [rand()] being non-negative, it returns the
    points at [K] pairwise different positions of [data], after one draw per
    point but one. *)
Theorem initialize_centroids_distinct (F : Type)
        (data : KMeans.DataSet (F := F)) (K : Z) (g : NBody.rand_source) :
  (data = [] \/ (K <= 0)%Z \/ (Z.of_nat (length data) < K)%Z ->
   KMeans.initialize_centroids data K g = Ok ([], g)) /\
  ((1 <= K <= Z.of_nat (length data))%Z -> (forall n, (0 <= g n)%Z) ->
   exists positions g',
     KMeans.initialize_centroids data K g
     = Ok (map (KMeans.point_at data) positions, g') /\
     Z.of_nat (length positions) = K /\
     NoDup positions /\
     (forall i, In i positions -> (0 <= i < Z.of_nat (length data))%Z) /\
     forall n, g' n = g (length data - 1 + n)%nat).
Proof.
  unfold KMeans.initialize_centroids. cbv zeta. split.
  - intros Hout.
    assert (Hz : ((Z.of_nat (length data) =? 0)%Z || (K <=? 0)%Z
                  || (Z.of_nat (length data) <? K)%Z) = true).
    { destruct Hout as [-> | [Hk | Hk]].
      - reflexivity.
      - destruct (Z.leb_spec K 0); [|lia]. now rewrite Bool.orb_true_r.
      - destruct (Z.ltb_spec (Z.of_nat (length data)) K); [|lia].
        now rewrite Bool.orb_true_r. }
    now rewrite Hz.
  - intros HK Hg.
    destruct (Z.eqb_spec (Z.of_nat (length data)) 0); [lia|].
    destruct (Z.leb_spec K 0); [lia|].
    destruct (Z.ltb_spec (Z.of_nat (length data)) K); [lia|]. cbn [orb].
    rewrite (push_loop (T := Z) _ (fun i => i)) by reflexivity. cbn [bind].
    destruct (shuffle_loop (length data) g ltac:(lia) Hg)
      as (indices & g' & Hrun & Hperm & Hg').
    cbv zeta in Hrun. rewrite Hrun. cbn [bind fst snd].
    assert (Hlen : length indices = length data).
    { rewrite <- (Permutation_length Hperm). apply length_vec_of. }
    assert (Hnd : NoDup indices).
    { apply (Permutation_NoDup Hperm). apply NoDup_vec_of_id. }
    assert (Hin : forall i, In i indices -> (0 <= i < Z.of_nat (length data))%Z).
    { intros i Hi. apply In_vec_of_id.
      apply (Permutation_in _ (Permutation_sym Hperm) Hi). }
    match goal with |- context [for_range 0 K ?body []] =>
      pose proof (push_loop (T := KMeans.Point) body
                    (fun k => KMeans.point_at data (nth (Z.to_nat k) indices 0%Z))
                    (Z.to_nat K)) as Hpush
    end.
    rewrite Z2Nat.id in Hpush by lia. rewrite Hpush; clear Hpush.
    + cbn [bind]. exists (firstn (Z.to_nat K) indices), g'.
      split; [|split; [|split; [|split]]].
      * f_equal. f_equal.
        rewrite (list_vec_of (firstn (Z.to_nat K) indices) 0%Z).
        rewrite length_firstn, Nat.min_l by lia.
        unfold vec_of. rewrite map_map. apply map_ext_in. intros k Hk.
        apply in_seq in Hk. rewrite Nat2Z.id.
        now rewrite nth_firstn, (proj2 (Nat.ltb_lt _ _)) by lia.
      * rewrite length_firstn, Nat.min_l by lia. lia.
      * rewrite <- (firstn_skipn (Z.to_nat K) indices) in Hnd.
        now apply NoDup_app_remove_r in Hnd.
      * intros i Hi. apply Hin. rewrite <- (firstn_skipn (Z.to_nat K) indices).
        apply in_or_app. now left.
      * exact Hg'.
    + intros k v Hk.
      rewrite (at_ok indices k 0%Z) by lia. cbn [bind].
      rewrite (at_ok data _ []); [reflexivity|].
      apply Hin. apply nth_In. lia.
Qed.

Lemma initialize_centroids_distinct_witness :
  exists positions g',
    KMeans.initialize_centroids KMeansSamples.points 2 (fun n => Z.of_nat n)
    = Ok (map (KMeans.point_at KMeansSamples.points) positions, g') /\
    Z.of_nat (length positions) = 2%Z /\
    NoDup positions /\
    (forall i, In i positions -> (0 <= i < Z.of_nat (length KMeansSamples.points))%Z) /\
    forall n, g' n = Z.of_nat (length KMeansSamples.points - 1 + n)%nat.
Proof.
  apply (proj2 (initialize_centroids_distinct float KMeansSamples.points 2
                  (fun n => Z.of_nat n))).
  - cbn. lia.
  - intros n. lia.
Defined.

(** ** The distance of two points *)

Section DistanceFacts.

Context {F : Type} `{Scalar F} `{Ordered F}.
Import KMeans.

Lemma euclidean_distance_short (p1 p2 : Point) :
  (length p2 < length p1)%nat -> euclidean_distance p1 p2 = Err Undefined.
Proof.
  intros Hlen. unfold euclidean_distance. cbv zeta.
  rewrite (for_range_fails _ 0 (Z.of_nat (length p1)) (Z.of_nat (length p2)) Undefined).
  - reflexivity.
  - lia.
  - intros i s Hi. rewrite !at_coord by lia. cbn [bind]. eexists. reflexivity.
  - intros s. rewrite at_coord by lia. cbn [bind].
    unfold at_. destruct (Z.ltb_spec (Z.of_nat (length p2)) 0); [reflexivity|].
    rewrite Nat2Z.id.
    now rewrite (proj2 (nth_error_None p2 (length p2)) (le_n _)).
Qed.

Lemma distance_firstn (p1 p2 : Point) :
  distance p1 (firstn (length p1) p2) = distance p1 p2.
Proof.
  unfold distance. f_equal.
  assert (Hgen : forall l a,
             (forall i, In i l -> (0 <= i < Z.of_nat (length p1))%Z) ->
             fold_left (fun s i => s [+] (coord p1 i [-] coord (firstn (length p1) p2) i)
                                     [*] (coord p1 i [-] coord (firstn (length p1) p2) i))
                       l a
             = fold_left (fun s i => s [+] (coord p1 i [-] coord p2 i)
                                       [*] (coord p1 i [-] coord p2 i)) l a).
  { induction l as [|i l IH]; intros a Hl; cbn [fold_left]; [reflexivity|].
    rewrite IH by (intros k Hk; apply Hl; now right).
    assert (Hc : coord (firstn (length p1) p2) i = coord p2 i).
    { unfold coord. rewrite nth_firstn.
      pose proof (Hl i (or_introl eq_refl)) as Hi.
      now rewrite (proj2 (Nat.ltb_lt _ _)) by lia. }
    now rewrite Hc. }
  apply Hgen. intros i Hi. unfold zrange in Hi. apply in_map_iff in Hi.
  destruct Hi as (t & <- & Ht). apply in_seq in Ht. lia.
Qed.

End DistanceFacts.

(** X12. [euclidean_distance] runs over the coordinates of its first point: a
    second point with fewer coordinates is read out of range; one with more
    has its further coordinates ignored. *)
Theorem euclidean_distance_defined (F : Type) (SF : Scalar F) (p1 p2 : KMeans.Point) :
  ((length p2 < length p1)%nat -> KMeans.euclidean_distance p1 p2 = Err Undefined) /\
  ((length p1 <= length p2)%nat ->
   KMeans.euclidean_distance p1 p2 = Ok (KMeans.distance p1 p2) /\
   KMeans.euclidean_distance p1 p2
   = KMeans.euclidean_distance p1 (firstn (length p1) p2)).
Proof.
  split.
  - apply euclidean_distance_short.
  - intros Hle. split; [now apply euclidean_distance_ok|].
    rewrite !euclidean_distance_ok.
    + now rewrite distance_firstn.
    + rewrite length_firstn. lia.
    + exact Hle.
Qed.

Lemma euclidean_distance_defined_witness :
  KMeans.euclidean_distance [3; 4]%float [0; 0; 7]%float
  = Ok (KMeans.distance [3; 4]%float [0; 0; 7]%float) /\
  KMeans.euclidean_distance [3; 4]%float [0; 0; 7]%float
  = KMeans.euclidean_distance [3; 4]%float (firstn 2 [0; 0; 7]%float).
Proof.
  apply (proj2 (euclidean_distance_defined float Scalar_float
                  [3; 4]%float [0; 0; 7]%float)).
  cbn. lia.
Defined.

(** ** The distance, in exact real arithmetic *)

Lemma sum_squares_nonneg (t : Z -> R) (l : list Z) (a : R) :
  (0 <= a)%R -> (a <= fold_left (fun s i => (s + t i * t i)%R) l a)%R.
Proof.
  revert a. induction l as [|i l IH]; intros a Ha; cbn [fold_left]; [lra|].
  pose proof (Rle_0_sqr (t i)) as Hsq. unfold Rsqr in Hsq.
  specialize (IH (a + t i * t i)%R ltac:(lra)). lra.
Qed.

Lemma sum_squares_zero (t : Z -> R) (l : list Z) (a : R) :
  (0 <= a)%R -> fold_left (fun s i => (s + t i * t i)%R) l a = 0%R ->
  a = 0%R /\ forall i, In i l -> t i = 0%R.
Proof.
  revert a. induction l as [|i l IH]; intros a Ha Hz; cbn [fold_left] in Hz.
  - split; [exact Hz|]. intros i [].
  - pose proof (Rle_0_sqr (t i)) as Hsq. unfold Rsqr in Hsq.
    destruct (IH (a + t i * t i)%R ltac:(lra) Hz) as [Hsum Hall].
    assert (Ha0 : a = 0%R) by lra.
    assert (Hti : (t i * t i)%R = 0%R) by lra.
    split; [exact Ha0|]. intros k [<-|Hk]; [|now apply Hall].
    destruct (Rmult_integral _ _ Hti); assumption.
Qed.

(** X13. In exact real arithmetic, on two points with the same number of
    coordinates, [euclidean_distance] is a distance: it is not negative, it
    does not depend on the order of the two points, and it is zero exactly
    when the points are equal. *)
Theorem euclidean_distance_metric (p1 p2 : KMeans.Point (F := R)) :
  length p1 = length p2 ->
  exists d,
    KMeans.euclidean_distance p1 p2 = Ok d /\
    KMeans.euclidean_distance p2 p1 = Ok d /\
    (0 <= d)%R /\
    (d = 0%R <-> p1 = p2).
Proof.
  intros Hlen. exists (KMeans.distance p1 p2).
  split; [apply euclidean_distance_ok; lia|].
  assert (Hsym : KMeans.distance p2 p1 = KMeans.distance p1 p2).
  { unfold KMeans.distance. rewrite Hlen. f_equal.
    generalize (zrange 0 (Z.of_nat (length p2))) (@lit_0 R Scalar_R).
    intros l. induction l as [|i l IH]; intros a; cbn [fold_left]; [reflexivity|].
    rewrite IH. f_equal. cbn. ring. }
  split; [rewrite <- Hsym; apply euclidean_distance_ok; lia|].
  split; [apply sqrt_pos|].
  unfold KMeans.distance. cbn [sqrt Scalar_R add sub mul lit_0].
  split.
  - intros Hz.
    set (t := fun i => (KMeans.coord p1 i - KMeans.coord p2 i)%R).
    pose proof (sum_squares_nonneg t (zrange 0 (Z.of_nat (length p1))) 0%R (Rle_refl 0))
      as Hnn.
    apply sqrt_eq_0 in Hz; [|exact Hnn].
    destruct (sum_squares_zero t _ 0%R (Rle_refl 0) Hz) as [_ Hall].
    rewrite (list_vec_of p1 0%R), (list_vec_of p2 0%R), Hlen.
    apply vec_of_ext. intros i Hi.
    assert (Hin : In i (zrange 0 (Z.of_nat (length p1)))).
    { unfold zrange. apply in_map_iff. exists (Z.to_nat i). split; [lia|].
      apply in_seq. lia. }
    specialize (Hall i Hin). unfold t, KMeans.coord in Hall. cbn in Hall. lra.
  - intros <-.
    replace (fold_left _ _ _) with 0%R; [apply sqrt_0|].
    generalize (zrange 0 (Z.of_nat (length p1))).
    intros l. induction l as [|i l IH]; cbn [fold_left]; [reflexivity|].
    replace (0 + (KMeans.coord p1 i - KMeans.coord p1 i)
                 * (KMeans.coord p1 i - KMeans.coord p1 i))%R with 0%R by ring.
    exact IH.
Qed.

Lemma euclidean_distance_metric_witness :
  exists d,
    KMeans.euclidean_distance [3; 4]%R [0; 0]%R = Ok d /\
    KMeans.euclidean_distance [0; 0]%R [3; 4]%R = Ok d /\
    (0 <= d)%R /\
    (d = 0%R <-> [3; 4]%R = [0; 0]%R).
Proof.
  apply (euclidean_distance_metric [3; 4]%R [0; 0]%R).
  reflexivity.
Defined.

(** ** Random data *)

Section DataFacts.

Context {F : Type} `{Scalar F}.
Variable RAND_MAX : Z.

Lemma point_loop (D : nat) (max_val : F) (g : NBody.rand_source) :
  exists g',
    for_range 0 (Z.of_nat D) (fun d pg =>
      let (r, g) := NBody.rand (snd pg) in
      let val := NBody.unit_of RAND_MAX r [*] max_val in
      Ok (fst pg ++ [val], g)) ([], g)
    = Ok (vec_of D (fun d => NBody.unit_of RAND_MAX (g (Z.to_nat d)) [*] max_val), g') /\
    forall n, g' n = g (D + n)%nat.
Proof.
  match goal with |- exists _, for_range _ _ ?body ?s0 = _ /\ _ =>
    destruct (for_range_inv (S := (list F * NBody.rand_source)%type)
                (fun d pg =>
                   fst pg = vec_of (Z.to_nat d)
                              (fun d => NBody.unit_of RAND_MAX (g (Z.to_nat d)) [*] max_val)
                   /\ forall n, snd pg n = g (Z.to_nat d + n)%nat)
                body 0 (Z.of_nat D) s0) as ([p g'] & Hrun & Hp & Hg')
  end; [lia| | |].
  - cbn [fst snd]. split; [reflexivity|]. intros n. reflexivity.
  - intros d [p g0] Hd [Hp Hg0]. cbn [fst snd] in *. unfold NBody.rand. cbv zeta.
    eexists. split; [reflexivity|]. cbn [fst snd]. split.
    + replace (Z.to_nat (d + 1)) with (Datatypes.S (Z.to_nat d)) by lia.
      rewrite vec_of_snoc, Hp, Hg0, Nat2Z.id, Nat.add_0_r. reflexivity.
    + intros n. rewrite Hg0. f_equal. lia.
  - cbn [fst snd] in *. exists g'. cbv zeta in Hrun |- *.
    rewrite Hrun, Hp, Nat2Z.id. split; [reflexivity|].
    intros n. rewrite Hg'. f_equal. lia.
Qed.

End DataFacts.

(** X14. [initialize_data] draws one value of the generator per coordinate,
    point after point: coordinate [d] of point [i] is draw [i * D + d],
    scaled to [max_val], and the next draw after the call is draw [N * D].
    A negative [N] makes it throw before it draws, and a negative [D] as
    soon as a point is built. *)
Theorem initialize_data_draws (F : Type) (SF : Scalar F) (RAND_MAX N D : Z)
        (max_val : F) (g : NBody.rand_source) :
  ((N < 0)%Z -> KMeans.initialize_data RAND_MAX N D max_val g = Err LengthError) /\
  ((0 < N)%Z -> (D < 0)%Z ->
   KMeans.initialize_data RAND_MAX N D max_val g = Err LengthError) /\
  ((0 <= N)%Z -> (0 <= D)%Z ->
   exists g',
     KMeans.initialize_data RAND_MAX N D max_val g
     = Ok (vec_of (Z.to_nat N) (fun i =>
             vec_of (Z.to_nat D) (fun d =>
               NBody.unit_of RAND_MAX (g (Z.to_nat (i * D + d))) [*] max_val)), g') /\
     forall n, g' n = g (Z.to_nat (N * D) + n)%nat).
Proof.
  unfold KMeans.initialize_data. split; [|split].
  - intros HN. now destruct (Z.ltb_spec N 0); [|lia].
  - intros HN HD. destruct (Z.ltb_spec N 0); [lia|].
    apply (for_range_fails _ 0 N 0); [lia| |].
    + intros i s Hi. lia.
    + intros s. now destruct (Z.ltb_spec D 0); [|lia].
  - intros HN HD. destruct (Z.ltb_spec N 0); [lia|].
    destruct (Z.ltb_spec D 0); [lia|].
    match goal with |- exists _, for_range _ _ ?body ?s0 = _ /\ _ =>
      destruct (for_range_inv (S := (KMeans.DataSet * NBody.rand_source)%type)
                  (fun i dg =>
                     fst dg = vec_of (Z.to_nat i) (fun i =>
                                vec_of (Z.to_nat D) (fun d =>
                                  NBody.unit_of RAND_MAX (g (Z.to_nat (i * D + d)))
                                  [*] max_val))
                     /\ forall n, snd dg n = g (Z.to_nat (i * D) + n)%nat)
                  body 0 N s0) as ([data g'] & Hrun & Hdata & Hg')
    end; [lia| | |].
    + cbn [fst snd]. split; [reflexivity|]. intros n. reflexivity.
    + intros i [data g0] Hi [Hdata Hg0]. cbn [fst snd] in *.
      destruct (point_loop RAND_MAX (Z.to_nat D) max_val g0) as (g1 & Hpoint & Hg1).
      rewrite Z2Nat.id in Hpoint by lia.
      cbv zeta in Hpoint |- *. cbv [KMeans.Point KMeans.DataSet] in *.
      rewrite Hpoint. cbn [bind fst snd].
      eexists. split; [reflexivity|]. cbn [fst snd]. split.
      * replace (Z.to_nat (i + 1)) with (Datatypes.S (Z.to_nat i)) by lia.
        rewrite vec_of_snoc, Hdata. f_equal. f_equal.
        apply vec_of_ext. intros d Hd. rewrite Hg0. do 3 f_equal. nia.
      * intros n. rewrite Hg1, Hg0. f_equal. nia.
    + cbn [fst snd] in *. exists g'.
      cbv zeta in Hrun |- *. cbv [KMeans.Point KMeans.DataSet] in *.
      rewrite Hrun, Hdata. split; [reflexivity|].
      exact Hg'.
Qed.

Lemma initialize_data_draws_witness :
  exists g',
    KMeans.initialize_data 32767 2 3 100%float (fun n => Z.of_nat n)
    = Ok (vec_of (Z.to_nat 2) (fun i =>
            vec_of (Z.to_nat 3) (fun d =>
              NBody.unit_of 32767 (Z.of_nat (Z.to_nat (i * 3 + d))) [*] 100%float)), g') /\
    forall n, g' n = Z.of_nat (Z.to_nat (2 * 3) + n)%nat.
Proof.
  apply (proj2 (proj2 (initialize_data_draws float Scalar_float 32767 2 3 100%float
                         (fun n => Z.of_nat n)))).
  - lia.
  - lia.
Defined.

(** ** The two N-body implementations side by side *)

(** X3. The Cython step leaves in the caller's dictionaries exactly the bodies
    the C++ step returns for the same values, when the list names each
    dictionary once. *)
Theorem nbody_step_cy_agrees (F : Type) (SF : Scalar F)
        (h : NBody.heap) (refs : list NBody.ref) (dt G softening : F) :
  NBody.valid_refs h refs -> NoDup refs ->
  exists out h',
    NBody.nbody_step_update (NBody.deref h refs) dt G softening = Ok out /\
    NBody.nbody_step_update_cy h refs dt G softening = Ok (h', refs) /\
    NBody.deref h' refs = out.
Proof.
  intros Hv Hnd.
  destruct (nbody_step_update_cy_heap h refs dt G softening Hv)
    as (h' & Hrun & Hlen & Hm & _ & Hin).
  exists (NBody.stepped (NBody.deref h refs) dt G softening), h'.
  split; [apply nbody_step_update_stepped|]. split; [exact Hrun|].
  rewrite (list_vec_of (NBody.deref h' refs)
             (NBody.mkBody lit_0 lit_0 lit_0 lit_0 lit_0)).
  unfold NBody.stepped. rewrite !length_deref.
  apply vec_of_ext. intros i Hi.
  fold (NBody.body_at (NBody.deref h' refs) i).
  rewrite body_at_deref by lia.
  rewrite Hin; [|lia|].
  - pose proof (body_at_stepped (NBody.deref h refs) dt G softening i) as Hs.
    rewrite length_deref in Hs. rewrite Hs by lia.
    rewrite body_at_deref by lia.
    unfold NBody.sync, NBody.advance, NBody.with_x, NBody.with_y, NBody.with_vx,
      NBody.with_vy. cbn. reflexivity.
  - intros k' Hk' Heq. apply ref_at_NoDup in Heq; auto; lia.
Qed.

Lemma nbody_step_cy_agrees_witness :
  exists out h',
    NBody.nbody_step_update (NBody.deref [Samples.b1; Samples.b1] [1%Z; 0%Z])
      0.5%float Samples.G_default Samples.softening_default = Ok out /\
    NBody.nbody_step_update_cy [Samples.b1; Samples.b1] [1%Z; 0%Z] 0.5%float
      Samples.G_default Samples.softening_default = Ok (h', [1%Z; 0%Z]) /\
    NBody.deref h' [1%Z; 0%Z] = out.
Proof.
  apply (nbody_step_cy_agrees float Scalar_float [Samples.b1; Samples.b1] [1%Z; 0%Z]
           0.5%float Samples.G_default Samples.softening_default).
  - repeat constructor; simpl; lia.
  - repeat constructor; simpl; intuition lia.
Defined.

(** ** The draws of the initializers *)

Section DrawsFacts.

Context {F : Type} `{Scalar F}.
Variable RAND_MAX : Z.

Lemma initialize_loop_draws (box_size max_mass : F) :
  forall (cnt : nat) (acc : NBody.BodiesVector) (g : NBody.rand_source),
    fst (NBody.initialize_loop RAND_MAX cnt box_size max_mass acc g)
    = acc ++ vec_of cnt (NBodyLaws.drawn RAND_MAX box_size max_mass g) /\
    forall k, snd (NBody.initialize_loop RAND_MAX cnt box_size max_mass acc g) k
              = g (5 * cnt + k)%nat.
Proof.
  induction cnt as [|cnt IH]; intros acc g.
  - cbn. now rewrite app_nil_r.
  - cbn [NBody.initialize_loop NBody.rand].
    match goal with |- context [NBody.initialize_loop _ _ _ _ ?acc' ?g'] =>
      destruct (IH acc' g') as [Hb Hg]
    end.
    split.
    + rewrite Hb, <- app_assoc. f_equal. unfold vec_of.
      rewrite <- cons_seq, <- seq_shift. cbn [map app]. rewrite map_map. f_equal.
      apply map_ext_in. intros k _.
      unfold NBodyLaws.drawn. cbv zeta.
      replace (Z.to_nat (5 * Z.of_nat (Datatypes.S k) + 0))
        with (Datatypes.S (Datatypes.S (Datatypes.S (Datatypes.S (Datatypes.S
               (Z.to_nat (5 * Z.of_nat k + 0))))))) by lia.
      replace (Z.to_nat (5 * Z.of_nat (Datatypes.S k) + 1))
        with (Datatypes.S (Datatypes.S (Datatypes.S (Datatypes.S (Datatypes.S
               (Z.to_nat (5 * Z.of_nat k + 1))))))) by lia.
      replace (Z.to_nat (5 * Z.of_nat (Datatypes.S k) + 2))
        with (Datatypes.S (Datatypes.S (Datatypes.S (Datatypes.S (Datatypes.S
               (Z.to_nat (5 * Z.of_nat k + 2))))))) by lia.
      replace (Z.to_nat (5 * Z.of_nat (Datatypes.S k) + 3))
        with (Datatypes.S (Datatypes.S (Datatypes.S (Datatypes.S (Datatypes.S
               (Z.to_nat (5 * Z.of_nat k + 3))))))) by lia.
      replace (Z.to_nat (5 * Z.of_nat (Datatypes.S k) + 4))
        with (Datatypes.S (Datatypes.S (Datatypes.S (Datatypes.S (Datatypes.S
               (Z.to_nat (5 * Z.of_nat k + 4))))))) by lia.
      reflexivity.
    + intros k. rewrite Hg. f_equal. lia.
Qed.

Lemma initialize_loop_cy_draws (box_size max_mass : F) :
  forall (cnt : nat) (acc : NBody.BodiesVector) (g : NBody.uniform_source),
    fst (NBody.initialize_loop_cy cnt box_size max_mass acc g)
    = acc ++ vec_of cnt (NBodyLaws.drawn_cy box_size max_mass g) /\
    forall k, snd (NBody.initialize_loop_cy cnt box_size max_mass acc g) k
              = g (5 * cnt + k)%nat.
Proof.
  induction cnt as [|cnt IH]; intros acc g.
  - cbn. now rewrite app_nil_r.
  - cbn [NBody.initialize_loop_cy NBody.uniform].
    match goal with |- context [NBody.initialize_loop_cy _ _ _ ?acc' ?g'] =>
      destruct (IH acc' g') as [Hb Hg]
    end.
    split.
    + rewrite Hb, <- app_assoc. f_equal. unfold vec_of.
      rewrite <- cons_seq, <- seq_shift. cbn [map app]. rewrite map_map. f_equal.
      apply map_ext_in. intros k _.
      unfold NBodyLaws.drawn_cy. cbv zeta.
      replace (Z.to_nat (5 * Z.of_nat (Datatypes.S k) + 0))
        with (Datatypes.S (Datatypes.S (Datatypes.S (Datatypes.S (Datatypes.S
               (Z.to_nat (5 * Z.of_nat k + 0))))))) by lia.
      replace (Z.to_nat (5 * Z.of_nat (Datatypes.S k) + 1))
        with (Datatypes.S (Datatypes.S (Datatypes.S (Datatypes.S (Datatypes.S
               (Z.to_nat (5 * Z.of_nat k + 1))))))) by lia.
      replace (Z.to_nat (5 * Z.of_nat (Datatypes.S k) + 2))
        with (Datatypes.S (Datatypes.S (Datatypes.S (Datatypes.S (Datatypes.S
               (Z.to_nat (5 * Z.of_nat k + 2))))))) by lia.
      replace (Z.to_nat (5 * Z.of_nat (Datatypes.S k) + 3))
        with (Datatypes.S (Datatypes.S (Datatypes.S (Datatypes.S (Datatypes.S
               (Z.to_nat (5 * Z.of_nat k + 3))))))) by lia.
      replace (Z.to_nat (5 * Z.of_nat (Datatypes.S k) + 4))
        with (Datatypes.S (Datatypes.S (Datatypes.S (Datatypes.S (Datatypes.S
               (Z.to_nat (5 * Z.of_nat k + 4))))))) by lia.
      reflexivity.
    + intros k. rewrite Hg. f_equal. lia.
Qed.

End DrawsFacts.

(** X4. The initializers consume five values of the generator per body, in the
    order [x], [y], [vx], [vy], [m]: body [i] is built from the draws [5 i]
    to [5 i + 4], and the next draw after the call is draw [5 N].  A negative
    [N] makes the C++ function throw before it draws anything, and the
    Cython function return the empty list. *)
Theorem initialize_bodies_draws (F : Type) (SF : Scalar F) (RAND_MAX N : Z)
        (box_size max_mass : F) (g : NBody.rand_source) (u : NBody.uniform_source) :
  ((N < 0)%Z ->
   NBody.initialize_bodies RAND_MAX N box_size max_mass g = Err LengthError /\
   fst (NBody.initialize_bodies_cy N box_size max_mass u) = [] /\
   forall k, snd (NBody.initialize_bodies_cy N box_size max_mass u) k = u k) /\
  ((0 <= N)%Z ->
   (exists g',
      NBody.initialize_bodies RAND_MAX N box_size max_mass g
      = Ok (vec_of (Z.to_nat N) (NBodyLaws.drawn RAND_MAX box_size max_mass g), g') /\
      forall k, g' k = g (5 * Z.to_nat N + k)%nat) /\
   fst (NBody.initialize_bodies_cy N box_size max_mass u)
   = vec_of (Z.to_nat N) (NBodyLaws.drawn_cy box_size max_mass u) /\
   forall k, snd (NBody.initialize_bodies_cy N box_size max_mass u) k
             = u (5 * Z.to_nat N + k)%nat).
Proof.
  split; intros HN.
  - unfold NBody.initialize_bodies, NBody.initialize_bodies_cy.
    destruct (Z.ltb_spec N 0); [|lia].
    replace (Z.to_nat N) with O by lia. cbn. auto.
  - unfold NBody.initialize_bodies, NBody.initialize_bodies_cy.
    destruct (Z.ltb_spec N 0); [lia|].
    destruct (initialize_loop_draws RAND_MAX box_size max_mass (Z.to_nat N) [] g)
      as [Hb Hg].
    destruct (initialize_loop_cy_draws box_size max_mass (Z.to_nat N) [] u)
      as [Hb' Hg'].
    split; [|split; [exact Hb'|exact Hg']].
    destruct (NBody.initialize_loop RAND_MAX (Z.to_nat N) box_size max_mass [] g)
      as [bs g'] eqn:Hrun.
    cbn [fst snd] in Hb, Hg. exists g'. split; [|exact Hg].
    now rewrite Hb.
Qed.

Lemma initialize_bodies_draws_witness :
  (exists g',
      NBody.initialize_bodies 32767 2 100%float 1%float (fun k => Z.of_nat k)
      = Ok (vec_of (Z.to_nat 2)
              (NBodyLaws.drawn 32767 100%float 1%float (fun k => Z.of_nat k)), g') /\
      forall k, g' k = Z.of_nat (5 * Z.to_nat 2 + k)%nat) /\
   fst (NBody.initialize_bodies_cy 2 100%float 1%float (fun _ => 0.5%float))
   = vec_of (Z.to_nat 2) (NBodyLaws.drawn_cy 100%float 1%float (fun _ => 0.5%float)) /\
   forall k, snd (NBody.initialize_bodies_cy 2 100%float 1%float (fun _ => 0.5%float)) k
             = 0.5%float.
Proof.
  apply (proj2 (initialize_bodies_draws float Scalar_float 32767 2 100%float 1%float
                  (fun k => Z.of_nat k) (fun _ => 0.5%float))).
  lia.
Defined.

(** ** Momentum, in exact real arithmetic *)

(** Sums over a list of indices. *)
Lemma fold_left_Rplus (f : Z -> R) (l : list Z) (a : R) :
  fold_left (fun s j => (s + f j)%R) l a
  = (a + fold_right (fun j s => (f j + s)%R) 0%R l)%R.
Proof.
  revert a. induction l as [|j l IH]; intros a; cbn.
  - lra.
  - rewrite IH. lra.
Qed.

Lemma sum_ext (f g : Z -> R) (l : list Z) :
  (forall j, In j l -> f j = g j) ->
  fold_right (fun j s => (f j + s)%R) 0%R l = fold_right (fun j s => (g j + s)%R) 0%R l.
Proof.
  induction l as [|j l IH]; intros Hfg; cbn; [reflexivity|].
  rewrite Hfg by now left. rewrite IH; [reflexivity|].
  intros k Hk. apply Hfg. now right.
Qed.

Lemma sum_linear (f g : Z -> R) (c : R) (l : list Z) :
  fold_right (fun j s => (f j + c * g j + s)%R) 0%R l
  = (fold_right (fun j s => (f j + s)%R) 0%R l
     + c * fold_right (fun j s => (g j + s)%R) 0%R l)%R.
Proof. induction l as [|j l IH]; cbn; [lra|]. rewrite IH. lra. Qed.

Lemma sum_swap (t : Z -> Z -> R) (l l' : list Z) :
  fold_right (fun i s => (fold_right (fun j s => (t i j + s)%R) 0%R l' + s)%R) 0%R l
  = fold_right (fun j s => (fold_right (fun i s => (t i j + s)%R) 0%R l + s)%R) 0%R l'.
Proof.
  induction l as [|i l IH]; cbn.
  - induction l' as [|j l' IH']; cbn; [reflexivity|]. rewrite <- IH'. lra.
  - rewrite IH. clear IH.
    induction l' as [|j l' IH']; cbn; [lra|]. rewrite <- IH'. lra.
Qed.

Lemma sum_antisymmetric (t : Z -> Z -> R) (l : list Z) :
  (forall i j, t i j = (- t j i)%R) ->
  fold_right (fun i s => (fold_right (fun j s => (t i j + s)%R) 0%R l + s)%R) 0%R l = 0%R.
Proof.
  intros Ht.
  set (S := fold_right _ 0%R l).
  assert (Hneg : S = (- S)%R).
  { unfold S at 1. rewrite sum_swap. unfold S.
    transitivity
      (fold_right (fun i s =>
         (0 + (-1) * fold_right (fun j s => (t i j + s)%R) 0%R l + s)%R) 0%R l).
    - apply sum_ext. intros j _.
      transitivity (fold_right (fun i s => (0 + (-1) * t j i + s)%R) 0%R l).
      + apply sum_ext. intros i _. rewrite (Ht i j). lra.
      + rewrite (sum_linear (fun _ => 0%R) (t j) (-1) l).
        assert (H0 : fold_right (fun (_ : Z) s => (0 + s)%R) 0%R l = 0%R).
        { clear. induction l as [|a l IH]; cbn; [reflexivity|]. rewrite IH. lra. }
        rewrite H0. lra.
    - rewrite (sum_linear (fun _ => 0%R)
                 (fun i => fold_right (fun j s => (t i j + s)%R) 0%R l) (-1) l).
      assert (H0 : fold_right (fun (_ : Z) s => (0 + s)%R) 0%R l = 0%R).
      { clear. induction l as [|a l IH]; cbn; [reflexivity|]. rewrite IH. lra. }
      rewrite H0. lra. }
  lra.
Qed.

Lemma sum_vec_of {T : Type} (w : T -> R) (n : nat) (f : Z -> T) :
  fold_right (fun b s => (w b + s)%R) 0%R (vec_of n f)
  = fold_right (fun i s => (w (f i) + s)%R) 0%R (zrange 0 (Z.of_nat n)).
Proof.
  unfold vec_of, zrange. rewrite Z.sub_0_r, Nat2Z.id.
  generalize (seq 0 n). intros l. induction l as [|k l IH]; cbn; [reflexivity|].
  now rewrite IH.
Qed.

Lemma fold_left_ext_sum (step : R -> Z -> R) (f : Z -> R) (l : list Z) (a : R) :
  (forall s j, step s j = (s + f j)%R) ->
  fold_left step l a = (a + fold_right (fun j s => (f j + s)%R) 0%R l)%R.
Proof.
  intros Hstep. rewrite <- fold_left_Rplus.
  revert a. induction l as [|j l IH]; intros a; cbn; [reflexivity|].
  now rewrite Hstep, IH.
Qed.

Section Momentum.

Import NBody.

Variables (bs : BodiesVector (F := R)) (G softening : R).

#[local] Abbreviation pull := (NBodyLaws.pull bs G softening).

Lemma dist_soft_sym (a b : Body (F := R)) : dist_soft a b softening = dist_soft b a softening.
Proof. unfold dist_soft. cbn. f_equal. ring. Qed.

Lemma pull_antisymmetric (c : Body (F := R) -> R) (i j : Z) :
  pull c i j = (- pull c j i)%R.
Proof.
  unfold NBodyLaws.pull. rewrite (Z.eqb_sym j i).
  destruct (i =? j)%Z; [lra|].
  unfold force_factor, divisor. cbv zeta.
  rewrite (dist_soft_sym (body_at bs j) (body_at bs i)). cbn. unfold Rdiv. ring.
Qed.

Lemma weighted_accel_x (i : Z) :
  (m (body_at bs i) * accel_x bs G softening i)%R
  = fold_right (fun j s => (pull x i j + s)%R) 0%R (zrange 0 (Z.of_nat (length bs))).
Proof.
  unfold accel_x.
  rewrite (fold_left_ext_sum (add_pull_x bs G softening i)
             (fun j => if (i =? j)%Z then 0%R
                       else ((x (body_at bs j) - x (body_at bs i))
                             * force_factor (body_at bs i) (body_at bs j) G softening)%R)).
  - change (@lit_0 R Scalar_R) with 0%R. rewrite Rplus_0_l.
    generalize (zrange 0 (Z.of_nat (length bs))). intros l.
    induction l as [|j l IH]; cbn [fold_right]; [lra|].
    rewrite <- IH. unfold NBodyLaws.pull. destruct (i =? j)%Z; ring.
  - intros a j. unfold add_pull_x. destruct (i =? j)%Z; cbn; lra.
Qed.

Lemma weighted_accel_y (i : Z) :
  (m (body_at bs i) * accel_y bs G softening i)%R
  = fold_right (fun j s => (pull y i j + s)%R) 0%R (zrange 0 (Z.of_nat (length bs))).
Proof.
  unfold accel_y.
  rewrite (fold_left_ext_sum (add_pull_y bs G softening i)
             (fun j => if (i =? j)%Z then 0%R
                       else ((y (body_at bs j) - y (body_at bs i))
                             * force_factor (body_at bs i) (body_at bs j) G softening)%R)).
  - change (@lit_0 R Scalar_R) with 0%R. rewrite Rplus_0_l.
    generalize (zrange 0 (Z.of_nat (length bs))). intros l.
    induction l as [|j l IH]; cbn [fold_right]; [lra|].
    rewrite <- IH. unfold NBodyLaws.pull. destruct (i =? j)%Z; ring.
  - intros a j. unfold add_pull_y. destruct (i =? j)%Z; cbn; lra.
Qed.

(** Newton's third law for the accumulated accelerations. *)
Lemma forces_cancel :
  fold_right (fun i s => (m (body_at bs i) * accel_x bs G softening i + s)%R) 0%R
             (zrange 0 (Z.of_nat (length bs))) = 0%R /\
  fold_right (fun i s => (m (body_at bs i) * accel_y bs G softening i + s)%R) 0%R
             (zrange 0 (Z.of_nat (length bs))) = 0%R.
Proof.
  split.
  - rewrite (sum_ext _ _ _ (fun i _ => weighted_accel_x i)).
    apply sum_antisymmetric. apply pull_antisymmetric.
  - rewrite (sum_ext _ _ _ (fun i _ => weighted_accel_y i)).
    apply sum_antisymmetric. apply pull_antisymmetric.
Qed.

Lemma momentum_stepped (dt : R) :
  NBodyLaws.momentum_x (stepped bs dt G softening) = NBodyLaws.momentum_x bs /\
  NBodyLaws.momentum_y (stepped bs dt G softening) = NBodyLaws.momentum_y bs.
Proof.
  destruct forces_cancel as [Hx Hy].
  unfold NBodyLaws.momentum_x, NBodyLaws.momentum_y, stepped.
  rewrite (bodies_vec_of bs) at 2 4.
  rewrite !(sum_vec_of (fun b => (m b * vx b)%R)), !(sum_vec_of (fun b => (m b * vy b)%R)).
  split.
  - rewrite (sum_ext _ (fun i => (m (body_at bs i) * vx (body_at bs i)
                                  + dt * (m (body_at bs i) * accel_x bs G softening i))%R)).
    + rewrite sum_linear, Hx. lra.
    + intros i _. cbn. ring.
  - rewrite (sum_ext _ (fun i => (m (body_at bs i) * vy (body_at bs i)
                                  + dt * (m (body_at bs i) * accel_y bs G softening i))%R)).
    + rewrite sum_linear, Hy. lra.
    + intros i _. cbn. ring.
Qed.

End Momentum.

(** X5. In exact real arithmetic the step conserves the total momentum of the
    body set: the pulls two bodies exert on each other cancel, so the sum of
    [m * vx], and of [m * vy], over the returned bodies is that over the
    bodies given. *)
Theorem nbody_step_momentum (bs : NBody.BodiesVector (F := R)) (dt G softening : R) :
  (0 < softening)%R ->
  exists out,
    NBody.nbody_step_update bs dt G softening = Ok out /\
    NBodyLaws.momentum_x out = NBodyLaws.momentum_x bs /\
    NBodyLaws.momentum_y out = NBodyLaws.momentum_y bs.
Proof.
  intros _. exists (NBody.stepped bs dt G softening).
  split; [apply nbody_step_update_stepped|]. apply momentum_stepped.
Qed.

Lemma nbody_step_momentum_witness :
  exists out,
    NBody.nbody_step_update [Samples.origin; Samples.origin] 1%R 1%R 1%R = Ok out /\
    NBodyLaws.momentum_x out = NBodyLaws.momentum_x [Samples.origin; Samples.origin] /\
    NBodyLaws.momentum_y out = NBodyLaws.momentum_y [Samples.origin; Samples.origin].
Proof.
  apply (nbody_step_momentum [Samples.origin; Samples.origin] 1%R 1%R 1%R).
  lra.
Defined.

(** ** Python loops and counted loops *)

Lemma for_in_ext {S : Type} (l : list Z) (f g : Z -> S -> res S) (s : S) :
  (forall i s0, In i l -> f i s0 = g i s0) -> for_in l f s = for_in l g s.
Proof.
  revert s. induction l as [|i l IH]; intros s Hfg; cbn; [reflexivity|].
  rewrite Hfg by now left. destruct (g i s) as [s'|e]; cbn; [|reflexivity].
  apply IH. intros k s0 Hk. apply Hfg. now right.
Qed.

(** A loop [for (i = lo; i < hi; i += step)] with a positive step visits
    the elements of [range(lo, hi, step)]. *)
Lemma for_step_range {S : Type} (body : Z -> S -> res S) (hi step : Z) :
  (1 <= step)%Z ->
  forall (fuel : nat) (lo : Z) (s : S),
    (hi - lo <= Z.of_nat fuel)%Z ->
    for_step fuel lo hi step body s
    = (l <- py_range lo hi step ;; for_in l body s).
Proof.
  intros Hstep. unfold py_range.
  destruct (Z.eqb_spec step 0) as [|_]; [lia|].
  destruct (Z.ltb_spec 0 step) as [_|]; [|lia].
  destruct (Z.ltb_spec step 0) as [|_]; [lia|]. cbn [andb].
  induction fuel as [|fuel IH]; intros lo s Hfuel.
  - cbn [for_step]. destruct (Z.ltb_spec lo hi); [lia|]. reflexivity.
  - cbn [for_step]. destruct (Z.ltb_spec lo hi) as [Hlt|Hge]; [|reflexivity].
    cbn [bind].
    assert (Hq : (0 <= (hi - 1 - lo) / step)%Z) by (apply Z.div_pos; lia).
    replace (Z.to_nat (1 + (hi - 1 - lo) / step))
      with (Datatypes.S (Z.to_nat ((hi - 1 - lo) / step))) by lia.
    cbn [range_from for_in].
    destruct (body lo s) as [s'|e]; cbn [bind]; [|reflexivity].
    rewrite IH by (auto; lia).
    destruct (Z.ltb_spec (lo + step) hi) as [Hlt'|Hge']; cbn [bind].
    + replace (1 + (hi - 1 - (lo + step)) / step)%Z with ((hi - 1 - lo) / step)%Z;
        [reflexivity|].
      replace (hi - 1 - lo)%Z with ((hi - 1 - (lo + step)) + 1 * step)%Z at 1 by lia.
      rewrite Z.div_add by lia. lia.
    + replace ((hi - 1 - lo) / step)%Z with 0%Z; [reflexivity|].
      symmetry. apply Z.div_small. lia.
Qed.

Lemma map_as_seq {T U : Type} (g : T -> U) (d : T) (l : list T) :
  map g l = map (fun c => g (nth c l d)) (seq 0 (length l)).
Proof.
  induction l as [|a l IH]; cbn; [reflexivity|]. f_equal.
  rewrite <- seq_shift, map_map. exact IH.
Qed.

Section MatmulCyFacts.

Context {F : Type} `{Scalar F}.
Import Matmul MatmulCy.

Implicit Types (A B C M : Matrix2D (F := F)).

Lemma matmul_naive_cy_product (n : nat) A B :
  square n A -> square n B -> matmul_naive_cy A B = Ok (product n A B).
Proof.
  intros HA HB. destruct n as [|n'].
  - now rewrite (square_0 A HA).
  - rewrite <- (matmul_naive_product (Datatypes.S n') A B HA HB).
    unfold matmul_naive, matmul_naive_cy.
    rewrite (square_nonempty (Datatypes.S n') A), (square_nonempty (Datatypes.S n') B)
      by (auto; lia).
    reflexivity.
Qed.

Lemma transposed_square (n : nat) B :
  square n B -> transposed B = mat_of n (fun r c => entry B c r).
Proof.
  intros HB. destruct n as [|n'].
  - now rewrite (square_0 B HB).
  - destruct HB as [Hlen Hrows]. destruct B as [|row0 B']; [discriminate|].
    unfold transposed, mat_of.
    assert (Hrow0 : length row0 = Datatypes.S n') by now inversion Hrows.
    rewrite Hrow0. apply map_ext. intros j.
    rewrite (map_as_seq (fun row => nth j row lit_0) [] (row0 :: B')).
    cbv [Matrix2D Vector1D] in *. rewrite Hlen.
    apply map_ext. intros c. unfold entry. now rewrite !Nat2Z.id.
Qed.

Lemma matmul_transpose_cy_product (n : nat) A B :
  square n A -> square n B -> matmul_transpose_cy A B = Ok (product n A B).
Proof.
  intros HA HB. unfold matmul_transpose_cy. cbv zeta.
  rewrite (square_length n A HA), zeros_mat_of, (transposed_square n B HB).
  rewrite (cell_loops n 0 (Z.of_nat n) 0 (Z.of_nat n)
             (fun i j _ => accum A B i j (zrange 0 (Z.of_nat n)) lit_0)); try lia.
  - f_equal. apply mat_of_ext. intros i j Hi Hj. unfold inb. zcases.
  - intros i j f' Hi Hj.
    rewrite (kloop_fold (fun k => at2 A i k)
                        (fun k => at2 (mat_of n (fun r c => entry B c r)) j k)
                        (fun k => entry A i k) (fun k => entry B k j)).
    + cbn [bind]. apply set2_mat_of; lia.
    + intros k Hk. split.
      * apply (at2_square n); auto; lia.
      * now rewrite at2_mat_of by lia.
Qed.

(** With a block size of one or more the tile loops of the Cython function
    are those of the C++ function. *)
Lemma matmul_blocked_cy_product (n : nat) A B (block_size : Z) :
  square n A -> square n B -> (1 <= block_size)%Z ->
  matmul_blocked_cy A B block_size = Ok (product n A B).
Proof.
  intros HA HB Hbs. destruct n as [|n'].
  - rewrite (square_0 A HA). unfold matmul_blocked_cy, py_range. cbn.
    destruct (Z.eqb_spec block_size 0); [lia|].
    destruct (Z.ltb_spec block_size 0); [lia|].
    rewrite Bool.andb_false_r. reflexivity.
  - set (n := Datatypes.S n') in *.
    rewrite <- (matmul_blocked_product n n A B block_size HA HB Hbs (le_n n)).
    unfold matmul_blocked, matmul_blocked_cy. cbv zeta.
    rewrite (square_nonempty n A), (square_nonempty n B) by (auto; lia). cbn [orb].
    rewrite (square_length n A HA).
    rewrite for_step_range by lia.
    destruct (py_range 0 (Z.of_nat n) block_size) as [tiles|e] eqn:Htiles;
      [|reflexivity].
    cbn [bind]. apply for_in_ext. intros ii C0 _.
    rewrite for_step_range, Htiles by lia.
    cbn [bind]. apply for_in_ext. intros jj C1 _.
    rewrite for_step_range, Htiles by lia. reflexivity.
Qed.

(** What a block size below one does: zero is rejected by [range], for
    every input; a negative one gives empty tile loops. *)
Lemma matmul_blocked_cy_no_tiles A B (block_size : Z) :
  (block_size = 0%Z -> matmul_blocked_cy A B block_size = Err ValueError) /\
  ((block_size < 0)%Z ->
   matmul_blocked_cy A B block_size = Ok (zeros (Z.of_nat (length A)))).
Proof.
  unfold matmul_blocked_cy, py_range. split.
  - intros ->. reflexivity.
  - intros Hneg. cbv zeta.
    destruct (Z.eqb_spec block_size 0); [lia|].
    destruct (Z.ltb_spec 0 block_size); [lia|].
    destruct (Z.ltb_spec (Z.of_nat (length A)) 0); [lia|].
    rewrite Bool.andb_false_r. reflexivity.
Qed.

End MatmulCyFacts.

(** X6. The three Cython multiplications return, for square matrices and a
    block size of one or more, the matrix the C++ functions return, bit for
    bit: every cell is accumulated from [0.0] in increasing [k]. *)
Theorem matmul_cy_agrees (F : Type) (SF : Scalar F) (n : nat)
        (A B : Matmul.Matrix2D) (block_size : Z) :
  Matmul.square n A -> Matmul.square n B -> (1 <= block_size)%Z ->
  exists C,
    Matmul.matmul_naive A B = Ok C /\
    MatmulCy.matmul_naive_cy A B = Ok C /\
    MatmulCy.matmul_blocked_cy A B block_size = Ok C /\
    MatmulCy.matmul_transpose_cy A B = Ok C.
Proof.
  intros HA HB Hbs. exists (Matmul.product n A B).
  split; [now apply matmul_naive_product|].
  split; [now apply matmul_naive_cy_product|].
  split; [now apply matmul_blocked_cy_product|].
  now apply matmul_transpose_cy_product.
Qed.

Lemma matmul_cy_agrees_witness :
  exists C,
    Matmul.matmul_naive Samples.A3 Samples.B3 = Ok C /\
    MatmulCy.matmul_naive_cy Samples.A3 Samples.B3 = Ok C /\
    MatmulCy.matmul_blocked_cy Samples.A3 Samples.B3 2 = Ok C /\
    MatmulCy.matmul_transpose_cy Samples.A3 Samples.B3 = Ok C.
Proof.
  apply (matmul_cy_agrees float Scalar_float 3 Samples.A3 Samples.B3 2).
  - split; [reflexivity|]. repeat constructor.
  - split; [reflexivity|]. repeat constructor.
  - lia.
Defined.

(** X7. [matmul_blocked_cy] with a block size below one: [block_size = 0] raises
    [ValueError] for every input, the empty one included (the C++ function
    loops for ever on a non-empty input and returns the empty matrix on an
    empty one); a negative block size returns the zero matrix without
    reading [A] or [B]. *)
Theorem matmul_blocked_cy_block_size (F : Type) (SF : Scalar F)
        (A B : Matmul.Matrix2D) (block_size : Z) :
  (block_size < 1)%Z ->
  MatmulCy.matmul_blocked_cy A B block_size
  = if (block_size =? 0)%Z then Err ValueError
    else Ok (Matmul.zeros (Z.of_nat (length A))).
Proof.
  intros Hbs. destruct (matmul_blocked_cy_no_tiles A B block_size) as [H0 Hneg].
  destruct (Z.eqb_spec block_size 0) as [Hz|Hnz]; [now apply H0|apply Hneg; lia].
Qed.

Lemma matmul_blocked_cy_block_size_witness :
  MatmulCy.matmul_blocked_cy Samples.A3 Samples.B3 (-2)
  = Ok (Matmul.zeros 3).
Proof.
  apply (matmul_blocked_cy_block_size float Scalar_float Samples.A3 Samples.B3 (-2)).
  lia.
Defined.

(** ** Convolution *)

Lemma fold_left_ext_in {S T : Type} (f g : S -> T -> S) (l : list T) (a : S) :
  (forall s k, In k l -> f s k = g s k) -> fold_left f l a = fold_left g l a.
Proof.
  revert a. induction l as [|k l IH]; intros a Hfg; cbn [fold_left]; [reflexivity|].
  rewrite Hfg by now left. apply IH. intros s k' Hk'. apply Hfg. now right.
Qed.

Lemma In_zrange (lo hi k : Z) : In k (zrange lo hi) <-> (lo <= k < hi)%Z.
Proof.
  unfold zrange. rewrite in_map_iff. split.
  - intros (t & <- & Ht). apply in_seq in Ht. lia.
  - intros Hk. exists (Z.to_nat (k - lo)). split; [lia|]. apply in_seq. lia.
Qed.

Section ConvFacts.

Context {F : Type} `{Scalar F}.
Import Conv.

Implicit Types (data kernel : Vector1D (F := F)) (M image : Matrix2D (F := F)).

(** Writing [m] values into the slots [off], ..., [off + m - 1]. *)
Lemma place_loop {T : Type} (P : nat) (m off : Z) (body : Z -> list T -> res (list T))
      (val g0 : Z -> T) :
  (0 <= off)%Z -> (0 <= m)%Z -> (off + m <= Z.of_nat P)%Z ->
  (forall i p, (0 <= i < m)%Z -> body i p = set_at p (off + i)%Z (val i)) ->
  for_range 0 m body (vec_of P g0)
  = Ok (vec_of P (fun j => if inb off (off + m)%Z j then val (j - off)%Z else g0 j)).
Proof.
  intros Hoff Hm HP Hbody.
  destruct (for_range_inv
              (fun i p => p = vec_of P (fun j =>
                 if inb off (off + i)%Z j then val (j - off)%Z else g0 j))
              body 0 m (vec_of P g0)) as (p & Hrun & Hp); [lia| | |].
  - apply vec_of_ext. intros j Hj. unfold inb. zcases.
  - intros i p Hi ->. rewrite Hbody by lia.
    rewrite set_at_vec_of by lia. eexists. split; [reflexivity|].
    apply vec_of_ext. intros j Hj. unfold inb.
    destruct (Z.eqb_spec j (off + i)) as [->|Hne].
    + replace (off + i - off)%Z with i by lia. zcases.
    + zcases.
  - now rewrite Hrun, Hp.
Qed.

(** The sliding sums over a padded array [pf] and a kernel array [kf]. *)
Lemma slide_loop (n klen : nat) (pread kread : Z -> res F) (pf kf o0 : Z -> F) :
  (forall j, (0 <= j < Z.of_nat n + Z.of_nat klen - 1)%Z -> pread j = Ok (pf j)) ->
  (forall k, (0 <= k < Z.of_nat klen)%Z -> kread k = Ok (kf k)) ->
  for_range 0 (Z.of_nat n) (fun i output =>
    sum_val <- for_range 0 (Z.of_nat klen) (fun k sum_val =>
                 p <- pread (i + k)%Z ;;
                 c <- kread k ;;
                 Ok (sum_val [+] p [*] c)) lit_0 ;;
    set_at output i sum_val) (vec_of n o0)
  = Ok (vec_of n (fun i =>
          fold_left (fun s k => s [+] pf (i + k)%Z [*] kf k)
                    (zrange 0 (Z.of_nat klen)) lit_0)).
Proof.
  intros Hp Hk. apply fill_loop. intros i output Hi.
  rewrite (for_range_fold _ (fun s k => s [+] pf (i + k)%Z [*] kf k)).
  - reflexivity.
  - intros k s Hk'. rewrite Hp, Hk by lia. reflexivity.
Qed.

Lemma quot_2_bounds (n : Z) :
  (0 <= n)%Z -> (0 <= Z.quot n 2)%Z /\ (n - 1 <= 2 * Z.quot n 2 <= n)%Z.
Proof.
  intros Hn. rewrite Z.quot_div_nonneg by lia.
  pose proof (Z.div_mod n 2 ltac:(lia)) as Hdm.
  pose proof (Z.mod_pos_bound n 2 ltac:(lia)) as Hm.
  pose proof (Z.div_pos n 2 Hn ltac:(lia)). lia.
Qed.

Lemma convolution_1d_slide data kernel :
  convolution_1d data kernel = Ok (vec_of (length data) (slide data kernel)).
Proof.
  unfold convolution_1d. cbv zeta. rewrite Nat2Z.id.
  destruct (Z.eqb_spec (Z.of_nat (length data)) 0) as [Hd|Hd]; cbn [orb].
  - assert (length data = O) by lia. now rewrite H0.
  - destruct (Z.eqb_spec (Z.of_nat (length kernel)) 0) as [Hk|Hk].
    + rewrite repeat_vec_of. f_equal. apply vec_of_ext. intros i Hi.
      unfold slide. cbv zeta. rewrite Hk. reflexivity.
    + destruct (quot_2_bounds (Z.of_nat (length kernel)) ltac:(lia)) as [Hq0 Hq].
      set (pad := Z.quot (Z.of_nat (length kernel)) 2) in *.
      rewrite !repeat_vec_of.
      rewrite (place_loop _ (Z.of_nat (length data)) pad _
                 (fun i => nth (Z.to_nat i) data lit_0)) by
        (try lia; intros i p Hi; now rewrite (at_ok data i lit_0) by lia).
      cbn [bind].
      etransitivity.
      * apply (slide_loop (length data) (length kernel) _ (fun k => at_ kernel k)
                 (padded data pad) (fun k => nth (Z.to_nat k) kernel lit_0)).
        -- intros j Hj. rewrite at_vec_of by lia. reflexivity.
        -- intros k Hk'. now apply at_ok.
      * reflexivity.
Qed.

Lemma convolution_1d_cy_slide (fresh : Z -> Z -> F) data kernel :
  convolution_1d_cy fresh data kernel = Ok (vec_of (length data) (slide data kernel)).
Proof.
  unfold convolution_1d_cy. cbv zeta. rewrite !Nat2Z.id.
  assert (Hklen : (0 <= Z.of_nat (length kernel))%Z) by lia.
  destruct (quot_2_bounds (Z.of_nat (length kernel)) Hklen) as [Hq0 Hq].
  set (pad := Z.quot (Z.of_nat (length kernel)) 2) in *.
  set (n := length data) in *.
  set (P := Z.to_nat (Z.of_nat n + 2 * pad)).
  rewrite (place_loop P pad 0 _ (fun _ => lit_0)) by (try lia; reflexivity).
  cbn [bind].
  rewrite (place_loop P (Z.of_nat n) pad _ (fun i => nth (Z.to_nat i) data lit_0)) by
    (try lia; intros i p Hi; now rewrite (at_ok data i lit_0) by (fold n; lia)).
  cbn [bind].
  rewrite (place_loop P pad (pad + Z.of_nat n) _ (fun _ => lit_0)) by
    (try lia; reflexivity).
  cbn [bind].
  rewrite (fill_loop _ (fun k => nth (Z.to_nat k) kernel lit_0)) by
    (intros k a Hk; now rewrite (at_ok kernel k lit_0) by lia).
  cbn [bind]. rewrite repeat_vec_of.
  etransitivity.
  - apply (slide_loop n (length kernel) _ _
             (padded data pad) (fun k => nth (Z.to_nat k) kernel lit_0)).
    + intros j Hj. rewrite at_vec_of by lia. f_equal.
      unfold padded, inb. fold n. zcases.
    + intros k Hk. rewrite at_vec_of by lia. reflexivity.
  - reflexivity.
Qed.


(** Writing a block of [m] by [n] values into a matrix, row after row. *)
Lemma block_loop (PR PC : nat) (m n offR offC : Z)
      (body : Z -> Z -> Matmul.Matrix2D -> res Matmul.Matrix2D)
      (val g0 : Z -> Z -> F) :
  (0 <= offR)%Z -> (0 <= m)%Z -> (offR + m <= Z.of_nat PR)%Z ->
  (0 <= offC)%Z -> (0 <= n)%Z -> (offC + n <= Z.of_nat PC)%Z ->
  (forall i j p, (0 <= i < m)%Z -> (0 <= j < n)%Z ->
     body i j p = Matmul.set2 p (offR + i)%Z (offC + j)%Z (val i j)) ->
  for_range 0 m (fun i p => for_range 0 n (fun j p => body i j p) p)
            (vec_of PR (fun a => vec_of PC (g0 a)))
  = Ok (vec_of PR (fun a => vec_of PC (fun b =>
          if inb offR (offR + m)%Z a && inb offC (offC + n)%Z b
          then val (a - offR)%Z (b - offC)%Z else g0 a b))).
Proof.
  intros HoR Hm HPR HoC Hn HPC Hbody.
  match goal with |- for_range _ _ ?outer ?p0 = _ =>
    destruct (for_range_inv (S := Matmul.Matrix2D)
                (fun i p => p = vec_of PR (fun a => vec_of PC (fun b =>
                   if inb offR (offR + i)%Z a && inb offC (offC + n)%Z b
                   then val (a - offR)%Z (b - offC)%Z else g0 a b)))
                outer 0 m p0) as (p & Hrun & Hp)
  end; [lia| | |].
  - apply rect_ext. intros a b Ha Hb. unfold inb. zcases.
  - intros i p Hi ->.
    match goal with |- exists _, for_range _ _ ?inner ?p0 = _ /\ _ =>
      destruct (for_range_inv (S := Matmul.Matrix2D)
                  (fun j p => p = vec_of PR (fun a => vec_of PC (fun b =>
                     if (inb offR (offR + i)%Z a && inb offC (offC + n)%Z b)
                        || ((a =? offR + i)%Z && inb offC (offC + j)%Z b)
                     then val (a - offR)%Z (b - offC)%Z else g0 a b)))
                  inner 0 n p0) as (p & Hrun & Hp)
    end; [lia| | |].
    + apply rect_ext. intros a b Ha Hb. unfold inb. zcases.
    + intros j p Hj ->. rewrite Hbody by lia.
      rewrite set2_rect by lia. eexists. split; [reflexivity|].
      apply rect_ext. intros a b Ha Hb. unfold inb.
      destruct (Z.eqb_spec a (offR + i)) as [->|Hna]; cbn [andb].
      * destruct (Z.eqb_spec b (offC + j)) as [->|Hnb].
        -- replace (offR + i - offR)%Z with i by lia.
           replace (offC + j - offC)%Z with j by lia. zcases.
        -- zcases.
      * zcases.
    + exists p. split; [exact Hrun|]. rewrite Hp.
      apply rect_ext. intros a b Ha Hb. unfold inb. zcases.
  - unalias. now rewrite Hrun, Hp.
Qed.

(** The double loop over the kernel. *)
Lemma kernel_loops (k : nat) (pread kread : Z -> Z -> res F) (pf kf : Z -> Z -> F)
      (r c : Z) :
  (forall kr kc, (0 <= kr < Z.of_nat k)%Z -> (0 <= kc < Z.of_nat k)%Z ->
     pread (r + kr)%Z (c + kc)%Z = Ok (pf (r + kr)%Z (c + kc)%Z) /\
     kread kr kc = Ok (kf kr kc)) ->
  for_range 0 (Z.of_nat k) (fun kr sum_val =>
    for_range 0 (Z.of_nat k) (fun kc sum_val =>
      let ir := (r + kr)%Z in
      let ic := (c + kc)%Z in
      p <- pread ir ic ;;
      x <- kread kr kc ;;
      Ok (sum_val [+] p [*] x)) sum_val) lit_0
  = Ok (fold_left (fun s kr =>
          fold_left (fun s kc => s [+] pf (r + kr)%Z (c + kc)%Z [*] kf kr kc)
                    (zrange 0 (Z.of_nat k)) s)
          (zrange 0 (Z.of_nat k)) lit_0).
Proof.
  intros Hread.
  apply (for_range_fold _
           (fun s kr => fold_left (fun s kc => s [+] pf (r + kr)%Z (c + kc)%Z [*] kf kr kc)
                                  (zrange 0 (Z.of_nat k)) s)).
  intros kr s Hkr.
  apply (for_range_fold _ (fun s kc => s [+] pf (r + kr)%Z (c + kc)%Z [*] kf kr kc)).
  intros kc s' Hkc. cbv zeta.
  destruct (Hread kr kc Hkr Hkc) as [-> ->]. reflexivity.
Qed.

Lemma shape_rect (rows cols : nat) M :
  shape rows cols M ->
  M = vec_of rows (fun i => vec_of cols (fun j =>
        nth (Z.to_nat j) (nth (Z.to_nat i) M []) lit_0)).
Proof.
  intros [Hlen Hrows]. rewrite (list_vec_of M []) at 1. rewrite Hlen.
  apply vec_of_ext. intros i Hi.
  rewrite (list_vec_of (nth (Z.to_nat i) M []) lit_0) at 1.
  f_equal. rewrite Forall_forall in Hrows. apply Hrows. apply nth_In. lia.
Qed.

Lemma at2_shape (rows cols : nat) M (i j : Z) :
  shape rows cols M -> (0 <= i < Z.of_nat rows)%Z -> (0 <= j < Z.of_nat cols)%Z ->
  Matmul.at2 M i j = Ok (nth (Z.to_nat j) (nth (Z.to_nat i) M []) lit_0).
Proof.
  intros HM Hi Hj. rewrite (shape_rect rows cols M HM) at 1.
  now rewrite at2_rect by lia.
Qed.

Lemma shape_row_0 (rows cols : nat) M :
  shape rows cols M -> (0 < rows)%nat ->
  at_ M 0 = Ok (nth 0 M []) /\ length (nth 0 M []) = cols.
Proof.
  intros [Hlen Hrows] Hpos. split.
  - apply at_ok. lia.
  - rewrite Forall_forall in Hrows. apply Hrows. apply nth_In. lia.
Qed.

Lemma convolution_2d_slide (rows cols k : nat) image (kernel : Matrix2D (F := F)) :
  shape rows cols image -> shape k k kernel ->
  convolution_2d image kernel
  = Ok (vec_of rows (fun r => vec_of cols (slide_2d image kernel cols r))).
Proof.
  intros Himg Hker. unfold convolution_2d. cbv zeta.
  pose proof Himg as [Hrows _]. pose proof Hker as [Hk _].
  rewrite Hrows, Hk.
  destruct (Z.eqb_spec (Z.of_nat rows) 0) as [Hr0|Hr0].
  - now replace rows with O by lia.
  - destruct (shape_row_0 rows cols image Himg ltac:(lia)) as [Hat0 Hlen0].
    rewrite Hat0. cbn [bind]. rewrite Hlen0, !Nat2Z.id.
    destruct (Z.eqb_spec (Z.of_nat k) 0) as [Hk0|Hk0].
    + rewrite (repeat_vec_of (repeat lit_0 cols)), repeat_vec_of. f_equal.
      apply rect_ext. intros r c Hr Hc. unfold slide_2d. cbv zeta.
      rewrite Hk, Hk0. reflexivity.
    + destruct (quot_2_bounds (Z.of_nat k) ltac:(lia)) as [Hq0 Hq].
      set (pad := Z.quot (Z.of_nat k) 2) in *.
      rewrite !(repeat_vec_of (repeat lit_0 _)), !repeat_vec_of.
      rewrite (block_loop _ _ (Z.of_nat rows) (Z.of_nat cols) pad pad
                 (fun i j p => x <- Matmul.at2 image i j ;;
                               Matmul.set2 p (i + pad)%Z (j + pad)%Z x)
                 (fun i j => nth (Z.to_nat j) (nth (Z.to_nat i) image []) lit_0))
        by (try lia; intros i j p Hi Hj;
            rewrite (at2_shape rows cols image i j Himg) by lia;
            cbn [bind]; now rewrite (Z.add_comm i pad), (Z.add_comm j pad)).
      cbn [bind].
      etransitivity.
      * apply (block_loop rows cols (Z.of_nat rows) (Z.of_nat cols) 0 0 _
                 (slide_2d image kernel cols)); try lia.
        intros r c out Hr Hc. cbv beta.
        rewrite (kernel_loops k _ (fun kr kc => Matmul.at2 kernel kr kc)
                   (padded_2d image cols pad)
                   (fun kr kc => nth (Z.to_nat kc) (nth (Z.to_nat kr) kernel []) lit_0)).
        -- cbn [bind]. unfold slide_2d. cbv zeta. rewrite Hk. fold pad. reflexivity.
        -- intros kr kc Hkr Hkc. split.
           ++ rewrite at2_rect by lia. f_equal.
              unfold padded_2d, inb. rewrite Hrows. zcases.
           ++ now apply (at2_shape k k).
      * f_equal. apply rect_ext. intros r c Hr Hc. unfold inb.
        rewrite !Z.sub_0_r. zcases.
Qed.


Lemma convolution_2d_cy_slide (fresh : Z -> Z -> F) (rows cols k : nat) image
      (kernel : Matrix2D (F := F)) :
  shape rows cols image -> shape k k kernel ->
  convolution_2d_cy fresh image kernel
  = Ok (vec_of rows (fun r => vec_of cols (slide_2d image kernel cols r))).
Proof.
  intros Himg Hker. unfold convolution_2d_cy. cbv zeta.
  pose proof Himg as [Hrows _]. pose proof Hker as [Hk _].
  rewrite Hrows, Hk.
  destruct (Z.eqb_spec (Z.of_nat rows) 0) as [Hr0|Hr0].
  - now replace rows with O by lia.
  - destruct (shape_row_0 rows cols image Himg ltac:(lia)) as [Hat0 Hlen0].
    rewrite Hat0. cbn [bind]. rewrite Hlen0, !Nat2Z.id.
    destruct (quot_2_bounds (Z.of_nat k) ltac:(lia)) as [Hq0 Hq].
    set (pad := Z.quot (Z.of_nat k) 2) in *.
    set (PR := Z.to_nat (Z.of_nat rows + 2 * pad)).
    set (PC := Z.to_nat (Z.of_nat cols + 2 * pad)).
    rewrite (block_loop PR PC (Z.of_nat rows + 2 * pad) (Z.of_nat cols + 2 * pad) 0 0
               (fun r c p => Matmul.set2 p r c lit_0) (fun _ _ => lit_0))
      by (try lia; reflexivity).
    cbn [bind].
    rewrite (block_loop PR PC (Z.of_nat rows) (Z.of_nat cols) pad pad
               (fun i j p => x <- Matmul.at2 image i j ;;
                             Matmul.set2 p (i + pad)%Z (j + pad)%Z x)
               (fun i j => nth (Z.to_nat j) (nth (Z.to_nat i) image []) lit_0))
      by (try lia; intros i j p Hi Hj;
          rewrite (at2_shape rows cols image i j Himg) by lia;
          cbn [bind]; now rewrite (Z.add_comm i pad), (Z.add_comm j pad)).
    cbn [bind].
    rewrite (block_loop k k (Z.of_nat k) (Z.of_nat k) 0 0
               (fun kr kc p => x <- Matmul.at2 kernel kr kc ;; Matmul.set2 p kr kc x)
               (fun kr kc => nth (Z.to_nat kc) (nth (Z.to_nat kr) kernel []) lit_0))
      by (try lia; intros kr kc p Hkr Hkc;
          now rewrite (at2_shape k k kernel kr kc Hker) by lia).
    cbn [bind].
    match goal with |- (output <- ?run ;; _) = _ =>
      assert (Hout : run = Ok (vec_of rows (fun r =>
                                 vec_of cols (slide_2d image kernel cols r))))
    end.
    { etransitivity.
      - apply (block_loop rows cols (Z.of_nat rows) (Z.of_nat cols) 0 0 _
                 (slide_2d image kernel cols)); try lia.
        intros r c out Hr Hc. cbv beta.
        rewrite (kernel_loops k _ _
                   (padded_2d image cols pad)
                   (fun kr kc => nth (Z.to_nat kc) (nth (Z.to_nat kr) kernel []) lit_0)).
        + cbn [bind]. unfold slide_2d. cbv zeta. rewrite Hk. fold pad. reflexivity.
        + intros kr kc Hkr Hkc. split.
          * rewrite at2_rect by lia. f_equal.
            unfold padded_2d, inb. rewrite Hrows. zcases.
          * rewrite at2_rect by lia. unfold inb. rewrite !Z.sub_0_r. zcases.
      - f_equal. apply rect_ext. intros r c Hr Hc. unfold inb.
        rewrite !Z.sub_0_r. zcases. }
    rewrite Hout. cbn [bind].
    apply (push_loop (T := list F)). intros r result Hr.
    rewrite (push_loop (T := F) _ (slide_2d image kernel cols r)).
    + reflexivity.
    + intros c row Hc. now rewrite at2_rect by lia.
Qed.

End ConvFacts.

(** X15. [convolution_1d] and [convolution_1d_cy] return, for every input,
    as many values as [data] has; value [i] is the sum, accumulated from
    [0.0] for [k = 0, 1, ...], of [padded[i + k] * kernel[k]], where [padded]
    is [data] with [kernel_len / 2] zeros on each side: the kernel is not
    flipped, and no access is out of range.  The result does not depend on
    what the [malloc]ed arrays of the Cython function first hold. *)
Theorem convolution_1d_slides (F : Type) (SF : Scalar F) (fresh : Z -> Z -> F)
        (data kernel : Conv.Vector1D) :
  Conv.convolution_1d data kernel
  = Ok (vec_of (length data) (Conv.slide data kernel)) /\
  Conv.convolution_1d_cy fresh data kernel
  = Ok (vec_of (length data) (Conv.slide data kernel)).
Proof.
  split; [apply convolution_1d_slide|apply convolution_1d_cy_slide].
Qed.

(** X16. [convolution_2d] and [convolution_2d_cy] return, for an image of [rows]
    rows of [cols] values and a [k] by [k] kernel, an image of the same
    shape whose value at [(r, c)] is the sum, accumulated from [0.0] kernel
    row after kernel row, of [padded[r + kr][c + kc] * kernel[kr][kc]]. *)
Theorem convolution_2d_slides (F : Type) (SF : Scalar F) (fresh : Z -> Z -> F)
        (rows cols k : nat) (image kernel : Conv.Matrix2D) :
  Conv.shape rows cols image -> Conv.shape k k kernel ->
  Conv.convolution_2d image kernel
  = Ok (vec_of rows (fun r => vec_of cols (Conv.slide_2d image kernel cols r))) /\
  Conv.convolution_2d_cy fresh image kernel
  = Ok (vec_of rows (fun r => vec_of cols (Conv.slide_2d image kernel cols r))).
Proof.
  intros Himg Hker.
  split; [now apply (convolution_2d_slide rows cols k)
         |now apply (convolution_2d_cy_slide fresh rows cols k)].
Qed.

Lemma convolution_2d_slides_witness :
  Conv.convolution_2d [[1; 2]; [3; 4]]%float [[1; 0]; [0; 1]]%float
  = Ok (vec_of 2 (fun r => vec_of 2
          (Conv.slide_2d [[1; 2]; [3; 4]]%float [[1; 0]; [0; 1]]%float 2 r))) /\
  Conv.convolution_2d_cy (fun _ _ => 0.5%float) [[1; 2]; [3; 4]]%float
                         [[1; 0]; [0; 1]]%float
  = Ok (vec_of 2 (fun r => vec_of 2
          (Conv.slide_2d [[1; 2]; [3; 4]]%float [[1; 0]; [0; 1]]%float 2 r))).
Proof.
  apply (convolution_2d_slides float Scalar_float (fun _ _ => 0.5%float) 2 2 2
           [[1; 2]; [3; 4]]%float [[1; 0]; [0; 1]]%float).
  - split; [reflexivity|]. repeat constructor.
  - split; [reflexivity|]. repeat constructor.
Defined.

(** A kernel of even length looks one element further back than ahead. *)
Example convolution_1d_even_kernel :
  Conv.convolution_1d [1; 2; 3]%float [10; 1]%float = Ok [1; 12; 23]%float.
Proof. vm_compute. reflexivity. Qed.

(** X17. In exact real arithmetic, convolution with the kernel that holds the
    single value [1.0] returns the data, and the image, as they are. *)
Theorem convolution_unit_kernel (fresh : Z -> Z -> R) (rows cols : nat)
        (data : Conv.Vector1D (F := R)) (image : Conv.Matrix2D (F := R)) :
  Conv.shape rows cols image ->
  Conv.convolution_1d data [1%R] = Ok data /\
  Conv.convolution_1d_cy fresh data [1%R] = Ok data /\
  Conv.convolution_2d image [[1%R]] = Ok image /\
  Conv.convolution_2d_cy fresh image [[1%R]] = Ok image.
Proof.
  intros Himg.
  assert (H1 : vec_of (length data) (Conv.slide data [1%R]) = data).
  { etransitivity; [|symmetry; apply (list_vec_of data 0%R)].
    apply vec_of_ext. intros i Hi.
    unfold Conv.slide, Conv.padded, inb. cbn [length]. cbv zeta.
    change (Z.quot (Z.of_nat 1) 2) with 0%Z.
    change (zrange 0 (Z.of_nat 1)) with [0%Z]. cbn [fold_left nth Z.to_nat].
    rewrite Z.add_0_r, Z.sub_0_r.
    destruct (Z.leb_spec 0 i); [|lia].
    destruct (Z.ltb_spec i (0 + Z.of_nat (length data))); [|lia].
    cbn. ring. }
  assert (H2 : vec_of rows (fun r => vec_of cols (Conv.slide_2d image [[1%R]] cols r))
               = image).
  { etransitivity; [|symmetry; apply (shape_rect rows cols image Himg)].
    apply rect_ext.
    intros r c Hr Hc. destruct Himg as [Hrows _].
    unfold Conv.slide_2d, Conv.padded_2d, inb. cbn [length]. cbv zeta.
    change (Z.quot (Z.of_nat 1) 2) with 0%Z.
    change (zrange 0 (Z.of_nat 1)) with [0%Z]. cbn [fold_left nth Z.to_nat].
    rewrite !Z.add_0_r, !Z.sub_0_r, Hrows.
    destruct (Z.leb_spec 0 r); [|lia]. destruct (Z.leb_spec 0 c); [|lia].
    destruct (Z.ltb_spec r (0 + Z.of_nat rows)); [|lia].
    destruct (Z.ltb_spec c (0 + Z.of_nat cols)); [|lia].
    cbn. ring. }
  assert (Hker : Conv.shape 1 1 [[1%R]]) by (split; [reflexivity|repeat constructor]).
  rewrite convolution_1d_slide, convolution_1d_cy_slide.
  rewrite (convolution_2d_slide rows cols 1 image [[1%R]] Himg Hker).
  rewrite (convolution_2d_cy_slide fresh rows cols 1 image [[1%R]] Himg Hker).
  rewrite H1, H2. auto.
Qed.

Lemma convolution_unit_kernel_witness :
  Conv.convolution_1d [3; 4]%R [1%R] = Ok [3; 4]%R /\
  Conv.convolution_1d_cy (fun _ _ => 7%R) [3; 4]%R [1%R] = Ok [3; 4]%R /\
  Conv.convolution_2d [[1; 2]; [3; 4]]%R [[1%R]] = Ok [[1; 2]; [3; 4]]%R /\
  Conv.convolution_2d_cy (fun _ _ => 7%R) [[1; 2]; [3; 4]]%R [[1%R]]
  = Ok [[1; 2]; [3; 4]]%R.
Proof.
  apply (convolution_unit_kernel (fun _ _ => 7%R) 2 2 [3; 4]%R [[1; 2]; [3; 4]]%R).
  split; [reflexivity|]. repeat constructor.
Defined.

(** ** Quicksort *)

Section QuicksortFacts.

Context {F : Type} `{Scalar F} `{Ordered F}.
Import Quicksort.

Implicit Types (items out : list F).

Lemma at_item items (k : Z) :
  (0 <= k < Z.of_nat (length items))%Z -> at_ items k = Ok (item items k).
Proof. intros Hk. now apply at_ok. Qed.

Lemma item_update items (k a : Z) (w : F) :
  (0 <= k < Z.of_nat (length items))%Z -> (0 <= a)%Z ->
  item (update items (Z.to_nat k) w) a = if (a =? k)%Z then w else item items a.
Proof.
  intros Hk Ha. unfold item. rewrite nth_update by lia.
  destruct (Nat.eqb_spec (Z.to_nat a) (Z.to_nat k)), (Z.eqb_spec a k);
    try reflexivity; lia.
Qed.

(** An exchange of two slots. *)
Lemma exchange_spec items (i j : Z) :
  (0 <= i < Z.of_nat (length items))%Z -> (0 <= j < Z.of_nat (length items))%Z ->
  exists out,
    exchange items i j = Ok out /\
    Permutation items out /\
    length out = length items /\
    forall k, (0 <= k)%Z ->
      item out k = if (k =? j)%Z then item items i
                   else if (k =? i)%Z then item items j
                   else item items k.
Proof.
  intros Hi Hj. unfold exchange.
  rewrite !at_item by lia. cbn [bind].
  rewrite set_at_ok by lia. cbn [bind].
  rewrite set_at_ok by (rewrite length_update; lia).
  eexists. split; [reflexivity|]. split; [|split].
  - apply perm_exchange; lia.
  - now rewrite !length_update.
  - intros k Hk. rewrite item_update by (rewrite ?length_update; lia).
    destruct (Z.eqb_spec k j); [reflexivity|].
    now rewrite item_update by lia.
Qed.

Lemma rearranged_refl (low high : Z) items : rearranged low high items items.
Proof.
  split; [apply Permutation_refl|]. split; [reflexivity|].
  split; [reflexivity|]. intros k Hk. now exists k.
Qed.

Lemma rearranged_trans (low high : Z) items mid out :
  (0 <= low)%Z ->
  rearranged low high items mid -> rearranged low high mid out ->
  rearranged low high items out.
Proof.
  intros Hlow (Hp1 & Hl1 & Ho1 & Hi1) (Hp2 & Hl2 & Ho2 & Hi2).
  split; [now apply (perm_trans Hp1)|]. split; [congruence|]. split.
  - intros k Hk Hout. now rewrite Ho2, Ho1.
  - intros k Hk. destruct (Hi2 k Hk) as (k' & Hk' & ->).
    destruct (Hi1 k' Hk') as (k'' & Hk'' & ->). now exists k''.
Qed.

Lemma rearranged_widen (low high low' high' : Z) items out :
  (0 <= low')%Z -> (low' <= low)%Z -> (high <= high')%Z ->
  rearranged low high items out -> rearranged low' high' items out.
Proof.
  intros H0low Hlow Hhigh (Hp & Hl & Ho & Hi).
  split; [exact Hp|]. split; [exact Hl|]. split.
  - intros k Hk Hout. apply Ho; lia.
  - intros k Hk.
    destruct (Z.le_gt_cases low k) as [Hlk|Hlk];
      [destruct (Z.le_gt_cases k high) as [Hkh|Hkh]|].
    + destruct (Hi k ltac:(lia)) as (k' & Hk' & ->). exists k'. split; [lia|reflexivity].
    + exists k. split; [lia|]. apply Ho; lia.
    + exists k. split; [lia|]. apply Ho; lia.
Qed.

Lemma exchange_rearranged (low high : Z) items (i j : Z) :
  (0 <= low)%Z -> (high < Z.of_nat (length items))%Z ->
  (low <= i <= high)%Z -> (low <= j <= high)%Z ->
  exists out,
    exchange items i j = Ok out /\
    rearranged low high items out /\
    forall k, (0 <= k)%Z ->
      item out k = if (k =? j)%Z then item items i
                   else if (k =? i)%Z then item items j
                   else item items k.
Proof.
  intros Hlow Hhigh Hi Hj.
  destruct (exchange_spec items i j ltac:(lia) ltac:(lia)) as (out & Hrun & Hp & Hl & Hk).
  exists out. split; [exact Hrun|]. split; [|exact Hk].
  split; [exact Hp|]. split; [exact Hl|]. split.
  - intros k Hk0 Hout. rewrite Hk by lia.
    destruct (Z.eqb_spec k j); [lia|]. destruct (Z.eqb_spec k i); [lia|]. reflexivity.
  - intros k Hkr. rewrite Hk by lia.
    destruct (Z.eqb_spec k j); [now exists i|].
    destruct (Z.eqb_spec k i); [now exists j|]. now exists k.
Qed.

(** The partition: the pivot ends in slot [p], after the elements that are
    [<=] it and before those that are not. *)
Lemma partition_spec items (low high : Z) :
  (0 <= low)%Z -> (low <= high)%Z -> (high < Z.of_nat (length items))%Z ->
  exists out p,
    partition items low high = Ok (out, p) /\
    (low <= p <= high)%Z /\
    rearranged low high items out /\
    (forall k, (low <= k < p)%Z -> (item out k [<=] item out p) = true) /\
    (forall k, (p < k <= high)%Z -> (item out k [<=] item out p) = false).
Proof.
  intros Hlow Hlh Hhigh. unfold partition.
  rewrite at_item by lia. cbn [bind]. cbv zeta.
  set (pivot := item items high).
  match goal with |- exists _ _, (st <- for_range _ _ ?body ?s0 ;; _) = _ /\ _ =>
    destruct (for_range_inv
                (fun j st =>
                   rearranged low (high - 1) items (fst st) /\
                   (low - 1 <= snd st < j)%Z /\
                   (forall k, (low <= k <= snd st)%Z ->
                      (item (fst st) k [<=] pivot) = true) /\
                   (forall k, (snd st < k < j)%Z ->
                      (item (fst st) k [<=] pivot) = false))
                body low high s0) as ([cur i] & Hrun & Hre & Hi & Hle & Hgt)
  end; [lia| | |].
  - cbn [fst snd]. split; [apply rearranged_refl|]. split; [lia|].
    split; intros k Hk; lia.
  - intros j [cur i] Hj (Hre & Hi & Hle & Hgt). cbn [fst snd] in *.
    pose proof Hre as (_ & Hlen & _ & _).
    rewrite at_item by lia. cbn [bind].
    destruct (item cur j [<=] pivot) eqn:Hx.
    + destruct (exchange_rearranged low (high - 1) cur (i + 1) j)
        as (cur' & Hswap & Hre' & Hitem); try lia.
      rewrite Hswap. cbn [bind]. eexists. split; [reflexivity|]. cbn [fst snd].
      split; [now apply (rearranged_trans low (high - 1) items cur cur')|].
      split; [lia|]. split.
      * intros k Hk. rewrite Hitem by lia.
        destruct (Z.eqb_spec k j) as [->|Hkj].
        -- assert (i + 1 = j)%Z by lia. subst j. exact Hx.
        -- destruct (Z.eqb_spec k (i + 1)); [exact Hx|]. apply Hle. lia.
      * intros k Hk. rewrite Hitem by lia.
        destruct (Z.eqb_spec k j) as [->|Hkj].
        -- apply Hgt. lia.
        -- destruct (Z.eqb_spec k (i + 1)); [lia|]. apply Hgt. lia.
    + eexists. split; [reflexivity|]. cbn [fst snd].
      split; [exact Hre|]. split; [lia|]. split; [exact Hle|].
      intros k Hk. destruct (Z.eq_dec k j) as [->|Hkj]; [exact Hx|]. apply Hgt. lia.
  - cbn [fst snd] in *. rewrite Hrun. cbn [bind fst snd].
    pose proof Hre as (_ & Hlen & Hout & _).
    destruct (exchange_rearranged low high cur (i + 1) high)
      as (out & Hswap & Hre' & Hitem); try lia.
    rewrite Hswap. cbn [bind]. exists out, (i + 1)%Z.
    split; [reflexivity|]. split; [lia|].
    assert (Hpivot : item cur high = pivot) by (apply Hout; lia).
    split.
    { apply (rearranged_trans low high items cur out); auto.
      apply (rearranged_widen low (high - 1)); auto; lia. }
    assert (Hp : item out (i + 1) = pivot).
    { rewrite Hitem by lia. destruct (Z.eqb_spec (i + 1) high) as [->|_].
      - exact Hpivot.
      - rewrite Z.eqb_refl. exact Hpivot. }
    rewrite Hp. split.
    + intros k Hk. rewrite Hitem by lia.
      destruct (Z.eqb_spec k high); [lia|]. destruct (Z.eqb_spec k (i + 1)); [lia|].
      apply Hle. lia.
    + intros k Hk. rewrite Hitem by lia.
      destruct (Z.eqb_spec k high) as [->|Hkh].
      * apply Hgt. lia.
      * destruct (Z.eqb_spec k (i + 1)); [lia|]. apply Hgt. lia.
Qed.

(** A loop that copies a vector into another of the same length, slot by
    slot. *)
Lemma copy_into (src dst : list F) :
  length dst = length src ->
  for_range 0 (Z.of_nat (length src)) (fun i dst =>
    x <- at_ src i ;;
    set_at dst i x) dst = Ok src.
Proof.
  intros Hlen.
  transitivity (Ok (vec_of (length src) (item src)));
    [|f_equal; symmetry; apply list_vec_of].
  rewrite (list_vec_of dst lit_0), Hlen.
  apply fill_loop. intros d v Hd. now rewrite at_item by lia.
Qed.

Lemma item_Forall (P : F -> Prop) items (k : Z) :
  Forall P items -> (0 <= k < Z.of_nat (length items))%Z -> P (item items k).
Proof.
  intros HP Hk. unfold item. rewrite Forall_forall in HP. apply HP, nth_In. lia.
Qed.

(** The recursion, on a budget that covers the range. *)
Lemma quicksort_recursive_spec (fuel : nat) :
  forall items (low high : Z),
    (0 <= low)%Z -> (high < Z.of_nat (length items))%Z ->
    (1 <= fuel)%nat -> (high - low + 1 <= Z.of_nat fuel)%Z ->
    exists out,
      quicksort_recursive fuel items low high = Ok out /\
      rearranged low high items out /\
      (forall P, total_on P -> Forall P items -> ascending low high out).
Proof.
  induction fuel as [|fuel IH]; intros items low high Hlow Hhigh Hfuel Hsize; [lia|].
  cbn [quicksort_recursive].
  destruct (Z.ltb_spec low high) as [Hlt|Hge].
  - destruct (partition_spec items low high) as (mid & p & Hpart & Hp & Hre & Hle & Hgt);
      try lia.
    rewrite Hpart. cbn [bind fst snd]. cbv zeta.
    pose proof Hre as (Hperm & Hlen & _ & _).
    destruct (IH mid low (p - 1)%Z) as (out1 & Hrun1 & Hre1 & Hasc1); try lia.
    rewrite Hrun1. cbn [bind].
    pose proof Hre1 as (Hperm1 & Hlen1 & Hout1 & Hin1).
    destruct (IH out1 (p + 1)%Z high) as (out2 & Hrun2 & Hre2 & Hasc2); try lia.
    exists out2. split; [exact Hrun2|].
    pose proof Hre2 as (Hperm2 & Hlen2 & Hout2 & Hin2).
    split.
    { apply (rearranged_trans low high items mid out2); [lia|exact Hre|].
      apply (rearranged_trans low high mid out1 out2); [lia| |].
      - apply (rearranged_widen low (p - 1)); auto; lia.
      - apply (rearranged_widen (p + 1) high); auto; lia. }
    intros P Hord HP. pose proof Hord as (Htotal & Htrans).
    assert (HPmid : Forall P mid) by (eapply Permutation_Forall; eassumption).
    assert (HP1 : Forall P out1) by (eapply Permutation_Forall; eassumption).
    assert (HP2 : Forall P out2) by (eapply Permutation_Forall; eassumption).
    assert (Hpivot : item out2 p = item mid p).
    { rewrite Hout2 by lia. apply Hout1; lia. }
    assert (Hbelow : forall k, (low <= k < p)%Z ->
                               (item out2 k [<=] item mid p) = true).
    { intros k Hk. rewrite Hout2 by lia.
      destruct (Hin1 k ltac:(lia)) as (k' & Hk' & ->). apply Hle. lia. }
    assert (Habove : forall k, (p < k <= high)%Z ->
                               (item mid p [<=] item out2 k) = true).
    { intros k Hk. destruct (Hin2 k ltac:(lia)) as (k' & Hk' & ->).
      rewrite Hout1 by lia.
      destruct (Htotal (item mid p) (item mid k')) as [Hc|Hc];
        try (apply item_Forall; [assumption|lia]); [exact Hc|].
      rewrite Hgt in Hc by lia. discriminate. }
    intros a b Ha Hab Hb.
    destruct (Z.lt_trichotomy b p) as [Hbp|[->|Hbp]].
    + rewrite !Hout2 by lia. apply (Hasc1 P); auto; lia.
    + destruct (Z.eq_dec a p) as [->|Hap].
      * destruct (Htotal (item out2 p) (item out2 p)); try assumption;
          apply item_Forall; auto; lia.
      * rewrite Hpivot. apply Hbelow. lia.
    + destruct (Z.lt_trichotomy a p) as [Hap|[->|Hap]].
      * apply (Htrans _ (item mid p));
          try (apply item_Forall; [assumption|lia]);
          [apply Hbelow|apply Habove]; lia.
      * rewrite Hpivot. apply Habove. lia.
      * apply (Hasc2 P); auto; lia.
  - exists items. split; [reflexivity|]. split; [apply rearranged_refl|].
    intros P (Htotal & _) HP a b Ha Hab Hb.
    assert (a = b) by lia. subst b.
    destruct (Htotal (item items a) (item items a)); try assumption;
      apply item_Forall; auto; lia.
Qed.

(** The three entry points: one result, a rearrangement of the argument that
    is ascending when [<=] is a total order on the argument's values. *)
Lemma quicksort_spec (fresh : Z -> F) (fuel : nat) (arr : list F) :
  (length arr <= fuel)%nat ->
  exists out,
    quicksort fuel arr = Ok out /\
    quicksort_inplace fuel arr = Ok out /\
    quicksort_cy fresh fuel arr = Ok out /\
    Permutation arr out /\
    (forall P, total_on P -> Forall P arr ->
       ascending 0 (Z.of_nat (length out) - 1) out).
Proof.
  intros Hfuel.
  destruct arr as [|x arr].
  - exists []. repeat split; try reflexivity. intros _ _ _ a b Ha Hab Hb. cbn in Hb. lia.
  - set (l := x :: arr) in *.
    assert (Hl : (1 <= length l)%nat) by (subst l; cbn; lia).
    destruct (quicksort_recursive_spec fuel l 0 (Z.of_nat (length l) - 1))
      as (out & Hrun & (Hp & Hlen & _) & Hasc); try lia.
    exists out.
    assert (Hq : quicksort fuel l = Ok out) by exact Hrun.
    split; [exact Hq|]. split; [exact Hq|]. split.
    + unfold quicksort_cy. cbv zeta.
      destruct (Z.eqb_spec (Z.of_nat (length l)) 0) as [E|_]; [lia|].
      rewrite Nat2Z.id.
      rewrite <- (length_vec_of (length l) fresh) at 1.
      replace (for_range 0 (Z.of_nat (length (vec_of (length l) fresh))) _ _)
        with (Ok l).
      2:{ symmetry. rewrite length_vec_of.
          apply (copy_into l (vec_of (length l) fresh)). apply length_vec_of. }
      cbn [bind]. rewrite Hrun. cbn [bind].
      rewrite <- Hlen. apply copy_into. congruence.
    + split; [exact Hp|]. rewrite Hlen. exact Hasc.
Qed.

End QuicksortFacts.

(** *** The order of the doubles that are not NaN *)

Ltac compares :=
  change Pos.compare_cont with (fun c a b => Pos.compare_cont c a b) in *;
  cbv beta in *;
  repeat match goal with
  | H : context [Pos.compare_cont Eq ?a ?b] |- _ =>
      change (Pos.compare_cont Eq a b) with (a ?= b)%positive in H
  | |- context [Pos.compare_cont Eq ?a ?b] =>
      change (Pos.compare_cont Eq a b) with (a ?= b)%positive
  end;
  repeat match goal with
  | |- context [(?a ?= ?b)%Z] => destruct (Z.compare_spec a b); try lia
  | H : context [(?a ?= ?b)%Z] |- _ => destruct (Z.compare_spec a b); try lia
  | |- context [(?a ?= ?b)%positive] => destruct (Pos.compare_spec a b); try lia
  | H : context [(?a ?= ?b)%positive] |- _ => destruct (Pos.compare_spec a b); try lia
  end.

Lemma SFleb_total (x y : spec_float) :
  x <> S754_nan -> y <> S754_nan -> SFleb x y = true \/ SFleb y x = true.
Proof.
  intros Hx Hy. unfold SFleb, SFcompare.
  destruct x as [sx|sx| |sx mx ex], y as [sy|sy| |sy my ey]; try congruence;
    try (destruct sx; try destruct sy; auto; fail);
    try (destruct sy; auto; fail).
  destruct sx, sy; auto; compares; cbn; auto.
Qed.

Lemma SFleb_trans (x y z : spec_float) :
  SFleb x y = true -> SFleb y z = true -> SFleb x z = true.
Proof.
  unfold SFleb, SFcompare.
  destruct x as [sx|sx| |sx mx ex]; try discriminate;
  destruct y as [sy|sy| |sy my ey]; try discriminate;
  destruct z as [sz|sz| |sz mz ez]; try discriminate; try reflexivity;
    try destruct sx; try destruct sy; try destruct sz;
    try discriminate; try reflexivity;
    intros Hxy Hyz; compares; cbn in *; try discriminate; try reflexivity.
Qed.

Lemma not_nan_spec (x : float) :
  PrimFloat.is_nan x = false -> Prim2SF x <> S754_nan.
Proof.
  unfold PrimFloat.is_nan. rewrite FloatAxioms.eqb_spec. intros Hx E.
  rewrite E in Hx. discriminate.
Qed.

Lemma doubles_total_on :
  Quicksort.total_on (F := float) (fun x => PrimFloat.is_nan x = false).
Proof.
  split.
  - intros a b Ha Hb. cbn. rewrite !FloatAxioms.leb_spec.
    apply SFleb_total; now apply not_nan_spec.
  - intros a b c _ _ _. cbn. rewrite !FloatAxioms.leb_spec. apply SFleb_trans.
Qed.

(** X18. Quicksort, whatever the scalars and their comparison are (NaN included):
    with a recursion budget of the list's length, [quicksort],
    [quicksort_inplace] and [quicksort_cy] return the same list, which holds
    the elements of the argument, each as often as the argument does; the
    result of [quicksort_cy] does not depend on what its allocated array
    first holds. *)
Theorem quicksort_permutes (F : Type) (SF : Scalar F) (OF : Ordered F)
        (fresh : Z -> F) (fuel : nat) (arr : list F) :
  (length arr <= fuel)%nat ->
  exists out,
    Quicksort.quicksort fuel arr = Ok out /\
    Quicksort.quicksort_inplace fuel arr = Ok out /\
    Quicksort.quicksort_cy fresh fuel arr = Ok out /\
    Permutation arr out.
Proof.
  intros Hfuel.
  destruct (quicksort_spec fresh fuel arr Hfuel) as (out & H1 & H2 & H3 & Hp & _).
  now exists out.
Qed.

Lemma quicksort_permutes_witness :
  exists out,
    Quicksort.quicksort 3 [3; nan; 1]%float = Ok out /\
    Quicksort.quicksort_inplace 3 [3; nan; 1]%float = Ok out /\
    Quicksort.quicksort_cy (fun _ => 7%float) 3 [3; nan; 1]%float = Ok out /\
    Permutation [3; nan; 1]%float out.
Proof.
  apply (quicksort_permutes float Scalar_float Ordered_float). cbn. lia.
Defined.

(** X19. Quicksort on doubles: when no element of the list is NaN, the result of
    [quicksort] (and of [quicksort_inplace] and [quicksort_cy]) is the list
    sorted: it holds the same elements, in ascending order (no element is
    above a later one). *)
Theorem quicksort_sorts (fresh : Z -> float) (arr : list float) :
  Forall (fun x => PrimFloat.is_nan x = false) arr ->
  exists out,
    Quicksort.quicksort (length arr) arr = Ok out /\
    Quicksort.quicksort_inplace (length arr) arr = Ok out /\
    Quicksort.quicksort_cy fresh (length arr) arr = Ok out /\
    Permutation arr out /\
    forall a b, (a <= b < length out)%nat ->
                (nth a out 0 <=? nth b out 0)%float = true.
Proof.
  intros Hnan.
  destruct (quicksort_spec fresh (length arr) arr (le_n _))
    as (out & H1 & H2 & H3 & Hp & Hasc).
  exists out. repeat (split; [assumption|]).
  intros a b Hab.
  specialize (Hasc _ doubles_total_on Hnan (Z.of_nat a) (Z.of_nat b)
                ltac:(lia) ltac:(lia) ltac:(lia)).
  unfold Quicksort.item in Hasc. rewrite !Nat2Z.id in Hasc. exact Hasc.
Qed.

Lemma quicksort_sorts_witness :
  exists out,
    Quicksort.quicksort 4 [3; -0; 0.5; neg_infinity]%float = Ok out /\
    Quicksort.quicksort_inplace 4 [3; -0; 0.5; neg_infinity]%float = Ok out /\
    Quicksort.quicksort_cy (fun _ => nan) 4 [3; -0; 0.5; neg_infinity]%float = Ok out /\
    Permutation [3; -0; 0.5; neg_infinity]%float out /\
    forall a b, (a <= b < length out)%nat ->
                (nth a out 0 <=? nth b out 0)%float = true.
Proof.
  apply (quicksort_sorts (fun _ => nan) [3; -0; 0.5; neg_infinity]%float).
  repeat constructor.
Defined.

(** With a NaN in the list the result need not be ascending: a NaN is never
    [<=] a pivot and no element is [<=] a NaN pivot, so a NaN can stay
    between two numbers. *)
Example quicksort_nan :
  Quicksort.quicksort 4 [2; nan; 3; 1]%float = Ok [1; 2; nan; 3]%float.
Proof. vm_compute. reflexivity. Qed.

(** ** The fast transforms on a power of two *)

Lemma not_pow2_false (k : nat) : FFT.not_pow2 (2 ^ Z.of_nat k) = false.
Proof.
  unfold FFT.not_pow2.
  replace (2 ^ Z.of_nat k - 1)%Z with (Z.ones (Z.of_nat k))
    by (rewrite Z.ones_equiv; lia).
  rewrite Z.land_ones by lia. rewrite Z.mod_same by lia. reflexivity.
Qed.

Lemma slice_even_length {T : Type} (l : list T) :
  length (slice_even l) = ((length l + 1) / 2)%nat /\
  length (slice_odd l) = (length l / 2)%nat.
Proof.
  induction l as [|a l IH]; [split; reflexivity|].
  destruct IH as (IHe & IHo). split.
  - destruct l as [|b l]; [reflexivity|].
    cbn [slice_even length]. cbn [slice_odd] in IHo. rewrite IHo. cbn [length].
    replace (Datatypes.S (Datatypes.S (length l)) + 1)%nat
      with (length l + 1 + 1 * 2)%nat by lia.
    rewrite Nat.div_add by lia.
    replace (Datatypes.S (length l)) with (length l + 1)%nat by lia. lia.
  - cbn [slice_odd length]. rewrite IHe.
    replace (Datatypes.S (length l)) with (length l + 1)%nat by lia. reflexivity.
Qed.

Lemma slice_even_nth {T : Type} (d : T) (l : list T) (m : nat) :
  nth m (slice_even l) d = nth (2 * m) l d /\
  nth m (slice_odd l) d = nth (2 * m + 1) l d.
Proof.
  revert m. induction l as [|a l IH]; intros m.
  - split; destruct m; reflexivity.
  - split.
    + destruct m as [|m]; [reflexivity|].
      destruct l as [|b l]; [destruct m; reflexivity|].
      cbn [slice_even nth].
      replace (2 * Datatypes.S m)%nat with (Datatypes.S (Datatypes.S (2 * m))) by lia.
      cbn [nth]. destruct (IH m) as (_ & IHo). cbn [slice_odd] in IHo. rewrite IHo.
      replace (2 * m + 1)%nat with (Datatypes.S (2 * m)) by lia. reflexivity.
    + cbn [slice_odd]. replace (2 * m + 1)%nat with (Datatypes.S (2 * m)) by lia.
      cbn [nth]. apply (IH m).
Qed.

Section FastFacts.

Context {F : Type} `{Scalar F}.
Variables (cos sin : F -> F) (M_PI : F).
Variable cmul : @FFT.Complex F -> @FFT.Complex F -> @FFT.Complex F.

Import FFTSpec.

Implicit Types x E O X : @FFT.ComplexVector F.

Lemma at_elem x (i : Z) :
  (0 <= i < Z.of_nat (length x))%Z -> at_ x i = Ok (elem x i).
Proof. intros Hi. now apply at_ok. Qed.

Lemma halves_length x :
  length (even_half x) = (length x / 2)%nat /\ length (odd_half x) = (length x / 2)%nat.
Proof. unfold even_half, odd_half. now rewrite !length_vec_of. Qed.

Lemma slices_halves x (M : nat) :
  length x = (2 * M)%nat ->
  slice_even x = even_half x /\ slice_odd x = odd_half x.
Proof.
  intros Hlen.
  destruct (slice_even_length x) as (Hle & Hlo).
  assert (HM : (length x / 2 = M)%nat).
  { rewrite Hlen, Nat.mul_comm. apply Nat.div_mul. lia. }
  assert (HM' : ((length x + 1) / 2 = M)%nat).
  { rewrite Hlen. replace (2 * M + 1)%nat with (1 + M * 2)%nat by lia.
    rewrite Nat.div_add by lia. reflexivity. }
  unfold even_half, odd_half. rewrite HM. split.
  - rewrite (list_vec_of (slice_even x) zero), Hle, HM'.
    apply vec_of_ext. intros i Hi. unfold elem.
    rewrite (proj1 (slice_even_nth zero x (Z.to_nat i))). f_equal. lia.
  - rewrite (list_vec_of (slice_odd x) zero), Hlo, HM.
    apply vec_of_ext. intros i Hi. unfold elem.
    rewrite (proj2 (slice_even_nth zero x (Z.to_nat i))). f_equal. lia.
Qed.

(** The loop of [fft_cooley_tukey] that splits the input. *)
Lemma split_loop x (M : nat) :
  length x = (2 * M)%nat ->
  for_step (length x) 0 (Z.of_nat (length x)) 2 (fun i eo =>
    xi <- at_ x i ;;
    xi1 <- at_ x (i + 1) ;;
    Ok (fst eo ++ [xi], snd eo ++ [xi1])) ([], [])
  = Ok (even_half x, odd_half x).
Proof.
  intros Hlen.
  assert (HM : (length x / 2 = M)%nat).
  { rewrite Hlen, Nat.mul_comm. apply Nat.div_mul. lia. }
  match goal with |- for_step _ _ _ _ ?body ?s0 = _ =>
    destruct (for_step_inv
                (fun i eo => exists m : nat,
                     (m <= M)%nat /\ i = (2 * Z.of_nat m)%Z /\
                     eo = (vec_of m (fun m => elem x (2 * m)),
                           vec_of m (fun m => elem x (2 * m + 1))))
                body (Z.of_nat (length x)) 2 ltac:(lia) (length x) 0%Z s0)
      as (eo & i' & Hrun & Hhi & _ & m & Hm & Hi' & Heo)
  end.
  - lia.
  - exists O. repeat split; lia.
  - intros i eo Hi (m & Hm & -> & ->).
    rewrite !at_elem by lia. cbn [bind fst snd].
    eexists. split; [reflexivity|]. exists (Datatypes.S m).
    split; [lia|]. split; [lia|].
    rewrite !vec_of_snoc. reflexivity.
  - rewrite Hrun, Heo. unfold even_half, odd_half. rewrite HM.
    replace m with M by lia. reflexivity.
Qed.

(** The loop of [fft_cooley_tukey] that combines the two transforms. *)
Lemma combine_loop (w : Z -> FFT.Complex)
      (body : Z -> FFT.ComplexVector -> res FFT.ComplexVector) E O (X0 : Z -> FFT.Complex) :
  length O = length E ->
  let M := Z.of_nat (length E) in
  (forall k X, (0 <= k < M)%Z ->
     body k X = (X <- set_at X k (FFT.cadd (elem E k) (cmul (w k) (elem O k))) ;;
                 set_at X (k + M) (FFT.csub (elem E k) (cmul (w k) (elem O k))))) ->
  for_range 0 M body (vec_of (2 * length E) X0) = Ok (butterfly cmul w E O).
Proof.
  intros HO M Hbody.
  destruct (for_range_inv
              (fun k X =>
                 X = vec_of (2 * length E)
                       (fun j => if (j <? k)%Z
                                 then FFT.cadd (elem E j) (cmul (w j) (elem O j))
                                 else if ((M <=? j) && (j <? M + k))%Z
                                 then FFT.csub (elem E (j - M))
                                               (cmul (w (j - M)%Z) (elem O (j - M)))
                                 else X0 j))
              body 0 M (vec_of (2 * length E) X0)) as (X & Hrun & HX).
  - lia.
  - apply vec_of_ext. intros j Hj. zcases.
  - intros k X Hk ->. rewrite Hbody by lia.
    rewrite set_at_vec_of by lia. cbn [bind].
    rewrite set_at_vec_of by lia.
    eexists. split; [reflexivity|].
    apply vec_of_ext. intros j Hj.
    destruct (Z.eqb_spec j (k + M)) as [->|Hne].
    + replace (k + M - M)%Z with k by lia. zcases.
    + destruct (Z.eqb_spec j k) as [->|Hne']; zcases.
  - rewrite Hrun, HX. f_equal. unfold butterfly. fold M.
    apply vec_of_ext. intros j Hj. zcases.
Qed.

Lemma butterfly_length (w : Z -> FFT.Complex) E O :
  length (butterfly cmul w E O) = (2 * length E)%nat.
Proof. unfold butterfly. now rewrite length_vec_of. Qed.

Lemma halves_pow2 x (k : nat) :
  length x = (2 ^ Datatypes.S k)%nat ->
  length (even_half x) = (2 ^ k)%nat /\ length (odd_half x) = (2 ^ k)%nat.
Proof.
  intros Hlen. destruct (halves_length x) as (-> & ->). rewrite Hlen.
  cbn [Nat.pow]. rewrite Nat.mul_comm, Nat.div_mul by lia. split; reflexivity.
Qed.

Lemma recursive_length (w : Z -> Z -> FFT.Complex) (k : nat) :
  forall x, length x = (2 ^ k)%nat -> length (recursive cmul w k x) = (2 ^ k)%nat.
Proof.
  induction k as [|k IH]; intros x Hlen; [exact Hlen|].
  cbn [recursive]. rewrite butterfly_length.
  rewrite IH by apply (halves_pow2 x k Hlen). cbn [Nat.pow]. lia.
Qed.

Lemma pow2_not_small (k : nat) (x : @FFT.ComplexVector F) :
  length x = (2 ^ Datatypes.S k)%nat ->
  (Z.of_nat (length x) <=? 1)%Z = false /\
  FFT.not_pow2 (Z.of_nat (length x)) = false /\
  Z.of_nat (length x) = (2 * Z.of_nat (2 ^ k))%Z.
Proof.
  intros Hlen. rewrite Hlen.
  assert (Hpos : (1 <= 2 ^ k)%nat) by (apply Nat.neq_0_lt_0, Nat.pow_nonzero; lia).
  split; [|split].
  - apply Z.leb_gt. cbn [Nat.pow]. lia.
  - rewrite Nat2Z.inj_pow. apply (not_pow2_false (Datatypes.S k)).
  - cbn [Nat.pow]. lia.
Qed.

(** [fft_cooley_tukey] on a sequence of length [2 ^ k], with a budget above
    [k]. *)
Lemma fft_cooley_tukey_recursive (k : nat) :
  forall (fuel : nat) x,
    length x = (2 ^ k)%nat -> (k < fuel)%nat ->
    FFT.fft_cooley_tukey cos sin M_PI cmul fuel x
    = Ok (recursive cmul (factor M_PI (polar cos sin)) k x).
Proof.
  induction k as [|k IH]; intros fuel x Hlen Hfuel;
    (destruct fuel as [|fuel]; [lia|]); cbn [FFT.fft_cooley_tukey].
  - rewrite Hlen. reflexivity.
  - destruct (pow2_not_small k x Hlen) as (-> & -> & HN).
    destruct (halves_pow2 x k Hlen) as (Hle & Hlo).
    rewrite (split_loop x (2 ^ k)) by (rewrite Hlen; cbn [Nat.pow]; lia).
    cbn [bind fst snd]. cbv zeta.
    rewrite (IH fuel (even_half x)), (IH fuel (odd_half x)) by (auto; lia).
    cbn [bind recursive].
    set (E := recursive cmul _ k (even_half x)).
    set (O := recursive cmul _ k (odd_half x)).
    assert (HE : length E = (2 ^ k)%nat) by now apply recursive_length.
    assert (HO : length O = (2 ^ k)%nat) by now apply recursive_length.
    remember (Z.of_nat (length x)) as N eqn:EN.
    replace (Z.quot N 2) with (Z.of_nat (length E))
      by (rewrite HN, HE, Z.mul_comm, Z.quot_mul; lia).
    replace (Z.to_nat N) with (2 * length E)%nat by (rewrite HE; lia).
    rewrite repeat_vec_of.
    apply (combine_loop (factor M_PI (polar cos sin) N)); [congruence|].
    intros j X Hj. cbv zeta.
    rewrite !at_elem by lia. cbn [bind]. reflexivity.
Qed.

(** The two loops of [fft_cooley_tukey_cy]: the products, then the sums and
    differences. *)
Lemma combine_loop_cy (w : Z -> FFT.Complex) E O :
  length O = length E ->
  let M := Z.of_nat (length E) in
  (T <- for_range 0 M (fun k T =>
          ok <- at_ O k ;;
          set_at T k (cmul (w k) ok)) (repeat (FFT.cplx lit_0 lit_0) (length E)) ;;
   for_range 0 M (fun k X =>
     ek <- at_ E k ;;
     tk <- at_ T k ;;
     X <- set_at X k (FFT.cadd ek tk) ;;
     set_at X (k + M) (FFT.csub ek tk)) (repeat (FFT.cplx lit_0 lit_0) (2 * length E)))
  = Ok (butterfly cmul w E O).
Proof.
  intros HO M. subst M. rewrite !repeat_vec_of.
  rewrite (fill_loop _ (fun k => cmul (w k) (elem O k))).
  2:{ intros d v Hd. now rewrite at_elem by lia. }
  cbn [bind]. apply combine_loop; [exact HO|].
  intros k X Hk. rewrite at_elem by lia. cbn [bind].
  rewrite at_vec_of by lia. cbn [bind]. reflexivity.
Qed.

Lemma fft_cooley_tukey_cy_recursive (k : nat) :
  forall (fuel : nat) x,
    length x = (2 ^ k)%nat -> (k < fuel)%nat ->
    FFT.fft_cooley_tukey_cy cos sin M_PI cmul fuel x
    = Ok (recursive cmul (factor M_PI (FFT.cis_cy cos sin cmul)) k x).
Proof.
  induction k as [|k IH]; intros fuel x Hlen Hfuel;
    (destruct fuel as [|fuel]; [lia|]); cbn [FFT.fft_cooley_tukey_cy].
  - rewrite Hlen. reflexivity.
  - destruct (pow2_not_small k x Hlen) as (-> & -> & HN).
    destruct (halves_pow2 x k Hlen) as (Hle & Hlo).
    destruct (slices_halves x (2 ^ k)) as (-> & ->);
      [rewrite Hlen; cbn [Nat.pow]; lia|].
    rewrite (IH fuel (even_half x)), (IH fuel (odd_half x)) by (auto; lia).
    cbn [bind recursive]. cbv zeta.
    set (E := recursive cmul _ k (even_half x)).
    set (O := recursive cmul _ k (odd_half x)).
    assert (HE : length E = (2 ^ k)%nat) by now apply recursive_length.
    assert (HO : length O = (2 ^ k)%nat) by now apply recursive_length.
    remember (Z.of_nat (length x)) as N eqn:EN.
    replace (N / 2)%Z with (Z.of_nat (length E))
      by (rewrite HN, HE, Z.mul_comm, Z.div_mul; lia).
    replace (Z.to_nat N) with (2 * length E)%nat by (rewrite HE; lia).
    rewrite Nat2Z.id.
    apply (combine_loop_cy (factor M_PI (FFT.cis_cy cos sin cmul) N)).
    congruence.
Qed.

End FastFacts.

(** *** The transforms over the reals *)

Section FourierFacts.

Import FFTSpec Fourier.
Local Open Scope R_scope.

#[local] Abbreviation C := (FFT.Complex (F := R)).
#[local] Abbreviation cmul_R := Samples.cmul_R.

Implicit Types x y : FFT.ComplexVector (F := R).

Lemma complex_eq (a b : C) : FFT.re a = FFT.re b -> FFT.im a = FFT.im b -> a = b.
Proof. destruct a, b. cbn. now intros -> ->. Qed.

Lemma cis_ext (a b : R) : a = b -> cis a = cis b.
Proof. now intros ->. Qed.

Lemma cis_plus (a b : R) : cis (a + b) = cmul_R (cis a) (cis b).
Proof.
  unfold cis, Samples.cmul_R. cbn [FFT.re FFT.im].
  rewrite cos_plus, sin_plus. f_equal; ring.
Qed.

Lemma cis_turns (a : R) (n : nat) : cis (a - 2 * INR n * PI) = cis a.
Proof.
  unfold cis.
  rewrite <- (cos_period (a - 2 * INR n * PI) n), <- (sin_period (a - 2 * INR n * PI) n).
  f_equal; f_equal; ring.
Qed.

Lemma cis_half_turn (a : R) :
  cis (a - PI) = FFT.cplx (- FFT.re (cis a)) (- FFT.im (cis a)).
Proof.
  unfold cis. cbn [FFT.re FFT.im].
  replace (a - PI)%R with (- (PI - a))%R by ring.
  rewrite cos_neg, sin_neg, Rtrigo_facts.cos_pi_minus, sin_PI_x. reflexivity.
Qed.

Lemma elem_vec_of (n : nat) (f : Z -> C) (i : Z) :
  (0 <= i < Z.of_nat n)%Z -> elem (vec_of n f) i = f i.
Proof.
  intros Hi. unfold elem. apply nth_error_nth.
  rewrite nth_error_vec_of by lia. now rewrite Z2Nat.id by lia.
Qed.

(** The inner loop of the naive transform is the series. *)
Lemma series_fold x (N k : Z) (cnt : nat) :
  fold_left (fun s n =>
               FFT.cadd s (cmul_R (elem x n)
                                  (cis (- (2 * PI * IZR k * IZR n / IZR N)))))
            (zrange 0 (Z.of_nat cnt)) (FFT.cplx 0%R 0%R)
  = series x N k cnt.
Proof.
  induction cnt as [|c IH]; [reflexivity|].
  rewrite Nat2Z.inj_succ. unfold Z.succ. rewrite fold_zrange_snoc by lia.
  rewrite IH. reflexivity.
Qed.

Lemma dft_naive_transform x :
  FFT.dft_naive Rtrigo_def.cos Rtrigo_def.sin PI cmul_R x = Ok (transform x).
Proof.
  unfold FFT.dft_naive, transform. cbv zeta.
  rewrite Nat2Z.id, repeat_vec_of.
  apply fill_loop. intros k X Hk.
  rewrite (for_range_fold _
             (fun s n =>
                FFT.cadd s (cmul_R (elem x n)
                                   (cis (- (2 * PI * IZR k * IZR n
                                            / IZR (Z.of_nat (length x)))))))).
  - cbn [bind]. now rewrite series_fold.
  - intros n s Hn. rewrite at_elem by lia. cbn [bind]. do 3 f_equal.
    unfold cis. cbn [opp lit_2 mul div of_int Scalar_R].
    f_equal; f_equal; unfold Rdiv; ring.
Qed.

Lemma dft_naive_cy_transform x :
  FFT.dft_naive_cy Rtrigo_def.cos Rtrigo_def.sin PI cmul_R x = Ok (transform x).
Proof.
  unfold FFT.dft_naive_cy, transform. cbv zeta.
  rewrite Nat2Z.id, repeat_vec_of.
  apply fill_loop. intros k X Hk.
  rewrite (for_range_fold _
             (fun s n =>
                FFT.cadd s (cmul_R (elem x n)
                                   (cis (- (2 * PI * IZR k * IZR n
                                            / IZR (Z.of_nat (length x)))))))).
  - cbn [bind]. now rewrite series_fold.
  - intros n s Hn. rewrite at_elem by lia. cbn [bind]. f_equal.
    replace (opp (lit_2 [*] PI) [*] of_int k [*] of_int n [/] of_int (Z.of_nat (length x)))
      with (- (2 * PI * IZR k * IZR n / IZR (Z.of_nat (length x))))%R
      by (cbn [opp lit_2 mul div of_int Scalar_R]; unfold Rdiv; ring).
    apply complex_eq; unfold FFT.cadd, Samples.cmul_R, cis;
      cbn [FFT.re FFT.im add sub mul lit_0 lit_1 Scalar_R]; ring.
Qed.

Lemma IZR_double (M : nat) : IZR (Z.of_nat (2 * M)) = 2 * IZR (Z.of_nat M).
Proof. rewrite Nat2Z.inj_mul, mult_IZR. reflexivity. Qed.

Ltac complex_ring :=
  apply complex_eq;
  unfold FFT.cadd, FFT.csub, Samples.cmul_R, cis;
  cbn [FFT.re FFT.im add sub mul lit_0 lit_1 Scalar_R]; ring.

(** The sum over all indices is the sum over the even indices plus the sum
    over the odd ones. *)
Lemma series_halves x (M : nat) (j : Z) :
  length x = (2 * M)%nat -> (1 <= M)%nat ->
  forall c : nat, (c <= M)%nat ->
    series x (Z.of_nat (2 * M)) j (2 * c)
    = FFT.cadd (series (even_half x) (Z.of_nat M) j c)
               (cmul_R (cis (- (2 * PI * IZR j / IZR (Z.of_nat (2 * M)))))
                       (series (odd_half x) (Z.of_nat M) j c)).
Proof.
  intros Hlen HM.
  assert (Hhalf : (length x / 2)%nat = M).
  { rewrite Hlen, Nat.mul_comm. apply Nat.div_mul. lia. }
  assert (HM0 : IZR (Z.of_nat M) <> 0) by (apply not_0_IZR; lia).
  induction c as [|c IH]; intros Hc.
  - change (2 * 0)%nat with 0%nat. cbn [series]. complex_ring.
  - replace (2 * Datatypes.S c)%nat with (Datatypes.S (Datatypes.S (2 * c))) by lia.
    cbn [series]. rewrite IH by lia.
    assert (Hev : elem (even_half x) (Z.of_nat c) = elem x (2 * Z.of_nat c))
      by (unfold even_half; rewrite Hhalf, elem_vec_of by lia; reflexivity).
    assert (Hod : elem (odd_half x) (Z.of_nat c) = elem x (2 * Z.of_nat c + 1))
      by (unfold odd_half; rewrite Hhalf, elem_vec_of by lia; reflexivity).
    rewrite Hev, Hod.
    replace (Z.of_nat (Datatypes.S (2 * c))) with (2 * Z.of_nat c + 1)%Z by lia.
    replace (Z.of_nat (2 * c)) with (2 * Z.of_nat c)%Z by lia.
    rewrite (cis_ext (- (2 * PI * IZR j * IZR (2 * Z.of_nat c) / IZR (Z.of_nat (2 * M))))
                     (- (2 * PI * IZR j * IZR (Z.of_nat c) / IZR (Z.of_nat M)))).
    2:{ rewrite IZR_double, mult_IZR. field. exact HM0. }
    rewrite (cis_ext (- (2 * PI * IZR j * IZR (2 * Z.of_nat c + 1) / IZR (Z.of_nat (2 * M))))
                     (- (2 * PI * IZR j / IZR (Z.of_nat (2 * M)))
                      + - (2 * PI * IZR j * IZR (Z.of_nat c) / IZR (Z.of_nat M)))).
    2:{ rewrite IZR_double, plus_IZR, mult_IZR. field. exact HM0. }
    rewrite cis_plus.
    generalize (cis (- (2 * PI * IZR j / IZR (Z.of_nat (2 * M))))) as W.
    generalize (cis (- (2 * PI * IZR j * IZR (Z.of_nat c) / IZR (Z.of_nat M)))) as T.
    intros T W. complex_ring.
Qed.

(** The factors of a transform of length [M] repeat after [M] indices. *)
Lemma series_shift y (M : nat) (j : Z) (c : nat) :
  (1 <= M)%nat ->
  series y (Z.of_nat M) (j + Z.of_nat M) c = series y (Z.of_nat M) j c.
Proof.
  intros HM.
  assert (HM0 : IZR (Z.of_nat M) <> 0) by (apply not_0_IZR; lia).
  induction c as [|c IH]; [reflexivity|].
  cbn [series]. rewrite IH. do 2 f_equal.
  rewrite <- (cis_turns (- (2 * PI * IZR j * IZR (Z.of_nat c) / IZR (Z.of_nat M))) c).
  apply cis_ext. rewrite plus_IZR, INR_IZR_INZ. field. exact HM0.
Qed.

(** The recursion computes the transform. *)
Lemma recursive_transform (k : nat) :
  forall x, length x = (2 ^ k)%nat ->
    recursive cmul_R (factor PI (polar Rtrigo_def.cos Rtrigo_def.sin)) k x = transform x.
Proof.
  induction k as [|k IH]; intros x Hlen.
  - destruct x as [|a [|b x]]; try discriminate.
    unfold transform. cbn [recursive length vec_of seq map series Z.of_nat].
    f_equal. unfold elem. cbn [Z.to_nat nth].
    rewrite (cis_ext _ 0) by (unfold Rdiv; ring).
    unfold cis. rewrite cos_0, sin_0. destruct a as [ar ai]. complex_ring.
  - destruct (halves_pow2 x k Hlen) as (Hle & Hlo).
    assert (Hpos : (1 <= 2 ^ k)%nat) by (apply Nat.neq_0_lt_0, Nat.pow_nonzero; lia).
    assert (Hx : length x = (2 * 2 ^ k)%nat) by (rewrite Hlen; cbn [Nat.pow]; lia).
    cbn [recursive]. rewrite !IH by assumption. rewrite Hx.
    assert (HlE : length (transform (even_half x)) = (2 ^ k)%nat)
      by (unfold transform; now rewrite length_vec_of).
    unfold butterfly. rewrite HlE.
    transitivity (vec_of (2 * 2 ^ k)
                         (fun j => series x (Z.of_nat (2 * 2 ^ k)) j (2 * 2 ^ k)));
      [|unfold transform; rewrite Hx; reflexivity].
    apply vec_of_ext. intros j Hj.
    rewrite (series_halves x (2 ^ k) j Hx Hpos (2 ^ k)%nat (le_n _)).
    assert (Hw : forall i, factor PI (polar Rtrigo_def.cos Rtrigo_def.sin)
                                  (Z.of_nat (2 * 2 ^ k)) i
                           = cis (- (2 * PI * IZR i / IZR (Z.of_nat (2 * 2 ^ k))))).
    { intros i. unfold factor, polar. apply cis_ext.
      cbn [opp lit_2 mul div of_int Scalar_R]. unfold Rdiv. ring. }
    rewrite !Hw. unfold transform. rewrite Hle, Hlo.
    destruct (Z.ltb_spec j (Z.of_nat (2 ^ k))) as [Hlt|Hge].
    + rewrite !elem_vec_of by lia. reflexivity.
    + assert (Hj' : exists j', j = (j' + Z.of_nat (2 ^ k))%Z /\
                               (0 <= j' < Z.of_nat (2 ^ k))%Z)
        by (exists (j - Z.of_nat (2 ^ k))%Z; lia).
      destruct Hj' as (j' & -> & Hj').
      replace (j' + Z.of_nat (2 ^ k) - Z.of_nat (2 ^ k))%Z with j' by lia.
      rewrite !elem_vec_of by lia.
      rewrite !series_shift by lia.
      rewrite (cis_ext (- (2 * PI * IZR (j' + Z.of_nat (2 ^ k))
                          / IZR (Z.of_nat (2 * 2 ^ k))))
                       (- (2 * PI * IZR j' / IZR (Z.of_nat (2 * 2 ^ k))) - PI)).
      2:{ rewrite IZR_double, plus_IZR. field. apply not_0_IZR. lia. }
      rewrite cis_half_turn.
      generalize (cis (- (2 * PI * IZR j' / IZR (Z.of_nat (2 * 2 ^ k))))) as W.
      intros W. complex_ring.
Qed.

End FourierFacts.

(** *** The bit-reversal permutation *)

Lemma pow2_pos (k : nat) : (0 < 2 ^ Z.of_nat k)%Z.
Proof. apply Z.pow_pos_nonneg; lia. Qed.

Lemma pow2_succ (k : nat) : (2 ^ Z.of_nat (Datatypes.S k) = 2 * 2 ^ Z.of_nat k)%Z.
Proof. rewrite Nat2Z.inj_succ, Z.pow_succ_r by lia. reflexivity. Qed.

Lemma rev_bits_range (k : nat) (i : Z) :
  (0 <= FFTSpec.rev_bits k i < 2 ^ Z.of_nat k)%Z.
Proof.
  revert i. induction k as [|k IH]; intros i; cbn [FFTSpec.rev_bits]; [cbn; lia|].
  specialize (IH (i / 2)%Z). rewrite pow2_succ.
  pose proof (Z.mod_pos_bound i 2 ltac:(lia)). pose proof (pow2_pos k). nia.
Qed.

(** The same number, read from the highest bit down. *)
Lemma rev_bits_high (k : nat) :
  forall i, (0 <= i < 2 ^ Z.of_nat (Datatypes.S k))%Z ->
    FFTSpec.rev_bits (Datatypes.S k) i
    = (2 * FFTSpec.rev_bits k (i mod 2 ^ Z.of_nat k) + i / 2 ^ Z.of_nat k)%Z.
Proof.
  induction k as [|k IH]; intros i Hi.
  - cbn [FFTSpec.rev_bits Z.of_nat Z.pow]. change (2 ^ 0)%Z with 1%Z.
    rewrite Z.div_1_r. cbn in Hi. rewrite Z.mod_small by lia. lia.
  - pose proof (pow2_pos k) as Hpos. rewrite !pow2_succ in Hi.
    change (FFTSpec.rev_bits (Datatypes.S (Datatypes.S k)) i)
      with (2 ^ Z.of_nat (Datatypes.S k) * (i mod 2)
            + FFTSpec.rev_bits (Datatypes.S k) (i / 2))%Z.
    rewrite !pow2_succ.
    assert (Hhalf : (0 <= i / 2 < 2 * 2 ^ Z.of_nat k)%Z).
    { split; [apply Z.div_pos; lia|]. apply Z.div_lt_upper_bound; lia. }
    rewrite (IH (i / 2)%Z) by (rewrite pow2_succ; exact Hhalf).
    change (FFTSpec.rev_bits (Datatypes.S k) (i mod (2 * 2 ^ Z.of_nat k)))
      with (2 ^ Z.of_nat k * ((i mod (2 * 2 ^ Z.of_nat k)) mod 2)
            + FFTSpec.rev_bits k ((i mod (2 * 2 ^ Z.of_nat k)) / 2))%Z.
    set (P := (2 ^ Z.of_nat k)%Z) in *.
    assert (E1 : ((i mod (2 * P)) mod 2 = i mod 2)%Z).
    { apply Z.mod_mod_divide. exists P. lia. }
    assert (E2 : ((i mod (2 * P)) / 2 = (i / 2) mod P)%Z).
    { pose proof (Z.div_mod i (2 * P) ltac:(lia)) as Hd.
      pose proof (Z.mod_pos_bound i (2 * P) ltac:(lia)) as Hb.
      set (q := (i / (2 * P))%Z) in *. set (r := (i mod (2 * P))%Z) in *.
      replace (i / 2)%Z with (q * P + r / 2)%Z.
      - rewrite Z.add_comm, Z.mod_add by lia. symmetry. apply Z.mod_small.
        split; [apply Z.div_pos; lia|apply Z.div_lt_upper_bound; lia].
      - rewrite Hd. replace (2 * P * q + r)%Z with (r + (q * P) * 2)%Z by lia.
        rewrite Z.div_add by lia. lia. }
    assert (E3 : (i / 2 / P = i / (2 * P))%Z) by (rewrite Z.div_div by lia; reflexivity).
    rewrite E1, E2, E3. lia.
Qed.

Lemma rev_bits_involutive (k : nat) :
  forall i, (0 <= i < 2 ^ Z.of_nat k)%Z ->
    FFTSpec.rev_bits k (FFTSpec.rev_bits k i) = i.
Proof.
  induction k as [|k IH]; intros i Hi; [cbn in *; lia|].
  pose proof (pow2_pos k) as Hpos. rewrite pow2_succ in Hi.
  rewrite (rev_bits_high k i) by (rewrite pow2_succ; lia).
  set (P := (2 ^ Z.of_nat k)%Z) in *.
  assert (Hq : (0 <= i / P <= 1)%Z).
  { split; [apply Z.div_pos; lia|].
    assert (i / P < 2)%Z by (apply Z.div_lt_upper_bound; lia). lia. }
  pose proof (Z.mod_pos_bound i P ltac:(lia)) as Hr.
  cbn [FFTSpec.rev_bits]. fold P.
  replace ((2 * FFTSpec.rev_bits k (i mod P) + i / P) mod 2)%Z with (i / P)%Z.
  2:{ rewrite Z.add_comm, Z.mul_comm, Z.mod_add by lia. symmetry.
      apply Z.mod_small. lia. }
  replace ((2 * FFTSpec.rev_bits k (i mod P) + i / P) / 2)%Z
    with (FFTSpec.rev_bits k (i mod P)).
  2:{ rewrite Z.add_comm, Z.mul_comm, Z.div_add by lia.
      rewrite (Z.div_small (i / P) 2) by lia. lia. }
  rewrite IH by exact Hr.
  pose proof (Z.div_mod i P ltac:(lia)). lia.
Qed.

Lemma rev_bits_ones (k : nat) :
  FFTSpec.rev_bits k (2 ^ Z.of_nat k - 1) = (2 ^ Z.of_nat k - 1)%Z.
Proof.
  induction k as [|k IH]; [reflexivity|].
  cbn [FFTSpec.rev_bits]. rewrite pow2_succ. pose proof (pow2_pos k) as Hpos.
  replace (2 * 2 ^ Z.of_nat k - 1)%Z with (1 + (2 ^ Z.of_nat k - 1) * 2)%Z by lia.
  rewrite Z.mod_add, Z.div_add by lia.
  change (1 mod 2)%Z with 1%Z. change (1 / 2)%Z with 0%Z. rewrite Z.add_0_l, IH. lia.
Qed.

Lemma rev_bits_double (k : nat) (q : Z) :
  FFTSpec.rev_bits (Datatypes.S k) (2 * q) = FFTSpec.rev_bits k q.
Proof.
  cbn [FFTSpec.rev_bits]. rewrite (Z.mul_comm 2 q), Z.mod_mul, Z.div_mul by lia.
  rewrite Z.mul_0_r. reflexivity.
Qed.

Lemma rev_bits_double_1 (k : nat) (q : Z) :
  FFTSpec.rev_bits (Datatypes.S k) (2 * q + 1)
  = (2 ^ Z.of_nat k + FFTSpec.rev_bits k q)%Z.
Proof.
  cbn [FFTSpec.rev_bits].
  replace (2 * q + 1)%Z with (1 + q * 2)%Z by lia.
  rewrite Z.mod_add, Z.div_add by lia.
  change (1 mod 2)%Z with 1%Z. change (1 / 2)%Z with 0%Z.
  rewrite Z.mul_1_r, Z.add_0_l. reflexivity.
Qed.

Lemma rev_bits_0 (k : nat) : FFTSpec.rev_bits k 0 = 0%Z.
Proof.
  induction k as [|k IH]; [reflexivity|].
  change 0%Z with (2 * 0)%Z at 1. rewrite rev_bits_double. exact IH.
Qed.

Lemma half_cases (i : Z) : exists q, i = (2 * q)%Z \/ i = (2 * q + 1)%Z.
Proof.
  exists (i / 2)%Z. pose proof (Z.div_mod i 2 ltac:(lia)).
  pose proof (Z.mod_pos_bound i 2 ltac:(lia)). lia.
Qed.

Lemma shiftr_pow2 (k : nat) :
  Z.shiftr (2 ^ Z.of_nat (Datatypes.S k)) 1 = (2 ^ Z.of_nat k)%Z.
Proof.
  rewrite Z.shiftr_div_pow2 by lia. rewrite pow2_succ.
  change (2 ^ 1)%Z with 2%Z. rewrite Z.mul_comm, Z.div_mul by lia. reflexivity.
Qed.

(** The inner loop of the bit reversal turns the reversal of [i] into that
    of [i + 1]. *)
Lemma rev_bits_next (k : nat) :
  forall (fuel : nat) (i : Z),
    (0 <= i)%Z -> (i + 1 < 2 ^ Z.of_nat (Datatypes.S k))%Z -> (k <= fuel)%nat ->
    exists jk,
      while_ fuel (fun jk => (snd jk <=? fst jk)%Z)
             (fun jk => Ok ((fst jk - snd jk)%Z, Z.shiftr (snd jk) 1))
             (FFTSpec.rev_bits (Datatypes.S k) i, (2 ^ Z.of_nat k)%Z) = Ok jk /\
      (fst jk + snd jk)%Z = FFTSpec.rev_bits (Datatypes.S k) (i + 1).
Proof.
  induction k as [|k IH]; intros fuel i Hi Hlt Hfuel.
  - assert (i = 0)%Z by (cbn in Hlt; lia). subst i.
    exists (0, 1)%Z. split; [destruct fuel; reflexivity|reflexivity].
  - pose proof (pow2_pos k) as Hpos. rewrite !pow2_succ in Hlt.
    destruct (half_cases i) as (q & [->| ->]).
    + rewrite rev_bits_double.
      pose proof (rev_bits_range (Datatypes.S k) q) as Hr.
      eexists. split.
      * destruct fuel; cbn [while_ fst snd];
          (destruct (Z.leb_spec (2 ^ Z.of_nat (Datatypes.S k))
                                (FFTSpec.rev_bits (Datatypes.S k) q)); [lia|reflexivity]).
      * cbn [fst snd]. rewrite rev_bits_double_1. lia.
    + rewrite rev_bits_double_1.
      pose proof (rev_bits_range (Datatypes.S k) q) as Hr.
      destruct fuel as [|fuel]; [lia|].
      destruct (IH fuel q) as (jk & Hrun & Hjk); try lia.
      { rewrite pow2_succ. lia. }
      exists jk. split.
      * cbn [while_ fst snd].
        destruct (Z.leb_spec (2 ^ Z.of_nat (Datatypes.S k))
                             (2 ^ Z.of_nat (Datatypes.S k)
                              + FFTSpec.rev_bits (Datatypes.S k) q)); [|lia].
        cbn [bind]. rewrite shiftr_pow2.
        replace (2 ^ Z.of_nat (Datatypes.S k) + FFTSpec.rev_bits (Datatypes.S k) q
                 - 2 ^ Z.of_nat (Datatypes.S k))%Z
          with (FFTSpec.rev_bits (Datatypes.S k) q) by lia.
        exact Hrun.
      * rewrite Hjk. replace (2 * q + 1 + 1)%Z with (2 * (q + 1))%Z by lia.
        now rewrite rev_bits_double.
Qed.

Section IterativeFacts.

Context {F : Type} `{Scalar F}.
Variables (cos sin : F -> F) (M_PI : F).
Variable cmul : @FFT.Complex F -> @FFT.Complex F -> @FFT.Complex F.

Import FFTSpec.

Implicit Types x X Y : @FFT.ComplexVector F.

Lemma swap_vec_of (n : nat) (g : Z -> @FFT.Complex F) (i j : Z) :
  (0 <= i < Z.of_nat n)%Z -> (0 <= j < Z.of_nat n)%Z ->
  FFT.swap (vec_of n g) i j
  = Ok (vec_of n (fun t => if (t =? j)%Z then g i else if (t =? i)%Z then g j else g t)).
Proof.
  intros Hi Hj. unfold FFT.swap.
  rewrite !at_vec_of by lia. cbn [bind].
  rewrite set_at_vec_of by lia. cbn [bind].
  now rewrite set_at_vec_of by lia.
Qed.

(** The first loop of [fft_iterative]: element [t] of the result is element
    [rev_bits k t] of the input. *)
Lemma bit_reversal_spec (k fuel : nat) x :
  length x = (2 ^ k)%nat -> (k <= fuel)%nat ->
  FFT.bit_reversal fuel (Z.of_nat (length x)) x = Ok (bit_reversed k x).
Proof.
  intros Hlen Hfuel. unfold FFT.bit_reversal, bit_reversed.
  set (N := Z.of_nat (length x)).
  assert (HN : N = (2 ^ Z.of_nat k)%Z) by (subst N; rewrite Hlen, Nat2Z.inj_pow; reflexivity).
  pose proof (pow2_pos k) as Hpos.
  set (g := fun (i t : Z) =>
              if ((t <? i) || (rev_bits k t <? i))%Z
              then elem x (rev_bits k t) else elem x t).
  match goal with |- (Xj <- for_range _ _ ?body ?s0 ;; _) = _ =>
    destruct (for_range_inv
                (fun i Xj => snd Xj = rev_bits k i /\ fst Xj = vec_of (length x) (g i))
                body 0 (N - 1) s0) as ([X j] & Hrun & Hj & HX)
  end.
  - lia.
  - cbn [fst snd]. split.
    + now rewrite rev_bits_0.
    + rewrite (list_vec_of x zero) at 1. apply vec_of_ext. intros t Ht.
      unfold g. pose proof (rev_bits_range k t).
      destruct (Z.ltb_spec t 0), (Z.ltb_spec (rev_bits k t) 0); try lia. reflexivity.
  - intros i [X j] Hi (Hj & HX). cbn [fst snd] in *. subst j X.
    destruct k as [|k]; [cbn in HN; lia|].
    pose proof (rev_bits_range (Datatypes.S k) i) as Hri.
    pose proof (rev_bits_involutive (Datatypes.S k) i ltac:(lia)) as Hinv.
    destruct (rev_bits_next k fuel i) as (jk & Hwhile & Hjk); try lia.
    assert (Hshift : Z.shiftr N 1 = (2 ^ Z.of_nat k)%Z)
      by (rewrite HN; apply shiftr_pow2).
    rewrite Hshift.
    assert (Hstep : forall t, (0 <= t < N)%Z ->
              (if (i <? rev_bits (Datatypes.S k) i)%Z
               then (if (t =? rev_bits (Datatypes.S k) i)%Z then g i i
                     else if (t =? i)%Z then g i (rev_bits (Datatypes.S k) i)
                     else g i t)
               else g i t) = g (i + 1)%Z t).
    { intros t Ht.
      pose proof (rev_bits_range (Datatypes.S k) t) as Hrt.
      pose proof (rev_bits_involutive (Datatypes.S k) t ltac:(lia)) as Hinvt.
      assert (Hti : rev_bits (Datatypes.S k) t = i -> t = rev_bits (Datatypes.S k) i)
        by (intros E; now rewrite <- E).
      unfold g. rewrite Hinv.
      destruct (Z.ltb_spec i (rev_bits (Datatypes.S k) i)) as [Hlt|Hge].
      - destruct (Z.eqb_spec t (rev_bits (Datatypes.S k) i)) as [->|Hne].
        + rewrite Hinv. zcases.
        + destruct (Z.eqb_spec t i) as [->|Hne'].
          * zcases.
          * assert (rev_bits (Datatypes.S k) t <> i) by (intros E; auto).
            zcases.
      - destruct (Z.eq_dec t i) as [->|Hne'].
        + destruct (Z.eq_dec (rev_bits (Datatypes.S k) i) i) as [E|NE].
          * rewrite E. zcases.
          * zcases.
        + destruct (Z.eq_dec (rev_bits (Datatypes.S k) t) i) as [E|NE].
          * specialize (Hti E). subst t. rewrite Hinv. zcases.
          * zcases. }
    destruct (Z.ltb_spec i (rev_bits (Datatypes.S k) i)) as [Hlt|Hge].
    + rewrite swap_vec_of by (fold N; lia). cbn [bind]. rewrite Hwhile. cbn [bind].
      eexists. split; [reflexivity|]. cbn [fst snd]. split; [exact Hjk|].
      apply vec_of_ext. intros t Ht. apply Hstep. exact Ht.
    + cbn [bind]. rewrite Hwhile. cbn [bind].
      eexists. split; [reflexivity|]. cbn [fst snd]. split; [exact Hjk|].
      apply vec_of_ext. intros t Ht. apply Hstep. exact Ht.
  - cbv zeta in Hrun |- *. cbv [FFT.ComplexVector] in Hrun |- *. rewrite Hrun. cbn [bind fst snd] in *. rewrite HX. f_equal.
    apply vec_of_ext. intros t Ht. unfold g.
    pose proof (rev_bits_range k t) as Hrt.
    destruct (Z.eq_dec t (N - 1)) as [->|Hne].
    + rewrite HN, rev_bits_ones. zcases.
    + zcases.
Qed.

Lemma power_succ (wm : FFT.Complex) (j : Z) :
  (0 <= j)%Z ->
  power cmul wm (Z.to_nat (j + 1)) = cmul (power cmul wm (Z.to_nat j)) wm.
Proof.
  intros Hj. replace (Z.to_nat (j + 1)) with (Datatypes.S (Z.to_nat j)) by lia.
  reflexivity.
Qed.

(** The butterflies of one block: the block starts at [i] and has [2 * half]
    elements, [G] gives the elements before the pass. *)
Lemma block_pass (n : nat) (G : Z -> @FFT.Complex F) (wm : FFT.Complex) (i half : Z) :
  (0 <= i)%Z -> (1 <= half)%Z -> (i + 2 * half <= Z.of_nat n)%Z ->
  exists w,
    for_range 0 half (fun j Xw =>
      let X := fst Xw in
      let w := snd Xw in
      let idx := (i + j)%Z in
      xh <- at_ X (idx + half) ;;
      let t := cmul w xh in
      xl <- at_ X idx ;;
      X <- set_at X (idx + half) (FFT.csub xl t) ;;
      xl <- at_ X idx ;;
      X <- set_at X idx (FFT.cadd xl t) ;;
      Ok (X, cmul w wm)) (vec_of n G, FFT.cplx lit_1 lit_0)
    = Ok (vec_of n (fun t =>
                      if ((i <=? t) && (t <? i + half))%Z
                      then FFT.cadd (G t) (cmul (power cmul wm (Z.to_nat (t - i)))
                                               (G (t + half)%Z))
                      else if ((i + half <=? t) && (t <? i + 2 * half))%Z
                      then FFT.csub (G (t - half)%Z)
                                    (cmul (power cmul wm (Z.to_nat (t - half - i))) (G t))
                      else G t), w).
Proof.
  intros Hi Hhalf Hn.
  set (A := fun t : Z => FFT.cadd (G t) (cmul (power cmul wm (Z.to_nat (t - i)))
                                             (G (t + half)%Z))).
  set (B := fun t : Z => FFT.csub (G (t - half)%Z)
                                  (cmul (power cmul wm (Z.to_nat (t - half - i))) (G t))).
  match goal with |- exists _, for_range _ _ ?body ?s0 = _ =>
    destruct (for_range_inv
                (fun j Xw =>
                   snd Xw = power cmul wm (Z.to_nat j) /\
                   fst Xw = vec_of n (fun t =>
                              if ((i <=? t) && (t <? i + j))%Z then A t
                              else if ((i + half <=? t) && (t <? i + half + j))%Z then B t
                              else G t))
                body 0 half s0) as ([X w] & Hrun & Hw & HX)
  end.
  - lia.
  - cbn [fst snd]. split; [reflexivity|].
    apply vec_of_ext. intros t Ht. zcases.
  - intros j [X w] Hj (Hw & HX). cbn [fst snd] in *. subst w X. cbv zeta.
    rewrite at_vec_of by lia. cbn [bind].
    rewrite at_vec_of by lia. cbn [bind].
    rewrite set_at_vec_of by lia. cbn [bind].
    rewrite at_vec_of by lia. cbn [bind].
    rewrite set_at_vec_of by lia.
    eexists. split; [reflexivity|]. cbn [fst snd].
    split; [now rewrite power_succ by lia|].
    apply vec_of_ext. intros t Ht. subst A B. cbv beta.
    destruct (Z.eqb_spec (i + j) (i + j + half)) as [|_]; [lia|].
    destruct (Z.eqb_spec t (i + j)) as [->|Hne].
    + replace (i + j - i)%Z with j by lia. zcases.
    + destruct (Z.eqb_spec t (i + j + half)) as [->|Hne'].
      * replace (i + j + half - half)%Z with (i + j)%Z by lia.
        replace (i + j - i)%Z with j by lia. zcases.
      * zcases.
  - exists w. cbv zeta in Hrun |- *. cbv [FFT.ComplexVector] in Hrun |- *.
    rewrite Hrun. cbn [fst snd] in HX. rewrite HX. do 2 f_equal.
    apply vec_of_ext. intros t Ht. subst A B. cbv beta.
    replace (i + half + half)%Z with (i + 2 * half)%Z by lia. reflexivity.
Qed.

Lemma mod_in_block (i size t : Z) :
  (0 < size)%Z -> (size | i)%Z -> (i <= t < i + size)%Z -> (t mod size = t - i)%Z.
Proof.
  intros Hsize (q & ->) Ht.
  replace t with (t - q * size + q * size)%Z at 1 by lia.
  rewrite Z.mod_add by lia. apply Z.mod_small. lia.
Qed.

(** One pass over all the blocks. *)
Lemma stage_pass (twiddle : F -> FFT.Complex) (fuel : nat) (s n : nat) Y :
  length Y = n ->
  (Z.of_nat n <= Z.of_nat fuel)%Z ->
  (2 ^ Z.of_nat (Datatypes.S s) | Z.of_nat n)%Z ->
  let size := (2 ^ Z.of_nat (Datatypes.S s))%Z in
  for_step fuel 0 (Z.of_nat n) size (fun i X =>
    Xw <- for_range 0 (Z.shiftr size 1) (fun j Xw =>
            let X := fst Xw in
            let w := snd Xw in
            let idx := (i + j)%Z in
            xh <- at_ X (idx + Z.shiftr size 1) ;;
            let t := cmul w xh in
            xl <- at_ X idx ;;
            X <- set_at X (idx + Z.shiftr size 1) (FFT.csub xl t) ;;
            xl <- at_ X idx ;;
            X <- set_at X idx (FFT.cadd xl t) ;;
            Ok (X, cmul w (twiddle (opp lit_2 [*] M_PI [/] of_int size))))
          (X, FFT.cplx lit_1 lit_0) ;;
    Ok (fst Xw)) Y
  = Ok (stage M_PI cmul twiddle size Y).
Proof.
  intros Hn Hfuel Hdiv size. subst n.
  pose proof (pow2_pos s) as Hpos.
  assert (Hhalf : Z.shiftr size 1 = (2 ^ Z.of_nat s)%Z) by apply shiftr_pow2.
  assert (Hsize : size = (2 * 2 ^ Z.of_nat s)%Z) by apply pow2_succ.
  set (wm := twiddle (opp lit_2 [*] M_PI [/] of_int size)).
  set (new := fun t : Z =>
                let j := (t mod size)%Z in
                if (j <? Z.shiftr size 1)%Z
                then FFT.cadd (elem Y t)
                              (cmul (power cmul wm (Z.to_nat j)) (elem Y (t + Z.shiftr size 1)))
                else FFT.csub (elem Y (t - Z.shiftr size 1))
                              (cmul (power cmul wm (Z.to_nat (j - Z.shiftr size 1)))
                                    (elem Y t))).
  match goal with |- for_step _ _ _ _ ?body _ = _ =>
    destruct (for_step_inv
                (fun i X => (size | i)%Z /\ (i <= Z.of_nat (length Y))%Z /\
                            X = vec_of (length Y)
                                       (fun t => if (t <? i)%Z then new t else elem Y t))
                body (Z.of_nat (length Y)) size ltac:(lia) fuel 0%Z Y)
      as (X & i' & Hrun & Hhi & _ & Hdiv' & Hle & HX)
  end.
  - lia.
  - split; [apply Z.divide_0_r|]. split; [lia|].
    rewrite (list_vec_of Y zero) at 1. apply vec_of_ext. intros t Ht. zcases.
  - intros i X Hi (Hdi & _ & ->).
    assert (Hfit : (i + size <= Z.of_nat (length Y))%Z).
    { destruct Hdi as (a & Ha), Hdiv as (b & Hb).
      assert (Hsz : (0 < size)%Z) by lia.
      assert (Hab : (a < b)%Z) by (apply (Z.mul_lt_mono_pos_r size); lia).
      assert ((a + 1) * size <= b * size)%Z by (apply Z.mul_le_mono_nonneg_r; lia).
      lia. }
    rewrite Hhalf.
    destruct (block_pass (length Y)
                (fun t => if (t <? i)%Z then new t else elem Y t) wm i (2 ^ Z.of_nat s))
      as (w & Hblock); try lia.
    cbv zeta in Hblock |- *. subst wm. cbv [FFT.ComplexVector] in Hblock |- *.
    eexists. split; [rewrite Hblock; cbn [bind fst]; reflexivity|].
    split; [now apply Z.divide_add_r; [|apply Z.divide_refl]|]. split; [lia|].
    apply vec_of_ext. intros t Ht. subst new. cbv beta zeta. rewrite Hhalf.
    destruct (Z.ltb_spec t i) as [Hti|Hti].
    + destruct (Z.leb_spec i t); [lia|]. cbn [andb].
      destruct (Z.leb_spec (i + 2 ^ Z.of_nat s) t); [lia|]. cbn [andb].
      destruct (Z.ltb_spec t (i + size)); [reflexivity|lia].
    + destruct (Z.ltb_spec t (i + size)) as [Hts|Hts].
      * rewrite (mod_in_block i size t) by (auto; lia).
        destruct (Z.ltb_spec (t - i) (2 ^ Z.of_nat s)).
        -- destruct (Z.leb_spec i t); [|lia].
           destruct (Z.ltb_spec t (i + 2 ^ Z.of_nat s)); [|lia]. cbn [andb].
           destruct (Z.ltb_spec t i); [lia|].
           destruct (Z.ltb_spec (t + 2 ^ Z.of_nat s) i); [lia|]. reflexivity.
        -- destruct (Z.leb_spec i t); [|lia].
           destruct (Z.ltb_spec t (i + 2 ^ Z.of_nat s)); [lia|]. cbn [andb].
           destruct (Z.leb_spec (i + 2 ^ Z.of_nat s) t); [|lia].
           destruct (Z.ltb_spec t (i + 2 * 2 ^ Z.of_nat s)); [|lia]. cbn [andb].
           destruct (Z.ltb_spec t i); [lia|].
           destruct (Z.ltb_spec (t - 2 ^ Z.of_nat s) i); [lia|].
           do 3 f_equal. lia.
      * destruct (Z.leb_spec i t); [|lia].
        destruct (Z.ltb_spec t (i + 2 ^ Z.of_nat s)); [lia|]. cbn [andb].
        destruct (Z.leb_spec (i + 2 ^ Z.of_nat s) t); [|lia].
        destruct (Z.ltb_spec t (i + 2 * 2 ^ Z.of_nat s)); [lia|]. reflexivity.
  - rewrite Hrun, HX. f_equal. unfold stage. fold size. fold wm.
    apply vec_of_ext. intros t Ht. subst new. cbv beta zeta.
    destruct (Z.ltb_spec t i'); [reflexivity|lia].
Qed.

Lemma stage_length (twiddle : F -> FFT.Complex) (size : Z) Y :
  length (stage M_PI cmul twiddle size Y) = length Y.
Proof. unfold stage. now rewrite length_vec_of. Qed.

Lemma stages_length (twiddle : F -> FFT.Complex) (s : nat) Y :
  length (stages M_PI cmul twiddle s Y) = length Y.
Proof.
  induction s as [|s IH]; [reflexivity|].
  cbn [stages]. now rewrite stage_length.
Qed.

(** The passes of [fft_iterative], from the size [2 ^ (s + 1)] on. *)
Lemma stages_loop (twiddle : F -> FFT.Complex) (fuel0 k : nat) Y :
  (k <= 29)%nat -> length Y = (2 ^ k)%nat -> (2 ^ k <= fuel0)%nat ->
  forall (r s fuel : nat),
    (s + r = k)%nat -> (r <= fuel)%nat ->
    exists size',
      while_ fuel (fun Xs => (snd Xs <=? Z.of_nat (2 ^ k))%Z)
        (fun Xs =>
           let size := snd Xs in
           let half := Z.shiftr size 1 in
           let angle := opp lit_2 [*] M_PI [/] of_int size in
           let wm := twiddle angle in
           X <- for_step fuel0 0 (Z.of_nat (2 ^ k)) size (fun i X =>
                  Xw <- for_range 0 half (fun j Xw =>
                          let X := fst Xw in
                          let w := snd Xw in
                          let idx := (i + j)%Z in
                          xh <- at_ X (idx + half) ;;
                          let t := cmul w xh in
                          xl <- at_ X idx ;;
                          X <- set_at X (idx + half) (FFT.csub xl t) ;;
                          xl <- at_ X idx ;;
                          X <- set_at X idx (FFT.cadd xl t) ;;
                          Ok (X, cmul w wm)) (X, FFT.cplx lit_1 lit_0) ;;
                  Ok (fst Xw)) (fst Xs) ;;
           size <- FFT.shl_int size 1 ;;
           Ok (X, size))
        (stages M_PI cmul twiddle s Y, (2 ^ Z.of_nat (Datatypes.S s))%Z)
      = Ok (stages M_PI cmul twiddle k Y, size').
Proof.
  intros Hk29 Hlen Hfuel0.
  induction r as [|r IH]; intros s fuel Hsr Hfuel.
  - assert (s = k) by lia. subst s. eexists.
    pose proof (pow2_pos k).
    destruct fuel; cbn [while_ fst snd]; rewrite Nat2Z.inj_pow, pow2_succ;
      change (Z.of_nat 2) with 2%Z;
      (destruct (Z.leb_spec (2 * 2 ^ Z.of_nat k) (2 ^ Z.of_nat k)); [lia|reflexivity]).
  - destruct fuel as [|fuel]; [lia|].
    destruct (IH (Datatypes.S s) fuel) as (size' & Hrest); try lia.
    exists size'. cbn [while_ fst snd].
    assert (Hle : (2 ^ Z.of_nat (Datatypes.S s) <= Z.of_nat (2 ^ k))%Z).
    { rewrite Nat2Z.inj_pow. change (Z.of_nat 2) with 2%Z.
      apply Z.pow_le_mono_r; lia. }
    destruct (Z.leb_spec (2 ^ Z.of_nat (Datatypes.S s)) (Z.of_nat (2 ^ k))) as [_|]; [|lia].
    pose proof (stage_pass twiddle fuel0 s (2 ^ k)
                  (stages M_PI cmul twiddle s Y)) as Hpass.
    cbv zeta in Hpass |- *. rewrite Hpass; clear Hpass.
    + cbn [bind]. unfold FFT.shl_int. cbv zeta.
      rewrite Z.shiftl_mul_pow2 by lia. change (2 ^ 1)%Z with 2%Z.
      rewrite Z.mul_comm, <- pow2_succ.
      assert (Hfit : (2 ^ Z.of_nat (Datatypes.S (Datatypes.S s)) <= FFT.INT_MAX)%Z).
      { transitivity (2 ^ 30)%Z; [apply Z.pow_le_mono_r; lia|].
        unfold FFT.INT_MAX. lia. }
      destruct (Z.leb_spec (2 ^ Z.of_nat (Datatypes.S (Datatypes.S s))) FFT.INT_MAX);
        [|lia].
      cbn [bind]. exact Hrest.
    + now rewrite stages_length.
    + lia.
    + rewrite Nat2Z.inj_pow. change (Z.of_nat 2) with 2%Z.
      exists (2 ^ Z.of_nat r)%Z. rewrite <- Z.pow_add_r by lia. f_equal. lia.
Qed.

Lemma lt_pow2 (k : nat) : (k < 2 ^ k)%nat.
Proof. apply Nat.pow_gt_lin_r. lia. Qed.

(** [fft_iterative] and [fft_iterative_cy] on a sequence of length [2 ^ k],
    with a budget of the length. *)
Lemma butterflies_iterative (twiddle : F -> FFT.Complex) (k fuel : nat) x :
  (k <= 29)%nat -> length x = (2 ^ k)%nat -> (2 ^ k <= fuel)%nat ->
  (X <- FFT.bit_reversal fuel (Z.of_nat (length x)) x ;;
   FFT.butterflies M_PI cmul twiddle fuel (Z.of_nat (length x)) X)
  = Ok (iterative M_PI cmul twiddle k x).
Proof.
  intros Hk29 Hlen Hfuel. pose proof (lt_pow2 k) as Hk.
  rewrite (bit_reversal_spec k fuel x Hlen) by lia. cbn [bind].
  unfold FFT.butterflies, iterative. rewrite Hlen.
  destruct (stages_loop twiddle fuel k (bit_reversed k x) Hk29)
    with (r := k) (s := O) (fuel := fuel)
    as (size' & Hloop); try lia.
  { unfold bit_reversed. now rewrite length_vec_of. }
  cbn [stages] in Hloop. change (2 ^ Z.of_nat 1)%Z with 2%Z in Hloop.
  cbv [FFT.ComplexVector] in Hloop |- *. rewrite Hloop. reflexivity.
Qed.

Lemma fft_iterative_iterative (k fuel : nat) x :
  (k <= 29)%nat -> length x = (2 ^ k)%nat -> (2 ^ k <= fuel)%nat ->
  FFT.fft_iterative cos sin M_PI cmul fuel x
  = Ok (iterative M_PI cmul (polar cos sin) k x) /\
  FFT.fft_iterative_cy cos sin M_PI cmul fuel x
  = Ok (iterative M_PI cmul (FFT.cis_cy cos sin cmul) k x).
Proof.
  intros Hk29 Hlen Hfuel. unfold FFT.fft_iterative, FFT.fft_iterative_cy. cbv zeta.
  assert (Hp : FFT.not_pow2 (Z.of_nat (length x)) = false).
  { rewrite Hlen, Nat2Z.inj_pow. apply not_pow2_false. }
  rewrite Hp. split.
  - apply (butterflies_iterative (polar cos sin) k fuel x Hk29 Hlen Hfuel).
  - apply (butterflies_iterative (FFT.cis_cy cos sin cmul) k fuel x Hk29 Hlen Hfuel).
Qed.

Lemma iterative_length (twiddle : F -> FFT.Complex) (k : nat) x :
  length (iterative M_PI cmul twiddle k x) = length x.
Proof.
  unfold iterative, bit_reversed. now rewrite stages_length, length_vec_of.
Qed.

End IterativeFacts.

(** *** The iterative transform and the recursive one *)

Lemma vec_of_app {T : Type} (n1 n2 : nat) (f : Z -> T) :
  vec_of (n1 + n2) f = vec_of n1 f ++ vec_of n2 (fun t => f (t + Z.of_nat n1)%Z).
Proof.
  induction n2 as [|n2 IH].
  - rewrite Nat.add_0_r. cbn. now rewrite app_nil_r.
  - rewrite Nat.add_succ_r, !vec_of_snoc, IH, app_assoc. do 2 f_equal. f_equal. lia.
Qed.

Section BlockFacts.

Context {F : Type} `{Scalar F}.
Variable M_PI : F.
Variable cmul : @FFT.Complex F -> @FFT.Complex F -> @FFT.Complex F.

Import FFTSpec.

Implicit Types x X Y E O : @FFT.ComplexVector F.

Lemma elem_app_l Y1 Y2 (t : Z) :
  (0 <= t < Z.of_nat (length Y1))%Z -> elem (Y1 ++ Y2) t = elem Y1 t.
Proof. intros Ht. unfold elem. apply app_nth1. lia. Qed.

Lemma elem_app_r Y1 Y2 (t : Z) :
  (Z.of_nat (length Y1) <= t)%Z ->
  elem (Y1 ++ Y2) t = elem Y2 (t - Z.of_nat (length Y1)).
Proof.
  intros Ht. unfold elem. rewrite app_nth2 by lia. f_equal. lia.
Qed.

Lemma elem_vec (n : nat) (f : Z -> @FFT.Complex F) (i : Z) :
  (0 <= i < Z.of_nat n)%Z -> elem (vec_of n f) i = f i.
Proof.
  intros Hi. unfold elem. apply nth_error_nth.
  rewrite nth_error_vec_of by lia. now rewrite Z2Nat.id by lia.
Qed.

(** The bit reversal of a sequence is that of its even half followed by
    that of its odd half. *)
Lemma bit_reversed_halves (k : nat) x :
  length x = (2 ^ Datatypes.S k)%nat ->
  bit_reversed (Datatypes.S k) x
  = bit_reversed k (even_half x) ++ bit_reversed k (odd_half x).
Proof.
  intros Hlen. destruct (halves_pow2 x k Hlen) as (Hle & Hlo).
  pose proof (pow2_pos k) as Hpos.
  assert (HP : Z.of_nat (2 ^ k) = (2 ^ Z.of_nat k)%Z) by now rewrite Nat2Z.inj_pow.
  assert (Hhalf : (length x / 2 = 2 ^ k)%nat).
  { rewrite Hlen. cbn [Nat.pow]. rewrite Nat.mul_comm, Nat.div_mul; lia. }
  unfold bit_reversed. rewrite Hle, Hlo, Hlen.
  replace (2 ^ Datatypes.S k)%nat with (2 ^ k + 2 ^ k)%nat by (cbn [Nat.pow]; lia).
  rewrite vec_of_app. f_equal; apply vec_of_ext; intros t Ht.
  - rewrite rev_bits_high by (rewrite pow2_succ; lia).
    rewrite Z.mod_small, Z.div_small by lia.
    pose proof (rev_bits_range k t) as Hr.
    unfold even_half. rewrite Hhalf, elem_vec by lia. f_equal. lia.
  - rewrite rev_bits_high by (rewrite pow2_succ; lia).
    rewrite HP.
    replace ((t + 2 ^ Z.of_nat k) mod 2 ^ Z.of_nat k)%Z with t.
    2:{ replace (t + 2 ^ Z.of_nat k)%Z with (t + 1 * 2 ^ Z.of_nat k)%Z by lia.
        rewrite Z.mod_add by lia. symmetry. apply Z.mod_small. lia. }
    replace ((t + 2 ^ Z.of_nat k) / 2 ^ Z.of_nat k)%Z with 1%Z.
    2:{ replace (t + 2 ^ Z.of_nat k)%Z with (t + 1 * 2 ^ Z.of_nat k)%Z by lia.
        rewrite Z.div_add by lia. rewrite Z.div_small by lia. reflexivity. }
    pose proof (rev_bits_range k t) as Hr.
    unfold odd_half. rewrite Hhalf, elem_vec by lia. reflexivity.
Qed.

(** A pass acts on each block by itself. *)
Lemma stage_app (twiddle : F -> FFT.Complex) (s : nat) Y1 Y2 :
  (2 ^ Z.of_nat (Datatypes.S s) | Z.of_nat (length Y1))%Z ->
  stage M_PI cmul twiddle (2 ^ Z.of_nat (Datatypes.S s)) (Y1 ++ Y2)
  = stage M_PI cmul twiddle (2 ^ Z.of_nat (Datatypes.S s)) Y1
    ++ stage M_PI cmul twiddle (2 ^ Z.of_nat (Datatypes.S s)) Y2.
Proof.
  intros (b & Hb). unfold stage. cbv zeta.
  rewrite shiftr_pow2, pow2_succ in *. pose proof (pow2_pos s) as Hpos.
  set (half := (2 ^ Z.of_nat s)%Z) in *.
  rewrite length_app, vec_of_app. f_equal; apply vec_of_ext; intros t Ht.
  - pose proof (Z.div_mod t (2 * half) ltac:(lia)) as Hd.
    pose proof (Z.mod_pos_bound t (2 * half) ltac:(lia)) as Hm.
    assert (Hq0 : (0 <= t / (2 * half))%Z) by (apply Z.div_pos; lia).
    set (q := (t / (2 * half))%Z) in *. set (j := (t mod (2 * half))%Z) in *.
    assert (Hq : (q < b)%Z) by nia.
    assert (Hfit : (2 * half * q + 2 * half <= Z.of_nat (length Y1))%Z) by nia.
    clearbody q j half.
    destruct (Z.ltb_spec j half).
    + now rewrite !elem_app_l by lia.
    + assert (half <= t)%Z by nia.
      now rewrite !elem_app_l by lia.
  - replace ((t + Z.of_nat (length Y1)) mod (2 * half))%Z with (t mod (2 * half))%Z
      by (rewrite Hb, Z.mod_add by lia; reflexivity).
    pose proof (Z.div_mod t (2 * half) ltac:(lia)) as Hd.
    pose proof (Z.mod_pos_bound t (2 * half) ltac:(lia)) as Hm.
    assert (Hq : (0 <= t / (2 * half))%Z) by (apply Z.div_pos; lia).
    set (q := (t / (2 * half))%Z) in *. set (j := (t mod (2 * half))%Z) in *.
    clearbody q j half.
    destruct (Z.ltb_spec j half).
    + rewrite !elem_app_r by lia.
      replace (t + Z.of_nat (length Y1) - Z.of_nat (length Y1))%Z with t by lia.
      replace (t + Z.of_nat (length Y1) + half - Z.of_nat (length Y1))%Z
        with (t + half)%Z by lia.
      reflexivity.
    + assert (half <= t)%Z by nia.
      rewrite !elem_app_r by lia.
      replace (t + Z.of_nat (length Y1) - Z.of_nat (length Y1))%Z with t by lia.
      replace (t + Z.of_nat (length Y1) - half - Z.of_nat (length Y1))%Z
        with (t - half)%Z by lia.
      reflexivity.
Qed.

Lemma stages_app (twiddle : F -> FFT.Complex) (k : nat) Y1 Y2 :
  length Y1 = (2 ^ k)%nat ->
  forall s : nat, (s <= k)%nat ->
    stages M_PI cmul twiddle s (Y1 ++ Y2)
    = stages M_PI cmul twiddle s Y1 ++ stages M_PI cmul twiddle s Y2.
Proof.
  intros Hlen. induction s as [|s IH]; intros Hs; [reflexivity|].
  cbn [stages]. rewrite IH by lia. apply stage_app.
  rewrite stages_length, Hlen, Nat2Z.inj_pow. change (Z.of_nat 2) with 2%Z.
  exists (2 ^ Z.of_nat (k - Datatypes.S s))%Z.
  rewrite <- Z.pow_add_r by lia. f_equal. lia.
Qed.

(** The last pass is the butterfly of the recursion, when the powers of
    [wm] are the factors [w]. *)
Lemma stage_butterfly (twiddle : F -> FFT.Complex) (w : Z -> FFT.Complex) (k : nat) E O :
  length E = (2 ^ k)%nat -> length O = (2 ^ k)%nat ->
  (forall j, (0 <= j < 2 ^ Z.of_nat k)%Z ->
     power cmul (twiddle (opp lit_2 [*] M_PI [/] of_int (2 ^ Z.of_nat (Datatypes.S k))))
           (Z.to_nat j) = w j) ->
  stage M_PI cmul twiddle (2 ^ Z.of_nat (Datatypes.S k)) (E ++ O) = butterfly cmul w E O.
Proof.
  intros HE HO Hw. unfold stage, butterfly. cbv zeta.
  rewrite shiftr_pow2. pose proof (pow2_pos k) as Hpos.
  assert (HP : Z.of_nat (2 ^ k) = (2 ^ Z.of_nat k)%Z) by now rewrite Nat2Z.inj_pow.
  rewrite length_app, HE, HO.
  replace (2 ^ k + 2 ^ k)%nat with (2 * 2 ^ k)%nat by lia.
  apply vec_of_ext. intros t Ht. rewrite HP.
  rewrite Z.mod_small by (rewrite pow2_succ; lia).
  destruct (Z.ltb_spec t (2 ^ Z.of_nat k)).
  - rewrite elem_app_l, elem_app_r, Hw by lia. rewrite HE, HP.
    replace (t + 2 ^ Z.of_nat k - 2 ^ Z.of_nat k)%Z with t by lia. reflexivity.
  - rewrite elem_app_l, elem_app_r, Hw by lia. rewrite HE, HP. reflexivity.
Qed.

Lemma stages_ext (tw tw' : F -> FFT.Complex) (s : nat) Y :
  (forall a, tw a = tw' a) ->
  stages M_PI cmul tw s Y = stages M_PI cmul tw' s Y.
Proof.
  intros Htw. induction s as [|s IH]; [reflexivity|].
  cbn [stages]. rewrite IH. unfold stage. now rewrite Htw.
Qed.

Lemma recursive_ext (w w' : Z -> Z -> FFT.Complex) (k : nat) :
  (forall N j, w N j = w' N j) ->
  forall x, recursive cmul w k x = recursive cmul w' k x.
Proof.
  intros Hw. induction k as [|k IH]; intros x; [reflexivity|].
  cbn [recursive]. rewrite !IH. unfold butterfly.
  apply vec_of_ext. intros j Hj. now rewrite !Hw.
Qed.

(** The iterative transform is the recursive one, when the powers of each
    pass are the factors of the recursion. *)
Lemma iterative_recursive (twiddle : F -> FFT.Complex) (k : nat) :
  (forall (s : nat) j, (0 <= j < 2 ^ Z.of_nat s)%Z ->
     power cmul (twiddle (opp lit_2 [*] M_PI [/] of_int (2 ^ Z.of_nat (Datatypes.S s))))
           (Z.to_nat j)
     = factor M_PI twiddle (2 ^ Z.of_nat (Datatypes.S s)) j) ->
  forall x, length x = (2 ^ k)%nat ->
    iterative M_PI cmul twiddle k x = recursive cmul (factor M_PI twiddle) k x.
Proof.
  intros Hpow. induction k as [|k IH]; intros x Hlen.
  - destruct x as [|a [|b x]]; try discriminate. reflexivity.
  - destruct (halves_pow2 x k Hlen) as (Hle & Hlo).
    unfold iterative. cbn [stages recursive].
    rewrite bit_reversed_halves by exact Hlen.
    rewrite (stages_app twiddle k) by (unfold bit_reversed; rewrite ?length_vec_of; auto).
    fold (iterative M_PI cmul twiddle k (even_half x)).
    fold (iterative M_PI cmul twiddle k (odd_half x)).
    rewrite !IH by assumption.
    rewrite Hlen, Nat2Z.inj_pow. change (Z.of_nat 2) with 2%Z.
    apply stage_butterfly.
    + now apply recursive_length.
    + now apply recursive_length.
    + apply Hpow.
Qed.

End BlockFacts.

Section FourierIterative.

Import FFTSpec Fourier.
Local Open Scope R_scope.

#[local] Abbreviation cmul_R := Samples.cmul_R.

Implicit Types x : FFT.ComplexVector (F := R).

Lemma power_cis (a : R) (n : nat) : power cmul_R (cis a) n = cis (INR n * a).
Proof.
  induction n as [|n IH].
  - cbn [power INR]. rewrite (cis_ext (0 * a) 0) by ring.
    unfold cis. now rewrite cos_0, sin_0.
  - cbn [power]. rewrite IH, <- cis_plus. apply cis_ext. rewrite S_INR. ring.
Qed.

Lemma polar_cis (a : R) : polar Rtrigo_def.cos Rtrigo_def.sin a = cis a.
Proof. reflexivity. Qed.

Lemma cis_cy_cis (a : R) : FFT.cis_cy Rtrigo_def.cos Rtrigo_def.sin cmul_R a = cis a.
Proof.
  unfold FFT.cis_cy. apply complex_eq;
    unfold FFT.cadd, Samples.cmul_R, cis;
    cbn [FFT.re FFT.im add sub mul lit_0 lit_1 Scalar_R]; ring.
Qed.

Lemma powers_factors (s : nat) (j : Z) :
  (0 <= j < 2 ^ Z.of_nat s)%Z ->
  power cmul_R
        (polar Rtrigo_def.cos Rtrigo_def.sin
               (opp lit_2 [*] PI [/] of_int (2 ^ Z.of_nat (Datatypes.S s))))
        (Z.to_nat j)
  = factor PI (polar Rtrigo_def.cos Rtrigo_def.sin) (2 ^ Z.of_nat (Datatypes.S s)) j.
Proof.
  intros Hj. unfold factor. rewrite !polar_cis, power_cis. apply cis_ext.
  rewrite INR_IZR_INZ, Z2Nat.id by lia.
  cbn [opp lit_2 mul div of_int Scalar_R]. unfold Rdiv. ring.
Qed.

Lemma iterative_transform (k : nat) x :
  length x = (2 ^ k)%nat ->
  iterative PI cmul_R (polar Rtrigo_def.cos Rtrigo_def.sin) k x = transform x /\
  iterative PI cmul_R (FFT.cis_cy Rtrigo_def.cos Rtrigo_def.sin cmul_R) k x = transform x.
Proof.
  intros Hlen.
  assert (Hit : iterative PI cmul_R (polar Rtrigo_def.cos Rtrigo_def.sin) k x
                = transform x).
  { rewrite (iterative_recursive PI cmul_R _ k powers_factors x Hlen).
    now apply recursive_transform. }
  split; [exact Hit|].
  rewrite <- Hit. unfold iterative. apply stages_ext. intros a.
  rewrite cis_cy_cis. reflexivity.
Qed.

Lemma recursive_cy_transform (k : nat) x :
  length x = (2 ^ k)%nat ->
  recursive cmul_R (factor PI (FFT.cis_cy Rtrigo_def.cos Rtrigo_def.sin cmul_R)) k x
  = transform x.
Proof.
  intros Hlen. rewrite <- (recursive_transform k x Hlen).
  apply recursive_ext. intros N j. unfold factor.
  rewrite cis_cy_cis. reflexivity.
Qed.

End FourierIterative.

(** X20. The fast transforms on a power of two, whatever the scalars are: with a
    budget of the length, [fft_cooley_tukey] and [fft_cooley_tukey_cy] read
    no element out of range, finish, and return a sequence of the input's
    length; so do [fft_iterative] and [fft_iterative_cy] on a length up to
    [2 ^ 29], the lengths for which [size <<= 1] stays an [int] until the
    pass loop ends. *)
Theorem fft_power_of_two_returns (F : Type) (SF : Scalar F) (cos sin : F -> F) (M_PI : F)
        (cmul : FFT.Complex -> FFT.Complex -> FFT.Complex)
        (k fuel : nat) (x : FFT.ComplexVector) :
  length x = (2 ^ k)%nat -> (2 ^ k <= fuel)%nat ->
  (exists X1 X3,
     FFT.fft_cooley_tukey cos sin M_PI cmul fuel x = Ok X1 /\
     FFT.fft_cooley_tukey_cy cos sin M_PI cmul fuel x = Ok X3 /\
     length X1 = length x /\ length X3 = length x) /\
  ((k <= 29)%nat ->
   exists X2 X4,
     FFT.fft_iterative cos sin M_PI cmul fuel x = Ok X2 /\
     FFT.fft_iterative_cy cos sin M_PI cmul fuel x = Ok X4 /\
     length X2 = length x /\ length X4 = length x).
Proof.
  intros Hlen Hfuel. pose proof (lt_pow2 k) as Hk. split.
  - do 2 eexists.
    split; [apply (fft_cooley_tukey_recursive cos sin M_PI cmul k fuel x Hlen); lia|].
    split; [apply (fft_cooley_tukey_cy_recursive cos sin M_PI cmul k fuel x Hlen); lia|].
    rewrite !recursive_length by exact Hlen.
    rewrite Hlen. split; reflexivity.
  - intros Hk29.
    destruct (fft_iterative_iterative cos sin M_PI cmul k fuel x Hk29 Hlen Hfuel)
      as (H2 & H4).
    do 2 eexists.
    split; [exact H2|]. split; [exact H4|].
    rewrite !iterative_length. split; reflexivity.
Qed.

Lemma fft_power_of_two_returns_witness :
  (exists X1 X3,
     FFT.fft_cooley_tukey Rtrigo_def.cos Rtrigo_def.sin PI Samples.cmul_R 4
       [FFT.cplx 1%R 0%R; FFT.cplx 2%R 0%R; FFT.cplx 3%R 0%R; FFT.cplx 4%R 0%R] = Ok X1 /\
     FFT.fft_cooley_tukey_cy Rtrigo_def.cos Rtrigo_def.sin PI Samples.cmul_R 4
       [FFT.cplx 1%R 0%R; FFT.cplx 2%R 0%R; FFT.cplx 3%R 0%R; FFT.cplx 4%R 0%R] = Ok X3 /\
     length X1 = 4%nat /\ length X3 = 4%nat) /\
  (exists X2 X4,
     FFT.fft_iterative Rtrigo_def.cos Rtrigo_def.sin PI Samples.cmul_R 4
       [FFT.cplx 1%R 0%R; FFT.cplx 2%R 0%R; FFT.cplx 3%R 0%R; FFT.cplx 4%R 0%R] = Ok X2 /\
     FFT.fft_iterative_cy Rtrigo_def.cos Rtrigo_def.sin PI Samples.cmul_R 4
       [FFT.cplx 1%R 0%R; FFT.cplx 2%R 0%R; FFT.cplx 3%R 0%R; FFT.cplx 4%R 0%R] = Ok X4 /\
     length X2 = 4%nat /\ length X4 = 4%nat).
Proof.
  destruct (fft_power_of_two_returns R Scalar_R Rtrigo_def.cos Rtrigo_def.sin PI
              Samples.cmul_R 2 4
              [FFT.cplx 1%R 0%R; FFT.cplx 2%R 0%R; FFT.cplx 3%R 0%R; FFT.cplx 4%R 0%R])
    as (Hrec & Hit).
  - reflexivity.
  - cbn. lia.
  - split; [exact Hrec|]. apply Hit. lia.
Defined.

(** X21. The naive transforms, in exact real arithmetic: for every sequence [x],
    the empty one included, [dft_naive] and [dft_naive_cy] return the
    discrete Fourier transform of [x], the sequence of the sums of
    [x[n] e^(- 2 pi i k n / N)] over [n]. *)
Theorem dft_naive_transforms (x : FFT.ComplexVector (F := R)) :
  FFT.dft_naive Rtrigo_def.cos Rtrigo_def.sin PI Samples.cmul_R x
  = Ok (Fourier.transform x) /\
  FFT.dft_naive_cy Rtrigo_def.cos Rtrigo_def.sin PI Samples.cmul_R x
  = Ok (Fourier.transform x).
Proof.
  split; [apply dft_naive_transform|apply dft_naive_cy_transform].
Qed.

(** X22. The recursive fast transforms, in exact real arithmetic: on a sequence
    whose length is a power of two, with a budget above the exponent,
    [fft_cooley_tukey] and [fft_cooley_tukey_cy] return the discrete Fourier
    transform of the sequence, which is what [dft_naive] returns. *)
Theorem fft_cooley_tukey_transforms (k fuel : nat) (x : FFT.ComplexVector (F := R)) :
  length x = (2 ^ k)%nat -> (k < fuel)%nat ->
  FFT.fft_cooley_tukey Rtrigo_def.cos Rtrigo_def.sin PI Samples.cmul_R fuel x
  = Ok (Fourier.transform x) /\
  FFT.fft_cooley_tukey_cy Rtrigo_def.cos Rtrigo_def.sin PI Samples.cmul_R fuel x
  = Ok (Fourier.transform x) /\
  FFT.dft_naive Rtrigo_def.cos Rtrigo_def.sin PI Samples.cmul_R x
  = Ok (Fourier.transform x).
Proof.
  intros Hlen Hfuel. split; [|split].
  - rewrite (fft_cooley_tukey_recursive _ _ _ _ k fuel x Hlen Hfuel).
    f_equal. now apply recursive_transform.
  - rewrite (fft_cooley_tukey_cy_recursive _ _ _ _ k fuel x Hlen Hfuel).
    f_equal. now apply recursive_cy_transform.
  - apply dft_naive_transform.
Qed.

Lemma fft_cooley_tukey_transforms_witness :
  FFT.fft_cooley_tukey Rtrigo_def.cos Rtrigo_def.sin PI Samples.cmul_R 2
                       [FFT.cplx 1%R 0%R; FFT.cplx 2%R 0%R]
  = Ok (Fourier.transform [FFT.cplx 1%R 0%R; FFT.cplx 2%R 0%R]) /\
  FFT.fft_cooley_tukey_cy Rtrigo_def.cos Rtrigo_def.sin PI Samples.cmul_R 2
                          [FFT.cplx 1%R 0%R; FFT.cplx 2%R 0%R]
  = Ok (Fourier.transform [FFT.cplx 1%R 0%R; FFT.cplx 2%R 0%R]) /\
  FFT.dft_naive Rtrigo_def.cos Rtrigo_def.sin PI Samples.cmul_R
                [FFT.cplx 1%R 0%R; FFT.cplx 2%R 0%R]
  = Ok (Fourier.transform [FFT.cplx 1%R 0%R; FFT.cplx 2%R 0%R]).
Proof.
  apply (fft_cooley_tukey_transforms 1 2 [FFT.cplx 1%R 0%R; FFT.cplx 2%R 0%R]).
  - reflexivity.
  - lia.
Defined.

(** X23. The iterative fast transforms, in exact real arithmetic: on a sequence
    whose length is a power of two up to [2 ^ 29] (beyond, [size <<= 1]
    leaves the [int] range before the pass loop ends), with a budget of the
    length, [fft_iterative] and [fft_iterative_cy] (bit reversal, then the
    passes of butterflies with the factors obtained by repeated
    multiplication) return the discrete Fourier transform of the sequence. *)
Theorem fft_iterative_transforms (k fuel : nat) (x : FFT.ComplexVector (F := R)) :
  (k <= 29)%nat -> length x = (2 ^ k)%nat -> (2 ^ k <= fuel)%nat ->
  FFT.fft_iterative Rtrigo_def.cos Rtrigo_def.sin PI Samples.cmul_R fuel x
  = Ok (Fourier.transform x) /\
  FFT.fft_iterative_cy Rtrigo_def.cos Rtrigo_def.sin PI Samples.cmul_R fuel x
  = Ok (Fourier.transform x).
Proof.
  intros Hk29 Hlen Hfuel.
  destruct (fft_iterative_iterative Rtrigo_def.cos Rtrigo_def.sin PI Samples.cmul_R
              k fuel x Hk29 Hlen Hfuel) as (H1 & H2).
  destruct (iterative_transform k x Hlen) as (E1 & E2).
  rewrite H1, H2, E1, E2. split; reflexivity.
Qed.

Lemma fft_iterative_transforms_witness :
  FFT.fft_iterative Rtrigo_def.cos Rtrigo_def.sin PI Samples.cmul_R 2
                    [FFT.cplx 1%R 0%R; FFT.cplx 2%R 0%R]
  = Ok (Fourier.transform [FFT.cplx 1%R 0%R; FFT.cplx 2%R 0%R]) /\
  FFT.fft_iterative_cy Rtrigo_def.cos Rtrigo_def.sin PI Samples.cmul_R 2
                       [FFT.cplx 1%R 0%R; FFT.cplx 2%R 0%R]
  = Ok (Fourier.transform [FFT.cplx 1%R 0%R; FFT.cplx 2%R 0%R]).
Proof.
  apply (fft_iterative_transforms 1 2 [FFT.cplx 1%R 0%R; FFT.cplx 2%R 0%R]).
  - lia.
  - reflexivity.
  - cbn. lia.
Defined.

(** ** Sieve of Eratosthenes *)

Lemma int_ok (z : Z) :
  (Sieve.INT_MIN <= z <= Sieve.INT_MAX)%Z -> Sieve.int_ z = Ok z.
Proof.
  intros Hz. unfold Sieve.int_.
  destruct (Z.leb_spec Sieve.INT_MIN z), (Z.leb_spec z Sieve.INT_MAX); try lia.
  reflexivity.
Qed.

Section SieveFacts.

Import Sieve.

Variable limit : Z.
Hypothesis limit_fits : (limit + 46340 <= INT_MAX)%Z.

(** The inner loop strikes the multiples of [p] from [multiple] on. *)
Lemma mark_multiples_spec (p : Z) (n : nat) :
  (1 <= p <= 46340)%Z ->
  forall (fuel : nat) (multiple : Z) (f : Z -> Z),
    (0 <= multiple)%Z -> (multiple mod p = 0)%Z ->
    Z.of_nat n = (limit + 1)%Z ->
    (limit + 1 - multiple <= Z.of_nat fuel)%Z ->
    mark_multiples fuel limit p multiple (vec_of n f)
    = Ok (vec_of n (fun t => if ((multiple <=? t) && (t mod p =? 0))%Z then 0%Z
                             else f t)).
Proof.
  intros Hp. induction fuel as [|fuel IH]; intros multiple f Hm Hdiv Hn Hfuel.
  - cbn [mark_multiples]. destruct (Z.leb_spec multiple limit); [lia|].
    f_equal. apply vec_of_ext. intros t Ht. zcases.
  - cbn [mark_multiples]. destruct (Z.leb_spec multiple limit) as [Hle|Hgt].
    + rewrite set_at_vec_of by lia. cbn [bind].
      rewrite int_ok by (unfold INT_MIN; lia). cbn [bind].
      rewrite IH; try lia.
      * f_equal. apply vec_of_ext. intros t Ht.
        destruct (Z.eqb_spec t multiple) as [->|Hne].
        -- rewrite Hdiv. zcases.
        -- destruct (Z.leb_spec (multiple + p) t) as [H1|H1];
             destruct (Z.leb_spec multiple t) as [H2|H2]; try lia; cbn [andb];
               try reflexivity.
           destruct (Z.eqb_spec (t mod p) 0) as [E|_]; [|reflexivity].
           exfalso.
           assert (Hd : ((t - multiple) mod p = 0)%Z).
           { rewrite Zminus_mod, E, Hdiv. reflexivity. }
           apply Z.mod_divide in Hd; [|lia]. destruct Hd as (c & Hc).
           assert (c <= 0 \/ 1 <= c)%Z as [Hc0|Hc1] by lia; nia.
      * rewrite Z.add_mod, Hdiv, Z.mod_same by lia. reflexivity.
    + f_equal. apply vec_of_ext. intros t Ht. zcases.
Qed.

Lemma struck_next (p t : Z) :
  (2 <= p)%Z -> struck p p -> struck (p + 1) t -> struck p t.
Proof.
  intros Hp [Hp2|(d' & m' & Hd' & Hdm' & Ep)] [Ht|(d & m & Hd & Hdm & Et)]; try lia.
  - now left.
  - right. destruct (Z.eq_dec d p) as [->|Hne].
    + exists d', (m' * m)%Z. split; [lia|]. split; [nia|]. rewrite Et, Ep at 1. ring.
    + exists d, m. repeat split; lia.
Qed.

Lemma struck_mono (p t : Z) : struck p t -> struck (p + 1) t.
Proof.
  intros [Ht|(d & m & Hd & Hdm & Et)]; [now left|].
  right. exists d, m. repeat split; lia.
Qed.

(** Past the square root of [t], the numbers struck are those that are not
    prime. *)
Lemma struck_not_prime (p t : Z) :
  (0 <= p)%Z -> (t < p * p)%Z -> (struck p t <-> ~ Z.prime t).
Proof.
  intros Hp Ht. split.
  - intros [Hlt|(d & m & Hd & Hdm & Et)] (Hgt & Hno).
    + lia.
    + apply (Hno d); [nia|]. exists m. lia.
  - intros Hnp. destruct (Z_lt_le_dec t 2) as [Hlt|Hge]; [now left|]. right.
    destruct (Znumtheory.not_prime_divide t ltac:(lia)) as (d & Hd & (c & Hc)).
    { intros Hprime. apply Hnp. now apply Znumtheory.prime_alt. }
    assert (Hc1 : (1 < c < t)%Z) by nia.
    destruct (Z_le_gt_dec d c) as [Hdc|Hdc].
    + exists d, c. split; [nia|]. split; [lia|lia].
    + exists c, d. split; [nia|]. split; [lia|lia].
Qed.

Lemma sift_spec (n : nat) (budget : nat) :
  (limit < 2147395600)%Z ->
  Z.of_nat n = (limit + 1)%Z -> (limit + 1 <= Z.of_nat budget)%Z ->
  forall (fuel : nat) (p : Z) (f : Z -> Z),
    (2 <= p)%Z -> ((p - 1) * (p - 1) <= limit)%Z ->
    (limit + 1 - p <= Z.of_nat fuel)%Z ->
    (forall t, (0 <= t <= limit)%Z -> (f t = 0%Z <-> struck p t)) ->
    exists f',
      sift fuel budget limit p (vec_of n f) = Ok (vec_of n f') /\
      forall t, (0 <= t <= limit)%Z -> (f' t = 0%Z <-> ~ Z.prime t).
Proof.
  intros Hsmall Hn Hbudget.
  induction fuel as [|fuel IH]; intros p f Hp Hprev Hfuel Hinv.
  - assert (Hp46 : (p <= 46340)%Z) by nia.
    cbn [sift]. rewrite int_ok by (unfold INT_MIN, INT_MAX; nia). cbn [bind].
    destruct (Z.leb_spec (p * p) limit) as [Hle|Hgt]; [nia|].
    exists f. split; [reflexivity|].
    intros t Ht. rewrite Hinv by exact Ht. apply struck_not_prime; lia.
  - assert (Hp46 : (p <= 46340)%Z) by nia.
    cbn [sift]. rewrite int_ok by (unfold INT_MIN, INT_MAX; nia). cbn [bind].
    destruct (Z.leb_spec (p * p) limit) as [Hle|Hgt].
    + assert (Hpl : (p <= limit)%Z) by nia.
      rewrite at_vec_of by lia. cbn [bind].
      destruct (Z.eqb_spec (f p) 0) as [Hflag|Hflag].
      * cbn [bind]. rewrite int_ok by (unfold INT_MIN, INT_MAX; lia). cbn [bind].
        apply IH; try lia.
        intros t Ht. rewrite Hinv by exact Ht. split; [apply struck_mono|].
        apply struck_next; [lia|]. apply Hinv; [lia|exact Hflag].
      * rewrite !int_ok by (unfold INT_MIN, INT_MAX; nia). cbn [bind].
        rewrite (mark_multiples_spec p n) by (try lia; try nia; apply Z.mod_mul; lia).
        cbn [bind].
        apply IH; try lia.
        { intros t Ht.
           destruct (Z.leb_spec (p * p) t) as [Hsq|Hsq]; cbn [andb].
           ++ destruct (Z.eqb_spec (t mod p) 0) as [Hmod|Hmod].
              ** split; [intros _|reflexivity].
                 apply Z.mod_divide in Hmod; [|lia]. destruct Hmod as (c & Hc).
                 right. exists p, c. split; [lia|]. split; [nia|lia].
              ** rewrite Hinv by exact Ht. split; [apply struck_mono|].
                 intros [Hlt|(d & m & Hd & Hdm & Et)]; [now left|].
                 destruct (Z.eq_dec d p) as [->|Hne].
                 --- exfalso. apply Hmod. rewrite Et, Z.mul_comm. apply Z.mod_mul. lia.
                 --- right. exists d, m. repeat split; lia.
           ++ rewrite Hinv by exact Ht. split; [apply struck_mono|].
              intros [Hlt|(d & m & Hd & Hdm & Et)]; [now left|].
              destruct (Z.eq_dec d p) as [->|Hne]; [nia|].
              right. exists d, m. repeat split; lia. }
    + exists f. split; [reflexivity|].
      intros t Ht. rewrite Hinv by exact Ht. apply struck_not_prime; lia.
Qed.

End SieveFacts.

(** A loop that appends the indices that pass a test. *)
Lemma collect_loop (body : Z -> list Z -> res (list Z)) (test : Z -> bool) (lo hi : Z) :
  (forall i l, (lo <= i < hi)%Z -> body i l = Ok (if test i then l ++ [i] else l)) ->
  for_range lo hi body [] = Ok (filter test (zrange lo hi)).
Proof.
  intros Hbody.
  rewrite (for_range_fold body (fun l i => if test i then l ++ [i] else l)) by exact Hbody.
  f_equal.
  assert (Hfold : forall l acc,
             fold_left (fun l i => if test i then l ++ [i] else l) l acc
             = acc ++ filter test l).
  { induction l as [|i l IH]; intros acc; cbn [fold_left filter].
    - now rewrite app_nil_r.
    - rewrite IH. destruct (test i); [|reflexivity].
      now rewrite <- app_assoc. }
  apply Hfold.
Qed.

Lemma zrange_sorted (lo hi : Z) : StronglySorted Z.lt (zrange lo hi).
Proof.
  remember (Z.to_nat (hi - lo)) as d eqn:Hd. revert lo Hd.
  induction d as [|d IH]; intros lo Hd.
  - rewrite zrange_empty by lia. constructor.
  - rewrite zrange_cons by lia. constructor; [apply IH; lia|].
    apply Forall_forall. intros t Ht. apply In_zrange in Ht. lia.
Qed.

Lemma filter_sorted (test : Z -> bool) (l : list Z) :
  StronglySorted Z.lt l -> StronglySorted Z.lt (filter test l).
Proof.
  induction 1 as [|a l Hs IH Ha]; cbn [filter]; [constructor|].
  destruct (test a); [|exact IH]. constructor; [exact IH|].
  apply Forall_forall. intros t Ht. apply filter_In in Ht.
  rewrite Forall_forall in Ha. apply Ha. tauto.
Qed.

(** X24. The sieve returns the primes up to [limit], in increasing order: for
    every [int] [limit] below [46340 * 46340], beyond which the square of a
    candidate does not fit an [int], and a budget above [limit]. *)
Theorem sieve_of_eratosthenes_primes (fuel : nat) (limit : Z) :
  (Sieve.INT_MIN <= limit < 46340 * 46340)%Z -> (limit < Z.of_nat fuel)%Z ->
  exists primes,
    Sieve.sieve_of_eratosthenes fuel limit = Ok primes /\
    (forall n, In n primes <-> Z.prime n /\ (n <= limit)%Z) /\
    StronglySorted Z.lt primes.
Proof.
  intros Hsmall Hfuel. unfold Sieve.sieve_of_eratosthenes.
  destruct (Z.ltb_spec limit 2) as [Hlt|Hge].
  - exists []. split; [reflexivity|]. split; [|constructor].
    intros n. split; [intros []|]. intros (Hp & Hn). apply Z.prime_ge_2 in Hp. lia.
  - cbv zeta. rewrite int_ok by (unfold Sieve.INT_MIN, Sieve.INT_MAX; lia). cbn [bind].
    rewrite repeat_vec_of, !set_at_vec_of by lia. cbn [bind].
    rewrite set_at_vec_of by lia. cbn [bind].
    destruct (sift_spec limit ltac:(unfold Sieve.INT_MAX; lia)
                (Z.to_nat (limit + 1)) fuel ltac:(lia) ltac:(lia) ltac:(lia) fuel 2%Z
                (fun k => if (k =? 1)%Z then 0%Z else if (k =? 0)%Z then 0%Z else 1%Z))
      as (f' & Hsift & Hf'); try lia.
    { intros t Ht. unfold Sieve.struck. split.
      - intros E. left. destruct (Z.eqb_spec t 1), (Z.eqb_spec t 0); lia.
      - intros [Hlt|(d & m & Hd & _)]; [|lia].
        destruct (Z.eqb_spec t 1), (Z.eqb_spec t 0); lia. }
    rewrite Hsift. cbn [bind].
    rewrite (collect_loop _ (fun i => negb (f' i =? 0)%Z)).
    + eexists. split; [reflexivity|]. split.
      * intros n. rewrite filter_In. split.
        -- intros (Hin & Htest). apply In_zrange in Hin.
           split; [|lia].
           destruct (Z.eqb_spec (f' n) 0) as [E|NE]; [discriminate|].
           destruct (Znumtheory.prime_dec n) as [Hp|Hnp];
             [now apply Znumtheory.prime_alt|].
           exfalso. apply NE. apply Hf'; [lia|].
           intros Hp. apply Hnp. now apply Znumtheory.prime_alt.
        -- intros (Hp & Hn). pose proof (Z.prime_ge_2 n Hp).
           split; [apply In_zrange; lia|].
           destruct (Z.eqb_spec (f' n) 0) as [E|NE]; [|reflexivity].
           exfalso. apply (Hf' n ltac:(lia)) in E. contradiction.
      * apply filter_sorted, zrange_sorted.
    + intros i l Hi. rewrite at_vec_of by lia. cbn [bind].
      destruct (f' i =? 0)%Z; reflexivity.
Qed.

Lemma sieve_of_eratosthenes_primes_witness :
  exists primes,
    Sieve.sieve_of_eratosthenes 31 30 = Ok primes /\
    (forall n, In n primes <-> Z.prime n /\ (n <= 30)%Z) /\
    StronglySorted Z.lt primes.
Proof.
  apply (sieve_of_eratosthenes_primes 31 30); unfold Sieve.INT_MIN; lia.
Defined.

(** The primes up to 30. *)
Example sieve_of_eratosthenes_30 :
  Sieve.sieve_of_eratosthenes 31 30 = Ok [2; 3; 5; 7; 11; 13; 17; 19; 23; 29]%Z.
Proof. vm_compute. reflexivity. Qed.

(** ** Tokenizers *)

Import Ascii.

Section RegexFacts.

Import Regex.

Implicit Types (text cur : list ascii) (toks : list (list ascii)).

#[local] Abbreviation char_at text i := (nth (Z.to_nat i) text "000"%char).

Lemma firstn_snoc text (i : nat) :
  (i < length text)%nat ->
  firstn (Datatypes.S i) text = firstn i text ++ [nth i text "000"%char].
Proof.
  revert i. induction text as [|c text IH]; intros i Hi; cbn [length] in Hi; [lia|].
  destruct i as [|i]; [reflexivity|].
  cbn [firstn nth app]. f_equal. apply IH. lia.
Qed.

Lemma substr_0 text (s : Z) : substr text s 0 = [].
Proof. reflexivity. Qed.

Lemma substr_snoc text (s i : Z) :
  (0 <= s <= i)%Z -> (i < Z.of_nat (length text))%Z ->
  substr text s (i + 1 - s) = substr text s (i - s) ++ [char_at text i].
Proof.
  intros Hs Hi. unfold substr.
  replace (Z.to_nat (i + 1 - s)) with (Datatypes.S (Z.to_nat (i - s))) by lia.
  rewrite firstn_snoc by (rewrite length_skipn; lia).
  f_equal. f_equal. rewrite nth_skipn. f_equal. lia.
Qed.

Lemma substr_1 text (i : Z) :
  (0 <= i < Z.of_nat (length text))%Z -> substr text i 1 = [char_at text i].
Proof.
  intros Hi. replace 1%Z with (i + 1 - i)%Z by lia.
  rewrite substr_snoc by lia. now rewrite Z.sub_diag.
Qed.

Lemma substr_nonempty text (s i : Z) :
  (0 <= s < i)%Z -> (i <= Z.of_nat (length text))%Z -> substr text s (i - s) <> [].
Proof.
  intros Hs Hi E. apply (f_equal (@length ascii)) in E. unfold substr in E.
  rewrite length_firstn, length_skipn in E. cbn [length] in E. lia.
Qed.

Lemma cut_nonempty toks cur : cur <> [] -> cut toks cur = toks ++ [cur].
Proof. destruct cur; [congruence|reflexivity]. Qed.

(** A scan over the indices is the scan over the characters. *)
Lemma scan_loop {S : Type} (body : Z -> S -> res S)
      (step : list (list ascii) * list ascii -> ascii -> list (list ascii) * list ascii)
      (good : Z -> S -> Prop)
      (view : Z -> S -> list (list ascii) * list ascii) (s0 : S) text :
  good 0%Z s0 -> view 0%Z s0 = ([], []) ->
  (forall i st, (0 <= i < Z.of_nat (length text))%Z -> good i st ->
     exists st', body i st = Ok st' /\ good (i + 1)%Z st' /\
                 view (i + 1)%Z st' = step (view i st) (char_at text i)) ->
  exists st,
    for_range 0 (Z.of_nat (length text)) body s0 = Ok st /\
    good (Z.of_nat (length text)) st /\
    view (Z.of_nat (length text)) st = fold_left step text ([], []).
Proof.
  intros Hg0 H0 Hstep.
  destruct (for_range_inv
              (fun i st => good i st /\
                           view i st = fold_left step (firstn (Z.to_nat i) text) ([], []))
              body 0 (Z.of_nat (length text)) s0) as (st & Hrun & Hg & Hst).
  - lia.
  - split; [exact Hg0|exact H0].
  - intros i st Hi (Hg & Hv). destruct (Hstep i st Hi Hg) as (st' & Hb & Hg' & Hnext).
    exists st'. split; [exact Hb|]. split; [exact Hg'|].
    rewrite Hnext, Hv.
    replace (Z.to_nat (i + 1)) with (Datatypes.S (Z.to_nat i)) by lia.
    rewrite firstn_snoc by lia. now rewrite fold_left_app.
  - exists st. split; [exact Hrun|]. split; [exact Hg|].
    rewrite Hst, Nat2Z.id, firstn_all. reflexivity.
Qed.

Lemma under_way_cut text toks (flag : bool) (s i : Z) :
  (flag = true -> (0 <= s < i)%Z) -> (i <= Z.of_nat (length text))%Z ->
  cut toks (under_way text flag s i)
  = if flag then toks ++ [substr text s (i - s)] else toks.
Proof.
  intros Hs Hi. unfold under_way. destruct flag; [|reflexivity].
  apply cut_nonempty, substr_nonempty; auto.
Qed.

Lemma fast_word_tokenize_scan text :
  fast_word_tokenize text
  = Ok (cut (fst (fold_left word_step text ([], [])))
            (snd (fold_left word_step text ([], [])))).
Proof.
  unfold fast_word_tokenize. cbv zeta.
  match goal with |- (st <- for_range _ _ ?body ?s0 ;; _) = _ =>
    destruct (scan_loop body word_step
                (fun i st => in_word st = true -> (0 <= start st < i)%Z)
                (fun i st => (tokens st, under_way text (in_word st) (start st) i))
                s0 text) as (st & Hrun & Hgood & Hview)
  end.
  - cbn. discriminate.
  - reflexivity.
  - intros i [toks s flag] Hi Hgood. cbn [tokens start in_word] in *.
    rewrite (at_ok text i "000"%char) by lia. cbn [bind].
    unfold word_step. cbn [fst snd].
    destruct (is_alnum (char_at text i)).
    + destruct flag; cbn [negb].
      * eexists. split; [reflexivity|]. cbn [tokens start in_word].
        split; [intros _; specialize (Hgood eq_refl); lia|].
        unfold under_way. rewrite <- substr_snoc by (specialize (Hgood eq_refl); lia).
        reflexivity.
      * eexists. split; [reflexivity|]. cbn [tokens start in_word].
        split; [intros _; lia|].
        unfold under_way. cbn [app]. rewrite <- substr_1 by lia.
        replace (i + 1 - i)%Z with 1%Z by lia. reflexivity.
    + rewrite under_way_cut by (auto; lia).
      destruct flag; (eexists; split; [reflexivity|]); cbn [tokens start in_word];
        (split; [discriminate|reflexivity]).
  - rewrite Hrun. cbn [bind].
    rewrite <- Hview. cbn [fst snd].
    rewrite under_way_cut by (auto; lia).
    destruct (in_word st); reflexivity.
Qed.

Lemma simple_tokenize_scan text :
  simple_tokenize text
  = Ok (cut (fst (fold_left simple_step text ([], [])))
            (snd (fold_left simple_step text ([], [])))).
Proof.
  unfold simple_tokenize. cbv zeta.
  match goal with |- (st <- for_range _ _ ?body ?s0 ;; _) = _ =>
    destruct (scan_loop body simple_step
                (fun i st => in_word st = true -> (0 <= start st < i)%Z)
                (fun i st => (tokens st, under_way text (in_word st) (start st) i))
                s0 text) as (st & Hrun & Hgood & Hview)
  end.
  - cbn. discriminate.
  - reflexivity.
  - intros i [toks s flag] Hi Hgood. cbn [tokens start in_word] in *.
    rewrite (at_ok text i "000"%char) by lia. cbn [bind].
    unfold simple_step. cbn [fst snd].
    destruct (is_alnum (char_at text i) || is_char "'" (char_at text i)).
    + destruct flag; cbn [negb].
      * eexists. split; [reflexivity|]. cbn [tokens start in_word].
        split; [intros _; specialize (Hgood eq_refl); lia|].
        unfold under_way. rewrite <- substr_snoc by (specialize (Hgood eq_refl); lia).
        reflexivity.
      * eexists. split; [reflexivity|]. cbn [tokens start in_word].
        split; [intros _; lia|].
        unfold under_way. cbn [app]. rewrite <- substr_1 by lia.
        replace (i + 1 - i)%Z with 1%Z by lia. reflexivity.
    + rewrite under_way_cut by (auto; lia). rewrite <- substr_1 by lia.
      destruct flag, (is_whitespace (char_at text i)), (is_punctuation (char_at text i));
        (eexists; split; [reflexivity|]); cbn [tokens start in_word];
        (split; [discriminate|reflexivity]).
  - rewrite Hrun. cbn [bind].
    rewrite <- Hview. cbn [fst snd].
    rewrite under_way_cut by (auto; lia).
    destruct (in_word st); reflexivity.
Qed.

Lemma substr_head text (s i : Z) :
  (0 <= s < i)%Z -> (i <= Z.of_nat (length text))%Z ->
  kind_of_token (substr text s (i - s)) = kind_of (char_at text s).
Proof.
  intros Hs Hi. unfold substr.
  replace (Z.to_nat (i - s)) with (Datatypes.S (Z.to_nat (i - s - 1))) by lia.
  destruct (skipn (Z.to_nat s) text) as [|c rest] eqn:E.
  - apply (f_equal (@length ascii)) in E. rewrite length_skipn in E. cbn in E. lia.
  - cbn [firstn kind_of_token].
    replace c with (nth 0 (skipn (Z.to_nat s) text) "000"%char) by now rewrite E.
    rewrite nth_skipn. do 2 f_equal. lia.
Qed.

Lemma char_tokenize_scan text :
  char_tokenize text
  = Ok (cut (fst (fold_left char_step text ([], [])))
            (snd (fold_left char_step text ([], [])))).
Proof.
  unfold char_tokenize. cbv zeta.
  destruct (Z.eqb_spec (Z.of_nat (length text)) 0) as [E|_].
  { destruct text; [reflexivity|cbn in E; lia]. }
  match goal with |- (st <- for_range _ _ ?body ?s0 ;; _) = _ =>
    destruct (scan_loop body char_step (flags_good text)
                (fun i st => (ctokens st,
                              under_way text (c_in_word st || c_in_punct st || c_in_space st)
                                        (cstart st) i))
                s0 text) as (st & Hrun & Hgood & Hview)
  end.
  - exact I.
  - reflexivity.
  - intros i [toks s w p sp] Hi Hgood. unfold flags_good in Hgood. cbv zeta in Hgood.
    cbn [ctokens cstart c_in_word c_in_punct c_in_space] in *.
    rewrite (at_ok text i "000"%char) by lia. cbn [bind].
    unfold char_step, kind_of. cbn [fst snd].
    assert (Hnew : kind_of (char_at text i) = kind_of (char_at text i)) by reflexivity.
    unfold kind_of at 2 in Hnew.
    destruct (is_alnum (char_at text i) || is_char "'" (char_at text i));
      [|destruct (is_whitespace (char_at text i));
        [|destruct (is_punctuation (char_at text i))]];
      destruct w, p, sp; try contradiction; cbn [negb orb andb];
        try destruct Hgood as (Hs & Hk);
        (eexists; split; [reflexivity|]);
        unfold flags_good, under_way; cbv zeta;
        cbn [ctokens cstart c_in_word c_in_punct c_in_space orb];
        rewrite ?substr_head, ?Hk by lia; cbn [same_kind kind_of_token cut app];
        try (split; [first [exact I | split; [lia|assumption]]|]);
        try reflexivity;
        try (rewrite <- substr_snoc by lia; reflexivity);
        try (rewrite <- substr_1 by lia; replace (i + 1 - i)%Z with 1%Z by lia;
             try rewrite cut_nonempty by (apply substr_nonempty; lia);
             reflexivity).
    all: (split; [split; [lia|reflexivity]|]).
    all: rewrite substr_snoc by lia.
    all: try reflexivity.
    all: destruct (substr text s (i - s)) eqn:E;
      [exfalso; revert E; apply substr_nonempty; lia|reflexivity].
  - rewrite Hrun. cbn [bind].
    rewrite <- Hview. cbn [fst snd].
    assert (Hany : c_in_word st || c_in_punct st || c_in_space st = true ->
                   (0 <= cstart st < Z.of_nat (length text))%Z).
    { unfold flags_good in Hgood. cbv zeta in Hgood.
      destruct (c_in_word st), (c_in_punct st), (c_in_space st);
        try contradiction; try discriminate; intros _; apply Hgood. }
    rewrite under_way_cut by (auto; lia).
    destruct (c_in_word st || c_in_punct st || c_in_space st); reflexivity.
Qed.

(** *** What the scans return *)

Lemma cut_app t0 toks cur : cut (t0 ++ toks) cur = t0 ++ cut toks cur.
Proof. destruct cur; cbn [cut]; [reflexivity|now rewrite app_assoc]. Qed.

Lemma concat_cut toks cur : concat (cut toks cur) = concat toks ++ cur.
Proof.
  destruct cur as [|c cur]; cbn [cut]; [now rewrite app_nil_r|].
  rewrite concat_app. cbn [concat]. now rewrite app_nil_r.
Qed.

(** A scan that only appends to the tokens it was given. *)
Lemma scan_prefix
      (step : list (list ascii) * list ascii -> ascii -> list (list ascii) * list ascii) :
  (forall t0 toks cur c,
     step (t0 ++ toks, cur) c
     = (t0 ++ fst (step (toks, cur) c), snd (step (toks, cur) c))) ->
  forall text t0 toks cur,
    fold_left step text (t0 ++ toks, cur)
    = (t0 ++ fst (fold_left step text (toks, cur)),
       snd (fold_left step text (toks, cur))).
Proof.
  intros Hstep. induction text as [|c text IH]; intros t0 toks cur; [reflexivity|].
  cbn [fold_left]. rewrite Hstep.
  destruct (step (toks, cur) c) as [toks' cur']. cbn [fst snd]. apply IH.
Qed.

Lemma word_step_prefix t0 toks cur c :
  word_step (t0 ++ toks, cur) c
  = (t0 ++ fst (word_step (toks, cur) c), snd (word_step (toks, cur) c)).
Proof.
  unfold word_step. cbn [fst snd]. destruct (is_alnum c); cbn [fst snd];
    [reflexivity|now rewrite cut_app].
Qed.

Lemma simple_step_prefix t0 toks cur c :
  simple_step (t0 ++ toks, cur) c
  = (t0 ++ fst (simple_step (toks, cur) c), snd (simple_step (toks, cur) c)).
Proof.
  unfold simple_step. cbn [fst snd]. cbv zeta. rewrite cut_app.
  destruct (is_alnum c || is_char "'" c), (is_whitespace c), (is_punctuation c);
    cbn [fst snd]; rewrite ?app_assoc; reflexivity.
Qed.

(** A run of characters that continue the token under way. *)
Lemma scan_run
      (step : list (list ascii) * list ascii -> ascii -> list (list ascii) * list ascii)
      (test : ascii -> bool) :
  (forall toks cur c, test c = true -> step (toks, cur) c = (toks, cur ++ [c])) ->
  forall w toks cur,
    forallb test w = true -> fold_left step w (toks, cur) = (toks, cur ++ w).
Proof.
  intros Hstep. induction w as [|c w IH]; intros toks cur Hw.
  - now rewrite app_nil_r.
  - cbn [forallb] in Hw. apply andb_true_iff in Hw. destruct Hw as (Hc & Hw).
    cbn [fold_left]. rewrite Hstep, IH by assumption.
    now rewrite <- app_assoc.
Qed.

(** The tokens of a text cut at a character that ends the token under way. *)
Lemma scan_split
      (step : list (list ascii) * list ascii -> ascii -> list (list ascii) * list ascii)
      (sep : list (list ascii)) (s : ascii) :
  (forall t0 toks cur c,
     step (t0 ++ toks, cur) c
     = (t0 ++ fst (step (toks, cur) c), snd (step (toks, cur) c))) ->
  (forall toks cur, step (toks, cur) s = (cut toks cur ++ sep, [])) ->
  forall a b,
    let scan := fun text => fold_left step text ([], []) in
    cut (fst (scan (a ++ s :: b))) (snd (scan (a ++ s :: b)))
    = cut (fst (scan a)) (snd (scan a)) ++ sep ++ cut (fst (scan b)) (snd (scan b)).
Proof.
  intros Hprefix Hsep a b scan. subst scan. cbv beta.
  rewrite fold_left_app. cbn [fold_left].
  destruct (fold_left step a ([], [])) as [ta ca]. rewrite Hsep. cbn [fst snd].
  rewrite <- (app_nil_r (cut ta ca ++ sep)).
  rewrite (scan_prefix step Hprefix). cbn [fst snd].
  now rewrite cut_app, app_assoc.
Qed.

Lemma word_scan_concat text :
  forall toks cur,
    let st := fold_left word_step text (toks, cur) in
    concat (cut (fst st) (snd st)) = concat toks ++ cur ++ filter is_alnum text.
Proof.
  induction text as [|c text IH]; intros toks cur; cbv zeta in *.
  - cbn [fold_left fst snd filter]. now rewrite concat_cut, app_nil_r.
  - cbn [fold_left filter]. unfold word_step at 2 4. cbn [fst snd].
    destruct (is_alnum c).
    + rewrite IH. now rewrite <- app_assoc.
    + rewrite IH, concat_cut. cbn [app]. now rewrite <- app_assoc.
Qed.

Lemma word_scan_tokens text :
  forall toks cur,
    Forall (fun t => t <> [] /\ forallb is_alnum t = true) toks ->
    forallb is_alnum cur = true ->
    let st := fold_left word_step text (toks, cur) in
    Forall (fun t => t <> [] /\ forallb is_alnum t = true) (cut (fst st) (snd st)).
Proof.
  induction text as [|c text IH]; intros toks cur Htoks Hcur; cbv zeta in *.
  - cbn [fold_left fst snd]. destruct cur as [|c cur]; [exact Htoks|].
    cbn [cut]. apply Forall_app. split; [exact Htoks|].
    constructor; [|constructor]. split; [discriminate|exact Hcur].
  - cbn [fold_left]. unfold word_step at 2 4. cbn [fst snd].
    destruct (is_alnum c) eqn:Hc.
    + apply IH; [exact Htoks|].
      rewrite forallb_app, Hcur. cbn [forallb]. now rewrite Hc.
    + apply IH; [|reflexivity].
      destruct cur as [|c' cur]; [exact Htoks|].
      cbn [cut]. apply Forall_app. split; [exact Htoks|].
      constructor; [|constructor]. split; [discriminate|exact Hcur].
Qed.

End RegexFacts.

(** X25. [fast_word_tokenize] returns, for every text, the maximal runs of
    alphanumeric characters of the text, in order: its tokens are not empty
    and alphanumeric, together they are the alphanumeric characters of the
    text; a text of alphanumeric characters is one token, and the tokens of
    a text cut at a character that is not alphanumeric are the tokens
    before it followed by the tokens after it. *)
Theorem fast_word_tokenize_words :
  (forall text,
     exists toks,
       Regex.fast_word_tokenize text = Ok toks /\
       concat toks = filter Regex.is_alnum text /\
       Forall (fun t => t <> [] /\ forallb Regex.is_alnum t = true) toks) /\
  (forall w, w <> [] -> forallb Regex.is_alnum w = true ->
             Regex.fast_word_tokenize w = Ok [w]) /\
  (forall a s b ta tb,
     Regex.is_alnum s = false ->
     Regex.fast_word_tokenize a = Ok ta -> Regex.fast_word_tokenize b = Ok tb ->
     Regex.fast_word_tokenize (a ++ s :: b) = Ok (ta ++ tb)).
Proof.
  split; [|split].
  - intros text. rewrite fast_word_tokenize_scan. eexists. split; [reflexivity|].
    split.
    + apply (word_scan_concat text [] []).
    + apply (word_scan_tokens text [] []); [constructor|reflexivity].
  - intros w Hne Hw. rewrite fast_word_tokenize_scan.
    rewrite (scan_run Regex.word_step Regex.is_alnum) by
      (auto; intros toks cur c Hc; unfold Regex.word_step; now rewrite Hc).
    cbn [fst snd app]. destruct w; [congruence|reflexivity].
  - intros a s b ta tb Hs. rewrite !fast_word_tokenize_scan.
    intros Ha Hb. injection Ha as <-. injection Hb as <-. f_equal.
    apply (scan_split Regex.word_step [] s word_step_prefix).
    intros toks cur. unfold Regex.word_step. rewrite Hs. cbn [fst snd].
    now rewrite app_nil_r.
Qed.

Lemma fast_word_tokenize_words_witness :
  Regex.fast_word_tokenize ["a"; "b"; "-"; "c"]%char = Ok [["a"; "b"]; ["c"]]%char.
Proof.
  apply (proj2 (proj2 fast_word_tokenize_words)
               ["a"; "b"]%char "-"%char ["c"]%char [["a"; "b"]]%char [["c"]]%char);
    reflexivity.
Defined.


Section SimpleFacts.

Import Regex.

Implicit Types (text cur : list ascii) (toks : list (list ascii)).

Lemma simple_kept (c : ascii) :
  is_alnum c || is_punctuation c
  = is_word_char c || (negb (is_whitespace c) && is_punctuation c).
Proof.
  destruct c as [[] [] [] [] [] [] [] []]; reflexivity.
Qed.

Lemma simple_scan_concat text :
  forall toks cur,
    let st := fold_left simple_step text (toks, cur) in
    concat (cut (fst st) (snd st))
    = concat toks ++ cur ++ filter (fun c => is_alnum c || is_punctuation c) text.
Proof.
  induction text as [|c text IH]; intros toks cur; cbv zeta in *.
  - cbn [fold_left fst snd filter]. now rewrite concat_cut, app_nil_r.
  - cbn [fold_left filter]. rewrite simple_kept. unfold is_word_char.
    unfold simple_step at 2 4. cbn [fst snd]. cbv zeta.
    destruct (is_alnum c || is_char "'" c); cbn [orb].
    + rewrite IH. now rewrite <- app_assoc.
    + destruct (is_whitespace c); cbn [negb andb].
      * rewrite IH, concat_cut. cbn [app]. now rewrite <- app_assoc.
      * destruct (is_punctuation c).
        -- rewrite IH, concat_app, concat_cut. cbn [concat app].
           now rewrite <- !app_assoc.
        -- rewrite IH, concat_cut. cbn [app]. now rewrite <- app_assoc.
Qed.

Lemma simple_scan_tokens text :
  forall toks cur,
    Forall (fun t => t <> []) toks ->
    let st := fold_left simple_step text (toks, cur) in
    Forall (fun t => t <> []) (cut (fst st) (snd st)).
Proof.
  assert (Hcut : forall toks cur, Forall (fun t => t <> []) toks ->
                                  Forall (fun t => t <> []) (cut toks cur)).
  { intros toks [|c cur] Htoks; [exact Htoks|]. cbn [cut].
    apply Forall_app. split; [exact Htoks|]. constructor; [discriminate|constructor]. }
  induction text as [|c text IH]; intros toks cur Htoks; cbv zeta in *.
  - cbn [fold_left fst snd]. now apply Hcut.
  - cbn [fold_left]. unfold simple_step at 2 4. cbn [fst snd]. cbv zeta.
    destruct (is_alnum c || is_char "'" c); [now apply IH|].
    destruct (is_whitespace c); [apply IH; now apply Hcut|].
    destruct (is_punctuation c); [|apply IH; now apply Hcut].
    apply IH. apply Forall_app. split; [now apply Hcut|].
    constructor; [discriminate|constructor].
Qed.

End SimpleFacts.

(** X26. [simple_tokenize] returns, for every text, the words (maximal runs of
    alphanumeric characters and apostrophes) and the punctuation characters
    of the text, each punctuation character a token of its own, in order;
    whitespace and the other characters only end words. *)
Theorem simple_tokenize_words :
  (forall text,
     exists toks,
       Regex.simple_tokenize text = Ok toks /\
       concat toks
       = filter (fun c => Regex.is_alnum c || Regex.is_punctuation c) text /\
       Forall (fun t => t <> []) toks) /\
  (forall w, w <> [] -> forallb Regex.is_word_char w = true ->
             Regex.simple_tokenize w = Ok [w]) /\
  (forall a s b ta tb,
     Regex.is_word_char s = false ->
     Regex.simple_tokenize a = Ok ta -> Regex.simple_tokenize b = Ok tb ->
     Regex.simple_tokenize (a ++ s :: b)
     = Ok (ta ++ (if Regex.is_whitespace s then []
                  else if Regex.is_punctuation s then [[s]] else []) ++ tb)).
Proof.
  split; [|split].
  - intros text. rewrite simple_tokenize_scan. eexists. split; [reflexivity|].
    split.
    + apply (simple_scan_concat text [] []).
    + apply (simple_scan_tokens text [] []). constructor.
  - intros w Hne Hw. rewrite simple_tokenize_scan.
    rewrite (scan_run Regex.simple_step Regex.is_word_char) by
      (auto; intros toks cur c Hc; unfold Regex.simple_step;
       unfold Regex.is_word_char in Hc; now rewrite Hc).
    cbn [fst snd app]. destruct w; [congruence|reflexivity].
  - intros a s b ta tb Hs. rewrite !simple_tokenize_scan.
    intros Ha Hb. injection Ha as <-. injection Hb as <-. f_equal.
    apply (scan_split Regex.simple_step _ s simple_step_prefix).
    intros toks cur. unfold Regex.simple_step. unfold Regex.is_word_char in Hs.
    rewrite Hs. cbn [fst snd]. cbv zeta.
    destruct (Regex.is_whitespace s); [now rewrite app_nil_r|].
    destruct (Regex.is_punctuation s); [reflexivity|now rewrite app_nil_r].
Qed.

Lemma simple_tokenize_words_witness :
  Regex.simple_tokenize ["i"; "t"; "'"; "s"; ","; " "; "o"; "k"]%char
  = Ok [["i"; "t"; "'"; "s"]; [","]; ["o"; "k"]]%char.
Proof.
  apply (proj2 (proj2 simple_tokenize_words)
               ["i"; "t"; "'"; "s"; ","]%char " "%char ["o"; "k"]%char
               [["i"; "t"; "'"; "s"]; [","]]%char [["o"; "k"]]%char);
    reflexivity.
Defined.

Section CharFacts.

Import Regex.

Implicit Types (text cur : list ascii) (toks : list (list ascii)).

Lemma alternate_snoc toks (x : list ascii) :
  alternate toks ->
  (forall l y, toks = l ++ [y] -> kind_of_token y <> kind_of_token x) ->
  alternate (toks ++ [x]).
Proof.
  induction toks as [|a toks IH]; intros Halt Hlast; [exact I|].
  destruct toks as [|b toks].
  - cbn. split; [|exact I]. apply (Hlast [] a). reflexivity.
  - cbn [app alternate] in *. destruct Halt as (Hab & Halt). split; [exact Hab|].
    apply IH; [exact Halt|].
    intros l y E. apply (Hlast (a :: l) y). cbn [app]. now rewrite E.
Qed.

Lemma alternate_last toks (x y : list ascii) :
  alternate (toks ++ [x]) -> kind_of_token y = kind_of_token x ->
  alternate (toks ++ [y]).
Proof.
  intros Halt Hk. induction toks as [|a toks IH]; [exact I|].
  destruct toks as [|b toks].
  - cbn in *. now rewrite Hk.
  - cbn [app alternate] in *. destruct Halt as (Hab & Halt). split; [exact Hab|].
    now apply IH.
Qed.

Lemma kind_of_token_app cur c :
  cur <> [] -> kind_of_token (cur ++ [c]) = kind_of_token cur.
Proof. destruct cur; [congruence|reflexivity]. Qed.

Lemma same_kind_spec (a b : kind) : same_kind a b = true <-> a = b.
Proof. destruct a, b; cbn; split; congruence. Qed.

Lemma run_of_kind_app cur c :
  cur <> [] -> run_of_kind cur ->
  kind_of c = kind_of_token cur \/ kind_of c = Other ->
  run_of_kind (cur ++ [c]).
Proof.
  intros Hne (Hk & Hall) Hc. unfold run_of_kind.
  rewrite kind_of_token_app by exact Hne. split; [exact Hk|].
  apply Forall_app. split; [exact Hall|]. constructor; [exact Hc|constructor].
Qed.

Lemma scan_good_extend toks cur c :
  cur <> [] -> scan_good (toks, cur) ->
  kind_of c = kind_of_token cur \/ kind_of c = Other ->
  scan_good (toks, cur ++ [c]).
Proof.
  intros Hne (Htoks & Hnil & Hcur & Halt) Hc. cbn [fst snd] in *.
  unfold scan_good. cbn [fst snd].
  split; [exact Htoks|]. split; [intros E; now destruct cur|].
  split; [intros _; apply run_of_kind_app; auto|].
  rewrite cut_nonempty in * by (try exact Hne; now destruct cur).
  apply (alternate_last toks cur); [exact Halt|].
  now apply kind_of_token_app.
Qed.

Lemma scan_good_new toks cur c :
  scan_good (toks, cur) ->
  kind_of c <> Other -> kind_of c <> kind_of_token cur ->
  scan_good (cut toks cur, [c]).
Proof.
  intros (Htoks & Hnil & Hcur & Halt) Hk Hdiff. cbn [fst snd] in *.
  unfold scan_good. cbn [fst snd].
  split.
  { destruct cur as [|c' cur]; [exact Htoks|].
    cbn [cut]. apply Forall_app. split; [exact Htoks|].
    constructor; [apply Hcur; discriminate|constructor]. }
  split; [discriminate|].
  split.
  { intros _. split; [exact Hk|]. constructor; [left; reflexivity|constructor]. }
  cbn [cut]. apply alternate_snoc; [exact Halt|].
  intros l y E. cbn [kind_of_token].
  destruct cur as [|c' cur].
  - rewrite (Hnil eq_refl) in E. cbn in E. now destruct l.
  - cbn [cut] in E. apply app_inj_tail in E. destruct E as (_ & <-).
    intros E. apply Hdiff. now rewrite E.
Qed.

Lemma char_step_good st c : scan_good st -> scan_good (char_step st c).
Proof.
  destruct st as [toks cur]. intros Hst. unfold char_step. cbn [fst snd].
  destruct (kind_of c) eqn:Hk.
  4:{ destruct cur as [|c' cur]; [exact Hst|].
      apply scan_good_extend; [discriminate|exact Hst|now right]. }
  all: destruct (same_kind _ (kind_of_token cur)) eqn:Hsame.
  all: try (apply same_kind_spec in Hsame;
            apply scan_good_extend;
            [intros ->; cbn in Hsame; discriminate|exact Hst|left; congruence]).
  all: apply scan_good_new; [exact Hst|congruence|].
  all: intros E; rewrite Hk in E; rewrite <- E in Hsame; cbn in Hsame; discriminate.
Qed.

Lemma char_scan_good text : forall st, scan_good st -> scan_good (fold_left char_step text st).
Proof.
  induction text as [|c text IH]; intros st Hst; [exact Hst|].
  cbn [fold_left]. apply IH. now apply char_step_good.
Qed.

Lemma char_scan_concat text :
  forall toks cur,
    let st := fold_left char_step text (toks, cur) in
    concat (cut (fst st) (snd st))
    = concat toks ++ cur ++ match cur with [] => skip_other text | _ => text end.
Proof.
  induction text as [|c text IH]; intros toks cur; cbv zeta in *.
  - cbn [fold_left fst snd]. rewrite concat_cut.
    destruct cur; cbn [skip_other app]; now rewrite ?app_nil_r.
  - cbn [fold_left skip_other]. unfold char_step at 2 4. cbn [fst snd].
    destruct cur as [|c' cur].
    + cbn [kind_of_token same_kind]. destruct (kind_of c); cbn [same_kind cut].
      all: rewrite IH; cbn [app]; reflexivity.
    + destruct (kind_of c);
        try destruct (same_kind _ (kind_of_token (c' :: cur)));
        rewrite IH; cbn [cut app];
        rewrite ?concat_app; cbn [concat app]; rewrite ?app_nil_r, <- ?app_assoc;
        cbn [app]; try reflexivity;
        destruct cur; reflexivity.
Qed.

End CharFacts.

(** X27. [char_tokenize] cuts every text into runs of one kind (word, whitespace,
    punctuation): the tokens, joined, are the text without the characters of
    no kind it may start with, so a text of characters of the three kinds is
    returned whole; each token starts with a character of a kind and holds
    only characters of that kind and characters of no kind; two tokens that
    follow each other are of different kinds. *)
Theorem char_tokenize_runs (text : list ascii) :
  exists toks,
    Regex.char_tokenize text = Ok toks /\
    concat toks = Regex.skip_other text /\
    Forall Regex.run_of_kind toks /\
    Regex.alternate toks.
Proof.
  rewrite char_tokenize_scan. eexists. split; [reflexivity|].
  split; [apply (char_scan_concat text [] [])|].
  destruct (char_scan_good text ([], [])) as (Htoks & Hnil & Hcur & Halt).
  { unfold Regex.scan_good. cbn. repeat split; auto; congruence. }
  split; [|exact Halt].
  destruct (snd (fold_left Regex.char_step text ([], []))) as [|c cur] eqn:E.
  - exact Htoks.
  - cbn [Regex.cut]. apply Forall_app. split; [exact Htoks|].
    constructor; [apply Hcur; discriminate|constructor].
Qed.

(** A sentence, cut by [char_tokenize]. *)
Example char_tokenize_sample :
  Regex.char_tokenize ["H"; "i"; ","; " "; " "; "y"; "o"; "u"; "!"; "?"]%char
  = Ok [["H"; "i"]; [","]; [" "; " "]; ["y"; "o"; "u"]; ["!"; "?"]]%char.
Proof. vm_compute. reflexivity. Qed.

(** ** Breadth-first search *)

Section BFSFacts.

Import BFS.

Lemma lookup_assign {V : Type} (m : list (Z * V)) (k k' : Z) (v : V) :
  lookup (assign m k v) k' = if (k' =? k)%Z then Some v else lookup m k'.
Proof.
  induction m as [|[k0 v0] m IH]; cbn [assign lookup].
  - destruct (Z.eqb_spec k k'), (Z.eqb_spec k' k); try lia; reflexivity.
  - destruct (Z.eqb_spec k0 k) as [->|Hne]; cbn [lookup].
    + destruct (Z.eqb_spec k k'), (Z.eqb_spec k' k); try lia; reflexivity.
    + destruct (Z.eqb_spec k0 k') as [->|Hne'].
      * destruct (Z.eqb_spec k' k); [lia|reflexivity].
      * exact IH.
Qed.

Lemma member_In (s : list Z) (v : Z) : member s v = true <-> In v s.
Proof.
  unfold member. rewrite existsb_exists. split.
  - intros (x & Hx & E). apply Z.eqb_eq in E. now subst.
  - intros Hv. exists v. split; [exact Hv|apply Z.eqb_refl].
Qed.

Lemma lookup_In (graph : Graph) (u : Z) (neighbours : list Z) :
  lookup graph u = Some neighbours -> incl neighbours (concat (map snd graph)).
Proof.
  induction graph as [|[k a] graph IH]; cbn [lookup map concat snd]; [discriminate|].
  destruct (k =? u)%Z.
  - intros E. injection E as ->. now apply incl_appl, incl_refl.
  - intros E. now apply incl_appr, IH.
Qed.

Variable graph : Graph.
Variable start_node : Z.

#[local] Abbreviation good := (search_good graph start_node).

(** One neighbour. *)
Lemma visit_good (u v : Z) (st : search) :
  good st -> In u (visited st) -> edge graph u v ->
  let st' := visit u st v in
  good st' /\
  incl (visited st) (visited st') /\
  In v (visited st') /\
  (exists new, queue st' = queue st ++ new) /\
  (Z.of_nat (length (visited st')) - Z.of_nat (length (queue st'))
   = Z.of_nat (length (visited st)) - Z.of_nat (length (queue st)))%Z /\
  (forall w, In w (visited st') -> ~ In w (visited st) -> In w (queue st')).
Proof.
  intros (Hnd & Hstart & Hincl & Hreach & Hq & Hkeys & Hroot & Hparent) Hu Hedge st'.
  subst st'. unfold visit.
  destruct (member (visited st) v) eqn:Hmem; cbn [negb].
  - apply member_In in Hmem.
    split.
    { exact (conj Hnd (conj Hstart (conj Hincl (conj Hreach
               (conj Hq (conj Hkeys (conj Hroot Hparent))))))). }
    split; [apply incl_refl|]. split; [exact Hmem|].
    split; [exists []; now rewrite app_nil_r|]. split; [reflexivity|].
    intros w Hw Hnw. contradiction.
  - assert (Hnew : ~ In v (visited st)).
    { intros Hin. apply member_In in Hin. congruence. }
    unfold insert. rewrite Hmem.
    assert (Hvs : v <> start_node) by (intros ->; contradiction).
    split.
    { unfold search_good. cbn [visited queue path].
      split; [now constructor|].
      split; [now right|].
      split.
      { intros w [<-|Hw]; [|now apply Hincl].
        right. destruct Hedge as (adj & Hadj & Hv).
        eapply lookup_In; eassumption. }
      split.
      { intros w [<-|Hw]; [|now apply Hreach].
        eapply rt_trans; [apply Hreach; exact Hu|]. apply rt_step. exact Hedge. }
      split.
      { intros w Hw. apply in_app_or in Hw. destruct Hw as [Hw|[<-|[]]].
        - right. now apply Hq.
        - now left. }
      split.
      { intros w. rewrite lookup_assign.
        destruct (Z.eqb_spec w v) as [->|Hne].
        - split; [intros _; now left|discriminate].
        - rewrite Hkeys. split; [intros Hw; now right|].
          intros [E|Hw]; [congruence|exact Hw]. }
      split.
      { rewrite lookup_assign. destruct (Z.eqb_spec start_node v); [congruence|].
        exact Hroot. }
      intros w p Hw. rewrite lookup_assign.
      destruct (Z.eqb_spec w v) as [->|Hne].
      - intros E. injection E as <-. split; [now right|exact Hedge].
      - intros E. destruct (Hparent w p Hw E) as (Hp & He). split; [now right|exact He]. }
    cbn [visited queue path].
    split; [intros w Hw; now right|]. split; [now left|].
    split; [now exists [v]|].
    split; [rewrite length_app; cbn [length]; lia|].
    intros w [<-|Hw] Hnw; [|contradiction].
    apply in_or_app. right. now left.
Qed.

(** The neighbours of a node. *)
Lemma visit_all_good (u : Z) (neighbours : list Z) :
  forall st,
    good st -> In u (visited st) -> (forall v, In v neighbours -> edge graph u v) ->
    let st' := fold_left (visit u) neighbours st in
    good st' /\
    incl (visited st) (visited st') /\
    (forall v, In v neighbours -> In v (visited st')) /\
    (exists new, queue st' = queue st ++ new) /\
    (Z.of_nat (length (visited st')) - Z.of_nat (length (queue st'))
     = Z.of_nat (length (visited st)) - Z.of_nat (length (queue st)))%Z /\
    (forall w, In w (visited st') -> ~ In w (visited st) -> In w (queue st')).
Proof.
  induction neighbours as [|v neighbours IH]; intros st Hgood Hu Hedges st'; subst st'.
  - cbn [fold_left]. split; [exact Hgood|]. split; [apply incl_refl|].
    split; [intros v []|]. split; [exists []; now rewrite app_nil_r|].
    split; [reflexivity|]. intros w Hw Hnw. contradiction.
  - cbn [fold_left].
    destruct (visit_good u v st Hgood Hu (Hedges v (or_introl eq_refl)))
      as (Hg1 & Hi1 & Hv1 & (new1 & Hq1) & Hl1 & Hn1).
    destruct (IH (visit u st v) Hg1 (Hi1 u Hu)
                 (fun w Hw => Hedges w (or_intror Hw)))
      as (Hg2 & Hi2 & Hv2 & (new2 & Hq2) & Hl2 & Hn2).
    split; [exact Hg2|].
    split; [intros w Hw; apply Hi2, Hi1, Hw|].
    split; [intros w [<-|Hw]; [apply Hi2, Hv1|now apply Hv2]|].
    split; [exists (new1 ++ new2); now rewrite Hq2, Hq1, app_assoc|].
    split; [lia|].
    intros w Hw Hnw.
    destruct (in_dec Z.eq_dec w (visited (visit u st v))) as [Hin|Hnin].
    + rewrite Hq2. apply in_or_app. left. now apply Hn1.
    + now apply Hn2.
Qed.

Lemma visited_bound (st : search) :
  good st -> (length (visited st) <= length (candidates graph start_node))%nat.
Proof.
  intros (Hnd & _ & Hincl & _). now apply NoDup_incl_length.
Qed.

(** The loop, on a budget that covers the nodes still to leave the queue. *)
Lemma search_loop_good (fuel : nat) :
  forall st,
    good st -> search_closed graph st ->
    (Z.of_nat (length (candidates graph start_node))
     <= Z.of_nat fuel + Z.of_nat (length (visited st)) - Z.of_nat (length (queue st)))%Z ->
    exists st',
      search_loop fuel graph st = Ok st' /\
      good st' /\ search_closed graph st' /\ queue st' = [].
Proof.
  induction fuel as [|fuel IH]; intros st Hgood Hclosed Hfuel.
  - pose proof (visited_bound st Hgood) as Hb.
    destruct st as [[|u rest] vis pth]; cbn [queue visited length] in *; [|lia].
    exists (mkSearch [] vis pth). cbn. auto.
  - destruct st as [[|u rest] vis pth].
    + exists (mkSearch [] vis pth). cbn. auto.
    + cbn [search_loop queue visited path]. cbn [queue visited length] in Hfuel.
      assert (Hu : In u vis).
      { destruct Hgood as (_ & _ & _ & _ & Hq & _). apply Hq. now left. }
      assert (Hgood0 : good (mkSearch rest vis pth)).
      { destruct Hgood as (H1 & H2 & H3 & H4 & H5 & H6 & H7 & H8).
        cbn [queue visited path] in *.
        refine (conj H1 (conj H2 (conj H3 (conj H4 (conj _ (conj H6 (conj H7 H8))))))).
        cbn [queue visited path]. intros v Hv. apply H5. now right. }
      destruct (lookup graph u) as [neighbours|] eqn:Hadj.
      * destruct (visit_all_good u neighbours (mkSearch rest vis pth) Hgood0 Hu)
          as (Hg & Hi & Hv & (new & Hq) & Hl & Hn).
        { intros v Hv. exists neighbours. split; [exact Hadj|exact Hv]. }
        cbn [queue visited path] in *.
        apply IH; [exact Hg| |lia].
        intros w Hw.
        destruct (in_dec Z.eq_dec w vis) as [Hold|Hnew].
        -- destruct (Z.eq_dec w u) as [->|Hne].
           ++ right. intros v (adj & Hadj' & Hin). rewrite Hadj in Hadj'.
              injection Hadj' as <-. now apply Hv.
           ++ destruct (Hclosed w Hold) as [[E|Hin]|Hcl]; cbn [queue visited] in *.
              ** congruence.
              ** left. rewrite Hq. apply in_or_app. now left.
              ** right. intros v Hedge. apply Hi. now apply Hcl.
        -- left. now apply Hn.
      * apply IH; [exact Hgood0| |cbn [queue visited]; lia].
        intros w Hw. cbn [queue visited] in *.
        destruct (Z.eq_dec w u) as [->|Hne].
        -- right. intros v (adj & Hadj' & _). congruence.
        -- destruct (Hclosed w Hw) as [[E|Hin]|Hcl]; cbn [queue visited] in *.
           ++ congruence.
           ++ now left.
           ++ now right.
Qed.

End BFSFacts.

(** X28. [breadth_first_search] from a node that is no key of the graph returns
    the count 0 and the empty map.  From a key of the graph, with a budget of
    the number of neighbour entries plus one, it returns the number of nodes
    that can be reached from the start node along edges, and a map whose keys
    are exactly those nodes: the start node is mapped to -1 and every other
    node to a node of the map of which it is a neighbour. *)
Theorem breadth_first_search_reaches (fuel : nat) (graph : BFS.Graph) (start_node : Z) :
  (BFS.lookup graph start_node = None ->
   BFS.breadth_first_search fuel graph start_node = Ok (0%Z, [])) /\
  (BFS.lookup graph start_node <> None ->
   (length (BFS.candidates graph start_node) <= fuel)%nat ->
   exists nodes parents,
     BFS.breadth_first_search fuel graph start_node
     = Ok (Z.of_nat (length nodes), parents) /\
     NoDup nodes /\
     (forall v, In v nodes <-> BFS.reachable graph start_node v) /\
     (forall v, BFS.lookup parents v <> None <-> BFS.reachable graph start_node v) /\
     BFS.lookup parents start_node = Some (-1)%Z /\
     (forall v u, v <> start_node -> BFS.lookup parents v = Some u ->
                  BFS.reachable graph start_node u /\ BFS.edge graph u v)).
Proof.
  unfold BFS.breadth_first_search. split.
  - intros ->. reflexivity.
  - intros Hkey Hfuel.
    destruct (BFS.lookup graph start_node) as [adj|] eqn:Hadj; [|congruence].
    cbv zeta.
    destruct (search_loop_good graph start_node fuel
                (BFS.mkSearch [start_node] (BFS.insert [] start_node)
                              (BFS.assign [] start_node (-1)%Z)))
      as (st & Hrun & Hgood & Hclosed & Hempty).
    + unfold BFS.search_good. cbn [BFS.queue BFS.visited BFS.path BFS.insert BFS.member
                                  existsb BFS.assign].
      split; [constructor; [intros []|constructor]|].
      split; [now left|].
      split; [intros v [<-|[]]; now left|].
      split; [intros v [<-|[]]; apply rt_refl|].
      split; [auto|].
      split.
      { intros v. cbn [BFS.lookup]. destruct (Z.eqb_spec start_node v) as [->|Hne].
        - split; [intros _; now left|discriminate].
        - split; [congruence|intros [E|[]]; congruence]. }
      split; [cbn [BFS.lookup]; now rewrite Z.eqb_refl|].
      intros v u Hv. cbn [BFS.lookup].
      destruct (Z.eqb_spec start_node v); [congruence|discriminate].
    + intros u Hu. left. exact Hu.
    + cbn [BFS.queue BFS.visited BFS.insert BFS.member existsb length]. lia.
    + rewrite Hrun. cbn [bind].
      destruct Hgood as (Hnd & Hstart & _ & Hreach & _ & Hkeys & Hroot & Hparent).
      assert (Hall : forall v, BFS.reachable graph start_node v -> In v (BFS.visited st)).
      { intros v Hv. apply clos_rt_rtn1 in Hv.
        induction Hv as [|u v Hedge _ IH]; [exact Hstart|].
        destruct (Hclosed u IH) as [Hin|Hcl]; [rewrite Hempty in Hin; contradiction|].
        now apply Hcl. }
      exists (BFS.visited st), (BFS.path st).
      split; [reflexivity|]. split; [exact Hnd|].
      split; [intros v; split; [apply Hreach|apply Hall]|].
      split.
      { intros v. rewrite Hkeys. split; [apply Hreach|apply Hall]. }
      split; [exact Hroot|].
      intros v u Hv E. destruct (Hparent v u Hv E) as (Hu & Hedge).
      split; [now apply Hreach|exact Hedge].
Qed.

Lemma breadth_first_search_reaches_witness :
  exists nodes parents,
    BFS.breadth_first_search 6 [(0, [1; 2]); (1, [2; 0]); (2, []); (3, [0])]%Z 0
    = Ok (Z.of_nat (length nodes), parents) /\
    NoDup nodes /\
    (forall v, In v nodes
               <-> BFS.reachable [(0, [1; 2]); (1, [2; 0]); (2, []); (3, [0])]%Z 0 v) /\
    (forall v, BFS.lookup parents v <> None
               <-> BFS.reachable [(0, [1; 2]); (1, [2; 0]); (2, []); (3, [0])]%Z 0 v) /\
    BFS.lookup parents 0 = Some (-1)%Z /\
    (forall v u, v <> 0%Z -> BFS.lookup parents v = Some u ->
                 BFS.reachable [(0, [1; 2]); (1, [2; 0]); (2, []); (3, [0])]%Z 0 u /\
                 BFS.edge [(0, [1; 2]); (1, [2; 0]); (2, []); (3, [0])]%Z u v).
Proof.
  apply (proj2 (breadth_first_search_reaches
                  6 [(0, [1; 2]); (1, [2; 0]); (2, []); (3, [0])]%Z 0)).
  - discriminate.
  - cbn. lia.
Defined.

(** The search of that graph from node 0: node 3 is not reached. *)
Example breadth_first_search_sample :
  BFS.breadth_first_search 6 [(0, [1; 2]); (1, [2; 0]); (2, []); (3, [0])]%Z 0
  = Ok (3%Z, [(0, -1); (1, 0); (2, 0)]%Z).
Proof. reflexivity. Qed.
